(** * cyh-obfuscator: a shallow embedding of the per-language pipelines

    The obfuscator is a family of TypeScript classes, one per language, each
    with an [obfuscate(code)] method built from regular-expression rewrites
    over JavaScript strings.  This development embeds

    - JavaScript strings as lists of UTF-16 code units,
    - the regular expressions of the handlers as terms of a small
      backtracking matcher that follows the ECMAScript semantics
      (ordered alternation, greedy and lazy stars, look-around, captures);
      where a pattern is quoted in a comment, a blank separates a star from
      a closing parenthesis that follows it,
    - [Math.random] as an explicit stream of draws,
    - the object state of a handler (counter, identifier map) as an
      explicit record threaded through [obfuscate],

    and states the properties of the specification over these definitions. *)

From Stdlib Require Import String Ascii.
From Stdlib Require Import List NArith ZArith QArith Qround Bool Arith Lia Lqa
  Permutation.
Import ListNotations.

Local Open Scope nat_scope.
Local Open Scope list_scope.

(** ** JavaScript strings *)

Module Js.

(** A UTF-16 code unit. *)
Definition cu := N.
Bind Scope N_scope with cu.
Definition jsstring := list cu.

Definition str (s : string) : jsstring := map N_of_ascii (list_ascii_of_string s).

(** Back to a Rocq string, for code units below 256. *)
Definition show (s : jsstring) : string := string_of_list_ascii (map ascii_of_N s).

Definition dq : cu := 34%N.      (* double quote *)
Definition sq : cu := 39%N.      (* single quote *)
Definition bs : cu := 92%N.      (* backslash *)
Definition nl : cu := 10%N.      (* line feed *)
Definition bq : cu := 96%N.      (* backtick *)
Definition dollar : cu := 36%N.

Definition ch (s : string) : cu :=
  match str s with c :: _ => c | [] => 0%N end.

Definition cu_eqb (a b : cu) : bool := N.eqb a b.

Fixpoint str_eqb (a b : jsstring) : bool :=
  match a, b with
  | [], [] => true
  | x :: a', y :: b' => cu_eqb x y && str_eqb a' b'
  | _, _ => false
  end.

Definition between (lo hi c : cu) : bool := (N.leb lo c && N.leb c hi)%bool.

Definition is_digit (c : cu) : bool := between 48 57 c.
Definition is_lower (c : cu) : bool := between 97 122 c.
Definition is_upper (c : cu) : bool := between 65 90 c.
Definition is_alpha (c : cu) : bool := is_lower c || is_upper c.

(** [\w] *)
Definition is_word (c : cu) : bool := is_alpha c || is_digit c || cu_eqb c 95.

(** ECMAScript LineTerminator: the characters [.] does not match. *)
Definition is_lineterm (c : cu) : bool :=
  cu_eqb c 10 || cu_eqb c 13 || cu_eqb c 8232 || cu_eqb c 8233.

(** [\s], also the characters removed by [trim]. *)
Definition is_space (c : cu) : bool :=
  between 9 13 c || cu_eqb c 32 || cu_eqb c 160 || cu_eqb c 5760
  || between 8192 8202 c || cu_eqb c 8232 || cu_eqb c 8233 || cu_eqb c 8239
  || cu_eqb c 8287 || cu_eqb c 12288 || cu_eqb c 65279.

Definition mem (c : cu) (l : jsstring) : bool := existsb (cu_eqb c) l.

(** [s.startsWith(p)] *)
Fixpoint startsWith (p s : jsstring) : bool :=
  match p, s with
  | [], _ => true
  | x :: p', y :: s' => cu_eqb x y && startsWith p' s'
  | _ :: _, [] => false
  end.

(** [s.endsWith(p)] *)
Definition endsWith (p s : jsstring) : bool := startsWith (rev p) (rev s).

(** [s.indexOf(p)], [None] for -1. *)
Fixpoint indexOf (p s : jsstring) : option nat :=
  if startsWith p s then Some 0
  else match s with
       | [] => None
       | _ :: s' => option_map S (indexOf p s')
       end.

(** [s.includes(p)] *)
Definition includes (p s : jsstring) : bool :=
  match indexOf p s with Some _ => true | None => false end.

(** [s.slice(1, -1)] *)
Definition slice1m1 (s : jsstring) : jsstring := removelast (tl s).

Fixpoint dropWhile (p : cu -> bool) (s : jsstring) : jsstring :=
  match s with
  | c :: s' => if p c then dropWhile p s' else s
  | [] => []
  end.

Definition trimStart (s : jsstring) : jsstring := dropWhile is_space s.
Definition trimEnd (s : jsstring) : jsstring := rev (dropWhile is_space (rev s)).
Definition trim (s : jsstring) : jsstring := trimEnd (trimStart s).

(** [s.split(sep)] for a non-empty separator. *)
Fixpoint split_aux (fuel : nat) (sep s cur : jsstring) : list jsstring :=
  match fuel with
  | O => [rev cur ++ s]
  | S f =>
    match s with
    | [] => [rev cur]
    | c :: s' =>
      if startsWith sep s then rev cur :: split_aux f sep (skipn (length sep) s) []
      else split_aux f sep s' (c :: cur)
    end
  end.

Definition split (sep s : jsstring) : list jsstring :=
  split_aux (S (length s)) sep s [].

(** [a.join(sep)] *)
Fixpoint join (sep : jsstring) (l : list jsstring) : jsstring :=
  match l with
  | [] => []
  | [x] => x
  | x :: l' => x ++ sep ++ join sep l'
  end.

Definition lines (s : jsstring) : list jsstring := split [nl] s.
Definition unlines (l : list jsstring) : jsstring := join [nl] l.

(** [s.split(p).join(r)]: every occurrence of [p] replaced, left to right,
    the inserted text not rescanned. *)
Definition splitJoin (p r s : jsstring) : jsstring := join r (split p s).

(** The replacement patterns of [String.prototype.replace] when the
    replacement is a string and the pattern a string (so no captures):
    [$$], [$&], [$`] and [$'] are expanded, any other [$] is kept. *)
Fixpoint getSubstitution (matched before after repl : jsstring) : jsstring :=
  match repl with
  | [] => []
  | c :: r1 =>
    if cu_eqb c dollar then
      match r1 with
      | d :: r2 =>
        if cu_eqb d dollar then dollar :: getSubstitution matched before after r2
        else if cu_eqb d 38 then matched ++ getSubstitution matched before after r2
        else if cu_eqb d 96 then before ++ getSubstitution matched before after r2
        else if cu_eqb d 39 then after ++ getSubstitution matched before after r2
        else c :: getSubstitution matched before after r1
      | [] => [c]
      end
    else c :: getSubstitution matched before after r1
  end.

(** [s.replace(p, r)] with a string pattern: the first occurrence only. *)
Definition replaceFirst (p r s : jsstring) : jsstring :=
  match indexOf p s with
  | None => s
  | Some i =>
    let before := firstn i s in
    let after := skipn (i + length p) s in
    before ++ getSubstitution p before after r ++ after
  end.

(** Decimal and radix digits of [Number.prototype.toString]. *)
Definition digit_char (d : N) : cu :=
  if N.ltb d 10 then (48 + d)%N else (87 + d)%N.

Fixpoint toStringRadix_aux (fuel : nat) (radix n : N) (acc : jsstring) : jsstring :=
  match fuel with
  | O => acc
  | S f =>
    let acc' := digit_char (n mod radix) :: acc in
    if N.ltb n radix then acc' else toStringRadix_aux f radix (n / radix) acc'
  end.

(** [n.toString(radix)] for a non-negative integer. *)
Definition toStringRadix (radix n : N) : jsstring :=
  toStringRadix_aux (S (N.to_nat (N.log2 n))) radix n [].

Definition toString10 (n : N) : jsstring := toStringRadix 10 n.
Definition toString16 (n : N) : jsstring := toStringRadix 16 n.

(** [s.padStart(w, '0')] *)
Definition padStart0 (w : nat) (s : jsstring) : jsstring :=
  repeat (48%N : cu) (w - length s) ++ s.

End Js.

(** ** Regular expressions

    A backtracking matcher for the fragment of ECMAScript regular
    expressions the handlers use.  Alternatives are tried in order, a greedy
    star tries one more iteration before the continuation, a lazy star the
    continuation first, and an iteration that consumes nothing is rejected,
    as in the ECMAScript RepeatMatcher. *)

Module Regex.
Import Js.

Inductive re : Type :=
| Eps                                     (* empty pattern *)
| Cls (p : cu -> bool)                    (* one character of a class *)
| Seq (a b : re)
| Alt (a b : re)                          (* a|b *)
| Star (greedy : bool) (a : re)           (* a* and a*? *)
| Grp (n : nat) (a : re)                  (* capture group number n *)
| Bol (multiline : bool)                  (* ^ *)
| Eol (multiline : bool)                  (* $ *)
| WordB                                   (* \b *)
| Ahead (positive : bool) (a : re)        (* (?=a) and (?!a) *)
| Behind (positive : bool) (p : cu -> bool). (* (?<=[p]) and (?<![p]) *)

(** The position of a match in progress: the text before it (reversed), the
    text after it, and the captures so far (latest first). *)
Record mstate : Type := MState {
  before : jsstring;
  after : jsstring;
  caps : list (nat * jsstring)
}.

Definition consumed (s s' : mstate) : jsstring :=
  firstn (length (after s) - length (after s')) (after s).

Definition at_word_boundary (s : mstate) : bool :=
  xorb (match before s with c :: _ => is_word c | [] => false end)
       (match after s with c :: _ => is_word c | [] => false end).

Definition orelse {A} (x y : option A) : option A :=
  match x with Some _ => x | None => y end.

(** The loop of a star: at most [n] more iterations, each of which has to
    consume something.  [iter] runs one iteration of the body and hands the
    state it reaches to the continuation it is given. *)
Fixpoint star_loop (greedy : bool)
  (iter : mstate -> (mstate -> option mstate) -> option mstate)
  (k : mstate -> option mstate) (n : nat) (s : mstate) {struct n} : option mstate :=
  match n with
  | O => k s
  | S n' =>
    let again (_ : unit) :=
      iter s (fun s' =>
        if length (after s') <? length (after s)
        then star_loop greedy iter k n' s' else None) in
    if greedy then orelse (again tt) (k s)
    else orelse (k s) (again tt)
  end.

(** [rmatch r s k]: match [r] at [s] and continue with [k]; the first
    success, in backtracking order, is the result.  A star gets as many
    rounds as there are characters left, which is all it can use. *)
Fixpoint rmatch (r : re) (s : mstate) (k : mstate -> option mstate) {struct r}
  : option mstate :=
  match r with
  | Eps => k s
  | Cls p =>
    match after s with
    | c :: t => if p c then k (MState (c :: before s) t (caps s)) else None
    | [] => None
    end
  | Seq a b => rmatch a s (fun s' => rmatch b s' k)
  | Alt a b => orelse (rmatch a s k) (rmatch b s k)
  | Star greedy a => star_loop greedy (rmatch a) k (length (after s)) s
  | Grp n a =>
    rmatch a s (fun s' => k (MState (before s') (after s') ((n, consumed s s') :: caps s')))
  | Bol m =>
    match before s with
    | [] => k s
    | c :: _ => if m && is_lineterm c then k s else None
    end
  | Eol m =>
    match after s with
    | [] => k s
    | c :: _ => if m && is_lineterm c then k s else None
    end
  | WordB => if at_word_boundary s then k s else None
  | Ahead positive a =>
    match rmatch a s Some with
    | Some _ => if positive then k s else None
    | None => if positive then None else k s
    end
  | Behind positive p =>
    let seen := match before s with c :: _ => p c | [] => false end in
    if Bool.eqb seen positive then k s else None
  end.

(** Pattern builders. *)
Definition Chr (c : cu) : re := Cls (cu_eqb c).
Definition NotIn (l : jsstring) : re := Cls (fun c => negb (mem c l)).
Definition OneOf (l : jsstring) : re := Cls (fun c => mem c l).
Definition Dot : re := Cls (fun c => negb (is_lineterm c)).
Definition AnyChar : re := Cls (fun _ => true).          (* [\s\S] *)
Definition Space : re := Cls is_space.                   (* \s *)
Definition NonSpace : re := Cls (fun c => negb (is_space c)).
Definition Word : re := Cls is_word.                     (* \w *)
Definition Many (a : re) : re := Star true a.            (* a* *)
Definition Lazy (a : re) : re := Star false a.           (* a*? *)
Definition Plus (a : re) : re := Seq a (Star true a).    (* a+ *)
Definition Opt (a : re) : re := Alt a Eps.               (* a? *)

Fixpoint Lit (l : jsstring) : re :=
  match l with
  | [] => Eps
  | c :: l' => Seq (Chr c) (Lit l')
  end.

Fixpoint Seqs (l : list re) : re :=
  match l with
  | [] => Eps
  | [a] => a
  | a :: l' => Seq a (Seqs l')
  end.

Fixpoint Alts (l : list re) : re :=
  match l with
  | [] => Cls (fun _ => false)
  | [a] => a
  | a :: l' => Alt a (Alts l')
  end.

(** ASCII case folding for the [i] flag. *)
Definition fold_case (c : cu) : cu := if is_lower c then (c - 32)%N else c.
Definition ChrI (c : cu) : re := Cls (fun d => cu_eqb (fold_case c) (fold_case d)).
Fixpoint LitI (l : jsstring) : re :=
  match l with
  | [] => Eps
  | c :: l' => Seq (ChrI c) (LitI l')
  end.

(** A successful match: the matched text, the captures, and the text
    before and after the match. *)
Record hit : Type := Hit {
  matched : jsstring;
  groups : list (nat * jsstring);
  prefix : jsstring;
  suffix : jsstring
}.

Fixpoint lookup_group (n : nat) (g : list (nat * jsstring)) : option jsstring :=
  match g with
  | [] => None
  | (m, v) :: g' => if Nat.eqb n m then Some v else lookup_group n g'
  end.

(** [match[n]], the empty string standing for an unset group where the
    handlers only concatenate it. *)
Definition group (n : nat) (h : hit) : jsstring :=
  match lookup_group n (groups h) with Some v => v | None => [] end.

(** The match that starts exactly at the given position, if any. *)
Definition match_here (r : re) (bef aft : jsstring) : option (hit * mstate) :=
  let s := MState bef aft [] in
  match rmatch r s Some with
  | Some s' => Some (Hit (consumed s s') (caps s') (rev bef) (after s'), s')
  | None => None
  end.

(** [s.replace(r, cb)] for a global ([g]) pattern [r] and a callback that
    may update an accumulator (the closures of the handlers push to an array
    and advance a counter).  After an empty match the scan advances by one
    character, as [lastIndex] does. *)
Fixpoint replace_loop {A : Type} (r : re) (cb : hit -> A -> jsstring * A)
  (fuel : nat) (bef aft : jsstring) (acc : A) : jsstring * A :=
  match fuel with
  | O => (aft, acc)
  | S f =>
    match match_here r bef aft with
    | Some (h, s') =>
      let (out, acc1) := cb h acc in
      match matched h with
      | [] =>
        match aft with
        | [] => (out, acc1)
        | c :: t =>
          let (rest, acc2) := replace_loop r cb f (c :: bef) t acc1 in
          (out ++ c :: rest, acc2)
        end
      | _ :: _ =>
        let (rest, acc2) := replace_loop r cb f (before s') (after s') acc1 in
        (out ++ rest, acc2)
      end
    | None =>
      match aft with
      | [] => ([], acc)
      | c :: t =>
        let (rest, acc1) := replace_loop r cb f (c :: bef) t acc in
        (c :: rest, acc1)
      end
    end
  end.

Definition replaceAcc {A : Type} (r : re) (cb : hit -> A -> jsstring * A)
  (s : jsstring) (acc : A) : jsstring * A :=
  replace_loop r cb (S (length s)) [] s acc.

(** [s.replace(r, f)] with a pure callback or a replacement template. *)
Definition replaceAll (r : re) (f : hit -> jsstring) (s : jsstring) : jsstring :=
  fst (replaceAcc r (fun h (_ : unit) => (f h, tt)) s tt).

(** [s.replace(r, template)] for a pattern without capture groups: in the
    template [$$], [$&], [$`] and [$'] are expanded. *)
Definition replaceTemplate (r : re) (template : jsstring) (s : jsstring) : jsstring :=
  replaceAll r (fun h => getSubstitution (matched h) (prefix h) (suffix h) template) s.

(** [s.replace(r, '')] *)
Definition removeAll (r : re) (s : jsstring) : jsstring :=
  replaceAll r (fun _ => []) s.

(** All matches of a global pattern, as the loop
    [while ((m = r.exec(s)) !== null)] visits them. *)
Definition matchAll (r : re) (s : jsstring) : list hit :=
  rev (snd (replaceAcc r (fun h (acc : list hit) => ([], h :: acc)) s [])).

(** [r.test(s)] for a pattern without the [g] flag. *)
Definition test (r : re) (s : jsstring) : bool :=
  match matchAll r s with [] => false | _ :: _ => true end.

(** [s.search(r)], [None] for -1. *)
Fixpoint search (r : re) (bef aft : jsstring) : option nat :=
  match match_here r bef aft with
  | Some _ => Some 0
  | None =>
    match aft with
    | [] => None
    | c :: t => option_map S (search r (c :: bef) t)
    end
  end.

(** [s.match(r).length] with [|| []], the number of matches. *)
Definition count (r : re) (s : jsstring) : nat := length (matchAll r s).

End Regex.

(** ** Options (types.ts)

    The handlers read the ten switches only as conditions, so a switch is
    modelled by its truth value; the intensity is compared with the four
    names.  The options a handler is constructed with come out of an object
    spread over [Partial<ObfuscationOptions>], whose keys may hold
    [undefined]: a switch is then falsy, and the intensity is none of the
    four names ([unset]). *)

Inductive Intensity : Type := low | medium | high | extreme | unset.

Record ObfuscationOptions : Type := {
  renameVariables : bool;
  encodeStrings : bool;
  removeComments : bool;
  controlFlowFlattening : bool;
  deadCodeInjection : bool;
  unicodeEscape : bool;
  hexEncoding : bool;
  base64Strings : bool;
  shuffleCode : bool;
  minify : bool;
  intensity : Intensity
}.

Definition defaultOptions : ObfuscationOptions := {|
  renameVariables := true;
  encodeStrings := true;
  removeComments := true;
  controlFlowFlattening := true;
  deadCodeInjection := true;
  unicodeEscape := true;
  hexEncoding := true;
  base64Strings := false;
  shuffleCode := true;
  minify := false;
  intensity := high
|}.

(** [presets.quick] *)
Definition preset_quick : ObfuscationOptions := {|
  renameVariables := true;
  encodeStrings := false;
  removeComments := true;
  controlFlowFlattening := false;
  deadCodeInjection := false;
  unicodeEscape := false;
  hexEncoding := false;
  base64Strings := false;
  shuffleCode := false;
  minify := true;
  intensity := low
|}.

(** Every transformation switched off. *)
Definition noOptions : ObfuscationOptions := {|
  renameVariables := false;
  encodeStrings := false;
  removeComments := false;
  controlFlowFlattening := false;
  deadCodeInjection := false;
  unicodeEscape := false;
  hexEncoding := false;
  base64Strings := false;
  shuffleCode := false;
  minify := false;
  intensity := low
|}.

Definition is_high_or_extreme (i : Intensity) : bool :=
  match i with high | extreme => true | _ => false end.

(** [options.minify || intensity === 'high' || intensity === 'extreme'] *)
Definition wants_minify (o : ObfuscationOptions) : bool :=
  minify o || is_high_or_extreme (intensity o).

(** ** Math.random

    The pseudo-random source is a stream of draws; every call of
    [Math.random()] takes the next one, reduced to the interval [0,1).
    The draws are rationals and the arithmetic on them is exact.  An engine
    computes with IEEE doubles: it rounds a product before [Math.floor], it
    compares a draw with the double nearest to 0.15 or 0.1, and it prints a
    double in base 16 or 36 to the precision of a double.  At a draw where
    the rounding matters the index, the outcome of the test or the last
    digits can be those of a neighbouring draw; which draw gives which
    index is used in no statement below, and the draws of the examples, 0,
    1/2 and other fractions with a small power of two as denominator, are
    doubles on which the arithmetic of an engine is exact too. *)

Module Rand.
Import Js.

Record Random : Type := {
  draws : nat -> Q;
  cursor : nat
}.

Definition frac (x : Q) : Q := (x - inject_Z (Qfloor x))%Q.

(** [Math.random()] *)
Definition random (r : Random) : Q * Random :=
  (frac (draws r (cursor r)), {| draws := draws r; cursor := S (cursor r) |}).

(** [Math.floor(x * n)], the product taken exactly. *)
Definition floorMul (x : Q) (n : nat) : nat :=
  Z.to_nat (Qfloor (x * inject_Z (Z.of_nat n))%Q).

(** [Math.floor(Math.random() * n)] *)
Definition randomIndex (n : nat) (r : Random) : nat * Random :=
  let (x, r') := random r in (floorMul x n, r').

(** [Math.random() < p] with [p] given in thousandths, compared
    exactly. *)
Definition randomBelow (thousandths : Z) (r : Random) : bool * Random :=
  let (x, r') := random r in
  (if Qlt_le_dec x (thousandths # 1000) then true else false, r').

(** [chars[Math.floor(Math.random() * chars.length)]]: one random character
    of a non-empty alphabet. *)
Definition randomChar (chars : jsstring) (r : Random) : jsstring * Random :=
  let (i, r') := randomIndex (length chars) r in
  (match nth_error chars i with Some c => [c] | None => [] end, r').

(** [n] random characters of an alphabet, appended left to right. *)
Fixpoint randomChars (n : nat) (chars : jsstring) (r : Random) : jsstring * Random :=
  match n with
  | O => ([], r)
  | S n' =>
    let (c, r1) := randomChar chars r in
    let (s, r2) := randomChars n' chars r1 in
    (c ++ s, r2)
  end.

(** The first digits after the point of a fraction written in a radix,
    ending early when the expansion does; the exact expansion. *)
Fixpoint fracDigits (n : nat) (radix : N) (x : Q) : jsstring :=
  match n with
  | O => []
  | S n' =>
    if Qeq_bool x 0 then []
    else
      let y := (x * inject_Z (Z.of_N radix))%Q in
      let d := Qfloor y in
      digit_char (Z.to_N d) :: fracDigits n' radix (y - inject_Z d)%Q
  end.

(** [Math.random().toString(radix).substr(2, 4)] *)
Definition randomSuffix (radix : N) (r : Random) : jsstring * Random :=
  let (x, r') := random r in (fracDigits 4 radix x, r').

(** A source that always draws the same value. *)
Definition constant (x : Q) : Random := {| draws := fun _ => x; cursor := 0 |}.

(** A source that replays a list of draws, then repeats the last argument. *)
Definition replay (l : list Q) (x : Q) : Random :=
  {| draws := fun i => nth i l x; cursor := 0 |}.

End Rand.

(** ** Encoders shared by the handlers *)

Module Encode.
Import Js.

(** [\xHH] for one code unit: [c.charCodeAt(0).toString(16).padStart(2,'0')]. *)
Definition hexEscape (c : cu) : jsstring :=
  bs :: 120%N :: padStart0 2 (toString16 c).

(** [\uHHHH] for one code unit. *)
Definition unicodeEscapeOf (c : cu) : jsstring :=
  bs :: 117%N :: padStart0 4 (toString16 c).

(** [content.split('').map(c => `\\x..`).join('')] *)
Definition toHex (s : jsstring) : jsstring := flat_map hexEscape s.
Definition toUnicode (s : jsstring) : jsstring := flat_map unicodeEscapeOf s.

Definition is_high_surrogate (c : cu) : bool := between 55296 56319 c.
Definition is_low_surrogate (c : cu) : bool := between 56320 57343 c.

(** Code points of a UTF-16 string; a lone surrogate becomes U+FFFD, as
    [TextEncoder] does. *)
Fixpoint codePoints (s : jsstring) : list N :=
  match s with
  | [] => []
  | c :: s' =>
    if is_high_surrogate c then
      match s' with
      | d :: s'' =>
        if is_low_surrogate d
        then (65536 + (c - 55296) * 1024 + (d - 56320))%N :: codePoints s''
        else 65533%N :: codePoints s'
      | [] => [65533%N]
      end
    else if is_low_surrogate c then 65533%N :: codePoints s'
    else c :: codePoints s'
  end.

Definition utf8_of_codePoint (p : N) : list N :=
  if N.ltb p 128 then [p]
  else if N.ltb p 2048 then [192 + p / 64; 128 + p mod 64]%N
  else if N.ltb p 65536 then [224 + p / 4096; 128 + (p / 64) mod 64; 128 + p mod 64]%N
  else [240 + p / 262144; 128 + (p / 4096) mod 64; 128 + (p / 64) mod 64; 128 + p mod 64]%N.

(** [Array.from(new TextEncoder().encode(s))] *)
Definition utf8 (s : jsstring) : list N := flat_map utf8_of_codePoint (codePoints s).

Definition base64_char (n : N) : cu :=
  if N.ltb n 26 then (65 + n)%N
  else if N.ltb n 52 then (97 + (n - 26))%N
  else if N.ltb n 62 then (48 + (n - 52))%N
  else if N.eqb n 62 then 43%N else 47%N.

(** [btoa(String.fromCharCode(...bytes))] *)
Fixpoint btoa (bytes : list N) : jsstring :=
  match bytes with
  | [] => []
  | [a] =>
    [base64_char (a / 4); base64_char ((a mod 4) * 16); 61%N; 61%N]
  | [a; b] =>
    [base64_char (a / 4); base64_char ((a mod 4) * 16 + b / 16);
     base64_char ((b mod 16) * 4); 61%N]
  | a :: b :: c :: rest =>
    base64_char (a / 4) :: base64_char ((a mod 4) * 16 + b / 16)
    :: base64_char ((b mod 16) * 4 + c / 64) :: base64_char (c mod 64)
    :: btoa rest
  end.

Definition base64_utf8 (s : jsstring) : jsstring := btoa (utf8 s).

End Encode.

(** ** BaseObfuscator (base.ts) *)

Module Base.
Import Js.

(** [getIntensityMultiplier()], with its [default: return 1]. *)
Definition getIntensityMultiplier (o : ObfuscationOptions) : nat :=
  match intensity o with
  | low => 1
  | medium => 2
  | high => 3
  | extreme => 5
  | unset => 1
  end.

Definition count_char (c : cu) (s : jsstring) : nat :=
  length (filter (cu_eqb c) s).

(** The per-line step of [removeSingleLineComments]: the line is cut at the
    first comment marker when the text before it holds an even number of
    single quotes and an even number of double quotes. *)
Definition stripLineComment (commentChar line : jsstring) : jsstring :=
  match indexOf commentChar line with
  | Some idx =>
    let beforeComment := firstn idx line in
    let singleQuotes := count_char sq beforeComment in
    let doubleQuotes := count_char dq beforeComment in
    if Nat.even singleQuotes && Nat.even doubleQuotes
    then trimEnd (firstn idx line)
    else line
  | None => line
  end.

Definition is_blank (line : jsstring) : bool :=
  match trim line with [] => true | _ :: _ => false end.

(** [removeSingleLineComments(code, commentChar)] *)
Definition removeSingleLineComments (commentChar code : jsstring) : jsstring :=
  unlines (filter (fun l => negb (is_blank l))
                  (map (stripLineComment commentChar) (lines code))).

(** [s.indexOf(p, from)] *)
Definition indexOfFrom (p s : jsstring) (from : nat) : option nat :=
  option_map (fun i => from + i) (indexOf p (skipn from s)).

(** [removeMultiLineComments(code, start, end)]: while a start marker is
    left, the text from it to the first end marker found at or after it is
    dropped; the loop stops when no end marker follows.  Every round removes
    at least the end marker, so the length of the text bounds the rounds. *)
Fixpoint removeMultiLine_loop (fuel : nat) (start stop result : jsstring) : jsstring :=
  match fuel with
  | O => result
  | S f =>
    match indexOf start result with
    | None => result
    | Some startIdx =>
      match indexOfFrom stop result startIdx with
      | Some endIdx =>
        removeMultiLine_loop f start stop
          (firstn startIdx result ++ skipn (endIdx + length stop) result)
      | None => result
      end
    end
  end.

Definition removeMultiLineComments (start stop code : jsstring) : jsstring :=
  removeMultiLine_loop (length code) start stop code.

End Base.

(** ** The placeholder protocol

    Every handler protects string literals with the same closure: each match
    of a literal pattern is pushed on the [strings] array together with a
    fresh placeholder built from the running index [strIdx], and replaced by
    that placeholder. *)

Module Protect.
Import Js Regex.

Record entry (M : Type) : Type := Entry {
  original : jsstring;
  placeholder : jsstring;
  meta : M
}.
Arguments Entry {M} _ _ _.
Arguments original {M} _.
Arguments placeholder {M} _.
Arguments meta {M} _.

(** The array [strings] and the counter [strIdx]. *)
Definition table (M : Type) : Type := (list (entry M) * nat)%type.

Definition empty {M : Type} : table M := ([], 0).

(** [result.replace(r, (m) => { const ph = ...; strings.push(...); strIdx++; return ph; })] *)
Definition protect {M : Type} (mkPlaceholder : nat -> jsstring) (mkMeta : jsstring -> M)
  (r : re) (result : jsstring) (t : table M) : jsstring * table M :=
  replaceAcc r
    (fun h (acc : table M) =>
       let (strings, strIdx) := acc in
       let ph := mkPlaceholder strIdx in
       (ph, (strings ++ [Entry (matched h) ph (mkMeta (matched h))], S strIdx)))
    result t.

(** [for (const e of strings) result = result.split(e.placeholder).join(f(e))] *)
Definition restoreSplitJoin {M : Type} (replacement : entry M -> jsstring)
  (strings : list (entry M)) (result : jsstring) : jsstring :=
  fold_left (fun res e => splitJoin (placeholder e) (replacement e) res) strings result.

(** [for (const e of strings) result = result.replace(e.placeholder, f(e))] *)
Definition restoreReplace {M : Type} (replacement : entry M -> jsstring)
  (strings : list (entry M)) (result : jsstring) : jsstring :=
  fold_left (fun res e => replaceFirst (placeholder e) (replacement e) res) strings result.

(** The literal patterns shared by several handlers. *)

(** [q(?:[^q\\]|\\.)*q] for a quote character [q]: an opening quote, then
    characters other than the quote and the backslash or a backslash and
    any character but a line terminator, then a closing quote. *)
Definition quoted (q : cu) : re :=
  Seqs [Chr q; Many (Alt (NotIn [q; bs]) (Seq (Chr bs) Dot)); Chr q].

(** The double-quoted form or else the single-quoted form. *)
Definition doubleOrSingleQuoted : re := Alt (quoted dq) (quoted sq).

End Protect.

(** Identifier maps keep insertion order, which [Map.prototype.forEach]
    follows. *)

Module VarMap.
Import Js.

Definition t : Type := list (jsstring * jsstring).

Fixpoint get (name : jsstring) (m : t) : option jsstring :=
  match m with
  | [] => None
  | (k, v) :: m' => if str_eqb k name then Some v else get name m'
  end.

Definition has (name : jsstring) (m : t) : bool :=
  match get name m with Some _ => true | None => false end.

(** [m.set(name, v)] for a key that may be present. *)
Fixpoint set (name v : jsstring) (m : t) : t :=
  match m with
  | [] => [(name, v)]
  | (k, v') :: m' => if str_eqb k name then (k, v) :: m' else (k, v') :: set name v m'
  end.

Definition isReserved (reserved : list jsstring) (name : jsstring) : bool :=
  existsb (str_eqb name) reserved.

(** [new RegExp(`\\b${name}\\b`, 'g')] for a name made of word characters. *)
Definition wordPattern (name : jsstring) : Regex.re :=
  Regex.Seqs [Regex.WordB; Regex.Lit name; Regex.WordB].

(** [m.forEach((newName, oldName) => result = result.replace(/\boldName\b/g, newName))]
    for generated names, which hold no [$]. *)
Definition renameWords (m : t) (code : jsstring) : jsstring :=
  fold_left (fun res kv => Regex.replaceAll (wordPattern (fst kv)) (fun _ => snd kv) res) m code.

End VarMap.

(** ** JavaScriptObfuscator (javascript.ts) *)

Module JavaScript.
Import Js Regex Rand Encode Base Protect.

Definition reserved : list jsstring := map str
  ["break"; "case"; "catch"; "continue"; "debugger"; "default"; "delete";
   "do"; "else"; "finally"; "for"; "function"; "if"; "in"; "instanceof";
   "new"; "return"; "switch"; "this"; "throw"; "try"; "typeof"; "var";
   "void"; "while"; "with"; "class"; "const"; "enum"; "export"; "extends";
   "import"; "super"; "implements"; "interface"; "let"; "package"; "private";
   "protected"; "public"; "static"; "yield"; "true"; "false"; "null";
   "undefined"; "NaN"; "Infinity"; "console"; "window"; "document";
   "Math"; "JSON"; "Array"; "Object"; "String"; "Number"; "Boolean";
   "Date"; "RegExp"; "Error"; "Promise"; "Map"; "Set"; "Symbol";
   "arguments"; "eval"; "async"; "await"; "of"; "atob"; "btoa";
   "TextEncoder"; "TextDecoder"; "Uint8Array"; "Function"; "parseInt";
   "parseFloat"; "isNaN"; "isFinite"; "decodeURI"; "encodeURI";
   "decodeURIComponent"; "encodeURIComponent"; "escape"; "unescape"]%string.

(** [`__JSSTR${strIdx}__`] *)
Definition mkPlaceholder (i : nat) : jsstring :=
  str "__JSSTR" ++ toString10 (N.of_nat i) ++ str "__".

(** Step 1: comment removal, on the raw text. *)
Definition stripComments (code : jsstring) : jsstring :=
  removeSingleLineComments (str "//")
    (removeMultiLineComments (str "/*") (str "*/") code).

(** Step 2: template literals first, then double- and single-quoted
    literals, one running index for both passes. *)
Definition extract (code : jsstring) : jsstring * table unit :=
  let (r1, t1) := protect mkPlaceholder (fun _ => tt) (quoted bq) code empty in
  protect mkPlaceholder (fun _ => tt) doubleOrSingleQuoted r1 t1.

Definition printable (c : cu) : bool := N.ltb c 128 && N.ltb 31 c.

Definition hexOrSelf (c : cu) : jsstring :=
  if printable c then hexEscape c else [c].

Definition unicodeOrSelf (c : cu) : jsstring :=
  if printable c then unicodeEscapeOf c else [c].

Definition base64Call (content : jsstring) : jsstring :=
  str "(new TextDecoder().decode(Uint8Array.from(atob(" ++ [dq]
  ++ base64_utf8 content ++ [dq] ++ str "),c=>c.charCodeAt(0))))".

(** Step 4, the body of the loop: the text put back for one literal. *)
Definition replacement (o : ObfuscationOptions) (original : jsstring) : jsstring :=
  if negb (startsWith [bq] original) then
    let content := slice1m1 original in
    if (0 <? length content) && (length content <? 100) then
      if base64Strings o then base64Call content
      else if hexEncoding o && encodeStrings o then
        [dq] ++ flat_map hexOrSelf content ++ [dq]
      else if unicodeEscape o && encodeStrings o then
        [dq] ++ flat_map unicodeOrSelf content ++ [dq]
      else original
    else original
  else original.

(** Step 4: [result = result.replace(placeholder, replacement)] per entry. *)
Definition restore (o : ObfuscationOptions) (strings : list (entry unit))
  (result : jsstring) : jsstring :=
  restoreReplace (fun e => replacement o (original e)) strings result.

(** [generateConfusingName()] *)
Definition generateConfusingName (r : Random) : jsstring * Random :=
  let prefixes := map str ["_0x"; "_0O"; "_Il"; "_lI"; "_O0"]%string in
  let (i, r1) := randomIndex (length prefixes) r in
  let prefix := nth i prefixes [] in
  let (suffix, r2) := randomChars 4 (str "O0Il1") r1 in
  let (tail, r3) := randomSuffix 16 r2 in
  (prefix ++ suffix ++ tail, r3).

Definition identStart (c : cu) : bool := is_alpha c || cu_eqb c 95 || cu_eqb c dollar.
Definition identChar (c : cu) : bool := is_word c || cu_eqb c dollar.

(** [(\[\])?] *)
Definition optBrackets : re := Opt (Grp 1 (Lit (str "[]"))).

(** [/:\s*\w+(\[\])?\s*(?=[,)=])/g] *)
Definition paramAnnotation : re :=
  Seqs [Chr 58; Many Space; Plus Word; optBrackets; Many Space;
        Ahead true (OneOf (str ",)="))].

(** [/\)\s*:\s*\w+(\[\])?\s*\{/g] *)
Definition returnAnnotation : re :=
  Seqs [Chr 41; Many Space; Chr 58; Many Space; Plus Word; optBrackets;
        Many Space; Chr 123].

(** [/:\s*\w+(\[\])?\s*=/g] *)
Definition variableAnnotation : re :=
  Seqs [Chr 58; Many Space; Plus Word; optBrackets; Many Space; Chr 61].

(** [/\b(var|let|const|function)\s+([a-zA-Z_$][a-zA-Z0-9_$]* )/g] *)
Definition declPattern : re :=
  Seqs [WordB;
        Grp 1 (Alts [Lit (str "var"); Lit (str "let"); Lit (str "const"); Lit (str "function")]);
        Plus Space;
        Grp 2 (Seq (Cls identStart) (Many (Cls identChar)))].

(** [/function\s*[a-zA-Z_$]*\s*\(([^)]* )\)/g] *)
Definition funcPattern : re :=
  Seqs [Lit (str "function"); Many Space; Many (Cls identStart); Many Space;
        Chr 40; Grp 1 (Many (NotIn [41%N])); Chr 41].

(** [/\(([^)]* )\)\s*=>/g] *)
Definition arrowPattern : re :=
  Seqs [Chr 40; Grp 1 (Many (NotIn [41%N])); Chr 41; Many Space; Lit (str "=>")].

(** [if (!reserved.has(name) && !varMap.has(name)) varMap.set(name, generateConfusingName())] *)
Definition declare (name : jsstring) (st : VarMap.t * Random) : VarMap.t * Random :=
  let (varMap, r) := st in
  if negb (VarMap.isReserved reserved name) && negb (VarMap.has name varMap) then
    let (fresh, r') := generateConfusingName r in
    (VarMap.set name fresh varMap, r')
  else st.

(** [match[1].split(',').map(p => p.trim().split('=')[0].trim())] *)
Definition paramNames (params : jsstring) : list jsstring :=
  map (fun p => trim (hd [] (split [61%N] (trim p)))) (split [44%N] params).

Definition declareParam (param : jsstring) (st : VarMap.t * Random) : VarMap.t * Random :=
  match param with
  | [] => st
  | _ :: _ => declare param st
  end.

Section Rename.

(** [new RegExp(source, 'g')] belongs to the JavaScript engine: it parses
    any pattern text, and throws a SyntaxError ([None]) on a malformed one.
    A parameter name can be any text without a closing parenthesis. *)
Variable compileRegExp : jsstring -> option re.

(** [varMap.forEach((newName, oldName) => ...)]; a generated name holds no
    [$], so it is inserted as it is. *)
Fixpoint applyMap (varMap : VarMap.t) (result : jsstring) : option jsstring :=
  match varMap with
  | [] => Some result
  | (oldName, newName) :: rest =>
    match compileRegExp ([bs; 98%N] ++ oldName ++ [bs; 98%N]) with
    | Some regex => applyMap rest (replaceAll regex (fun _ => newName) result)
    | None => None
    end
  end.

(** [renameIdentifiers(code)] *)
Definition renameIdentifiers (code : jsstring) (r : Random) : option (jsstring * Random) :=
  let result := removeAll paramAnnotation code in
  let result := replaceAll returnAnnotation (fun _ => str ") {") result in
  let result := replaceAll variableAnnotation (fun _ => str " =") result in
  let st := fold_left (fun st h => declare (group 2 h) st)
                      (matchAll declPattern result) ([], r) in
  let st := fold_left (fun st h => fold_left (fun st p => declareParam p st)
                                             (paramNames (group 1 h)) st)
                      (matchAll funcPattern result) st in
  let st := fold_left (fun st h => fold_left (fun st p => declareParam p st)
                                             (paramNames (group 1 h)) st)
                      (matchAll arrowPattern result) st in
  match applyMap (fst st) result with
  | Some result' => Some (result', snd st)
  | None => None
  end.

End Rename.

(** [/\b(return|throw|break|continue)\b/] *)
Definition terminator : re :=
  Seqs [WordB;
        Grp 1 (Alts [Lit (str "return"); Lit (str "throw"); Lit (str "break");
                     Lit (str "continue")]);
        WordB].

Definition deadSnippets : list jsstring :=
  map str ["void 0;"; "(function(){})();"; "!1;"]%string.

(** One round of the loop of [injectDeadCodeSafe]: the line is pushed, a
    number is drawn, and when the draw is below 0.15, the trimmed line ends
    with [;] or [}] and holds no terminator keyword, a second draw picks the
    snippet pushed after it. *)
Definition injectAfter (line : jsstring) (r : Random) : list jsstring * Random :=
  let trimmed := trim line in
  let hasTerminator := test terminator trimmed in
  let (lucky, r1) := randomBelow 150 r in
  if lucky && (endsWith (str ";") trimmed || endsWith (str "}") trimmed)
     && negb hasTerminator
  then
    let (i, r2) := randomIndex (length deadSnippets) r1 in
    ([line; nth i deadSnippets []], r2)
  else ([line], r1).

Fixpoint injectLines (ls : list jsstring) (r : Random) : list jsstring * Random :=
  match ls with
  | [] => ([], r)
  | line :: rest =>
    let (out, r1) := injectAfter line r in
    let (outs, r2) := injectLines rest r1 in
    (out ++ outs, r2)
  end.

(** [injectDeadCodeSafe(code)] *)
Definition injectDeadCodeSafe (code : jsstring) (r : Random) : jsstring * Random :=
  let (out, r') := injectLines (lines code) r in (unlines out, r').

Definition minifyKeywords : list jsstring := map str
  ["var"; "let"; "const"; "function"; "return"; "throw"; "new"; "typeof";
   "if"; "else"; "for"; "while"; "do"; "switch"; "case"; "break"; "continue";
   "try"; "catch"; "finally"]%string.

(** [minifyCode(code)] *)
Definition minifyCode (code : jsstring) : jsstring :=
  (* /\/\/.*$/gm *)
  let result := removeAll (Seqs [Lit (str "//"); Many Dot; Eol true]) code in
  (* /\/\*[\s\S]*?\*\//g *)
  let result := removeAll (Seqs [Lit (str "/*"); Lazy AnyChar; Lit (str "*/")]) result in
  (* /  +/g *)
  let result := replaceAll (Seq (Chr 32) (Plus (Chr 32))) (fun _ => str " ") result in
  (* /\n\s*/g *)
  let result := replaceAll (Seq (Chr nl) (Many Space)) (fun _ => str " ") result in
  (* /\s*([{};,()=+\-*/<>!&|?:])\s*/g, '$1' *)
  let result := replaceAll
    (Seqs [Many Space; Grp 1 (OneOf (str "{};,()=+-*/<>!&|?:")); Many Space])
    (group 1) result in
  (* /\b(var|...|finally)\b(?=[^\s])/g, '$1 ' *)
  let result := replaceAll
    (Seqs [WordB; Grp 1 (Alts (map Lit minifyKeywords)); WordB; Ahead true NonSpace])
    (fun h => group 1 h ++ str " ") result in
  (* /;+/g *)
  let result := replaceAll (Plus (Chr 59)) (fun _ => str ";") result in
  (* /\s+/g *)
  let result := replaceAll (Plus Space) (fun _ => str " ") result in
  trim result.

Definition debugTrap : jsstring :=
  str "(function(){var d=new Date();debugger;if(new Date()-d>50)while(1){}})();".

(** [applyHighObfuscation(code)] *)
Definition applyHighObfuscation (code : jsstring) : jsstring :=
  let processed := minifyCode code in
  let processed := replaceAll doubleOrSingleQuoted
    (fun h => [dq] ++ toHex (slice1m1 (matched h)) ++ [dq]) processed in
  debugTrap ++ processed.

Definition antiDebug : jsstring :=
  str "(function(){var t=0;setInterval(function(){var s=Date.now();debugger;t+=(Date.now()-s>100)?1:0;if(t>2)while(1){}},100)})();".

(** [`${n / 2}`] for a length [n]. *)
Definition halfToString (n : nat) : jsstring :=
  toString10 (N.of_nat (Nat.div2 n)) ++ (if Nat.even n then [] else str ".5").

(** [chars.map((c, j) => (c ^ (key + j)) & 0xFF)] *)
Fixpoint xorEncode (key : N) (j : N) (chars : jsstring) : list N :=
  match chars with
  | [] => []
  | c :: rest => N.land (N.lxor c (key + j)) 255 :: xorEncode key (j + 1) rest
  end.

(** One decoder function of [applyExtremeObfuscation]. *)
Definition decoder (i : nat) (s : jsstring) (r : Random) : jsstring * Random :=
  let chars := slice1m1 s in
  let (k, r') := randomIndex 50 r in
  let key := N.of_nat (k + 10) in
  let encoded := xorEncode key 0 chars in
  (str "function _0x" ++ toString16 (N.of_nat i) ++ str "(){var a=["
   ++ join (str ",") (map toString10 encoded)
   ++ str "],s='';for(var i=0;i<a.length;i++)s+=String.fromCharCode(a[i]^("
   ++ toString10 key ++ str "+i));return s;}", r').

Fixpoint decoders (i : nat) (strings : list jsstring) (r : Random) : jsstring * Random :=
  match strings with
  | [] => ([], r)
  | s :: rest =>
    let (d, r1) := decoder i s r in
    let (ds, r2) := decoders (S i) rest r1 in
    (d ++ ds, r2)
  end.

(** [applyExtremeObfuscation(code)] *)
Definition applyExtremeObfuscation (code : jsstring) (r : Random) : jsstring * Random :=
  let processed := minifyCode code in
  let (processed, strings) :=
    replaceAcc doubleOrSingleQuoted
      (fun h (acc : list jsstring) =>
         (str "_0x" ++ toString16 (N.of_nat (length acc)) ++ str "()", acc ++ [matched h]))
      processed [] in
  let (decs, r') := decoders 0 strings r in
  let selfDefend :=
    str "(function(){try{var f=arguments.callee.toString();if(f.length<"
    ++ halfToString (length processed) ++ str ")while(1){}}catch(e){}})();" in
  (antiDebug ++ selfDefend ++ decs ++ processed, r').

Section Obfuscate.

Variable compileRegExp : jsstring -> option re.
Variable o : ObfuscationOptions.

(** [obfuscate(code)]; [None] when [new RegExp] throws while renaming. *)
Definition obfuscate (code : jsstring) (r : Random) : option (jsstring * Random) :=
  let result := if removeComments o then stripComments code else code in
  let (result, tbl) := extract result in
  match (if renameVariables o then renameIdentifiers compileRegExp result r
         else Some (result, r)) with
  | None => None
  | Some (result, r) =>
    let result := restore o (fst tbl) result in
    let (result, r) :=
      if deadCodeInjection o then injectDeadCodeSafe result r else (result, r) in
    Some (match intensity o with
          | extreme => applyExtremeObfuscation result r
          | high => (applyHighObfuscation result, r)
          | _ => (if minify o then minifyCode result else result, r)
          end)
  end.

End Obfuscate.

(** The pattern characters that do not stand for themselves:
    [^ $ \ . * + ? ( ) [ ] { } |]. *)
Definition syntaxCharacter (c : cu) : bool :=
  mem c [94; 36; 92; 46; 42; 43; 63; 40; 41; 91; 93; 123; 125; 124]%N.

(** The pattern of a name written between the two [\b]: a character that
    is no syntax character stands for itself, a dollar sign is the
    end-of-input assertion (so a name with a dollar sign before another
    character matches nowhere), a circumflex the start-of-input assertion
    and a point any character but a line terminator.  A name with another
    syntax character (a quantifier, a group, a class, an escape) is not
    parsed here. *)
Fixpoint namePattern (name : jsstring) : option re :=
  match name with
  | [] => Some Eps
  | c :: rest =>
    match namePattern rest with
    | Some p =>
      if negb (syntaxCharacter c) then Some (Seq (Chr c) p)
      else if cu_eqb c dollar then Some (Seq (Eol false) p)
      else if cu_eqb c 94 then Some (Seq (Bol false) p)
      else if cu_eqb c 46 then Some (Seq Dot p)
      else None
    | None => None
    end
  end.

(** A [RegExp] constructor for the sources the renaming loop builds, a
    name between two [\b], on the names [namePattern] parses; the
    examples of this development rename no other name. *)
Definition compileWordRegExp (source : jsstring) : option re :=
  let body := slice1m1 (slice1m1 source) in
  match namePattern body with
  | Some p => Some (Seqs [WordB; p; WordB])
  | None => None
  end.

End JavaScript.

(** ** Handler instances

    The fields every handler inherits from [BaseObfuscator]: they live as
    long as the object, across calls of [obfuscate]. *)

Record BaseState : Type := {
  variableMap : VarMap.t;
  counter : nat
}.

Definition newBaseState : BaseState := {| variableMap := []; counter := 0 |}.

(** Handlers that declare a private [varMap] of their own. *)
Record Instance : Type := {
  base : BaseState;
  varMap : VarMap.t
}.

Definition newInstance : Instance := {| base := newBaseState; varMap := [] |}.

(** [this.varMap.clear()] *)
Definition clearVarMap (i : Instance) : Instance :=
  {| base := base i; varMap := [] |}.

Definition withVarMap (m : VarMap.t) (i : Instance) : Instance :=
  {| base := base i; varMap := m |}.

(** The name generator shared, text for text, by the Lua, Bash, Perl, Rust
    and C-family handlers: eight characters of an alphabet and up to four
    base-36 digits of one more draw. *)
Definition generateConfusingName36 (chars : Js.jsstring) (r : Rand.Random)
  : Js.jsstring * Rand.Random :=
  let (name, r1) := Rand.randomChars 8 chars r in
  let (tail, r2) := Rand.randomSuffix 36 r1 in
  (name ++ tail, r2).

(** The declaration loop those handlers share:
    [if (!reserved.has(name) && !varMap.has(name)) varMap.set(name, '_' + generateConfusingName())] *)
Definition declareName (reserved : list Js.jsstring) (chars : Js.jsstring)
  (name : Js.jsstring) (st : VarMap.t * Rand.Random) : VarMap.t * Rand.Random :=
  let (m, r) := st in
  if negb (VarMap.isReserved reserved name) && negb (VarMap.has name m) then
    let (fresh, r') := generateConfusingName36 chars r in
    (VarMap.set name (Js.str "_" ++ fresh) m, r')
  else st.

(** [[a-zA-Z_][a-zA-Z0-9_]*] *)
Definition identifier : Regex.re :=
  Regex.Seq (Regex.Cls (fun c => Js.is_alpha c || Js.cu_eqb c 95))
            (Regex.Many (Regex.Cls Js.is_word)).

(** ** LuaObfuscator (lua.ts) *)

Module Lua.
Import Js Regex Rand Encode Base Protect.

Definition reserved : list jsstring := map str
  ["and"; "break"; "do"; "else"; "elseif"; "end"; "false"; "for"; "function";
   "goto"; "if"; "in"; "local"; "nil"; "not"; "or"; "repeat"; "return"; "then";
   "true"; "until"; "while"; "print"; "pairs"; "ipairs"; "next"; "type"; "tostring";
   "tonumber"; "error"; "assert"; "pcall"; "xpcall"; "require"; "module"; "setmetatable";
   "getmetatable"; "rawget"; "rawset"; "rawequal"; "select"; "unpack"; "table"; "string";
   "math"]%string.

(** [`___LUASTR_${strIdx}_PLACEHOLDER___`] *)
Definition mkPlaceholder (i : nat) : jsstring :=
  str "___LUASTR_" ++ toString10 (N.of_nat i) ++ str "_PLACEHOLDER___".

(** [/\[\[[^\]]*\]\]/g] *)
Definition longBracket : re :=
  Seqs [Lit (str "[["); Many (NotIn [93%N]); Lit (str "]]")].

(** Step 1: long-bracket strings, then quoted strings. *)
Definition extract (code : jsstring) : jsstring * table unit :=
  let (r1, t1) := protect mkPlaceholder (fun _ => tt) longBracket code empty in
  protect mkPlaceholder (fun _ => tt) doubleOrSingleQuoted r1 t1.

(** Step 2: [/--\[\[[^\]]*\]\]/g] and then [/--[^\n]*/g]. *)
Definition stripComments (code : jsstring) : jsstring :=
  let result := removeAll (Seq (Lit (str "--")) longBracket) code in
  removeAll (Seq (Lit (str "--")) (Many (NotIn [nl]))) result.

(** [/\blocal\s+([a-zA-Z_][a-zA-Z0-9_]* )/g] *)
Definition localRegex : re :=
  Seqs [WordB; Lit (str "local"); Plus Space; Grp 1 identifier].

(** [/\bfunction\s+([a-zA-Z_][a-zA-Z0-9_]* )/g] *)
Definition funcRegex : re :=
  Seqs [WordB; Lit (str "function"); Plus Space; Grp 1 identifier].

(** [renameIdentifiers(code)], on the map of the instance. *)
Definition renameIdentifiers (code : jsstring) (m : VarMap.t) (r : Random)
  : jsstring * VarMap.t * Random :=
  let st := fold_left (fun st h => declareName reserved (str "O0Il1_") (group 1 h) st)
                      (matchAll funcRegex code) (m, r) in
  let st := fold_left (fun st h => declareName reserved (str "O0Il1_") (group 1 h) st)
                      (matchAll localRegex code) st in
  (VarMap.renameWords (fst st) code, fst st, snd st).

(** One round of the loop of [injectDeadCode]. *)
Definition injectAfter (line : jsstring) (r : Random) : list jsstring * Random :=
  let (lucky, r1) := randomBelow 100 r in
  if lucky && negb (is_blank line) && negb (startsWith (str "--") (trim line))
  then ([line; str "local _ = nil"], r1)
  else ([line], r1).

Fixpoint injectLines (ls : list jsstring) (r : Random) : list jsstring * Random :=
  match ls with
  | [] => ([], r)
  | line :: rest =>
    let (out, r1) := injectAfter line r in
    let (outs, r2) := injectLines rest r1 in
    (out ++ outs, r2)
  end.

(** [injectDeadCode(code)] *)
Definition injectDeadCode (code : jsstring) (r : Random) : jsstring * Random :=
  let (out, r') := injectLines (lines code) r in (unlines out, r').

(** The first loop of [minifyCode]: each line with what is appended to it. *)
Fixpoint joinParts (ls : list jsstring) : list jsstring :=
  match ls with
  | [] => []
  | l :: rest =>
    let line := replaceAll (Plus Space) (fun _ => str " ") l in
    let isFullLineComment := startsWith (str "--") line in
    let hasInlineComment :=
      negb isFullLineComment && test (Seq Space (Lit (str "--"))) line in
    let nextIsComment :=
      match rest with
      | nextLine :: _ => startsWith (str "--") (trim nextLine)
      | [] => false
      end in
    (if isFullLineComment || hasInlineComment || nextIsComment then line ++ [nl]
     else match rest with
          | [] => line
          | _ :: _ => line ++ str " "
          end) :: joinParts rest
  end.

(** The compression applied to code outside comments. *)
Definition compress (code : jsstring) : jsstring :=
  (* /\s*([,=])\s*/g, '$1' *)
  let compressed := replaceAll
    (Seqs [Many Space; Grp 1 (OneOf (str ",=")); Many Space]) (group 1) code in
  (* /\b(function|local|if|then|else|end|for|while|do|return)\b(?=[^\s])/g, '$1 ' *)
  replaceAll
    (Seqs [WordB;
           Grp 1 (Alts (map (fun k => Lit (str k))
                   ["function"; "local"; "if"; "then"; "else"; "end"; "for";
                    "while"; "do"; "return"]%string));
           WordB; Ahead true NonSpace])
    (fun h => group 1 h ++ str " ") compressed.

Definition compressLine (line : jsstring) : jsstring :=
  if startsWith (str "--") (trim line) then line
  else match indexOf (str " --") line with
       | Some (S i) =>
         let commentIdx := S i in
         compress (firstn commentIdx line) ++ skipn commentIdx line
       | _ => compress line
       end.

(** [minifyCode(code)] *)
Definition minifyCode (code : jsstring) : jsstring :=
  let ls := filter (fun l => 0 <? length l) (map trim (lines code)) in
  let result := concat (joinParts ls) in
  trim (unlines (map compressLine (lines result))).

(** Step 6, the body of the loop: the text put back for one literal. *)
Definition replacement (o : ObfuscationOptions) (original : jsstring) : jsstring :=
  if negb (startsWith (str "[[") original) then
    let content := slice1m1 original in
    if (0 <? length content) && (length content <? 100) then
      if hexEncoding o && encodeStrings o then [dq] ++ toHex content ++ [dq]
      else original
    else original
  else original.

(** Step 6: [result = result.split(placeholder).join(replacement)] per entry. *)
Definition restore (o : ObfuscationOptions) (strings : list (entry unit))
  (result : jsstring) : jsstring :=
  restoreSplitJoin (fun e => replacement o (original e)) strings result.

(** [obfuscate(code)] on an instance: the output, the instance afterwards
    and the random source afterwards. *)
Definition obfuscate (o : ObfuscationOptions) (code : jsstring)
  (self : Instance) (r : Random) : jsstring * Instance * Random :=
  let self := clearVarMap self in
  let (result, tbl) := extract code in
  let result := if removeComments o then stripComments result else result in
  let '(result, self, r) :=
    if renameVariables o then
      let '(res, m, r') := renameIdentifiers result (varMap self) r in
      (res, withVarMap m self, r')
    else (result, self, r) in
  let (result, r) :=
    if deadCodeInjection o then injectDeadCode result r else (result, r) in
  let result := if wants_minify o then minifyCode result else result in
  (restore o (fst tbl) result, self, r).

End Lua.

(** ** BashObfuscator (bash.ts) *)

Module Bash.
Import Js Regex Rand Encode Base Protect.

Definition reserved : list jsstring := map str
  ["if"; "then"; "else"; "elif"; "fi"; "case"; "esac"; "for"; "while"; "until";
   "do"; "done"; "in"; "function"; "select"; "time"; "coproc"; "echo"; "printf";
   "read"; "exit"; "return"; "break"; "continue"; "declare"; "local"; "export";
   "readonly"; "unset"; "shift"; "set"; "trap"; "eval"; "exec"; "source"; "true";
   "false"]%string.

(** [`___BASHSTR_${strIdx}_PLACEHOLDER___`] *)
Definition mkPlaceholder (i : nat) : jsstring :=
  str "___BASHSTR_" ++ toString10 (N.of_nat i) ++ str "_PLACEHOLDER___".

(** The shebang split: when the text starts with [#!], [idx] is the index of
    the first line feed (-1 when there is none), the shebang is
    [slice(0, idx + 1)] and the rest [slice(idx + 1)]. *)
Definition splitShebang (code : jsstring) : jsstring * jsstring :=
  if startsWith (str "#!") code then
    match indexOf [nl] code with
    | Some idx => (firstn (idx + 1) code, skipn (idx + 1) code)
    | None => ([], code)
    end
  else ([], code).

(** [/'[^']*'/g] *)
Definition singleQuoted : re := Seqs [Chr sq; Many (NotIn [sq]); Chr sq].

(** Step 1: single-quoted strings, then double-quoted strings. *)
Definition extract (code : jsstring) : jsstring * table unit :=
  let (r1, t1) := protect mkPlaceholder (fun _ => tt) singleQuoted code empty in
  protect mkPlaceholder (fun _ => tt) (quoted dq) r1 t1.

(** [/(?<![_a-zA-Z0-9])#[^\n]*/g] *)
Definition hashComment : re :=
  Seqs [Behind false is_word; Chr 35; Many (NotIn [nl])].

Definition stripComments (code : jsstring) : jsstring := removeAll hashComment code.

(** [/\b([a-zA-Z_][a-zA-Z0-9_]* )=/g] *)
Definition varRegex : re := Seqs [WordB; Grp 1 identifier; Chr 61].

(** [new RegExp(`\\$\\{?${oldName}\\}?`, 'g')] *)
Definition sigilPattern (oldName : jsstring) : re :=
  Seqs [Chr dollar; Opt (Chr 123); Lit oldName; Opt (Chr 125)].

(** The two replacements made for one entry of the map.  A generated name
    starts with an underscore, so the replacement text [$] followed by the
    name holds no replacement pattern. *)
Definition renameOne (res : jsstring) (kv : jsstring * jsstring) : jsstring :=
  let (oldName, newName) := kv in
  let res := replaceAll (VarMap.wordPattern oldName) (fun _ => newName) res in
  replaceAll (sigilPattern oldName) (fun _ => dollar :: newName) res.

(** [renameIdentifiers(code)], on the map of the instance. *)
Definition renameIdentifiers (code : jsstring) (m : VarMap.t) (r : Random)
  : jsstring * VarMap.t * Random :=
  let st := fold_left (fun st h => declareName reserved (str "O0Il1_") (group 1 h) st)
                      (matchAll varRegex code) (m, r) in
  (fold_left renameOne (fst st) code, fst st, snd st).

(** One round of the loop of [injectDeadCode]. *)
Definition injectAfter (line : jsstring) (r : Random) : list jsstring * Random :=
  let (lucky, r1) := randomBelow 100 r in
  if lucky && negb (is_blank line) && negb (startsWith (str "#") (trim line))
  then ([line; str ":"], r1)
  else ([line], r1).

Fixpoint injectLines (ls : list jsstring) (r : Random) : list jsstring * Random :=
  match ls with
  | [] => ([], r)
  | line :: rest =>
    let (out, r1) := injectAfter line r in
    let (outs, r2) := injectLines rest r1 in
    (out ++ outs, r2)
  end.

(** [injectDeadCode(code)] *)
Definition injectDeadCode (code : jsstring) (r : Random) : jsstring * Random :=
  let (out, r') := injectLines (lines code) r in (unlines out, r').

(** [/\b(then|do|else|elif)\s*$/] *)
Definition blockOpener : re :=
  Seqs [WordB;
        Grp 1 (Alts [Lit (str "then"); Lit (str "do"); Lit (str "else"); Lit (str "elif")]);
        Many Space; Eol false].

(** The first loop of [minifyCode]. *)
Fixpoint joinParts (ls : list jsstring) : list jsstring :=
  match ls with
  | [] => []
  | l :: rest =>
    let line := replaceAll (Plus Space) (fun _ => str " ") l in
    let isFullLineComment := startsWith (str "#") line in
    let hasInlineComment :=
      negb isFullLineComment && test (Seq Space (Chr 35)) line in
    let nextIsComment :=
      match rest with
      | nextLine :: _ => startsWith (str "#") (trim nextLine)
      | [] => false
      end in
    let needsNewline := test blockOpener line || endsWith (str "{") line in
    (if isFullLineComment || hasInlineComment || nextIsComment then line ++ [nl]
     else match rest with
          | [] => line
          | _ :: _ => if needsNewline then line ++ [nl] else line ++ str ";"
          end) :: joinParts rest
  end.

(** The second loop of [minifyCode]. *)
Definition keepLine (line : jsstring) : jsstring :=
  if startsWith (str "#") (trim line) then line
  else match indexOf (str " #") line with
       | Some (S i) => firstn (S i) line ++ skipn (S i) line
       | _ => line
       end.

(** [minifyCode(code)] *)
Definition minifyCode (code : jsstring) : jsstring :=
  let ls := filter (fun l => 0 <? length l) (map trim (lines code)) in
  let result := concat (joinParts ls) in
  let result := unlines (map keepLine (lines result)) in
  (* /;+/g *)
  let result := replaceAll (Plus (Chr 59)) (fun _ => str ";") result in
  (* /;\s*$/g *)
  let result := removeAll (Seqs [Chr 59; Many Space; Eol false]) result in
  trim result.

(** [/\$[a-zA-Z_{]/] *)
Definition interpolationMark : re :=
  Seq (Chr dollar) (Cls (fun c => is_alpha c || cu_eqb c 95 || cu_eqb c 123)).

(** [quote === dq && /\$[a-zA-Z_{]/.test(content)] *)
Definition hasInterpolation (original : jsstring) : bool :=
  match original with
  | quote :: _ => cu_eqb quote dq && test interpolationMark (slice1m1 original)
  | [] => false
  end.

(** [/\$\{?([a-zA-Z_][a-zA-Z0-9_]* )\}?/g] *)
Definition interpolatedVar : re :=
  Seqs [Chr dollar; Opt (Chr 123); Grp 1 identifier; Opt (Chr 125)].

(** The renaming of the variables inside an interpolated literal. *)
Definition renameInterpolation (m : VarMap.t) (original : jsstring) : jsstring :=
  replaceAll interpolatedVar
    (fun h =>
       match VarMap.get (group 1 h) m with
       | Some (c :: newName) =>
         if includes (str "{") (matched h)
         then str "${" ++ (c :: newName) ++ str "}"
         else dollar :: c :: newName
       | _ => matched h
       end)
    original.

(** Step 6, the body of the loop: the text put back for one literal. *)
Definition replacement (o : ObfuscationOptions) (m : VarMap.t) (original : jsstring)
  : jsstring :=
  let content := slice1m1 original in
  if hasInterpolation original && renameVariables o then
    renameInterpolation m original
  else if negb (hasInterpolation original)
          && (0 <? length content) && (length content <? 100)
          && cu_eqb (hd 0%N original) dq then
    if base64Strings o then
      str "$(echo '" ++ base64_utf8 content ++ str "'|base64 -d)"
    else if hexEncoding o && encodeStrings o then
      str "$'" ++ toHex content ++ str "'"
    else original
  else original.

Definition restore (o : ObfuscationOptions) (m : VarMap.t)
  (strings : list (entry unit)) (result : jsstring) : jsstring :=
  restoreSplitJoin (fun e => replacement o m (original e)) strings result.

(** [obfuscate(code)] on an instance. *)
Definition obfuscate (o : ObfuscationOptions) (code : jsstring)
  (self : Instance) (r : Random) : jsstring * Instance * Random :=
  let self := clearVarMap self in
  let (shebang, result) := splitShebang code in
  let (result, tbl) := extract result in
  let result := if removeComments o then stripComments result else result in
  let '(result, self, r) :=
    if renameVariables o then
      let '(res, m, r') := renameIdentifiers result (varMap self) r in
      (res, withVarMap m self, r')
    else (result, self, r) in
  let (result, r) :=
    if deadCodeInjection o then injectDeadCode result r else (result, r) in
  let result := if wants_minify o then minifyCode result else result in
  (shebang ++ restore o (varMap self) (fst tbl) result, self, r).

End Bash.

(** ** RustObfuscator (rust.ts) *)

Module Rust.
Import Js Regex Rand Encode Base Protect.

Definition reserved : list jsstring := map str
  ["as"; "async"; "await"; "break"; "const"; "continue"; "crate"; "dyn"; "else";
   "enum"; "extern"; "false"; "fn"; "for"; "if"; "impl"; "in"; "let"; "loop";
   "match"; "mod"; "move"; "mut"; "pub"; "ref"; "return"; "self"; "Self"; "static";
   "struct"; "super"; "trait"; "true"; "type"; "unsafe"; "use"; "where"; "while";
   "i8"; "i16"; "i32"; "i64"; "i128"; "isize"; "u8"; "u16"; "u32"; "u64"; "u128";
   "usize"; "f32"; "f64"; "bool"; "char"; "str"; "String"; "Vec"; "Option"; "Result";
   "Some"; "None"; "Ok"; "Err"; "println"; "print"; "format"; "main"]%string.

(** [`___RUSTSTR_${strIdx}_PLACEHOLDER___`] *)
Definition mkPlaceholder (i : nat) : jsstring :=
  str "___RUSTSTR_" ++ toString10 (N.of_nat i) ++ str "_PLACEHOLDER___".

(** [/r#*dq[\s\S]*?dq#*/g], [dq] the double quote *)
Definition rawString : re :=
  Seqs [Chr 114; Many (Chr 35); Chr dq; Lazy AnyChar; Chr dq; Many (Chr 35)].

(** Step 1: raw strings, then regular strings. *)
Definition extract (code : jsstring) : jsstring * table unit :=
  let (r1, t1) := protect mkPlaceholder (fun _ => tt) rawString code empty in
  protect mkPlaceholder (fun _ => tt) (quoted dq) r1 t1.

(** Step 2: [/\/\*[\s\S]*?\*\//g] and then [/\/\/[^\n]*/g]. *)
Definition stripComments (code : jsstring) : jsstring :=
  let result := removeAll (Seqs [Lit (str "/*"); Lazy AnyChar; Lit (str "*/")]) code in
  removeAll (Seq (Lit (str "//")) (Many (NotIn [nl]))) result.

(** [[a-z_][a-zA-Z0-9_]*] *)
Definition lowerIdentifier : re :=
  Seq (Cls (fun c => is_lower c || cu_eqb c 95)) (Many (Cls is_word)).

(** [/\blet\s+(mut\s+)?([a-z_][a-zA-Z0-9_]* )/g] *)
Definition letRegex : re :=
  Seqs [WordB; Lit (str "let"); Plus Space;
        Opt (Grp 1 (Seq (Lit (str "mut")) (Plus Space)));
        Grp 2 lowerIdentifier].

(** [/\bfn\s+([a-z_][a-zA-Z0-9_]* )/g] *)
Definition fnRegex : re :=
  Seqs [WordB; Lit (str "fn"); Plus Space; Grp 1 lowerIdentifier].

(** [renameIdentifiers(code)], on the map of the instance. *)
Definition renameIdentifiers (code : jsstring) (m : VarMap.t) (r : Random)
  : jsstring * VarMap.t * Random :=
  let st := fold_left (fun st h => declareName reserved (str "O0Il1_") (group 1 h) st)
                      (matchAll fnRegex code) (m, r) in
  let st := fold_left (fun st h => declareName reserved (str "O0Il1_") (group 2 h) st)
                      (matchAll letRegex code) st in
  (VarMap.renameWords (fst st) code, fst st, snd st).

Definition deadStatement : jsstring := str "let _ = 0;".

(** One round of the loop of [injectDeadCode]:
    [if (Math.random() < 0.1 && line.trim().endsWith(';')) result.push('let _ = 0;')] *)
Definition injectAfter (line : jsstring) (r : Random) : list jsstring * Random :=
  let (lucky, r1) := randomBelow 100 r in
  if lucky && endsWith (str ";") (trim line)
  then ([line; deadStatement], r1)
  else ([line], r1).

Fixpoint injectLines (ls : list jsstring) (r : Random) : list jsstring * Random :=
  match ls with
  | [] => ([], r)
  | line :: rest =>
    let (out, r1) := injectAfter line r in
    let (outs, r2) := injectLines rest r1 in
    (out ++ outs, r2)
  end.

(** [injectDeadCode(code)] *)
Definition injectDeadCode (code : jsstring) (r : Random) : jsstring * Random :=
  let (out, r') := injectLines (lines code) r in (unlines out, r').

(** Step 5, the body of the loop. *)
Definition replacement (o : ObfuscationOptions) (original : jsstring) : jsstring :=
  if negb (startsWith (str "r") original) then
    let content := slice1m1 original in
    if (0 <? length content) && (length content <? 100) then
      if hexEncoding o && encodeStrings o then [dq] ++ toHex content ++ [dq]
      else original
    else original
  else original.

Definition restore (o : ObfuscationOptions) (strings : list (entry unit))
  (result : jsstring) : jsstring :=
  restoreSplitJoin (fun e => replacement o (original e)) strings result.

(** The first loop of [minifyCode]. *)
Fixpoint joinParts (ls : list jsstring) : list jsstring :=
  match ls with
  | [] => []
  | l :: rest =>
    let line := replaceAll (Plus Space) (fun _ => str " ") l in
    let isFullLineComment := startsWith (str "//") line in
    let hasInlineComment :=
      negb isFullLineComment && test (Seq Space (Lit (str "//"))) line in
    let nextIsComment :=
      match rest with
      | nextLine :: _ => startsWith (str "//") (trim nextLine)
      | [] => false
      end in
    let endsWithBrace := endsWith (str "}") line || endsWith (str "{") line in
    (if isFullLineComment || hasInlineComment || nextIsComment then line ++ [nl]
     else if endsWithBrace then line ++ [nl]
     else match rest with
          | [] => line
          | _ :: _ => line ++ str " "
          end) :: joinParts rest
  end.

Definition compress (code : jsstring) : jsstring :=
  (* /\s*([;,=])\s*/g, '$1' *)
  let compressed := replaceAll
    (Seqs [Many Space; Grp 1 (OneOf (str ";,=")); Many Space]) (group 1) code in
  (* /\b(fn|let|mut|if|else|for|while|return|pub|struct|impl|use)\b(?=[^\s])/g, '$1 ' *)
  replaceAll
    (Seqs [WordB;
           Grp 1 (Alts (map (fun k => Lit (str k))
                   ["fn"; "let"; "mut"; "if"; "else"; "for"; "while"; "return";
                    "pub"; "struct"; "impl"; "use"]%string));
           WordB; Ahead true NonSpace])
    (fun h => group 1 h ++ str " ") compressed.

Definition compressLine (line : jsstring) : jsstring :=
  if startsWith (str "//") (trim line) then line
  else match indexOf (str " //") line with
       | Some (S i) => compress (firstn (S i) line) ++ skipn (S i) line
       | _ => compress line
       end.

(** [minifyCode(code)] *)
Definition minifyCode (code : jsstring) : jsstring :=
  let ls := filter (fun l => 0 <? length l) (map trim (lines code)) in
  let result := concat (joinParts ls) in
  trim (unlines (map compressLine (lines result))).

(** [obfuscate(code)] on an instance. *)
Definition obfuscate (o : ObfuscationOptions) (code : jsstring)
  (self : Instance) (r : Random) : jsstring * Instance * Random :=
  let self := clearVarMap self in
  let (result, tbl) := extract code in
  let result := if removeComments o then stripComments result else result in
  let '(result, self, r) :=
    if renameVariables o then
      let '(res, m, r') := renameIdentifiers result (varMap self) r in
      (res, withVarMap m self, r')
    else (result, self, r) in
  let (result, r) :=
    if deadCodeInjection o then injectDeadCode result r else (result, r) in
  let result := restore o (fst tbl) result in
  let result := if wants_minify o then minifyCode result else result in
  (result, self, r).

End Rust.

(** ** PerlObfuscator (perl.ts) *)

Module Perl.
Import Js Regex Rand Encode Base Protect.

Definition reserved : list jsstring := map str
  ["if"; "elsif"; "else"; "unless"; "while"; "until"; "for"; "foreach"; "do";
   "last"; "next"; "redo"; "goto"; "return"; "sub"; "my"; "our"; "local"; "use";
   "no"; "require"; "package"; "BEGIN"; "END"; "print"; "say"; "die"; "warn";
   "open"; "close"; "read"; "write"; "push"; "pop"; "shift"; "unshift"; "chomp";
   "chop"; "split"; "join"; "sort"; "reverse"; "map"; "grep"; "scalar"; "ref";
   "defined"; "undef"; "exists"; "delete"; "keys"; "values"; "each"; "length"]%string.

(** [`___PLSTR_${strIdx}_PLACEHOLDER___`] *)
Definition mkPlaceholder (i : nat) : jsstring :=
  str "___PLSTR_" ++ toString10 (N.of_nat i) ++ str "_PLACEHOLDER___".

(** Step 1: single-quoted strings, then double-quoted strings. *)
Definition extract (code : jsstring) : jsstring * table unit :=
  let (r1, t1) := protect mkPlaceholder (fun _ => tt) (quoted sq) code empty in
  protect mkPlaceholder (fun _ => tt) (quoted dq) r1 t1.

(** [/^=\w+[\s\S]*?^=cut\s*$/gm] *)
Definition pod : re :=
  Seqs [Bol true; Chr 61; Plus Word; Lazy AnyChar; Bol true; Lit (str "=cut");
        Many Space; Eol true].

(** Step 2: [/(?<![_a-zA-Z0-9])#[^\n]*/g], then the POD blocks. *)
Definition stripComments (code : jsstring) : jsstring :=
  removeAll pod (removeAll Bash.hashComment code).

(** [/\bmy\s+\$([a-zA-Z_][a-zA-Z0-9_]* )/g] *)
Definition myRegex : re :=
  Seqs [WordB; Lit (str "my"); Plus Space; Chr dollar; Grp 1 identifier].

(** [/\bsub\s+([a-zA-Z_][a-zA-Z0-9_]* )/g] *)
Definition subRegex : re :=
  Seqs [WordB; Lit (str "sub"); Plus Space; Grp 1 identifier].

(** The two replacements made for one entry of the map:
    [/\$oldName\b/g] by [$newName], then [/\boldName\b/g] by [newName]. *)
Definition renameOne (res : jsstring) (kv : jsstring * jsstring) : jsstring :=
  let (oldName, newName) := kv in
  let res := replaceAll (Seqs [Chr dollar; Lit oldName; WordB])
                        (fun _ => dollar :: newName) res in
  replaceAll (VarMap.wordPattern oldName) (fun _ => newName) res.

(** [renameIdentifiers(code)], on the map of the instance. *)
Definition renameIdentifiers (code : jsstring) (m : VarMap.t) (r : Random)
  : jsstring * VarMap.t * Random :=
  let st := fold_left (fun st h => declareName reserved (str "O0Il1_") (group 1 h) st)
                      (matchAll subRegex code) (m, r) in
  let st := fold_left (fun st h => declareName reserved (str "O0Il1_") (group 1 h) st)
                      (matchAll myRegex code) st in
  (fold_left renameOne (fst st) code, fst st, snd st).

(** One round of the loop of [injectDeadCode]. *)
Definition injectAfter (line : jsstring) (r : Random) : list jsstring * Random :=
  let (lucky, r1) := randomBelow 100 r in
  if lucky && endsWith (str ";") (trim line) && negb (startsWith (str "#") (trim line))
  then ([line; str "1;"], r1)
  else ([line], r1).

Fixpoint injectLines (ls : list jsstring) (r : Random) : list jsstring * Random :=
  match ls with
  | [] => ([], r)
  | line :: rest =>
    let (out, r1) := injectAfter line r in
    let (outs, r2) := injectLines rest r1 in
    (out ++ outs, r2)
  end.

(** [injectDeadCode(code)] *)
Definition injectDeadCode (code : jsstring) (r : Random) : jsstring * Random :=
  let (out, r') := injectLines (lines code) r in (unlines out, r').

(** The first loop of [minifyCode]. *)
Fixpoint joinParts (ls : list jsstring) : list jsstring :=
  match ls with
  | [] => []
  | l :: rest =>
    let line := replaceAll (Plus Space) (fun _ => str " ") l in
    let isFullLineComment := startsWith (str "#") line in
    let hasInlineComment :=
      negb isFullLineComment && test (Seq Space (Chr 35)) line in
    let nextIsComment :=
      match rest with
      | nextLine :: _ => startsWith (str "#") (trim nextLine)
      | [] => false
      end in
    let endsWithBrace := endsWith (str "}") line || endsWith (str "{") line in
    (if isFullLineComment || hasInlineComment || nextIsComment || endsWithBrace
     then line ++ [nl]
     else match rest with
          | [] => line
          | _ :: _ => line ++ str " "
          end) :: joinParts rest
  end.

Definition compress (code : jsstring) : jsstring :=
  (* /\s*([;,=])\s*/g, '$1' *)
  let compressed := replaceAll
    (Seqs [Many Space; Grp 1 (OneOf (str ";,=")); Many Space]) (group 1) code in
  (* /\b(sub|my|if|else|for|foreach|while|return|use)\b(?=[^\s])/g, '$1 ' *)
  replaceAll
    (Seqs [WordB;
           Grp 1 (Alts (map (fun k => Lit (str k))
                   ["sub"; "my"; "if"; "else"; "for"; "foreach"; "while"; "return";
                    "use"]%string));
           WordB; Ahead true NonSpace])
    (fun h => group 1 h ++ str " ") compressed.

Definition compressLine (line : jsstring) : jsstring :=
  if startsWith (str "#") (trim line) then line
  else match search (Seq Space (Chr 35)) [] line with
       | Some (S i) => compress (firstn (S i) line) ++ skipn (S i) line
       | _ => compress line
       end.

(** [minifyCode(code)] *)
Definition minifyCode (code : jsstring) : jsstring :=
  let ls := filter (fun l => 0 <? length l) (map trim (lines code)) in
  let result := concat (joinParts ls) in
  trim (unlines (map compressLine (lines result))).

(** [quote === dq && /\$[a-zA-Z_]/.test(content)] *)
Definition hasInterpolation (original : jsstring) : bool :=
  match original with
  | quote :: _ =>
    cu_eqb quote dq
    && test (Seq (Chr dollar) (Cls (fun c => is_alpha c || cu_eqb c 95)))
            (slice1m1 original)
  | [] => false
  end.

(** [replacement.replace(/\$([a-zA-Z_][a-zA-Z0-9_]* )/g, ...)] *)
Definition renameInterpolation (m : VarMap.t) (original : jsstring) : jsstring :=
  replaceAll (Seq (Chr dollar) (Grp 1 identifier))
    (fun h =>
       match VarMap.get (group 1 h) m with
       | Some (c :: newName) => dollar :: c :: newName
       | _ => matched h
       end)
    original.

(** The encoding branch of Step 6 is entered for a double-quoted literal
    without interpolation whose content has 1 to 99 code units. *)
Definition encodable (original : jsstring) : bool :=
  let content := slice1m1 original in
  negb (hasInterpolation original)
  && (0 <? length content) && (length content <? 100)
  && cu_eqb (hd 0%N original) dq.

(** Step 6, the body of the loop: the text put back for one literal. *)
Definition replacement (o : ObfuscationOptions) (m : VarMap.t) (original : jsstring)
  : jsstring :=
  let content := slice1m1 original in
  if hasInterpolation original && renameVariables o then
    renameInterpolation m original
  else if encodable original then
    if base64Strings o then
      str "decode_base64('" ++ base64_utf8 content ++ str "')"
    else if hexEncoding o && encodeStrings o then
      [dq] ++ toHex content ++ [dq]
    else original
  else original.

(** [needsBase64Module] after the loop: some literal took the base64 branch. *)
Definition needsBase64Module (o : ObfuscationOptions) (strings : list (entry unit)) : bool :=
  existsb (fun e =>
             negb (hasInterpolation (original e) && renameVariables o)
             && (encodable (original e) && base64Strings o))
          strings.

(** Step 6 and the import that follows it. *)
Definition restore (o : ObfuscationOptions) (m : VarMap.t)
  (strings : list (entry unit)) (result : jsstring) : jsstring :=
  let result := restoreSplitJoin (fun e => replacement o m (original e)) strings result in
  if needsBase64Module o strings then str "use MIME::Base64;" ++ [nl] ++ result
  else result.

(** [obfuscate(code)] on an instance. *)
Definition obfuscate (o : ObfuscationOptions) (code : jsstring)
  (self : Instance) (r : Random) : jsstring * Instance * Random :=
  let self := clearVarMap self in
  let (result, tbl) := extract code in
  let result := if removeComments o then stripComments result else result in
  let '(result, self, r) :=
    if renameVariables o then
      let '(res, m, r') := renameIdentifiers result (varMap self) r in
      (res, withVarMap m self, r')
    else (result, self, r) in
  let (result, r) :=
    if deadCodeInjection o then injectDeadCode result r else (result, r) in
  let result := if wants_minify o then minifyCode result else result in
  (restore o (varMap self) (fst tbl) result, self, r).

End Perl.

(** ** CssObfuscator (css.ts)

    The handler works on the [variableMap] and the [counter] it inherits
    from [BaseObfuscator]; [getVariableMap] and [setVariableMap] share the
    map with the HTML handler. *)

Module Css.
Import Js Regex Rand Encode Base Protect.

(** [generateObfuscatedName()]: one character of [OoIl], five of [OoIl10],
    the counter advanced, and the new counter appended. *)
Definition generateObfuscatedName (st : BaseState) (r : Random)
  : jsstring * BaseState * Random :=
  let (first, r1) := randomChar (str "OoIl") r in
  let (more, r2) := randomChars 5 (str "OoIl10") r1 in
  let c := S (counter st) in
  (first ++ more ++ toString10 (N.of_nat c),
   {| variableMap := variableMap st; counter := c |}, r2).

(** [[a-zA-Z_-][a-zA-Z0-9_-]*] *)
Definition selectorName : re :=
  Seq (Cls (fun c => is_alpha c || cu_eqb c 95 || cu_eqb c 45))
      (Many (Cls (fun c => is_word c || cu_eqb c 45))).

(** [/\.([a-zA-Z_-][a-zA-Z0-9_-]* )/g] *)
Definition classRegex : re := Seq (Chr 46) (Grp 1 selectorName).

(** [/#([a-zA-Z_-][a-zA-Z0-9_-]* )/g] *)
Definition idRegex : re := Seq (Chr 35) (Grp 1 selectorName).

(** [if (!this.variableMap.has(name)) this.variableMap.set(name, this.generateObfuscatedName())] *)
Definition declare (name : jsstring) (s : BaseState * Random) : BaseState * Random :=
  let (st, r) := s in
  if negb (VarMap.has name (variableMap st)) then
    let '(fresh, st1, r1) := generateObfuscatedName st r in
    ({| variableMap := VarMap.set name fresh (variableMap st1); counter := counter st1 |}, r1)
  else s.

(** The two replacements made for one entry of the map; [escapeRegex] makes
    the old name a literal pattern, and the new name is a replacement
    template. *)
Definition renameOne (res : jsstring) (kv : jsstring * jsstring) : jsstring :=
  let (oldName, newName) := kv in
  let res := replaceTemplate (Seqs [Chr 46; Lit oldName; WordB]) (46%N :: newName) res in
  replaceTemplate (Seqs [Chr 35; Lit oldName; WordB]) (35%N :: newName) res.

(** [renameSelectors(code)] *)
Definition renameSelectors (code : jsstring) (st : BaseState) (r : Random)
  : jsstring * BaseState * Random :=
  let s := fold_left (fun s h => declare (group 1 h) s) (matchAll classRegex code) (st, r) in
  let s := fold_left (fun s h => declare (group 1 h) s) (matchAll idRegex code) s in
  (fold_left renameOne (variableMap (fst s)) code, fst s, snd s).

Definition colorMap : list (jsstring * jsstring) :=
  map (fun p => (str (fst p), str (snd p)))
    [("white", "#fff"); ("black", "#000"); ("red", "#f00"); ("green", "#0f0");
     ("blue", "#00f"); ("yellow", "#ff0"); ("cyan", "#0ff"); ("magenta", "#f0f");
     ("gray", "#808080"); ("grey", "#808080"); ("orange", "#ffa500");
     ("purple", "#800080"); ("pink", "#ffc0cb"); ("brown", "#a52a2a");
     ("silver", "#c0c0c0"); ("gold", "#ffd700"); ("navy", "#000080");
     ("teal", "#008080")]%string.

(** [obfuscateColors(code)]: [new RegExp(`:\\s*${name}\\b`, 'gi')] by [`:${hex}`] *)
Definition obfuscateColors (code : jsstring) : jsstring :=
  fold_left
    (fun res nh =>
       replaceAll (Seqs [Chr 58; Many Space; LitI (fst nh); WordB])
                  (fun _ => 58%N :: snd nh) res)
    colorMap code.

(** [\s*c\s*] replaced by [c] *)
Definition tighten (c : cu) (s : jsstring) : jsstring :=
  replaceAll (Seqs [Many Space; Chr c; Many Space]) (fun _ => [c]) s.

(** [minifyCss(code)] *)
Definition minifyCss (code : jsstring) : jsstring :=
  let result := replaceAll (Plus Space) (fun _ => str " ") code in
  let result := tighten 123 result in
  let result := tighten 125 result in
  let result := tighten 58 result in
  let result := tighten 59 result in
  let result := tighten 44 result in
  let result := replaceAll (Lit (str ";}")) (fun _ => str "}") result in
  trim result.

Definition properties : list jsstring := map str
  ["display:none"; "visibility:hidden"; "opacity:0"; "position:absolute";
   "left:-9999px"; "width:0"; "height:0"]%string.

Fixpoint junkRules (n : nat) (st : BaseState) (r : Random)
  : jsstring * BaseState * Random :=
  match n with
  | O => ([], st, r)
  | S n' =>
    let '(className, st1, r1) := generateObfuscatedName st r in
    let (i, r2) := randomIndex (length properties) r1 in
    let rule := str "." ++ className ++ str "{" ++ nth i properties [] ++ str "}" in
    let '(rules, st2, r3) := junkRules n' st1 r2 in
    (rule ++ rules, st2, r3)
  end.

(** [addJunkRules(code)] *)
Definition addJunkRules (o : ObfuscationOptions) (code : jsstring) (st : BaseState)
  (r : Random) : jsstring * BaseState * Random :=
  let '(rules, st', r') := junkRules (getIntensityMultiplier o * 2) st r in
  (code ++ rules, st', r').

Definition is_low (i : Intensity) : bool :=
  match i with low => true | _ => false end.

(** [obfuscate(code)] on an instance. *)
Definition obfuscate (o : ObfuscationOptions) (code : jsstring)
  (self : BaseState) (r : Random) : jsstring * BaseState * Random :=
  let result :=
    if removeComments o
    then removeAll (Seqs [Lit (str "/*"); Lazy AnyChar; Lit (str "*/")]) code
    else code in
  let '(result, self, r) :=
    if renameVariables o then renameSelectors result self r else (result, self, r) in
  let result := if encodeStrings o then obfuscateColors result else result in
  let result := if wants_minify o then minifyCss result else result in
  if deadCodeInjection o && negb (is_low (intensity o))
  then addJunkRules o result self r
  else (result, self, r).

(** [getVariableMap()] *)
Definition getVariableMap (self : BaseState) : VarMap.t := variableMap self.

(** [setVariableMap(map)] *)
Definition setVariableMap (m : VarMap.t) (self : BaseState) : BaseState :=
  {| variableMap := fold_left (fun acc kv => VarMap.set (fst kv) (snd kv) acc) m
                      (variableMap self);
     counter := counter self |}.

End Css.

(** ** GenericObfuscator (generic.ts) *)

Module Generic.
Import Js Regex Rand Encode Base Protect.

(** [`___GENSTR_${strIdx}___`] *)
Definition mkPlaceholder (i : nat) : jsstring :=
  str "___GENSTR_" ++ toString10 (N.of_nat i) ++ str "___".

(** Three double quotes, any text (lazily), three double quotes; or the
    same with single quotes. *)
Definition tripleQuoted : re :=
  Alt (Seqs [Lit [dq; dq; dq]; Lazy AnyChar; Lit [dq; dq; dq]])
      (Seqs [Lit [sq; sq; sq]; Lazy AnyChar; Lit [sq; sq; sq]]).

(** Step 1: the four literal forms in order; the metadata of an entry is
    its [quote]. *)
Definition extract (code : jsstring) : jsstring * table jsstring :=
  let (r1, t1) := protect mkPlaceholder (fun m => firstn 3 m) tripleQuoted code empty in
  let (r2, t2) := protect mkPlaceholder (fun _ => [bq]) (quoted bq) r1 t1 in
  let (r3, t3) := protect mkPlaceholder (fun _ => [dq]) (quoted dq) r2 t2 in
  protect mkPlaceholder (fun _ => [sq]) (quoted sq) r3 t3.

(** Step 2: the five comment forms. *)
Definition stripComments (code : jsstring) : jsstring :=
  (* /\/\*[\s\S]*?\*\//g *)
  let result := removeAll (Seqs [Lit (str "/*"); Lazy AnyChar; Lit (str "*/")]) code in
  (* /\/\/[^\n]*/g *)
  let result := removeAll (Seq (Lit (str "//")) (Many (NotIn [nl]))) result in
  (* /#[^\n]*/g *)
  let result := removeAll (Seq (Chr 35) (Many (NotIn [nl]))) result in
  (* /--[^\n]*/g *)
  let result := removeAll (Seq (Lit (str "--")) (Many (NotIn [nl]))) result in
  (* /<!--[\s\S]*?-->/g *)
  removeAll (Seqs [Lit (str "<!--"); Lazy AnyChar; Lit (str "-->")]) result.

(** The two declaration patterns, both with the flags [gi]. *)
Definition patterns : list re :=
  [Seqs [WordB;
         Grp 1 (Alts (map (fun k => LitI (str k))
                 ["var"; "let"; "const"; "val"; "def"; "dim"; "local"; "my"; "our"]%string));
         Plus Space; Grp 2 identifier];
   Seqs [WordB;
         Grp 1 (Alts (map (fun k => LitI (str k))
                 ["int"; "float"; "double"; "string"; "bool"; "boolean"; "char";
                  "void"]%string));
         Plus Space; Grp 2 identifier]].

Definition reserved : list jsstring := map str
  ["if"; "else"; "for"; "while"; "do"; "switch"; "case"; "break"; "continue"; "return";
   "function"; "def"; "class"; "struct"; "enum"; "interface"; "trait"; "type";
   "import"; "export"; "from"; "require"; "include"; "use"; "package"; "module";
   "public"; "private"; "protected"; "static"; "final"; "const"; "var"; "let"; "val";
   "true"; "false"; "null"; "nil"; "none"; "undefined"; "void";
   "new"; "this"; "self"; "super"; "extends"; "implements"; "with";
   "try"; "catch"; "finally"; "throw"; "throws"; "raise"; "except";
   "async"; "await"; "yield"; "lambda"; "fn"; "proc"; "sub";
   "print"; "println"; "echo"; "console"; "log"; "write"; "read"; "input"; "output";
   "main"; "init"; "setup"; "run"; "start"; "stop"; "exit"; "quit";
   "and"; "or"; "not"; "in"; "is"; "as"; "typeof"; "instanceof"]%string.

(** [name.toLowerCase()] for an identifier. *)
Definition toLowerCase (s : jsstring) : jsstring :=
  map (fun c => if is_upper c then (c + 32)%N else c) s.

(** [generateObfuscatedName()]: the counter of the instance is advanced. *)
Definition generateObfuscatedName (st : BaseState) (r : Random)
  : jsstring * BaseState * Random :=
  let (first, r1) := randomChar (str "OoIl") r in
  let (more, r2) := randomChars 5 (str "OoIl10") r1 in
  let c := S (counter st) in
  (str "_" ++ first ++ more ++ toString10 (N.of_nat c),
   {| variableMap := variableMap st; counter := c |}, r2).

(** The body of the declaration loop, on the local [varMap]. *)
Definition declare (name : jsstring) (s : VarMap.t * BaseState * Random)
  : VarMap.t * BaseState * Random :=
  let '(m, st, r) := s in
  if (0 <? length name) && negb (VarMap.isReserved reserved (toLowerCase name))
     && negb (VarMap.has name m) && (1 <? length name) then
    let '(fresh, st1, r1) := generateObfuscatedName st r in
    (VarMap.set name fresh m, st1, r1)
  else s.

(** [renameIdentifiers(code)] *)
Definition renameIdentifiers (code : jsstring) (st : BaseState) (r : Random)
  : jsstring * BaseState * Random :=
  let '(m, st', r') :=
    fold_left (fun s pattern =>
                 fold_left (fun s h => declare (group 2 h) s) (matchAll pattern code) s)
              patterns ([], st, r) in
  (VarMap.renameWords m code, st', r').

Definition is_simple_quote (quote : jsstring) : bool :=
  str_eqb quote [dq] || str_eqb quote [sq].

(** Step 4, the body of the loop. *)
Definition replacement (o : ObfuscationOptions) (e : entry jsstring) : jsstring :=
  if encodeStrings o && is_simple_quote (meta e) then
    let content := slice1m1 (original e) in
    if (0 <? length content) && (length content <? 80)
       && negb (includes (str "$") content)
    then meta e ++ toUnicode content ++ meta e
    else original e
  else original e.

Definition restore (o : ObfuscationOptions) (strings : list (entry jsstring))
  (result : jsstring) : jsstring :=
  restoreSplitJoin (replacement o) strings result.

(** [minifyCode(code)] *)
Definition minifyCode (code : jsstring) : jsstring :=
  unlines (filter (fun l => 0 <? length l) (map trim (lines code))).

(** [obfuscate(code)] on an instance. *)
Definition obfuscate (o : ObfuscationOptions) (code : jsstring)
  (self : BaseState) (r : Random) : jsstring * BaseState * Random :=
  let (result, tbl) := extract code in
  let result := if removeComments o then stripComments result else result in
  let '(result, self, r) :=
    if renameVariables o then renameIdentifiers result self r else (result, self, r) in
  let result := restore o (fst tbl) result in
  let result := if wants_minify o then minifyCode result else result in
  (result, self, r).

End Generic.

(** ** The factory (index.ts) *)

Module Index.
Import Js Regex Rand.

(** The handler classes the factory can construct. *)
Inductive Handler : Type :=
| JavaScriptObfuscator | PythonObfuscator | JavaObfuscator | CppObfuscator
| CSharpObfuscator | GoObfuscator | PhpObfuscator | RubyObfuscator
| RustObfuscator | PowerShellObfuscator | BashObfuscator | LuaObfuscator
| PerlObfuscator | ScalaObfuscator | DartObfuscator | GroovyObfuscator
| SqlObfuscator | HtmlObfuscator | CssObfuscator | GenericObfuscator.

(** [Partial<ObfuscationOptions>]: a key may be absent ([None]), and a key
    that is present may hold [undefined] ([Some None]), which the type
    allows as well as a value. *)
Record PartialOptions : Type := {
  p_renameVariables : option (option bool);
  p_encodeStrings : option (option bool);
  p_removeComments : option (option bool);
  p_controlFlowFlattening : option (option bool);
  p_deadCodeInjection : option (option bool);
  p_unicodeEscape : option (option bool);
  p_hexEncoding : option (option bool);
  p_base64Strings : option (option bool);
  p_shuffleCode : option (option bool);
  p_minify : option (option bool);
  p_intensity : option (option Intensity)
}.

(** [{}], the default of the parameter [options]. *)
Definition noOverrides : PartialOptions :=
  {| p_renameVariables := None; p_encodeStrings := None; p_removeComments := None;
     p_controlFlowFlattening := None; p_deadCodeInjection := None;
     p_unicodeEscape := None; p_hexEncoding := None; p_base64Strings := None;
     p_shuffleCode := None; p_minify := None; p_intensity := None |}.

(** One key of [{ ...defaultOptions, ...options }]: a key of [options]
    overrides the default whatever it holds; [undefined] is falsy. *)
Definition spreadSwitch (d : bool) (k : option (option bool)) : bool :=
  match k with
  | None => d
  | Some (Some v) => v
  | Some None => false
  end.

Definition spreadIntensity (d : Intensity) (k : option (option Intensity)) : Intensity :=
  match k with
  | None => d
  | Some (Some v) => v
  | Some None => unset
  end.

(** [{ ...defaultOptions, ...options }] *)
Definition mergeOptions (d : ObfuscationOptions) (p : PartialOptions) : ObfuscationOptions :=
  {| renameVariables := spreadSwitch (renameVariables d) (p_renameVariables p);
     encodeStrings := spreadSwitch (encodeStrings d) (p_encodeStrings p);
     removeComments := spreadSwitch (removeComments d) (p_removeComments p);
     controlFlowFlattening :=
       spreadSwitch (controlFlowFlattening d) (p_controlFlowFlattening p);
     deadCodeInjection := spreadSwitch (deadCodeInjection d) (p_deadCodeInjection p);
     unicodeEscape := spreadSwitch (unicodeEscape d) (p_unicodeEscape p);
     hexEncoding := spreadSwitch (hexEncoding d) (p_hexEncoding p);
     base64Strings := spreadSwitch (base64Strings d) (p_base64Strings p);
     shuffleCode := spreadSwitch (shuffleCode d) (p_shuffleCode p);
     minify := spreadSwitch (minify d) (p_minify p);
     intensity := spreadIntensity (intensity d) (p_intensity p) |}.

(** What the expression [map[language]] can evaluate to.  The language
    tag is a string at run time, and the record is an object literal: a
    key it does not own is looked up in its prototype, [Object.prototype]. *)
Inductive Value : Type :=
| HandlerClass (h : Handler)
| ObjectFunction        (* the constructor [Object] *)
| BuiltinMethod         (* a method of [Object.prototype]: a function, no constructor *)
| PrototypeObject       (* [Object.prototype], the value of [__proto__] *)
| undefined.

(** The record [map] of [createObfuscator]: nineteen keys of its own. *)
Definition map : list (jsstring * Handler) :=
  [(str "javascript", JavaScriptObfuscator); (str "python", PythonObfuscator);
   (str "java", JavaObfuscator); (str "cpp", CppObfuscator);
   (str "csharp", CSharpObfuscator); (str "go", GoObfuscator);
   (str "php", PhpObfuscator); (str "ruby", RubyObfuscator);
   (str "rust", RustObfuscator); (str "powershell", PowerShellObfuscator);
   (str "bash", BashObfuscator); (str "lua", LuaObfuscator);
   (str "perl", PerlObfuscator); (str "scala", ScalaObfuscator);
   (str "dart", DartObfuscator); (str "groovy", GroovyObfuscator);
   (str "sql", SqlObfuscator); (str "html", HtmlObfuscator);
   (str "css", CssObfuscator)].

(** The properties of [Object.prototype] (ECMAScript 20.1.3 and B.2.2). *)
Definition objectPrototype : list (jsstring * Value) :=
  [(str "constructor", ObjectFunction);
   (str "hasOwnProperty", BuiltinMethod);
   (str "isPrototypeOf", BuiltinMethod);
   (str "propertyIsEnumerable", BuiltinMethod);
   (str "toLocaleString", BuiltinMethod);
   (str "toString", BuiltinMethod);
   (str "valueOf", BuiltinMethod);
   (str "__proto__", PrototypeObject);
   (str "__defineGetter__", BuiltinMethod);
   (str "__defineSetter__", BuiltinMethod);
   (str "__lookupGetter__", BuiltinMethod);
   (str "__lookupSetter__", BuiltinMethod)].

Fixpoint lookup {V : Type} (key : jsstring) (m : list (jsstring * V)) : option V :=
  match m with
  | [] => None
  | (k, v) :: m' => if str_eqb k key then Some v else lookup key m'
  end.

(** [map[language]]: an own key first, then the prototype. *)
Definition get (language : jsstring) : Value :=
  match lookup language map with
  | Some c => HandlerClass c
  | None =>
    match lookup language objectPrototype with
    | Some v => v
    | None => undefined
    end
  end.

(** A tag is a recognized key when the record has an entry of its own for
    it. *)
Definition recognized (language : jsstring) : bool :=
  match lookup language map with Some _ => true | None => false end.

(** [v || GenericObfuscator]: every value above but [undefined] is truthy. *)
Definition orGeneric (v : Value) : Value :=
  match v with
  | undefined => HandlerClass GenericObfuscator
  | _ => v
  end.

Inductive Exception : Type := TypeError | SyntaxError | OtherError.

(** The completion of a call: a value returned, or an exception thrown. *)
Inductive Completion (A : Type) : Type :=
| Normal (a : A)
| Throw (e : Exception).
Arguments Normal {A} _.
Arguments Throw {A} _.

(** What [new Ctor(opts)] gives: an instance of a handler class holding
    the options, or, for [new Object(opts)], the options object itself,
    which has no method [obfuscate]. *)
Inductive Created : Type :=
| Obfuscator (h : Handler) (opts : ObfuscationOptions)
| OptionsObject (opts : ObfuscationOptions).

(** [new Ctor(opts)]: a value that is no constructor makes [new] throw a
    TypeError. *)
Definition construct (Ctor : Value) (opts : ObfuscationOptions) : Completion Created :=
  match Ctor with
  | HandlerClass h => Normal (Obfuscator h opts)
  | ObjectFunction => Normal (OptionsObject opts)
  | BuiltinMethod | PrototypeObject | undefined => Throw TypeError
  end.

(** [createObfuscator(language, options)] *)
Definition createObfuscator (language : jsstring) (options : PartialOptions)
  : Completion Created :=
  let opts := mergeOptions defaultOptions options in
  let Ctor := orGeneric (get language) in
  construct Ctor opts.

Section ObfuscateCode.

(** The JavaScript engine's [RegExp] constructor, which throws a
    SyntaxError ([None]) on a malformed pattern, and the [obfuscate]
    methods of the classes that are not embedded here. *)
Variable compileRegExp : jsstring -> option re.
Variable otherObfuscate :
  Handler -> ObfuscationOptions -> jsstring -> Random -> Completion (jsstring * Random).

Definition dropState {S : Type} (x : jsstring * S * Random)
  : Completion (jsstring * Random) :=
  let '(out, _, r) := x in Normal (out, r).

(** [obfuscator.obfuscate(code)] on an instance just constructed. *)
Definition callObfuscate (h : Handler) (opts : ObfuscationOptions)
  (code : jsstring) (r : Random) : Completion (jsstring * Random) :=
  match h with
  | JavaScriptObfuscator =>
    match JavaScript.obfuscate compileRegExp opts code r with
    | Some out => Normal out
    | None => Throw SyntaxError
    end
  | LuaObfuscator => dropState (Lua.obfuscate opts code newInstance r)
  | BashObfuscator => dropState (Bash.obfuscate opts code newInstance r)
  | RustObfuscator => dropState (Rust.obfuscate opts code newInstance r)
  | PerlObfuscator => dropState (Perl.obfuscate opts code newInstance r)
  | CssObfuscator => dropState (Css.obfuscate opts code newBaseState r)
  | GenericObfuscator => dropState (Generic.obfuscate opts code newBaseState r)
  | _ => otherObfuscate h opts code r
  end.

(** [obfuscateCode(code, language, options)]: the method [obfuscate] of
    what [createObfuscator] returned is called; on the options object it is
    [undefined], and the call throws a TypeError. *)
Definition obfuscateCode (code : jsstring) (language : jsstring)
  (options : PartialOptions) (r : Random) : Completion (jsstring * Random) :=
  match createObfuscator language options with
  | Normal (Obfuscator h opts) => callObfuscate h opts code r
  | Normal (OptionsObject _) => Throw TypeError
  | Throw e => Throw e
  end.

End ObfuscateCode.

End Index.

(** ** BaseObfuscator (base.ts): the name generators *)

Module BaseNames.
Import Js Rand Base.

(** [['_', '$', 'O', '0', 'l', 'I', '1']] *)
Definition varChars : jsstring := str "_$O0lI1".

(** [generateVarName()]: one of the first two characters, then
    [4 + Math.floor(Math.random() * intensity * 4)] characters of the
    seven, the counter advanced, and the new counter in base 36. *)
Definition generateVarName (o : ObfuscationOptions) (st : BaseState) (r : Random)
  : jsstring * BaseState * Random :=
  let intensity := getIntensityMultiplier o in
  let (i, r1) := randomIndex 2 r in
  let first := match nth_error varChars i with Some c => [c] | None => [] end in
  let (k, r2) := randomIndex (intensity * 4) r1 in
  let (body, r3) := randomChars (4 + k) varChars r2 in
  let c := S (counter st) in
  (first ++ body ++ toStringRadix 36 (N.of_nat c),
   {| variableMap := variableMap st; counter := c |}, r3).

(** The eight Cyrillic letters that look like Latin ones:
    U+0430, U+0435, U+043E, U+0440, U+0441, U+0443, U+0445, U+0456. *)
Definition confusingChars : jsstring :=
  [1072; 1077; 1086; 1088; 1089; 1091; 1093; 1110]%N.

(** [generateUnicodeVarName()]: an underscore, then
    [5 + Math.floor(Math.random() * 5)] of the eight letters, the counter
    advanced, and the new counter in decimal. *)
Definition generateUnicodeVarName (st : BaseState) (r : Random)
  : jsstring * BaseState * Random :=
  let (k, r1) := randomIndex 5 r in
  let (body, r2) := randomChars (5 + k) confusingChars r1 in
  let c := S (counter st) in
  (str "_" ++ body ++ toString10 (N.of_nat c),
   {| variableMap := variableMap st; counter := c |}, r2).

End BaseNames.

(** ** BaseObfuscator (base.ts): the array shuffle *)

Module Shuffle.
Import Js Rand.

(** [arr[i] = v] for an index inside the array; [None] outside it, where
    the assignment would make the array longer. *)
Fixpoint assign {A : Type} (i : nat) (v : A) (arr : list A) : option (list A) :=
  match arr, i with
  | [], _ => None
  | _ :: rest, O => Some (v :: rest)
  | x :: rest, S i' => option_map (cons x) (assign i' v rest)
  end.

(** [[arr[i], arr[j]] = [arr[j], arr[i]]]: the two elements are read, then
    [arr[i]] and [arr[j]] are written, in that order; [None] when an index
    is outside the array. *)
Definition swap {A : Type} (i j : nat) (arr : list A) : option (list A) :=
  match nth_error arr j, nth_error arr i with
  | Some aj, Some ai =>
    match assign i aj arr with
    | Some arr1 => assign j ai arr1
    | None => None
    end
  | _, _ => None
  end.

(** The loop [for (let i = arr.length - 1; i > 0; i--)], from [i] down:
    [j = Math.floor(Math.random() * (i + 1))], then the swap. *)
Fixpoint shuffle_loop {A : Type} (i : nat) (arr : list A) (r : Random)
  : option (list A * Random) :=
  match i with
  | O => Some (arr, r)
  | S i' =>
    let (j, r1) := randomIndex (S i' + 1) r in
    match swap (S i') j arr with
    | Some arr1 => shuffle_loop i' arr1 r1
    | None => None
    end
  end.

(** [shuffle(array)], on a copy of the array. *)
Definition shuffle {A : Type} (array : list A) (r : Random) : option (list A * Random) :=
  shuffle_loop (length array - 1) array r.

End Shuffle.

(** ** Code the JavaScript handler writes into its output *)

Module Emitted.
Import Js.

(** The loop of a decoder function that [applyExtremeObfuscation] emits,
    [for(var i=0;i<a.length;i++)s+=String.fromCharCode(a[i]^(key+i))],
    from index [i] on; [String.fromCharCode] keeps sixteen bits. *)
Fixpoint xorDecode (key : N) (i : N) (a : list N) : jsstring :=
  match a with
  | [] => []
  | x :: rest => (N.lxor x (key + i) mod 65536)%N :: xorDecode key (i + 1) rest
  end.

End Emitted.

(** * Properties of the specification *)

Import Js Regex Rand Encode Base Protect.

(** ** Inputs and notions used in the statements *)

(** A text between double quotes. *)
Definition quote (s : jsstring) : jsstring := [dq] ++ s ++ [dq].

(** Extraction followed at once by restoration, the protocol of section
    4.1 with nothing between its two halves. *)
Definition roundTrip {M : Type} (extract : jsstring -> jsstring * table M)
  (restore : list (entry M) -> jsstring -> jsstring) (text : jsstring) : jsstring :=
  let (protected, tbl) := extract text in restore (fst tbl) protected.

(** Only comment removal switched on. *)
Definition onlyRemoveComments : ObfuscationOptions := {|
  renameVariables := false;
  encodeStrings := false;
  removeComments := true;
  controlFlowFlattening := false;
  deadCodeInjection := false;
  unicodeEscape := false;
  hexEncoding := false;
  base64Strings := false;
  shuffleCode := false;
  minify := false;
  intensity := low
|}.

(** Only dead-code injection switched on. *)
Definition onlyDeadCode : ObfuscationOptions := {|
  renameVariables := false;
  encodeStrings := false;
  removeComments := false;
  controlFlowFlattening := false;
  deadCodeInjection := true;
  unicodeEscape := false;
  hexEncoding := false;
  base64Strings := false;
  shuffleCode := false;
  minify := false;
  intensity := low
|}.


(** Only renaming switched on. *)
Definition onlyRename : ObfuscationOptions := {|
  renameVariables := true;
  encodeStrings := false;
  removeComments := false;
  controlFlowFlattening := false;
  deadCodeInjection := false;
  unicodeEscape := false;
  hexEncoding := false;
  base64Strings := false;
  shuffleCode := false;
  minify := false;
  intensity := low
|}.

(** Only [encodeStrings] and [hexEncoding] switched on. *)
Definition onlyHex : ObfuscationOptions := {|
  renameVariables := false;
  encodeStrings := true;
  removeComments := false;
  controlFlowFlattening := false;
  deadCodeInjection := false;
  unicodeEscape := false;
  hexEncoding := true;
  base64Strings := false;
  shuffleCode := false;
  minify := false;
  intensity := low
|}.

(** [encodeStrings] and [hexEncoding] switched on, at intensity high. *)
Definition hexAtHighIntensity : ObfuscationOptions := {|
  renameVariables := false;
  encodeStrings := true;
  removeComments := false;
  controlFlowFlattening := false;
  deadCodeInjection := false;
  unicodeEscape := false;
  hexEncoding := true;
  base64Strings := false;
  shuffleCode := false;
  minify := false;
  intensity := high
|}.


(** Renaming and every encoding option switched on. *)
Definition renameAndEncode : ObfuscationOptions := {|
  renameVariables := true;
  encodeStrings := true;
  removeComments := false;
  controlFlowFlattening := false;
  deadCodeInjection := false;
  unicodeEscape := true;
  hexEncoding := true;
  base64Strings := true;
  shuffleCode := false;
  minify := false;
  intensity := low
|}.



(** Renaming, [encodeStrings] and [hexEncoding] switched on. *)
Definition renameAndHex : ObfuscationOptions := {|
  renameVariables := true;
  encodeStrings := true;
  removeComments := false;
  controlFlowFlattening := false;
  deadCodeInjection := false;
  unicodeEscape := false;
  hexEncoding := true;
  base64Strings := false;
  shuffleCode := false;
  minify := false;
  intensity := low
|}.

(** A Lua assignment whose quoted string holds a long-bracket form. *)
Definition lua_nested : jsstring := str "x = " ++ quote (str "a [[b]] c").

(** A JavaScript assignment whose string holds two dollar signs. *)
Definition js_dollars : jsstring := str "x = " ++ quote (str "$$") ++ str ";".

(** A shell command whose double-quoted string holds a single-quoted
    word. *)
Definition bash_nested : jsstring := str "echo " ++ quote (str "a 'b' c").

(** The same in Perl. *)
Definition perl_nested : jsstring := str "print " ++ quote (str "a 'b' c") ++ str ";".

(** A Rust call with two string arguments, the first ending in the letter
    r. *)
Definition rust_two_strings : jsstring :=
  str "foo(" ++ quote (str "bar") ++ str ", " ++ quote (str "x") ++ str ");".

(** A JavaScript assignment whose string holds a pair of backticks. *)
Definition js_backticks : jsstring := str "x = " ++ quote (str "a `b` c") ++ str ";".

(** A JavaScript statement whose string holds a block-comment pair. *)
Definition js_block_in_string : jsstring :=
  str "x = " ++ quote (str "a /* b */ c") ++ str ";".

(** A JavaScript statement with a string of a hundred letters. *)
Definition js_long_literal : jsstring :=
  str "x = " ++ quote (repeat (97%N : cu) 100) ++ str ";".

(** A JavaScript statement with a string of five letters. *)
Definition js_short_literal : jsstring := str "x = 'hello';".

(** A JavaScript statement with a string of a hundred code units, the last
    two of them dollar signs. *)
Definition js_long_dollars : jsstring :=
  str "x = " ++ quote (repeat (97%N : cu) 98 ++ str "$$") ++ str ";".

(** A Rust function that returns. *)
Definition rust_return : jsstring :=
  str "fn f() -> i32 {" ++ [nl] ++ str "    return 1;" ++ [nl] ++ str "}".

(** A Lua function that returns. *)
Definition lua_return : jsstring :=
  str "function f()" ++ [nl] ++ str "  return 1" ++ [nl] ++ str "end".

(** The line of the specification: a comment marker inside a string. *)
Definition js_marker_in_string : jsstring :=
  str "x = " ++ quote (str "a // not a comment").

(** The string of the specification: a greeting with an interpolated
    variable. *)
Definition bash_greeting : jsstring := quote (str "hello $name").

(** A shell command that prints what a double-quoted string expands to. *)
Definition bash_echo (content : jsstring) : jsstring := str "echo " ++ quote content.

(** A script that assigns the variable and prints the greeting. *)
Definition bash_script : jsstring :=
  str "name=world" ++ [nl] ++ str "echo " ++ bash_greeting.

(** The instance a CSS handler is left in by a first call, on [.a{}]. *)
Definition css_used : BaseState :=
  snd (fst (Css.obfuscate onlyRename (str ".a{}") newBaseState (constant 0))).

(** A call of [obfuscate] forgets the history of the instance when its
    output, the private map it leaves and the random draws it consumes are
    those of a fresh instance, and it leaves the inherited fields alone. *)
Definition forgets_history
  (obfuscate : jsstring -> Instance -> Random -> jsstring * Instance * Random) : Prop :=
  forall (code : jsstring) (self : Instance) (r : Random),
    fst (fst (obfuscate code self r)) = fst (fst (obfuscate code newInstance r))
    /\ varMap (snd (fst (obfuscate code self r)))
       = varMap (snd (fst (obfuscate code newInstance r)))
    /\ snd (obfuscate code self r) = snd (obfuscate code newInstance r)
    /\ base (snd (fst (obfuscate code self r))) = base self.

(** A state extends another when it has the entries of the other, with the
    same values, and a counter at least as large. *)
Definition extends (st st' : BaseState) : Prop :=
  (forall name v, VarMap.get name (variableMap st) = Some v ->
                  VarMap.get name (variableMap st') = Some v)
  /\ counter st <= counter st'.

(** *** Matches, occurrences and texts with holes

    The notions in which the round trip of the placeholder protocol is
    stated and proved. *)

(** A match hands to its continuation a position further on in the text:
    what is left there is the end of what was left before. *)
Definition advances (iter : mstate -> (mstate -> option mstate) -> option mstate) : Prop :=
  forall (s : mstate) (k : mstate -> option mstate) (res : mstate),
    iter s k = Some res ->
    exists s1, k s1 = Some res /\ exists c, after s = c ++ after s1.

(** A pattern every match of which starts, or ends, with a character of
    some kind. *)
Definition startsIn (P : cu -> Prop) (r : re) : Prop :=
  forall (s : mstate) (k : mstate -> option mstate) (res : mstate),
    rmatch r s k = Some res ->
    exists s1, k s1 = Some res /\ exists z c, after s = z :: c ++ after s1 /\ P z.

Definition endsIn (P : cu -> Prop) (r : re) : Prop :=
  forall (s : mstate) (k : mstate -> option mstate) (res : mstate),
    rmatch r s k = Some res ->
    exists s1, k s1 = Some res /\ exists c z, after s = c ++ z :: after s1 /\ P z.

(** A word occurs in a text when the text is the word between two texts. *)
Definition occurs (w s : jsstring) : Prop := exists a c, s = a ++ w ++ c.

(** The number a run of decimal digits stands for. *)
Definition decimalStep (v : N) (c : cu) : N := (v * 10 + (c - 48))%N.
Definition decimalValue (s : jsstring) : N := fold_left decimalStep s 0%N.

Module Holes.

(** The characters placeholders are made of: the underscore, upper-case
    letters and digits. *)
Definition placeholderChar (c : cu) : bool :=
  cu_eqb c 95 || is_upper c || is_digit c.

(** A character that no placeholder holds. *)
Definition outside (c : cu) : Prop := placeholderChar c = false.

(** The shape of a placeholder: some underscores, an upper-case word,
    maybe more underscores, the decimal index of the literal, and a
    closing text that starts and ends with an underscore and does not hold
    the word. *)
Definition schemeOk (pre W post B : jsstring) : bool :=
  match W, pre, B with
  | _ :: _, _ :: _, b0 :: _ =>
      forallb is_upper W && forallb (cu_eqb 95) pre && forallb (cu_eqb 95) post
      && cu_eqb b0 95 && cu_eqb (last B 0%N) 95
      && negb (includes W B) && forallb placeholderChar B
  | _, _, _ => false
  end.

Definition ph (pre W post B : jsstring) (i : nat) : jsstring :=
  pre ++ W ++ post ++ toString10 (N.of_nat i) ++ B.

(** A protected text is a run of gaps with a placeholder between each two;
    [flat] shows the placeholders, [full] the literals they stand for. *)
Record hole := Hole { holeIndex : nat; holeLiteral : jsstring; holeGap : jsstring }.

Definition holeKey (h : hole) : nat * jsstring := (holeIndex h, holeLiteral h).

Fixpoint flat (pre W post B : jsstring) (x : jsstring) (l : list hole) : jsstring :=
  match l with
  | [] => x
  | h :: l' => x ++ ph pre W post B (holeIndex h) ++ flat pre W post B (holeGap h) l'
  end.

Fixpoint full (x : jsstring) (l : list hole) : jsstring :=
  match l with
  | [] => x
  | h :: l' => x ++ holeLiteral h ++ full (holeGap h) l'
  end.

(** The literals and the placeholders of a list of entries, numbered from
    [n] on. *)
Fixpoint keysFrom {M : Type} (n : nat) (es : list (entry M)) : list (nat * jsstring) :=
  match es with
  | [] => []
  | e :: es' => (n, original e) :: keysFrom (S n) es'
  end.

Fixpoint placeholdersFrom (pre W post B : jsstring) {M : Type} (n : nat)
  (es : list (entry M)) : Prop :=
  match es with
  | [] => True
  | e :: es' => placeholder e = ph pre W post B n /\ placeholdersFrom pre W post B (S n) es'
  end.

(** The callback of an extraction pass: the literal goes to the table, its
    placeholder to the text. *)
Definition record (pre W post B : jsstring) {M : Type} (mkMeta : jsstring -> M)
  (h : hit) (acc : table M) : jsstring * table M :=
  let (strings, strIdx) := acc in
  (ph pre W post B strIdx,
   (strings ++ [Entry (matched h) (ph pre W post B strIdx) (mkMeta (matched h))],
    S strIdx)).

(** The extraction passes of a handler, one after the other on the same
    table. *)
Definition extractPasses (pre W post B : jsstring) {M : Type}
  (passes : list (re * (jsstring -> M))) (st : jsstring * table M)
  : jsstring * table M :=
  fold_left (fun st p => protect (ph pre W post B) (snd p) (fst p) (fst st) (snd st))
            passes st.

End Holes.

(** Two tests on a text, for a handler with the placeholder word [word]:
    the word does not occur in the text, so no placeholder is written in
    it; and the word occurs in no literal the extraction of the text puts
    in its table, so the extraction took no literal that holds the
    placeholder of another, a literal form inside another.  The second
    test is on the output of the handler's own first step. *)
Definition markerFree {M : Type} (word : jsstring)
  (extract : jsstring -> jsstring * table M) (text : jsstring) : bool :=
  negb (includes word text)
  && forallb (fun e => negb (includes word (original e))) (fst (snd (extract text))).

(** No literal, as extracted, holds a dollar sign. *)
Definition dollarFree {M : Type}
  (extract : jsstring -> jsstring * table M) (text : jsstring) : bool :=
  forallb (fun e => negb (mem dollar (original e))) (fst (snd (extract text))).

(** A text with a double-quoted and a single-quoted literal, and
    underscores in a name and in a literal. *)
Definition plain_literals : jsstring :=
  str "my_var = " ++ quote (str "a_b") ++ str " + 'c'".

(** A text that holds a placeholder of the Lua handler. *)
Definition lua_marker_in_text : jsstring := str "___LUASTR_0_PLACEHOLDER___ = 'a'".


(** ** Notions used by the further properties *)

(** An entry of a rename map as the declaration loops leave it: the key is
    no reserved word, and the new name is an underscore followed by word
    characters, and no reserved word either. *)
Definition wellNamed (reserved : list jsstring) (kv : jsstring * jsstring) : Prop :=
  VarMap.isReserved reserved (fst kv) = false
  /\ startsWith [95%N] (snd kv) = true
  /\ forallb is_word (snd kv) = true
  /\ VarMap.isReserved reserved (snd kv) = false.

(** The state of a CSS handler in which the new names were all made by
    its own generator: the keys are distinct, and what follows the six
    drawn characters of a new name is the decimal form of a counter value
    already passed, a different one for each name. *)
Definition ownNames (st : BaseState) : Prop :=
  NoDup (map fst (variableMap st))
  /\ NoDup (map (skipn 6) (map snd (variableMap st)))
  /\ Forall (fun v => exists c, skipn 6 v = toString10 (N.of_nat c) /\ c <= counter st)
            (map snd (variableMap st)).

(** The state and the random source left by a CSS handler that obfuscates
    the texts of a list, one after the other. *)
Definition cssSession (o : ObfuscationOptions) (codes : list jsstring)
  (s : BaseState * Random) : BaseState * Random :=
  fold_left (fun s code => let '(_, st', r') := Css.obfuscate o code (fst s) (snd s) in
                           (st', r'))
            codes s.

(** Lines with dead statements put between them: every line of the first
    list is in the second, in the same order, and what the second list has
    more is, after a line that passes the test, one of the dead
    statements. *)
Inductive interleaved (eligible : jsstring -> bool) (dead : list jsstring)
  : list jsstring -> list jsstring -> Prop :=
| interleaved_nil : interleaved eligible dead [] []
| interleaved_keep : forall line ls out,
    interleaved eligible dead ls out ->
    interleaved eligible dead (line :: ls) (line :: out)
| interleaved_add : forall line d ls out,
    eligible line = true -> In d dead ->
    interleaved eligible dead ls out ->
    interleaved eligible dead (line :: ls) (line :: d :: out).

(** The number a run of hexadecimal digits (lower case) denotes. *)
Definition hexStep (v : N) (c : cu) : N :=
  (v * 16 + (if is_digit c then c - 48 else c - 87))%N.
Definition hexValue (s : jsstring) : N := fold_left hexStep s 0%N.

(** [s.isWellFormed()]: the text has no lone surrogate. *)
Fixpoint isWellFormed (s : jsstring) : bool :=
  match s with
  | [] => true
  | c :: s' =>
    if is_high_surrogate c then
      match s' with
      | d :: s'' => is_low_surrogate d && isWellFormed s''
      | [] => false
      end
    else negb (is_low_surrogate c) && isWellFormed s'
  end.

(** Every stage an option or the intensity can switch on is off. *)
Definition allStagesOff (o : ObfuscationOptions) : bool :=
  negb (renameVariables o) && negb (encodeStrings o) && negb (removeComments o)
  && negb (deadCodeInjection o) && negb (base64Strings o) && negb (minify o)
  && negb (is_high_or_extreme (intensity o)).

(** A text got from another by deleting characters. *)
Inductive subseq : jsstring -> jsstring -> Prop :=
| subseq_nil : subseq [] []
| subseq_skip : forall c a b, subseq a b -> subseq a (c :: b)
| subseq_keep : forall c a b, subseq a b -> subseq (c :: a) (c :: b).

(** A text in which white space is single spaces only: every white-space
    character is a space, and what follows it, if anything, is no white
    space. *)
Fixpoint singleSpaced (s : jsstring) : bool :=
  match s with
  | [] => true
  | c :: t =>
    (negb (is_space c)
     || (cu_eqb c 32 && match t with [] => true | d :: _ => negb (is_space d) end))
    && singleSpaced t
  end.

(** A table of extracted literals whose placeholders are numbered in the
    order of extraction: the counter is the number of entries, the entry at
    index [i] has the placeholder of [i], and no two entries share a
    placeholder. *)
Definition numbered {M : Type} (mk : nat -> jsstring) (t : table M) : Prop :=
  snd t = length (fst t)
  /\ map placeholder (fst t) = map mk (seq 0 (length (fst t)))
  /\ NoDup (map placeholder (fst t)).

(** After the case analysis on the stages, both sides are the same term. *)
Ltac same_pipeline :=
  cbn [fst snd varMap base withVarMap clearVarMap newInstance]; repeat split.

(** ** Lemmas on the string primitives *)

Lemma str_eqb_eq : forall a b : jsstring, str_eqb a b = true -> a = b.
Proof.
  induction a as [|x a IH]; destruct b as [|y b]; cbn [str_eqb]; intros H;
    try discriminate; [reflexivity|].
  apply andb_true_iff in H. destruct H as [Hxy Hab].
  apply N.eqb_eq in Hxy. rewrite Hxy, (IH b Hab). reflexivity.
Qed.

Lemma str_eqb_refl : forall a : jsstring, str_eqb a a = true.
Proof.
  induction a as [|x a IH]; [reflexivity|].
  cbn [str_eqb]. unfold cu_eqb. rewrite N.eqb_refl, IH. reflexivity.
Qed.

(** A boolean property checked on every code unit below 128 holds of each
    of them. *)
Lemma below_128 : forall P : cu -> bool,
  forallb P (map N.of_nat (seq 0 128)) = true ->
  forall c : cu, (c < 128)%N -> P c = true.
Proof.
  intros P Hall c Hc.
  rewrite forallb_forall in Hall. apply Hall.
  rewrite <- (N2Nat.id c). apply in_map. apply in_seq. lia.
Qed.

Lemma indexOf_cons : forall (p : jsstring) (c : cu) (s : jsstring),
  indexOf p (c :: s)
  = if startsWith p (c :: s) then Some 0 else option_map S (indexOf p s).
Proof. reflexivity. Qed.

Lemma startsWith_single : forall (a c : cu) (s : jsstring),
  startsWith [a] (c :: s) = cu_eqb a c.
Proof. intros. cbn [startsWith]. apply andb_true_r. Qed.

(** The first line feed of a text whose first line holds none. *)
Lemma indexOf_linefeed : forall (l rest : jsstring),
  includes [nl] l = false -> indexOf [nl] (l ++ nl :: rest) = Some (length l).
Proof.
  induction l as [|c l IH]; intros rest Hl.
  - reflexivity.
  - unfold includes in Hl. rewrite indexOf_cons, startsWith_single in Hl.
    cbn [app length]. rewrite indexOf_cons, startsWith_single.
    destruct (cu_eqb nl c); [discriminate|].
    destruct (indexOf [nl] l) eqn:Hi; [discriminate|].
    rewrite IH; [reflexivity|]. unfold includes. rewrite Hi. reflexivity.
Qed.

(** [slice(1, -1)] of a quoted text is the text. *)
Lemma slice1m1_quoted : forall (q : cu) (content : jsstring),
  slice1m1 (q :: content ++ [q]) = content.
Proof. intros. unfold slice1m1. cbn [tl]. apply removelast_last. Qed.

(** A replacement text without dollar sign is inserted as it is. *)
Lemma getSubstitution_plain : forall (matched before after repl : jsstring),
  mem dollar repl = false ->
  getSubstitution matched before after repl = repl.
Proof.
  intros matched before after. induction repl as [|c repl IH]; intros H.
  - reflexivity.
  - unfold mem in H. cbn [existsb] in H. apply orb_false_iff in H.
    destruct H as [Hc Hrest].
    cbn [getSubstitution].
    assert (Hc' : cu_eqb c dollar = false).
    { unfold cu_eqb in *. rewrite N.eqb_sym. exact Hc. }
    rewrite Hc'. rewrite (IH Hrest). reflexivity.
Qed.

(** ** The bounded loops have rounds enough

    The loops of the embedding that are not structural take a number of
    rounds; the lemmas of this section show that the number they are given
    is never used up: any larger number gives the same result. *)

Lemma orelse_none_r : forall (A : Type) (x : option A), orelse x None = x.
Proof. intros A [a|]; reflexivity. Qed.

(** The star loop respects the pointwise equality of continuations, when
    its body does. *)
Lemma star_loop_ext :
  forall (greedy : bool) (iter : mstate -> (mstate -> option mstate) -> option mstate),
    (forall s k1 k2, (forall x, k1 x = k2 x) -> iter s k1 = iter s k2) ->
    forall (n : nat) (s : mstate) (k1 k2 : mstate -> option mstate),
      (forall x, k1 x = k2 x) ->
      star_loop greedy iter k1 n s = star_loop greedy iter k2 n s.
Proof.
  intros greedy iter Hiter. induction n as [|n IH]; intros s k1 k2 Hk.
  - cbn [star_loop]. apply Hk.
  - cbn [star_loop]. rewrite (Hk s).
    rewrite (Hiter s _ (fun s' => if length (after s') <? length (after s)
                                  then star_loop greedy iter k2 n s' else None)).
    + reflexivity.
    + intros x. destruct (length (after x) <? length (after s)); [|reflexivity].
      apply IH. exact Hk.
Qed.

Lemma rmatch_ext : forall (r : re) (s : mstate) (k1 k2 : mstate -> option mstate),
  (forall x, k1 x = k2 x) -> rmatch r s k1 = rmatch r s k2.
Proof.
  induction r as [|p|a IHa b IHb|a IHa b IHb|g a IHa|n a IHa|m|m| |pos a IHa|pos p];
    intros s k1 k2 Hk; cbn [rmatch].
  - apply Hk.
  - destruct (after s) as [|c t]; [reflexivity|]. destruct (p c); [apply Hk|reflexivity].
  - apply IHa. intros x. apply IHb. exact Hk.
  - rewrite (IHa s k1 k2 Hk), (IHb s k1 k2 Hk). reflexivity.
  - apply star_loop_ext; [|exact Hk]. intros s0 k3 k4 H. apply IHa. exact H.
  - apply IHa. intros x. apply Hk.
  - destruct (before s) as [|c t]; [apply Hk|].
    destruct (m && is_lineterm c); [apply Hk|reflexivity].
  - destruct (after s) as [|c t]; [apply Hk|].
    destruct (m && is_lineterm c); [apply Hk|reflexivity].
  - destruct (at_word_boundary s); [apply Hk|reflexivity].
  - rewrite (Hk s). reflexivity.
  - rewrite (Hk s). reflexivity.
Qed.

(** A match whose continuation always fails, fails. *)
Lemma star_loop_fail :
  forall (greedy : bool) (iter : mstate -> (mstate -> option mstate) -> option mstate),
    (forall s k1 k2, (forall x, k1 x = k2 x) -> iter s k1 = iter s k2) ->
    (forall s, iter s (fun _ => None) = None) ->
    forall (n : nat) (s : mstate), star_loop greedy iter (fun _ => None) n s = None.
Proof.
  intros greedy iter Hext Hfail. induction n as [|n IH]; intros s; cbn [star_loop].
  - reflexivity.
  - rewrite (Hext s _ (fun _ => None)).
    + rewrite Hfail. destruct greedy; reflexivity.
    + intros x. destruct (length (after x) <? length (after s)); [apply IH|reflexivity].
Qed.

Lemma rmatch_fail : forall (r : re) (s : mstate), rmatch r s (fun _ => None) = None.
Proof.
  induction r as [|p|a IHa b IHb|a IHa b IHb|g a IHa|n a IHa|m|m| |pos a IHa|pos p];
    intros s; cbn [rmatch].
  - reflexivity.
  - destruct (after s) as [|c t]; [reflexivity|]. destruct (p c); reflexivity.
  - rewrite (rmatch_ext a s _ (fun _ => None)); [apply IHa|]. intros x. apply IHb.
  - rewrite IHa, IHb. reflexivity.
  - apply star_loop_fail; [|exact IHa]. intros s0 k1 k2 H. apply rmatch_ext. exact H.
  - apply IHa.
  - destruct (before s) as [|c t]; [reflexivity|].
    destruct (m && is_lineterm c); reflexivity.
  - destruct (after s) as [|c t]; [reflexivity|].
    destruct (m && is_lineterm c); reflexivity.
  - destruct (at_word_boundary s); reflexivity.
  - destruct (rmatch a s Some); destruct pos; reflexivity.
  - destruct (Bool.eqb _ pos); reflexivity.
Qed.

(** The star loop: any number of rounds at least the number of characters
    left gives the same result. *)
Lemma star_loop_rounds :
  forall (greedy : bool) (a : re) (k : mstate -> option mstate) (n1 n2 : nat) (s : mstate),
    length (after s) <= n1 -> length (after s) <= n2 ->
    star_loop greedy (rmatch a) k n1 s = star_loop greedy (rmatch a) k n2 s.
Proof.
  intros greedy a k.
  assert (Hempty : forall n s, length (after s) = 0 ->
                     star_loop greedy (rmatch a) k n s = k s).
  { intros [|n] s Hs; cbn [star_loop]; [reflexivity|].
    rewrite (rmatch_ext a s _ (fun _ => None)).
    - rewrite rmatch_fail. destruct greedy; cbn [orelse]; [reflexivity|].
      apply orelse_none_r.
    - intros x. rewrite Hs. reflexivity. }
  induction n1 as [|n1 IH]; intros n2 s H1 H2.
  - rewrite !Hempty by lia. reflexivity.
  - destruct n2 as [|n2]; [rewrite !Hempty by lia; reflexivity|].
    cbn [star_loop].
    rewrite (rmatch_ext a s _
               (fun s' => if length (after s') <? length (after s)
                          then star_loop greedy (rmatch a) k n2 s' else None)).
    + reflexivity.
    + intros x. destruct (Nat.ltb_spec (length (after x)) (length (after s))) as [Hlt|_];
        [|reflexivity].
      apply IH; lia.
Qed.

(** A non-empty match leaves fewer characters after it. *)
Lemma match_here_progress :
  forall (r : re) (bef aft : jsstring) (h : hit) (s' : mstate),
    match_here r bef aft = Some (h, s') ->
    matched h <> [] ->
    length (after s') < length aft.
Proof.
  intros r bef aft h s' Hm Hne. unfold match_here in Hm.
  destruct (rmatch r (MState bef aft []) Some) as [s1|]; [|discriminate].
  injection Hm as Hh Hs. subst s1 h. cbn [matched] in Hne.
  unfold consumed in Hne. cbn [after] in Hne.
  destruct (length aft - length (after s')) eqn:Hd; [cbn [firstn] in Hne; congruence|].
  lia.
Qed.

(** The replacement loop: any number of rounds above the length of the
    text gives the same result. *)
Lemma replace_loop_rounds :
  forall (A : Type) (r : re) (cb : hit -> A -> jsstring * A) (f1 f2 : nat)
         (bef aft : jsstring) (acc : A),
    length aft < f1 -> length aft < f2 ->
    replace_loop r cb f1 bef aft acc = replace_loop r cb f2 bef aft acc.
Proof.
  intros A r cb. induction f1 as [|f1 IH]; intros f2 bef aft acc H1 H2; [lia|].
  destruct f2 as [|f2]; [lia|]. cbn [replace_loop].
  destruct (match_here r bef aft) as [[h s']|] eqn:Hm.
  - destruct (cb h acc) as [out acc1].
    destruct (matched h) as [|c0 m0] eqn:Hmat.
    + destruct aft as [|c t]; [reflexivity|].
      cbn [length] in H1, H2. rewrite (IH f2) by lia. reflexivity.
    + assert (Hp : length (after s') < length aft).
      { apply (match_here_progress r bef aft h s' Hm). rewrite Hmat. discriminate. }
      rewrite (IH f2) by lia. reflexivity.
  - destruct aft as [|c t]; [reflexivity|].
    cbn [length] in H1, H2. rewrite (IH f2) by lia. reflexivity.
Qed.

(** [split] with a non-empty separator: rounds above the length of the text
    are not used. *)
Lemma split_aux_rounds :
  forall (sep : jsstring), sep <> [] ->
  forall (f1 f2 : nat) (s cur : jsstring),
    length s < f1 -> length s < f2 ->
    split_aux f1 sep s cur = split_aux f2 sep s cur.
Proof.
  intros sep Hsep. induction f1 as [|f1 IH]; intros f2 s cur H1 H2; [lia|].
  destruct f2 as [|f2]; [lia|]. cbn [split_aux].
  destruct s as [|c s']; [reflexivity|].
  cbn [length] in H1, H2.
  destruct (startsWith sep (c :: s')).
  - f_equal. apply IH.
    + destruct sep as [|x sep']; [contradiction|]. cbn [length skipn].
      pose proof (length_skipn (length sep') s'). lia.
    + destruct sep as [|x sep']; [contradiction|]. cbn [length skipn].
      pose proof (length_skipn (length sep') s'). lia.
  - apply IH; lia.
Qed.

(** Where a pattern is found, it fits. *)
Lemma startsWith_length : forall (p s : jsstring),
  startsWith p s = true -> length p <= length s.
Proof.
  induction p as [|x p IH]; intros s H; cbn [length]; [lia|].
  destruct s as [|y s]; [discriminate|]. cbn [startsWith] in H.
  apply andb_true_iff in H. destruct H as [_ H]. apply IH in H. cbn [length]. lia.
Qed.

Lemma indexOf_fits : forall (p s : jsstring) (i : nat),
  indexOf p s = Some i -> i + length p <= length s.
Proof.
  intros p. induction s as [|c s IH]; intros i H.
  - cbn [indexOf] in H. destruct (startsWith p []) eqn:Hs; [|discriminate].
    injection H as <-. apply startsWith_length in Hs. lia.
  - rewrite indexOf_cons in H. destruct (startsWith p (c :: s)) eqn:Hs.
    + injection H as <-. apply startsWith_length in Hs. lia.
    + destruct (indexOf p s) as [j|]; [|discriminate].
      injection H as <-. specialize (IH j eq_refl). cbn [length]. lia.
Qed.

(** [removeMultiLineComments] with non-empty markers: rounds beyond the
    length of the text are not used. *)
Lemma removeMultiLine_loop_rounds :
  forall (start stop : jsstring), start <> [] -> stop <> [] ->
  forall (f1 f2 : nat) (result : jsstring),
    length result <= f1 -> length result <= f2 ->
    removeMultiLine_loop f1 start stop result = removeMultiLine_loop f2 start stop result.
Proof.
  intros start stop Hstart Hstop.
  assert (Hnil : forall f, removeMultiLine_loop f start stop [] = []).
  { intros [|f]; [reflexivity|]. cbn [removeMultiLine_loop indexOf].
    destruct start; [contradiction|reflexivity]. }
  induction f1 as [|f1 IH]; intros f2 result H1 H2.
  - destruct result; [|cbn [length] in H1; lia]. rewrite !Hnil. reflexivity.
  - destruct f2 as [|f2].
    + destruct result; [|cbn [length] in H2; lia]. rewrite !Hnil. reflexivity.
    + cbn [removeMultiLine_loop].
      destruct (indexOf start result) as [startIdx|] eqn:Hs; [|reflexivity].
      destruct (indexOfFrom stop result startIdx) as [endIdx|] eqn:He; [|reflexivity].
      unfold indexOfFrom in He.
      destruct (indexOf stop (skipn startIdx result)) as [j|] eqn:Hj; [|discriminate].
      cbn [option_map] in He. injection He as <-.
      apply indexOf_fits in Hj. rewrite length_skipn in Hj.
      apply indexOf_fits in Hs.
      assert (Hlen : length (firstn startIdx result
                             ++ skipn (startIdx + j + length stop) result)
                     < length result).
      { rewrite length_app, length_firstn, length_skipn.
        destruct stop; [contradiction|]. cbn [length] in *. lia. }
      apply IH; lia.
Qed.

(** The rounds the definitions give are therefore enough: one more changes
    nothing. *)
Lemma replaceAcc_rounds :
  forall (A : Type) (r : re) (cb : hit -> A -> jsstring * A) (s : jsstring) (acc : A)
         (extra : nat),
    replace_loop r cb (S (length s) + extra) [] s acc = replaceAcc r cb s acc.
Proof.
  intros. unfold replaceAcc. apply replace_loop_rounds; lia.
Qed.

Lemma split_rounds : forall (sep s : jsstring) (extra : nat),
  sep <> [] -> split_aux (S (length s) + extra) sep s [] = split sep s.
Proof.
  intros sep s extra Hsep. unfold split. apply split_aux_rounds; [exact Hsep|lia|lia].
Qed.

Lemma removeMultiLineComments_rounds :
  forall (start stop code : jsstring) (extra : nat),
    start <> [] -> stop <> [] ->
    removeMultiLine_loop (length code + extra) start stop code
    = removeMultiLineComments start stop code.
Proof.
  intros. unfold removeMultiLineComments.
  apply removeMultiLine_loop_rounds; [assumption|assumption|lia|lia].
Qed.

(** Dividing by the radix shortens the binary logarithm. *)
Lemma log2_div_radix : forall radix n : N,
  (2 <= radix)%N -> (radix <= n)%N ->
  N.to_nat (N.log2 (n / radix)) < N.to_nat (N.log2 n).
Proof.
  intros radix n Hr Hn.
  assert (Hpos : (0 < n / radix)%N).
  { apply N.div_str_pos. lia. }
  assert (Hn0 : (0 < n)%N) by lia.
  destruct (N.log2_spec n Hn0) as [_ Hhi].
  assert (Hlt : (n / radix < 2 ^ N.log2 n)%N).
  { apply N.Div0.div_lt_upper_bound.
    rewrite N.pow_succ_r' in Hhi. nia. }
  apply (N.log2_lt_pow2 _ _ Hpos) in Hlt. lia.
Qed.

(** [toString(radix)]: rounds above the binary logarithm are not used. *)
Lemma toStringRadix_aux_rounds :
  forall (radix : N), (2 <= radix)%N ->
  forall (f1 f2 : nat) (n : N) (acc : jsstring),
    N.to_nat (N.log2 n) < f1 -> N.to_nat (N.log2 n) < f2 ->
    toStringRadix_aux f1 radix n acc = toStringRadix_aux f2 radix n acc.
Proof.
  intros radix Hr. induction f1 as [|f1 IH]; intros f2 n acc H1 H2; [lia|].
  destruct f2 as [|f2]; [lia|]. cbn [toStringRadix_aux].
  destruct (N.ltb_spec n radix) as [_|Hge]; [reflexivity|].
  pose proof (log2_div_radix radix n Hr Hge).
  apply IH; lia.
Qed.

(** ** C1: the placeholder round trip *)

(** C1 fails on a literal form inside another.  Every option off, no
    placeholder word in the text: the Bash handler extracts the
    single-quoted word of [bash_nested] first and the double-quoted string
    second, which by then holds the placeholder of the word; restoration
    runs in the order of extraction, so it looks for the placeholder of the
    word while that placeholder is not in the text yet, and the string
    comes back with the placeholder in it.  The same happens in the Perl
    handler, in the Lua handler (a long-bracket form inside a quoted
    string), in the JavaScript and generic handlers (a pair of backticks
    inside a quoted string), and in the Rust handler, whose raw-string
    pattern takes the end of one string argument and the start of the next
    for a raw string.  The JavaScript handler, which restores with
    [String.prototype.replace], also turns the two dollar signs of
    [js_dollars] into one: [replace] reads them as a replacement pattern.
    The outputs of [obfuscate] are those of the round trip, whatever the
    instance and the random source. *)
Theorem C1_round_trip_leaves_placeholder :
  (includes (str "BASHSTR") bash_nested = false
   /\ roundTrip Bash.extract (Bash.restore noOptions []) bash_nested
      = str "echo " ++ quote (str "a ___BASHSTR_0_PLACEHOLDER___ c")
   /\ forall (self : Instance) (r : Random),
        fst (fst (Bash.obfuscate noOptions bash_nested self r))
        = str "echo " ++ quote (str "a ___BASHSTR_0_PLACEHOLDER___ c"))
  /\ (includes (str "PLSTR") perl_nested = false
      /\ roundTrip Perl.extract (Perl.restore noOptions []) perl_nested
         = str "print " ++ quote (str "a ___PLSTR_0_PLACEHOLDER___ c") ++ str ";"
      /\ forall (self : Instance) (r : Random),
           fst (fst (Perl.obfuscate noOptions perl_nested self r))
           = str "print " ++ quote (str "a ___PLSTR_0_PLACEHOLDER___ c") ++ str ";")
  /\ (includes (str "RUSTSTR") rust_two_strings = false
      /\ roundTrip Rust.extract (Rust.restore noOptions) rust_two_strings
         = str "foo(" ++ quote (str "ba___RUSTSTR_0_PLACEHOLDER___x") ++ str ");"
      /\ forall (self : Instance) (r : Random),
           fst (fst (Rust.obfuscate noOptions rust_two_strings self r))
           = str "foo(" ++ quote (str "ba___RUSTSTR_0_PLACEHOLDER___x") ++ str ");")
  /\ (includes (str "LUASTR") lua_nested = false
      /\ roundTrip Lua.extract (Lua.restore noOptions) lua_nested
         = str "x = " ++ quote (str "a ___LUASTR_0_PLACEHOLDER___ c")
      /\ forall (self : Instance) (r : Random),
           fst (fst (Lua.obfuscate noOptions lua_nested self r))
           = str "x = " ++ quote (str "a ___LUASTR_0_PLACEHOLDER___ c"))
  /\ (includes (str "JSSTR") js_backticks = false
      /\ roundTrip JavaScript.extract (JavaScript.restore noOptions) js_backticks
         = str "x = " ++ quote (str "a __JSSTR0__ c") ++ str ";"
      /\ forall (compileRegExp : jsstring -> option re) (r : Random),
           JavaScript.obfuscate compileRegExp noOptions js_backticks r
           = Some (str "x = " ++ quote (str "a __JSSTR0__ c") ++ str ";", r))
  /\ (includes (str "GENSTR") js_backticks = false
      /\ roundTrip Generic.extract (Generic.restore noOptions) js_backticks
         = str "x = " ++ quote (str "a ___GENSTR_0___ c") ++ str ";"
      /\ forall (self : BaseState) (r : Random),
           fst (fst (Generic.obfuscate noOptions js_backticks self r))
           = str "x = " ++ quote (str "a ___GENSTR_0___ c") ++ str ";")
  /\ (roundTrip JavaScript.extract (JavaScript.restore noOptions) js_dollars
      = str "x = " ++ quote (str "$") ++ str ";"
      /\ forall (compileRegExp : jsstring -> option re) (r : Random),
           JavaScript.obfuscate compileRegExp noOptions js_dollars r
           = Some (str "x = " ++ quote (str "$") ++ str ";", r)).
Proof.
  repeat split; intros; vm_compute; reflexivity.
Qed.

(** A limit of the protocol itself, apart from the slips above: the
    placeholders travel in the text, so a text that comes with a
    placeholder of the handler cannot come back unchanged; the Lua handler
    returns [lua_marker_in_text] with the literal of that index in the
    place of the placeholder. *)
Example placeholder_in_text_is_replaced :
  roundTrip Lua.extract (Lua.restore noOptions) lua_marker_in_text = str "'a' = 'a'".
Proof. vm_compute. reflexivity. Qed.

(** The two passes of the Lua extraction on [lua_nested]: the entry of the
    outer literal holds the placeholder of the inner one. *)
Example lua_nested_table :
  Lua.extract lua_nested
  = (str "x = ___LUASTR_1_PLACEHOLDER___",
     ([Entry (str "[[b]]") (str "___LUASTR_0_PLACEHOLDER___") tt;
       Entry (quote (str "a ___LUASTR_0_PLACEHOLDER___ c"))
             (str "___LUASTR_1_PLACEHOLDER___") tt], 2)).
Proof. vm_compute. reflexivity. Qed.

(** The whole Lua pipeline, every option off, gives the same output. *)
Example lua_nested_obfuscated :
  fst (fst (Lua.obfuscate noOptions lua_nested newInstance (constant 0)))
  = str "x = " ++ quote (str "a ___LUASTR_0_PLACEHOLDER___ c").
Proof. vm_compute. reflexivity. Qed.


(** The rest of this part proves the round trip where it does hold: on
    a text without the word of the placeholders from which extraction takes
    no literal that holds a placeholder.  The text after extraction is seen
    as a run of gaps with holes between
    them; an extraction pass adds holes inside the gaps, and the
    restoration loop fills the holes one by one, each placeholder
    occurring once in the text at that point. *)

(** *** What a match consumes *)

Lemma star_loop_advances :
  forall (greedy : bool) (iter : mstate -> (mstate -> option mstate) -> option mstate),
    advances iter ->
    forall (n : nat) (k : mstate -> option mstate) (s res : mstate),
      star_loop greedy iter k n s = Some res ->
      exists s1, k s1 = Some res /\ exists c, after s = c ++ after s1.
Proof.
  intros greedy iter Hiter. induction n as [|n IH]; intros k s res H.
  - exists s. split; [exact H | exists []; reflexivity].
  - cbn [star_loop] in H.
    assert (Hagain : forall res',
      iter s (fun s' => if length (after s') <? length (after s)
                        then star_loop greedy iter k n s' else None) = Some res' ->
      exists s1, k s1 = Some res' /\ exists c, after s = c ++ after s1).
    { intros res' Hr. apply Hiter in Hr. destruct Hr as [s' [Hk [c Hc]]].
      destruct (length (after s') <? length (after s)); [|discriminate].
      apply IH in Hk. destruct Hk as [s1 [Hk [c' Hc']]].
      exists s1. split; [exact Hk|]. exists (c ++ c').
      rewrite Hc, Hc', app_assoc. reflexivity. }
    assert (Hstay : forall res', k s = Some res' ->
      exists s1, k s1 = Some res' /\ exists c, after s = c ++ after s1).
    { intros res' Hr. exists s. split; [exact Hr | exists []; reflexivity]. }
    destruct greedy; unfold orelse in H.
    + destruct (iter s _) as [r1|] eqn:E.
      * injection H as <-. apply (Hagain r1 eq_refl).
      * apply Hstay. exact H.
    + destruct (k s) as [r1|] eqn:E.
      * injection H as <-. apply (Hstay r1 eq_refl).
      * apply Hagain. exact H.
Qed.

Lemma rmatch_advances : forall r : re, advances (rmatch r).
Proof.
  unfold advances.
  induction r as [ | p | a IHa b IHb | a IHa b IHb | g a IHa | n a IHa | m | m | | pos a IHa | pos p ];
    intros s k res H; cbn [rmatch] in H.
  - exists s. split; [exact H | exists []; reflexivity].
  - destruct (after s) as [|c t] eqn:E; [discriminate|].
    destruct (p c); [|discriminate].
    eexists. split; [exact H|]. exists [c]. reflexivity.
  - apply IHa in H. destruct H as [s1 [H [c Hc]]].
    apply IHb in H. destruct H as [s2 [H [c' Hc']]].
    exists s2. split; [exact H|]. exists (c ++ c').
    rewrite Hc, Hc', app_assoc. reflexivity.
  - unfold orelse in H. destruct (rmatch a s k) as [r1|] eqn:E.
    + injection H as <-. apply IHa. exact E.
    + apply IHb. exact H.
  - apply (star_loop_advances g (rmatch a) IHa) in H. exact H.
  - apply IHa in H. destruct H as [s1 [H [c Hc]]].
    eexists. split; [exact H|]. exists c. exact Hc.
  - exists s. split; [|exists []; reflexivity].
    destruct (before s) as [|c t]; [exact H|].
    destruct (m && is_lineterm c); [exact H | discriminate].
  - exists s. split; [|exists []; reflexivity].
    destruct (after s) as [|c t]; [exact H|].
    destruct (m && is_lineterm c); [exact H | discriminate].
  - exists s. split; [|exists []; reflexivity].
    destruct (at_word_boundary s); [exact H | discriminate].
  - exists s. split; [|exists []; reflexivity].
    destruct (rmatch a s Some); destruct pos; try discriminate; exact H.
  - exists s. split; [|exists []; reflexivity].
    destruct (Bool.eqb _ pos); [exact H | discriminate].
Qed.

(** The text at a match is the matched text and then what is left. *)
Lemma match_here_text : forall (r : re) (bef aft : jsstring) (h : hit) (s' : mstate),
  match_here r bef aft = Some (h, s') -> aft = matched h ++ after s'.
Proof.
  intros r bef aft h s' H. unfold match_here in H.
  destruct (rmatch r (MState bef aft []) Some) as [s1|] eqn:E; [|discriminate].
  injection H as <- <-. cbn [matched].
  apply rmatch_advances in E. destruct E as [s2 [Hk [c Hc]]].
  injection Hk as ->. cbn [after] in Hc. unfold consumed. cbn [after].
  rewrite Hc at 1 2 3. rewrite length_app.
  replace (length c + length (after s1) - length (after s1)) with (length c + 0) by lia.
  rewrite firstn_app_2, firstn_O, app_nil_r. reflexivity.
Qed.

Lemma startsIn_Cls : forall (P : cu -> Prop) (p : cu -> bool),
  (forall c, p c = true -> P c) -> startsIn P (Cls p).
Proof.
  intros P p Hp s k res H. cbn [rmatch] in H.
  destruct (after s) as [|c t] eqn:E; [discriminate|].
  destruct (p c) eqn:Hc; [|discriminate].
  eexists. split; [exact H|]. exists c, []. split; [reflexivity | exact (Hp c Hc)].
Qed.

Lemma endsIn_Cls : forall (P : cu -> Prop) (p : cu -> bool),
  (forall c, p c = true -> P c) -> endsIn P (Cls p).
Proof.
  intros P p Hp s k res H. cbn [rmatch] in H.
  destruct (after s) as [|c t] eqn:E; [discriminate|].
  destruct (p c) eqn:Hc; [|discriminate].
  eexists. split; [exact H|]. exists [], c. split; [reflexivity | exact (Hp c Hc)].
Qed.

Lemma startsIn_Seq : forall (P : cu -> Prop) (a b : re),
  startsIn P a -> startsIn P (Seq a b).
Proof.
  intros P a b Ha s k res H. cbn [rmatch] in H.
  apply Ha in H. destruct H as [s1 [H (z & c & Hc & Hz)]].
  apply rmatch_advances in H. destruct H as [s2 [H [c' Hc']]].
  exists s2. split; [exact H|]. exists z, (c ++ c').
  split; [|exact Hz]. rewrite Hc, Hc', <- app_assoc. reflexivity.
Qed.

Lemma endsIn_Seq : forall (P : cu -> Prop) (a b : re),
  endsIn P b -> endsIn P (Seq a b).
Proof.
  intros P a b Hb s k res H. cbn [rmatch] in H.
  apply rmatch_advances in H. destruct H as [s1 [H [c Hc]]].
  apply Hb in H. destruct H as [s2 [H (c' & z & Hc' & Hz)]].
  exists s2. split; [exact H|]. exists (c ++ c'), z.
  split; [|exact Hz]. rewrite Hc, Hc', <- app_assoc. reflexivity.
Qed.

Lemma endsIn_Seq_Eps : forall (P : cu -> Prop) (a : re),
  endsIn P a -> endsIn P (Seq a Eps).
Proof. intros P a Ha s k res H. cbn [rmatch] in H. apply Ha in H. exact H. Qed.

Lemma startsIn_Alt : forall (P : cu -> Prop) (a b : re),
  startsIn P a -> startsIn P b -> startsIn P (Alt a b).
Proof.
  intros P a b Ha Hb s k res H. cbn [rmatch] in H. unfold orelse in H.
  destruct (rmatch a s k) as [r1|] eqn:E.
  - injection H as <-. apply Ha. exact E.
  - apply Hb. exact H.
Qed.

Lemma endsIn_Alt : forall (P : cu -> Prop) (a b : re),
  endsIn P a -> endsIn P b -> endsIn P (Alt a b).
Proof.
  intros P a b Ha Hb s k res H. cbn [rmatch] in H. unfold orelse in H.
  destruct (rmatch a s k) as [r1|] eqn:E.
  - injection H as <-. apply Ha. exact E.
  - apply Hb. exact H.
Qed.

Lemma match_here_first : forall (P : cu -> Prop) (r : re), startsIn P r ->
  forall (bef aft : jsstring) (h : hit) (s' : mstate),
    match_here r bef aft = Some (h, s') -> exists z t, matched h = z :: t /\ P z.
Proof.
  intros P r Hr bef aft h s' H.
  pose proof (match_here_text _ _ _ _ _ H) as Ht.
  unfold match_here in H.
  destruct (rmatch r (MState bef aft []) Some) as [s1|] eqn:E; [|discriminate].
  injection H as Hh Hs. subst s1.
  apply Hr in E. destruct E as [s2 [Hk (z & c & Hc & Hz)]].
  injection Hk as ->. cbn [after] in Hc.
  exists z, c. split; [|exact Hz].
  rewrite Hc in Ht. change (z :: c ++ after s') with ((z :: c) ++ after s') in Ht.
  apply app_inv_tail in Ht. symmetry. exact Ht.
Qed.

Lemma match_here_last : forall (P : cu -> Prop) (r : re), endsIn P r ->
  forall (bef aft : jsstring) (h : hit) (s' : mstate),
    match_here r bef aft = Some (h, s') -> exists t z, matched h = t ++ [z] /\ P z.
Proof.
  intros P r Hr bef aft h s' H.
  pose proof (match_here_text _ _ _ _ _ H) as Ht.
  unfold match_here in H.
  destruct (rmatch r (MState bef aft []) Some) as [s1|] eqn:E; [|discriminate].
  injection H as Hh Hs. subst s1.
  apply Hr in E. destruct E as [s2 [Hk (c & z & Hc & Hz)]].
  injection Hk as ->. cbn [after] in Hc.
  exists c, z. split; [|exact Hz].
  rewrite Hc in Ht. change (c ++ z :: after s') with (c ++ [z] ++ after s') in Ht.
  rewrite app_assoc in Ht. apply app_inv_tail in Ht. symmetry. exact Ht.
Qed.

(** The literal patterns of the handlers start and end with a quote or a
    bracket. *)
Lemma quoted_edges : forall (P : cu -> Prop) (q : cu), P q ->
  startsIn P (quoted q) /\ endsIn P (quoted q).
Proof.
  intros P q Hq.
  assert (Hc : forall c, cu_eqb q c = true -> P c).
  { intros c Hc. apply N.eqb_eq in Hc. subst c. exact Hq. }
  split.
  - apply startsIn_Seq, startsIn_Cls, Hc.
  - apply endsIn_Seq, endsIn_Seq, endsIn_Cls, Hc.
Qed.

Lemma doubleOrSingleQuoted_edges : forall (P : cu -> Prop), P dq -> P sq ->
  startsIn P doubleOrSingleQuoted /\ endsIn P doubleOrSingleQuoted.
Proof.
  intros P Hd Hs.
  destruct (quoted_edges P dq Hd) as [Hd1 Hd2].
  destruct (quoted_edges P sq Hs) as [Hs1 Hs2].
  split; [apply startsIn_Alt | apply endsIn_Alt]; assumption.
Qed.

(** One round of the replacement loop. *)
Lemma replace_loop_hit :
  forall (A : Type) (r : re) (cb : hit -> A -> jsstring * A) (f : nat)
         (bef aft : jsstring) (acc : A) (h : hit) (s' : mstate),
    match_here r bef aft = Some (h, s') -> matched h <> [] ->
    replace_loop r cb (S f) bef aft acc
    = (let (o, acc1) := cb h acc in
       let (rest, acc2) := replace_loop r cb f (before s') (after s') acc1 in
       (o ++ rest, acc2)).
Proof.
  intros A r cb f bef aft acc h s' Hm Hne. cbn [replace_loop]. rewrite Hm.
  destruct (cb h acc) as [o acc1].
  destruct (matched h); [contradiction | reflexivity].
Qed.

Lemma replace_loop_miss :
  forall (A : Type) (r : re) (cb : hit -> A -> jsstring * A) (f : nat)
         (bef : jsstring) (c : cu) (t : jsstring) (acc : A),
    match_here r bef (c :: t) = None ->
    replace_loop r cb (S f) bef (c :: t) acc
    = (let (rest, acc1) := replace_loop r cb f (c :: bef) t acc in (c :: rest, acc1)).
Proof. intros A r cb f bef c t acc Hm. cbn [replace_loop]. rewrite Hm. reflexivity. Qed.

Lemma replace_loop_end :
  forall (A : Type) (r : re) (cb : hit -> A -> jsstring * A) (f : nat)
         (bef : jsstring) (acc : A),
    match_here r bef [] = None ->
    replace_loop r cb (S f) bef [] acc = ([], acc).
Proof. intros A r cb f bef acc Hm. cbn [replace_loop]. rewrite Hm. reflexivity. Qed.

(** *** Occurrences of a word in a text *)

(** [startsWith] is the prefix relation. *)
Lemma startsWith_app : forall (p c : jsstring), startsWith p (p ++ c) = true.
Proof.
  induction p as [|x p IH]; intros c; [reflexivity|].
  cbn [app startsWith]. unfold cu_eqb. rewrite N.eqb_refl, IH. reflexivity.
Qed.

Lemma startsWith_inv : forall (p s : jsstring),
  startsWith p s = true -> exists c, s = p ++ c.
Proof.
  induction p as [|x p IH]; intros s H.
  - exists s. reflexivity.
  - destruct s as [|y s]; [discriminate|]. cbn [startsWith] in H.
    apply andb_true_iff in H. destruct H as [Hxy Hp].
    apply N.eqb_eq in Hxy. subst y.
    destruct (IH s Hp) as [c ->]. exists c. reflexivity.
Qed.

Lemma includes_occurs : forall (w s : jsstring),
  includes w s = true <-> occurs w s.
Proof.
  intros w s. unfold includes. split.
  - revert w. induction s as [|c s IH]; intros w H.
    + cbn [indexOf] in H. destruct (startsWith w []) eqn:Hs; [|discriminate].
      apply startsWith_inv in Hs. destruct Hs as [c Hc].
      exists [], c. exact Hc.
    + rewrite indexOf_cons in H. destruct (startsWith w (c :: s)) eqn:Hs.
      * apply startsWith_inv in Hs. destruct Hs as [c' Hc]. exists [], c'. exact Hc.
      * destruct (indexOf w s) eqn:Hi; [|discriminate].
        destruct (IH w) as [a [c' ->]]; [rewrite Hi; reflexivity|].
        exists (c :: a), c'. reflexivity.
  - intros [a [c ->]]. induction a as [|x a IH].
    + cbn [app]. destruct (w ++ c) as [|y t] eqn:Hw.
      * cbn [indexOf]. destruct w; [reflexivity | discriminate].
      * rewrite indexOf_cons, <- Hw, startsWith_app. reflexivity.
    + cbn [app]. rewrite indexOf_cons.
      destruct (startsWith w (x :: a ++ w ++ c)); [reflexivity|].
      destruct (indexOf w (a ++ w ++ c)); [reflexivity | discriminate].
Qed.

Lemma not_includes : forall (w s : jsstring),
  includes w s = false <-> ~ occurs w s.
Proof.
  intros w s. rewrite <- includes_occurs.
  destruct (includes w s); split; intros H.
  - discriminate.
  - exfalso. apply H. reflexivity.
  - intros H'. discriminate.
  - reflexivity.
Qed.

(** A word that does not occur in a text occurs in none of its parts. *)
Lemma not_occurs_part : forall (w a b c : jsstring),
  ~ occurs w (a ++ b ++ c) -> ~ occurs w b.
Proof.
  intros w a b c H [x [y ->]]. apply H.
  exists (a ++ x), (y ++ c). rewrite <- !app_assoc. reflexivity.
Qed.

(** An occurrence cannot start in a stretch whose characters the first
    character of the word is not one of. *)
Lemma occurs_skip : forall (P : cu -> bool) (w u v : jsstring) (x : cu) (w' : jsstring),
  w = x :: w' -> P x = true -> forallb (fun c => negb (P c)) u = true ->
  forall a c, u ++ v = a ++ w ++ c -> exists a', a = u ++ a' /\ v = a' ++ w ++ c.
Proof.
  intros P w u v x w' -> Hx. induction u as [|y u IH]; intros Hu a c H.
  - exists a. split; [reflexivity | exact H].
  - cbn [forallb] in Hu. apply andb_true_iff in Hu. destruct Hu as [Hy Hu].
    destruct a as [|z a].
    + cbn [app] in H. injection H as Hyx _. subst y. rewrite Hx in Hy. discriminate.
    + cbn [app] in H. injection H as Hyz H. subst z.
      destruct (IH Hu a c H) as [a' [-> Hv]].
      exists a'. split; [reflexivity | exact Hv].
Qed.

(** Where a word can lie in two texts put together: in the first, in the
    second, or across the seam. *)
Lemma occurs_app_cases : forall (w x y a c : jsstring),
  x ++ y = a ++ w ++ c ->
  (exists t, x = a ++ w ++ t /\ c = t ++ y)
  \/ (exists t, a = x ++ t /\ y = t ++ w ++ c)
  \/ (exists w1 w2, w = w1 ++ w2 /\ w1 <> [] /\ w2 <> [] /\ x = a ++ w1 /\ y = w2 ++ c).
Proof.
  intros w x y a c H.
  apply app_eq_app in H. destruct H as [t [[H1 H2] | [H1 H2]]].
  - (* x = a ++ t,  w ++ c = t ++ y *)
    apply app_eq_app in H2. destruct H2 as [t' [[H3 H4] | [H3 H4]]].
    + (* w = t ++ t', y = t' ++ c *)
      destruct t' as [|z t'].
      * left. exists []. rewrite app_nil_r in H3. subst t.
        split; [rewrite app_nil_r; exact H1 | symmetry; exact H4].
      * destruct t as [|z' t].
        -- right. left. exists []. rewrite app_nil_r in *. cbn [app] in H3.
           split; [symmetry; exact H1 | subst w; exact H4].
        -- right. right. exists (z' :: t), (z :: t').
           split; [exact H3|]. split; [discriminate|]. split; [discriminate|].
           split; [exact H1 | exact H4].
    + (* t = w ++ t', c = t' ++ y *)
      left. exists t'. subst t. split; [exact H1 | exact H4].
  - (* a = x ++ t,  y = t ++ w ++ c *)
    right. left. exists t. split; assumption.
Qed.

Lemma forallb_app_head : forall (P : cu -> bool) (w1 : jsstring) (y : cu) (w2 : jsstring),
  forallb P (w1 ++ y :: w2) = true -> P y = true.
Proof.
  intros P w1 y w2 H. rewrite forallb_app in H. cbn [forallb] in H.
  apply andb_true_iff in H. destruct H as [_ H].
  apply andb_true_iff in H. tauto.
Qed.

(** A star over a character class consumes characters of the class. *)
Lemma star_loop_Cls :
  forall (greedy : bool) (p : cu -> bool) (n : nat)
         (k : mstate -> option mstate) (s res : mstate),
    star_loop greedy (rmatch (Cls p)) k n s = Some res ->
    exists s1 c, k s1 = Some res /\ after s = c ++ after s1 /\ forallb p c = true.
Proof.
  intros greedy p. induction n as [|n IH]; intros k s res H.
  - exists s, []. repeat split. exact H.
  - cbn [star_loop] in H.
    assert (Hagain : forall res',
      rmatch (Cls p) s (fun s' => if length (after s') <? length (after s)
                                  then star_loop greedy (rmatch (Cls p)) k n s'
                                  else None) = Some res' ->
      exists s1 c, k s1 = Some res' /\ after s = c ++ after s1 /\ forallb p c = true).
    { intros res' Hr. cbn [rmatch] in Hr.
      destruct (after s) as [|x t] eqn:E; [discriminate|].
      destruct (p x) eqn:Hx; [|discriminate].
      destruct (length (after _) <? _); [|discriminate].
      apply IH in Hr. destruct Hr as (s1 & c & Hk & Hc & Hp). cbn [after] in Hc.
      exists s1, (x :: c). split; [exact Hk|]. split; [rewrite Hc; reflexivity|].
      cbn [forallb]. rewrite Hx, Hp. reflexivity. }
    assert (Hstay : forall res', k s = Some res' ->
      exists s1 c, k s1 = Some res' /\ after s = c ++ after s1 /\ forallb p c = true).
    { intros res' Hr. exists s, []. repeat split. exact Hr. }
    destruct greedy; unfold orelse in H.
    + destruct (rmatch (Cls p) s _) as [r1|] eqn:E.
      * injection H as <-. apply (Hagain r1 eq_refl).
      * apply Hstay. exact H.
    + destruct (k s) as [r1|] eqn:E.
      * injection H as <-. apply (Hstay r1 eq_refl).
      * apply Hagain. exact H.
Qed.

Lemma endsIn_Seq_Star_Cls : forall (P : cu -> Prop) (a : re) (greedy : bool) (p : cu -> bool),
  endsIn P a -> (forall c, p c = true -> P c) ->
  endsIn P (Seq a (Star greedy (Cls p))).
Proof.
  intros P a greedy p Ha Hp s k res H. cbn [rmatch] in H.
  apply Ha in H. destruct H as [s1 [H (c & z & Hc & Hz)]].
  apply star_loop_Cls in H. destruct H as (s2 & c' & Hk & Hc' & Hall).
  exists s2. split; [exact Hk|].
  destruct c' as [|y0 c0].
  - exists c, z. cbn [app] in Hc'. rewrite Hc, Hc'. split; [reflexivity | exact Hz].
  - assert (Hne : y0 :: c0 <> []) by discriminate.
    destruct (exists_last Hne) as [c'' [y Hy]]. rewrite Hy in Hc', Hall.
    exists (c ++ z :: c''), y. rewrite Hc, Hc', <- !app_assoc. cbn [app].
    split; [reflexivity|]. apply Hp.
    apply (forallb_app_head p c'' y []). exact Hall.
Qed.

(** *** Split and join at a separator that occurs once *)

Lemma split_aux_none : forall (p : jsstring), p <> [] ->
  forall (s : jsstring) (fuel : nat) (cur : jsstring),
    ~ occurs p s -> length s < fuel ->
    split_aux fuel p s cur = [rev cur ++ s].
Proof.
  intros p Hp. induction s as [|x s IH]; intros fuel cur Hno Hf;
    (destruct fuel as [|f]; [cbn [length] in Hf; lia|]); cbn [split_aux].
  - rewrite app_nil_r. reflexivity.
  - destruct (startsWith p (x :: s)) eqn:Hs.
    + exfalso. apply startsWith_inv in Hs. destruct Hs as [c Hc].
      apply Hno. exists [], c. exact Hc.
    + rewrite IH.
      * cbn [rev]. rewrite <- app_assoc. reflexivity.
      * intros [a [c Hc]]. apply Hno. exists (x :: a), c. rewrite Hc. reflexivity.
      * cbn [length] in Hf. lia.
Qed.

Lemma skipn_app_exact : forall (p c : jsstring), skipn (length p) (p ++ c) = c.
Proof. induction p as [|x p IH]; intros c; [reflexivity | exact (IH c)]. Qed.

Lemma split_aux_hit : forall (p s cur : jsstring) (f : nat), p <> [] ->
  startsWith p s = true ->
  split_aux (S f) p s cur = rev cur :: split_aux f p (skipn (length p) s) [].
Proof.
  intros p s cur f Hp H. destruct s as [|y s].
  - destruct p; [contradiction | discriminate].
  - cbn [split_aux]. rewrite H. reflexivity.
Qed.

Lemma split_aux_once : forall (p : jsstring), p <> [] ->
  forall (a c : jsstring) (fuel : nat) (cur : jsstring),
    (forall a1 c1, a ++ p ++ c = a1 ++ p ++ c1 -> a1 = a) ->
    length (a ++ p ++ c) < fuel ->
    split_aux fuel p (a ++ p ++ c) cur = [rev cur ++ a; c].
Proof.
  intros p Hp. induction a as [|x a IH]; intros c fuel cur Huniq Hf.
  - cbn [app] in *. destruct fuel as [|f]; [lia|].
    rewrite split_aux_hit by (exact Hp || apply startsWith_app).
    rewrite skipn_app_exact, app_nil_r.
    f_equal. rewrite split_aux_none; [reflexivity | exact Hp | |].
    + intros [a2 [c2 Hc]].
      assert (H : p ++ a2 = []).
      { apply (Huniq (p ++ a2) c2). rewrite Hc, <- !app_assoc. reflexivity. }
      apply app_eq_nil in H. destruct H as [H _]. contradiction.
    + rewrite length_app in Hf. destruct p; [contradiction|]. cbn [length] in Hf. lia.
  - destruct fuel as [|f]; [cbn [app length] in Hf; lia|].
    cbn [app split_aux].
    destruct (startsWith p (x :: a ++ p ++ c)) eqn:Hs.
    + exfalso. apply startsWith_inv in Hs. destruct Hs as [c' Hc].
      assert (H : [] = x :: a) by (apply (Huniq [] c'); exact Hc).
      discriminate.
    + rewrite IH.
      * cbn [rev]. rewrite <- app_assoc. reflexivity.
      * intros a1 c1 H.
        assert (H' : x :: a1 = x :: a).
        { apply (Huniq (x :: a1) c1). cbn [app]. rewrite H. reflexivity. }
        injection H' as H'. exact H'.
      * cbn [app length] in Hf. lia.
Qed.

(** Where the placeholder occurs once, [split] and [join] put the
    replacement in its place. *)
Lemma splitJoin_once : forall (p o a c : jsstring), p <> [] ->
  (forall a1 c1, a ++ p ++ c = a1 ++ p ++ c1 -> a1 = a) ->
  splitJoin p o (a ++ p ++ c) = a ++ o ++ c.
Proof.
  intros p o a c Hp Huniq. unfold splitJoin, split.
  rewrite (split_aux_once p Hp a c _ [] Huniq) by lia. reflexivity.
Qed.

(** Where it does not occur, they change nothing. *)
Lemma splitJoin_none : forall (p o s : jsstring), p <> [] ->
  ~ occurs p s -> splitJoin p o s = s.
Proof.
  intros p o s Hp Hno. unfold splitJoin, split.
  rewrite (split_aux_none p Hp s _ [] Hno) by lia. reflexivity.
Qed.

(** A list without repetition falls apart at an element in one way. *)
Lemma NoDup_split_unique :
  forall (A K : Type) (f : A -> K) (l1 l1' : list A) (h h' : A) (l2 l2' : list A),
    NoDup (map f (l1 ++ h :: l2)) ->
    l1 ++ h :: l2 = l1' ++ h' :: l2' -> f h = f h' ->
    l1 = l1' /\ h = h' /\ l2 = l2'.
Proof.
  intros A K f. induction l1 as [|y l1 IH]; intros l1' h h' l2 l2' Hnd H Hf.
  - destruct l1' as [|y' l1'].
    + cbn [app] in H. injection H as Hh Hl. subst. repeat split.
    + exfalso. cbn [app] in H. injection H as Hh Hl. subst y' l2.
      cbn [app map] in Hnd. apply NoDup_cons_iff in Hnd. destruct Hnd as [Hnd _].
      apply Hnd. rewrite map_app. apply in_or_app. right. left. symmetry. exact Hf.
  - destruct l1' as [|y' l1'].
    + exfalso. cbn [app] in H. injection H as Hh Hl. subst y.
      cbn [app map] in Hnd. apply NoDup_cons_iff in Hnd. destruct Hnd as [Hnd _].
      apply Hnd. rewrite map_app. apply in_or_app. right. left. exact Hf.
    + cbn [app] in H. injection H as Hy H. subst y'.
      cbn [app map] in Hnd. apply NoDup_cons_iff in Hnd. destruct Hnd as [_ Hnd].
      destruct (IH _ _ _ _ _ Hnd H Hf) as [Hl1 [Hh Hl2]]. subst. repeat split.
Qed.

(** *** Replace with a string pattern, where the pattern occurs once *)

Lemma indexOf_first : forall (p a c : jsstring), p <> [] ->
  (forall a1 c1, a ++ p ++ c = a1 ++ p ++ c1 -> a1 = a) ->
  indexOf p (a ++ p ++ c) = Some (length a).
Proof.
  intros p a c Hp. induction a as [|x a IH]; intros Huniq.
  - cbn [app length]. destruct (p ++ c) as [|y s] eqn:Hpc.
    { destruct p; [contradiction | discriminate]. }
    rewrite indexOf_cons, <- Hpc, startsWith_app. reflexivity.
  - cbn [app length]. rewrite indexOf_cons.
    destruct (startsWith p (x :: a ++ p ++ c)) eqn:Hs.
    + exfalso. apply startsWith_inv in Hs. destruct Hs as [c' Hc].
      assert (H : [] = x :: a) by (apply (Huniq [] c'); exact Hc).
      discriminate.
    + rewrite IH; [reflexivity|].
      intros a1 c1 H.
      assert (H' : x :: a1 = x :: a).
      { apply (Huniq (x :: a1) c1). cbn [app]. rewrite H. reflexivity. }
      injection H' as H'. exact H'.
Qed.

(** A replacement without a dollar sign is put in as it is. *)
Lemma replaceFirst_once : forall (p r a c : jsstring), p <> [] ->
  mem dollar r = false ->
  (forall a1 c1, a ++ p ++ c = a1 ++ p ++ c1 -> a1 = a) ->
  replaceFirst p r (a ++ p ++ c) = a ++ r ++ c.
Proof.
  intros p r a c Hp Hr Huniq. unfold replaceFirst.
  rewrite (indexOf_first p a c Hp Huniq). cbv zeta.
  assert (Hb : firstn (length a) (a ++ p ++ c) = a).
  { rewrite firstn_app, firstn_all, Nat.sub_diag, firstn_O, app_nil_r. reflexivity. }
  assert (Ha : skipn (length a + length p) (a ++ p ++ c) = c).
  { rewrite <- length_app, app_assoc. apply skipn_app_exact. }
  rewrite Hb, Ha, getSubstitution_plain by exact Hr. reflexivity.
Qed.

(** *** Decimal indices *)

Lemma digit_char_decimal : forall d : N, (d < 10)%N ->
  is_digit (digit_char d) = true /\ (digit_char d - 48 = d)%N.
Proof.
  intros d Hd. unfold digit_char. destruct (N.ltb_spec d 10) as [_|H]; [|lia].
  split; [|lia]. unfold is_digit, between.
  apply andb_true_iff. split; apply N.leb_le; lia.
Qed.

Lemma toStringRadix_aux_decimal :
  forall (f : nat) (n : N) (acc : jsstring),
    N.to_nat (N.log2 n) < f ->
    fold_left decimalStep (toStringRadix_aux f 10 n acc) 0%N
    = fold_left decimalStep acc n.
Proof.
  induction f as [|f IH]; intros n acc Hf; [lia|].
  cbn [toStringRadix_aux].
  assert (Hm : (n mod 10 < 10)%N) by (apply N.mod_lt; lia).
  destruct (digit_char_decimal _ Hm) as [_ Hd].
  destruct (N.ltb_spec n 10) as [Hlt|Hge].
  - cbn [fold_left]. unfold decimalStep at 2. rewrite Hd.
    rewrite N.mod_small by exact Hlt. reflexivity.
  - rewrite IH by (pose proof (log2_div_radix 10 n); lia).
    cbn [fold_left]. unfold decimalStep at 2. rewrite Hd.
    f_equal. pose proof (N.div_mod' n 10). lia.
Qed.

Lemma decimalValue_toString10 : forall n : N, decimalValue (toString10 n) = n.
Proof.
  intros n. unfold decimalValue, toString10, toStringRadix.
  rewrite toStringRadix_aux_decimal by lia. reflexivity.
Qed.

Lemma toString10_inj : forall a b : nat,
  toString10 (N.of_nat a) = toString10 (N.of_nat b) -> a = b.
Proof.
  intros a b H. apply (f_equal decimalValue) in H.
  rewrite !decimalValue_toString10 in H. lia.
Qed.

Lemma toStringRadix_aux_digits :
  forall (f : nat) (n : N) (acc : jsstring),
    exists d, toStringRadix_aux (S f) 10 n acc = d ++ acc
              /\ d <> [] /\ forallb is_digit d = true.
Proof.
  induction f as [|f IH]; intros n acc;
    assert (Hm : (n mod 10 < 10)%N) by (apply N.mod_lt; lia);
    destruct (digit_char_decimal _ Hm) as [Hdig _].
  - exists [digit_char (n mod 10)]. cbn [toStringRadix_aux].
    split; [destruct (N.ltb n 10); reflexivity|].
    split; [discriminate|]. cbn [forallb]. rewrite Hdig. reflexivity.
  - change (toStringRadix_aux (S (S f)) 10 n acc)
      with (if N.ltb n 10 then digit_char (n mod 10) :: acc
            else toStringRadix_aux (S f) 10 (n / 10) (digit_char (n mod 10) :: acc)).
    destruct (N.ltb n 10).
    + exists [digit_char (n mod 10)].
      split; [reflexivity|]. split; [discriminate|].
      cbn [forallb]. rewrite Hdig. reflexivity.
    + destruct (IH (n / 10)%N (digit_char (n mod 10) :: acc)) as [d [Hd [Hne Hall]]].
      exists (d ++ [digit_char (n mod 10)]). rewrite Hd, <- app_assoc.
      split; [reflexivity|]. split; [destruct d; discriminate|].
      rewrite forallb_app, Hall. cbn [forallb]. rewrite Hdig. reflexivity.
Qed.

Lemma toString10_digits : forall n : N,
  toString10 n <> [] /\ forallb is_digit (toString10 n) = true.
Proof.
  intros n. unfold toString10, toStringRadix.
  destruct (toStringRadix_aux_digits (N.to_nat (N.log2 n)) n []) as [d [Hd [Hne Hall]]].
  rewrite Hd, app_nil_r. split; assumption.
Qed.

(** Two runs of digits, each followed by something that is not a digit,
    are the same run when the texts agree. *)
Lemma digits_then_other :
  forall (d1 d2 b1 b2 : jsstring) (x1 x2 : cu) (t1 t2 : jsstring),
    forallb is_digit d1 = true -> forallb is_digit d2 = true ->
    b1 = x1 :: t1 -> b2 = x2 :: t2 ->
    is_digit x1 = false -> is_digit x2 = false ->
    d1 ++ b1 = d2 ++ b2 -> d1 = d2 /\ b1 = b2.
Proof.
  induction d1 as [|c d1 IH]; intros d2 b1 b2 x1 x2 t1 t2 H1 H2 -> -> Hx1 Hx2 H.
  - destruct d2 as [|c2 d2]; [split; [reflexivity | exact H]|].
    cbn [app] in H. injection H as Hc _. subst c2.
    cbn [forallb] in H2. rewrite Hx1 in H2. discriminate.
  - destruct d2 as [|c2 d2].
    + cbn [app] in H. injection H as Hc _. subst c.
      cbn [forallb] in H1. rewrite Hx2 in H1. discriminate.
    + cbn [app] in H. injection H as Hc H. subst c2.
      cbn [forallb] in H1, H2.
      apply andb_true_iff in H1. apply andb_true_iff in H2.
      destruct (IH d2 (x1 :: t1) (x2 :: t2) x1 x2 t1 t2) as [-> Hb];
        try tauto; try reflexivity.
Qed.

(** *** The shape of a placeholder *)

Import Holes.


Lemma upper_not_underscore : forall c : cu, is_upper c = true -> cu_eqb 95 c = false.
Proof.
  intros c H. unfold is_upper, between in H. apply andb_true_iff in H.
  destruct H as [H1 H2]. apply N.leb_le in H1. apply N.leb_le in H2.
  unfold cu_eqb. apply N.eqb_neq. lia.
Qed.

Lemma upper_not_digit : forall c : cu, is_upper c = true -> is_digit c = false.
Proof.
  intros c H. unfold is_upper, between in H. apply andb_true_iff in H.
  destruct H as [H1 H2]. apply N.leb_le in H1. apply N.leb_le in H2.
  unfold is_digit, between. apply andb_false_iff. right. apply N.leb_gt. lia.
Qed.

Lemma digit_not_upper : forall c : cu, is_digit c = true -> is_upper c = false.
Proof.
  intros c H. destruct (is_upper c) eqn:E; [|reflexivity].
  rewrite (upper_not_digit c E) in H. discriminate.
Qed.

Lemma underscore_not_upper : forall c : cu, cu_eqb 95 c = true -> is_upper c = false.
Proof.
  intros c H. destruct (is_upper c) eqn:E; [|reflexivity].
  rewrite (upper_not_underscore c E) in H. discriminate.
Qed.

Lemma forallb_impl : forall (P Q : cu -> bool) (l : jsstring),
  (forall c, P c = true -> Q c = true) -> forallb P l = true -> forallb Q l = true.
Proof.
  intros P Q l H. induction l as [|c l IH]; intros Hl; [reflexivity|].
  cbn [forallb] in *. apply andb_true_iff in Hl. destruct Hl as [Hc Hl].
  rewrite (H c Hc), (IH Hl). reflexivity.
Qed.

Section Scheme.

Variables pre W post B : jsstring.
Hypothesis scheme : schemeOk pre W post B = true.

Local Abbreviation ph := (Holes.ph pre W post B).
Local Abbreviation flat := (Holes.flat pre W post B).
Local Abbreviation placeholdersFrom := (Holes.placeholdersFrom pre W post B).
Local Abbreviation record := (Holes.record pre W post B).
Local Abbreviation extractPasses := (Holes.extractPasses pre W post B).

Lemma scheme_parts :
  (exists w0 W', W = w0 :: W' /\ is_upper w0 = true)
  /\ forallb is_upper W = true
  /\ (exists pre', pre = 95%N :: pre')
  /\ forallb (cu_eqb 95) pre = true
  /\ forallb (cu_eqb 95) post = true
  /\ (exists B', B = 95%N :: B')
  /\ (exists B', B = B' ++ [95%N])
  /\ ~ occurs W B
  /\ forallb placeholderChar B = true.
Proof.
  unfold schemeOk in scheme.
  destruct W as [|w0 W'] eqn:HW; [discriminate|].
  destruct pre as [|p0 pre'] eqn:Hpre; [discriminate|].
  destruct B as [|b0 B'] eqn:HB; [discriminate|].
  rewrite <- HW, <- Hpre, <- HB in scheme.
  repeat (apply andb_true_iff in scheme; destruct scheme as [scheme ?]).
  repeat split; try assumption.
  - exists w0, W'. split; [reflexivity|].
    rewrite HW in scheme. cbn [forallb] in scheme.
    apply andb_true_iff in scheme. tauto.
  - rewrite <- HW. exact scheme.
  - exists pre'. rewrite Hpre in H4. cbn [forallb] in H4.
    apply andb_true_iff in H4. destruct H4 as [H4 _].
    apply N.eqb_eq in H4. subst p0. reflexivity.
  - rewrite <- Hpre. exact H4.
  - exists B'. apply N.eqb_eq in H2. subst b0. reflexivity.
  - apply N.eqb_eq in H1. rewrite <- HB.
    assert (Hne : B <> []) by (rewrite HB; discriminate).
    destruct (exists_last Hne) as [B'' [x Hx]].
    exists B''. rewrite Hx in H1 |- *. rewrite last_last in H1. subst x. reflexivity.
  - rewrite <- HW, <- HB. apply not_includes.
    destruct (includes W B); [discriminate | reflexivity].
  - rewrite <- HB. exact H.
Qed.

Lemma ph_first : forall i, exists t, ph i = 95%N :: t.
Proof.
  intros i. destruct scheme_parts as (_ & _ & [pre' Hpre] & _).
  unfold Holes.ph. rewrite Hpre. eexists. reflexivity.
Qed.

Lemma ph_last : forall i, exists t, ph i = t ++ [95%N].
Proof.
  intros i. destruct scheme_parts as (_ & _ & _ & _ & _ & _ & [B' HB] & _).
  unfold Holes.ph. rewrite HB.
  exists (pre ++ W ++ post ++ toString10 (N.of_nat i) ++ B').
  rewrite <- !app_assoc. reflexivity.
Qed.

Lemma ph_chars : forall i, forallb placeholderChar (ph i) = true.
Proof.
  intros i.
  destruct scheme_parts as (_ & HW & _ & Hpre & Hpost & _ & _ & _ & HB).
  destruct (toString10_digits (N.of_nat i)) as [_ Hd].
  assert (Hu : forall l, forallb (cu_eqb 95) l = true -> forallb placeholderChar l = true).
  { intros l. apply forallb_impl. intros c Hc. apply N.eqb_eq in Hc. subst c. reflexivity. }
  assert (Hup : forall l, forallb is_upper l = true -> forallb placeholderChar l = true).
  { intros l. apply forallb_impl. intros c Hc. unfold placeholderChar.
    rewrite Hc, orb_true_r. reflexivity. }
  assert (Hdg : forall l, forallb is_digit l = true -> forallb placeholderChar l = true).
  { intros l. apply forallb_impl. intros c Hc. unfold placeholderChar.
    rewrite Hc, orb_true_r. reflexivity. }
  unfold Holes.ph. rewrite !forallb_app.
  rewrite (Hu _ Hpre), (Hup _ HW), (Hu _ Hpost), (Hdg _ Hd), HB. reflexivity.
Qed.

(** Between the word and the closing text of a placeholder no character
    is upper-case. *)
Lemma after_word : forall i,
  forallb (fun c => negb (is_upper c)) (post ++ toString10 (N.of_nat i)) = true.
Proof.
  intros i. destruct scheme_parts as (_ & _ & _ & _ & Hpost & _).
  destruct (toString10_digits (N.of_nat i)) as [_ Hd].
  rewrite forallb_app. apply andb_true_iff. split.
  - apply (forallb_impl (cu_eqb 95)); [|exact Hpost].
    intros c Hc. rewrite (underscore_not_upper c Hc). reflexivity.
  - apply (forallb_impl is_digit); [|exact Hd].
    intros c Hc. rewrite (digit_not_upper c Hc). reflexivity.
Qed.


(** The word occurs in a placeholder once, after the leading underscores. *)
Lemma word_in_placeholder : forall (j : nat) (t t3 : jsstring),
  ph j = t ++ W ++ t3 -> t = pre.
Proof.
  intros j t t3 H.
  destruct scheme_parts as ([w0 [W' [HW Hw0]]] & HWup & _ & Hpre & _ & _ & _ & HnoB & _).
  pose proof (after_word j) as Hmid.
  assert (Hpre' : forallb (fun c => negb (is_upper c)) pre = true).
  { apply (forallb_impl (cu_eqb 95)); [|exact Hpre].
    intros c Hc. rewrite (underscore_not_upper c Hc). reflexivity. }
  unfold Holes.ph in H.
  destruct (occurs_skip is_upper W pre _ w0 W' HW Hw0 Hpre' t t3 H) as [a' [-> Ha]].
  destruct a' as [|x a'']; [rewrite app_nil_r; reflexivity|]. exfalso.
  apply app_eq_app in Ha. destruct Ha as [l [[H1 H2] | [H1 H2]]].
  - (* the second occurrence starts inside the word *)
    assert (Hlen : length W = S (length a'') + length l).
    { rewrite H1 at 1. cbn [app length]. rewrite length_app. lia. }
    apply app_eq_app in H2. destruct H2 as [l' [[H3 H4] | [H3 H4]]].
    + destruct l' as [|y l''].
      { apply (f_equal (@length cu)) in H3. rewrite length_app in H3.
        cbn [length] in H3. lia. }
      assert (Hy : is_upper y = true).
      { rewrite H3 in HWup. rewrite forallb_app in HWup.
        apply andb_true_iff in HWup. destruct HWup as [_ HWup].
        cbn [forallb] in HWup. apply andb_true_iff in HWup. tauto. }
      rewrite app_assoc in H4.
      destruct (toString10_digits (N.of_nat j)) as [Hne _].
      destruct (post ++ toString10 (N.of_nat j)) as [|z u] eqn:Hu.
      { apply app_eq_nil in Hu. tauto. }
      cbn [app] in H4. injection H4 as Hz _. subst z.
      cbn [forallb] in Hmid. rewrite Hy in Hmid. discriminate.
    + apply (f_equal (@length cu)) in H3. rewrite length_app in H3. lia.
  - (* the second occurrence lies after the word *)
    rewrite app_assoc in H2.
    destruct (occurs_skip is_upper W _ B w0 W' HW Hw0 Hmid l t3 H2) as [a3 [_ HB]].
    apply HnoB. exists a3, t3. exact HB.
Qed.

(** Two placeholders that start at the same place are the same. *)
Lemma ph_prefix_inj : forall (i j : nat) (r c : jsstring),
  ph j ++ r = ph i ++ c -> j = i /\ r = c.
Proof.
  intros i j r c H.
  destruct scheme_parts as (_ & _ & _ & _ & _ & [B' HB] & _).
  unfold Holes.ph in H. rewrite <- !app_assoc in H.
  apply app_inv_head in H. apply app_inv_head in H. apply app_inv_head in H.
  destruct (toString10_digits (N.of_nat i)) as [_ Hi].
  destruct (toString10_digits (N.of_nat j)) as [_ Hj].
  destruct (digits_then_other _ _ (B ++ r) (B ++ c) 95%N 95%N (B' ++ r) (B' ++ c) Hj Hi)
    as [Hd Hb]; try reflexivity; try (rewrite HB; reflexivity); try exact H.
  split; [apply toString10_inj; exact Hd | apply app_inv_head in Hb; exact Hb].
Qed.

Lemma ph_not_nil : forall i, ph i <> [].
Proof. intros i. destruct (ph_first i) as [t ->]. discriminate. Qed.

(** *** Texts with holes *)


Lemma flat_app : forall (l1 : list hole) (x : jsstring) (h : hole) (l2 : list hole),
  flat x (l1 ++ h :: l2) = flat x l1 ++ ph (holeIndex h) ++ flat (holeGap h) l2.
Proof.
  induction l1 as [|h1 l1 IH]; intros x h l2; [reflexivity|].
  cbn [app Holes.flat]. rewrite IH, <- !app_assoc. reflexivity.
Qed.

Lemma full_app : forall (l1 : list hole) (x : jsstring) (h : hole) (l2 : list hole),
  full x (l1 ++ h :: l2) = full x l1 ++ holeLiteral h ++ full (holeGap h) l2.
Proof.
  induction l1 as [|h1 l1 IH]; intros x h l2; [reflexivity|].
  cbn [app full]. rewrite IH, <- !app_assoc. reflexivity.
Qed.

(** In a text with holes whose gaps and literals do not hold the word, the
    word occurs only inside the placeholders. *)
Lemma word_in_flat : forall (l : list hole) (x a c : jsstring),
  ~ occurs W (full x l) -> flat x l = a ++ W ++ c ->
  exists l1 h l2, l = l1 ++ h :: l2 /\ a = flat x l1 ++ pre.
Proof.
  destruct scheme_parts as (_ & HWup & _).
  induction l as [|h l IH]; intros x a c Hfree H.
  - exfalso. apply Hfree. exists a, c. exact H.
  - cbn [Holes.flat full] in *.
    assert (Hx : ~ occurs W x).
    { apply (not_occurs_part W [] x (holeLiteral h ++ full (holeGap h) l)). exact Hfree. }
    assert (Hrest : ~ occurs W (full (holeGap h) l)).
    { apply (not_occurs_part W (x ++ holeLiteral h) _ []).
      rewrite app_nil_r, <- app_assoc. exact Hfree. }
    destruct (occurs_app_cases _ _ _ _ _ H) as [[t [H1 _]] | [[t [H1 H2]] | (w1 & w2 & Hw & Hw1 & Hw2 & H1 & H2)]].
    + exfalso. apply Hx. exists a, t. exact H1.
    + destruct (occurs_app_cases _ _ _ _ _ H2) as [[t' [H3 _]] | [[t' [H3 H4]] | (w1 & w2 & Hw & Hw1 & Hw2 & H3 & H4)]].
      * apply word_in_placeholder in H3. subst t.
        exists [], h, l. split; [reflexivity | exact H1].
      * destruct (IH _ _ _ Hrest H4) as (l1 & h' & l2 & Hl & Ht').
        exists (h :: l1), h', l2. split; [rewrite Hl; reflexivity|].
        cbn [Holes.flat]. rewrite H1, H3, Ht', <- !app_assoc. reflexivity.
      * exfalso. destruct (ph_last (holeIndex h)) as [u Hu].
        rewrite Hu in H3.
        destruct (exists_last Hw1) as [w1' [z Hz]]. rewrite Hz in H3.
        rewrite app_assoc in H3. apply app_inj_tail in H3. destruct H3 as [_ H3].
        subst z. rewrite Hw, Hz, <- app_assoc in HWup.
        apply forallb_app_head in HWup. discriminate.
    + exfalso. destruct (ph_first (holeIndex h)) as [u Hu].
      rewrite Hu in H2. destruct w2 as [|z w2]; [contradiction|].
      cbn [app] in H2. injection H2 as Hz _. subst z.
      rewrite Hw in HWup. apply forallb_app_head in HWup. discriminate.
Qed.

(** A placeholder occurs in such a text only where a hole with its index is. *)
Lemma placeholder_in_flat : forall (l : list hole) (x a c : jsstring) (i : nat),
  ~ occurs W (full x l) -> flat x l = a ++ ph i ++ c ->
  exists l1 h l2, l = l1 ++ h :: l2 /\ holeIndex h = i
                  /\ a = flat x l1 /\ c = flat (holeGap h) l2.
Proof.
  intros l x a c i Hfree H.
  assert (H' : flat x l = (a ++ pre) ++ W ++ (post ++ toString10 (N.of_nat i) ++ B ++ c)).
  { rewrite H. unfold Holes.ph. rewrite <- !app_assoc. reflexivity. }
  destruct (word_in_flat _ _ _ _ Hfree H') as (l1 & h & l2 & Hl & Ha).
  apply app_inv_tail in Ha. subst a.
  rewrite Hl, flat_app in H. apply app_inv_head in H.
  apply ph_prefix_inj in H. destruct H as [Hi Hc].
  exists l1, h, l2. repeat split; [exact Hl | exact Hi | symmetry; exact Hc].
Qed.

Lemma flat_prefix : forall (u x : jsstring) (l : list hole),
  flat (u ++ x) l = u ++ flat x l.
Proof. intros u x [|h l]; cbn [Holes.flat]; [reflexivity | rewrite <- app_assoc; reflexivity]. Qed.

Lemma full_prefix : forall (u x : jsstring) (l : list hole),
  full (u ++ x) l = u ++ full x l.
Proof. intros u x [|h l]; cbn [full]; [reflexivity | rewrite <- app_assoc; reflexivity]. Qed.

(** Putting the literal of one hole back leaves a text with the other holes. *)
Lemma fill_hole : forall (l1 : list hole) (x : jsstring) (h : hole) (l2 : list hole),
  exists x' l',
    flat x' l' = flat x l1 ++ holeLiteral h ++ flat (holeGap h) l2
    /\ full x' l' = full x (l1 ++ h :: l2)
    /\ map holeKey l' = map holeKey l1 ++ map holeKey l2.
Proof.
  induction l1 as [|h1 l1 IH]; intros x h l2.
  - exists (x ++ holeLiteral h ++ holeGap h), l2. cbn [Holes.flat full app map].
    rewrite (app_assoc x), flat_prefix, full_prefix, <- !app_assoc.
    repeat split.
  - destruct (IH (holeGap h1) h l2) as (x' & l' & Hflat & Hfull & Hkeys).
    exists x, (Hole (holeIndex h1) (holeLiteral h1) x' :: l').
    cbn [Holes.flat full app map holeIndex holeLiteral holeGap].
    rewrite Hflat, Hfull, Hkeys, <- !app_assoc. repeat split.
Qed.

(** The step of the restoration loop: [split] and [join] in some handlers,
    [replace] with a string pattern in others.  What is asked of it is that
    it puts the replacement in the place of a placeholder that occurs
    once, for the replacements that fit it. *)
Variable put : jsstring -> jsstring -> jsstring -> jsstring.
Variable fits : jsstring -> Prop.
Hypothesis put_once : forall (p r a c : jsstring), p <> [] -> fits r ->
  (forall a1 c1, a ++ p ++ c = a1 ++ p ++ c1 -> a1 = a) ->
  put p r (a ++ p ++ c) = a ++ r ++ c.

Lemma restore_one : forall (x : jsstring) (l l1 : list hole) (h : hole) (l2 : list hole),
  ~ occurs W (full x l) -> NoDup (map holeIndex l) -> l = l1 ++ h :: l2 ->
  fits (holeLiteral h) ->
  put (ph (holeIndex h)) (holeLiteral h) (flat x l)
  = flat x l1 ++ holeLiteral h ++ flat (holeGap h) l2.
Proof.
  intros x l l1 h l2 Hfree Hnd Hl Hfit.
  assert (Hflat : flat x l = flat x l1 ++ ph (holeIndex h) ++ flat (holeGap h) l2).
  { rewrite Hl. apply flat_app. }
  rewrite Hflat. apply put_once; [apply ph_not_nil | exact Hfit |].
  intros a1 c1 H. rewrite <- Hflat in H.
  destruct (placeholder_in_flat _ _ _ _ _ Hfree H) as (l1' & h' & l2' & Hl' & Hi & Ha & _).
  rewrite Hl in Hnd, Hl'.
  destruct (NoDup_split_unique _ _ holeIndex _ _ _ _ _ _ Hnd Hl' (eq_sym Hi)) as [H1 _].
  rewrite Ha, H1. reflexivity.
Qed.

Lemma keysFrom_lower : forall (M : Type) (es : list (entry M)) (n k : nat),
  In k (map fst (keysFrom n es)) -> n <= k.
Proof.
  intros M. induction es as [|e es IH]; intros n k H; [contradiction|].
  cbn [keysFrom map fst] in H. destruct H as [H | H]; [lia|].
  apply IH in H. lia.
Qed.

Lemma keysFrom_NoDup : forall (M : Type) (es : list (entry M)) (n : nat),
  NoDup (map fst (keysFrom n es)).
Proof.
  intros M. induction es as [|e es IH]; intros n; [constructor|].
  cbn [keysFrom map fst]. constructor; [|apply IH].
  intros H. apply keysFrom_lower in H. lia.
Qed.

Lemma keysFrom_app : forall (M : Type) (es1 es2 : list (entry M)) (n : nat),
  keysFrom n (es1 ++ es2) = keysFrom n es1 ++ keysFrom (n + length es1) es2.
Proof.
  intros M. induction es1 as [|e es1 IH]; intros es2 n.
  - cbn [app keysFrom length]. rewrite Nat.add_0_r. reflexivity.
  - cbn [app keysFrom length]. rewrite IH. f_equal. f_equal. f_equal. lia.
Qed.

Lemma placeholdersFrom_app : forall (M : Type) (es1 es2 : list (entry M)) (n : nat),
  placeholdersFrom n (es1 ++ es2)
  <-> placeholdersFrom n es1 /\ placeholdersFrom (n + length es1) es2.
Proof.
  intros M. induction es1 as [|e es1 IH]; intros es2 n.
  - cbn [app Holes.placeholdersFrom length]. rewrite Nat.add_0_r. tauto.
  - cbn [app Holes.placeholdersFrom length]. rewrite IH.
    replace (S n + length es1) with (n + S (length es1)) by lia. tauto.
Qed.

(** The restoration loop, with every literal put back as it was, turns a
    text with holes into the text in full, when the holes are those of
    the entries and the word occurs nowhere in the text in full. *)
Lemma restore_holes :
  forall (M : Type) (f : entry M -> jsstring) (es : list (entry M)) (n : nat)
         (x : jsstring) (l : list hole),
    (forall e, In e es -> f e = original e /\ fits (original e)) ->
    placeholdersFrom n es ->
    Permutation (map holeKey l) (keysFrom n es) ->
    ~ occurs W (full x l) ->
    fold_left (fun res e => put (placeholder e) (f e) res) es (flat x l) = full x l.
Proof.
  intros M f.
  induction es as [|e es IH]; intros n x l Hf Hph Hperm Hfree.
  - cbn [keysFrom] in Hperm. apply Permutation_sym, Permutation_nil in Hperm.
    apply map_eq_nil in Hperm. subst l. reflexivity.
  - cbn [keysFrom Holes.placeholdersFrom fold_left] in *. destruct Hph as [Hp Hph].
    assert (Hin : In (n, original e) (map holeKey l)).
    { apply (Permutation_in _ (Permutation_sym Hperm)). left. reflexivity. }
    apply in_map_iff in Hin. destruct Hin as [h [Hk Hin]].
    apply in_split in Hin. destruct Hin as [l1 [l2 Hl]].
    assert (Hnd : NoDup (map holeIndex l)).
    { assert (Hm : map holeIndex l = map fst (map holeKey l)).
      { rewrite map_map. reflexivity. }
      rewrite Hm.
      apply (Permutation_NoDup (l := map fst ((n, original e) :: keysFrom (S n) es))).
      - apply Permutation_map, Permutation_sym. exact Hperm.
      - apply (keysFrom_NoDup M (e :: es) n). }
    unfold holeKey in Hk. injection Hk as Hi Ho.
    destruct (Hf e (or_introl eq_refl)) as [Hfe Hfit].
    rewrite Hp, Hfe, <- Hi, <- Ho. rewrite <- Ho in Hfit.
    rewrite (restore_one x l l1 h l2 Hfree Hnd Hl Hfit).
    destruct (fill_hole l1 x h l2) as (x' & l' & Hflat & Hfull & Hkeys).
    rewrite <- Hflat. rewrite Hl in Hfree |- *. rewrite <- Hfull in Hfree |- *.
    apply (IH (S n)).
    + intros e' He'. apply Hf. right. exact He'.
    + exact Hph.
    + rewrite Hkeys. rewrite Hl, map_app in Hperm. cbn [map] in Hperm.
      unfold holeKey at 2 in Hperm. rewrite Hi, Ho in Hperm.
      apply Permutation_sym in Hperm.
      apply Permutation_cons_app_inv in Hperm. apply Permutation_sym. exact Hperm.
    + exact Hfree.
Qed.

(** *** The extraction pass on a text with holes *)

Lemma protect_record : forall (M : Type) (mkMeta : jsstring -> M) (r : re)
  (s : jsstring) (t : table M),
  protect ph mkMeta r s t = replaceAcc r (record mkMeta) s t.
Proof. reflexivity. Qed.

(** A pass only adds entries, numbered on from the counter. *)
Lemma replace_loop_appends :
  forall (M : Type) (mkMeta : jsstring -> M) (r : re) (fuel : nat)
         (bef aft : jsstring) (es : list (entry M)) (n : nat)
         (out : jsstring) (es' : list (entry M)) (n' : nat),
    replace_loop r (record mkMeta) fuel bef aft (es, n) = (out, (es', n')) ->
    exists new, es' = es ++ new /\ n' = n + length new /\ placeholdersFrom n new.
Proof.
  intros M mkMeta r. induction fuel as [|f IH]; intros bef aft es n out es' n' H.
  - cbn [replace_loop] in H. injection H as _ <- <-.
    exists []. rewrite app_nil_r. cbn. repeat split. lia.
  - cbn [replace_loop] in H.
    destruct (match_here r bef aft) as [[h s']|].
    + cbn [Holes.record] in H.
      assert (Hnext : forall o b a, replace_loop r (record mkMeta) f b a
          (es ++ [Entry (matched h) (ph n) (mkMeta (matched h))], S n) = (o, (es', n')) ->
          exists new, es' = es ++ new /\ n' = n + length new /\ placeholdersFrom n new).
      { intros o b a Hr. apply IH in Hr. destruct Hr as (new & He & Hn & Hp).
        exists (Entry (matched h) (ph n) (mkMeta (matched h)) :: new).
        rewrite He, <- app_assoc. cbn [app length Holes.placeholdersFrom placeholder].
        repeat split; [lia | exact Hp]. }
      destruct (matched h) as [|z t] eqn:Hz.
      * destruct aft as [|c t'].
        -- injection H as _ <- <-.
           exists [Entry [] (ph n) (mkMeta [])]. cbn. repeat split. lia.
        -- destruct (replace_loop r (record mkMeta) f (c :: bef) t' _) as [rest [e2 n2]] eqn:Hr.
           injection H as _ <- <-. exact (Hnext _ _ _ Hr).
      * destruct (replace_loop r (record mkMeta) f (before s') (after s') _) as [rest [e2 n2]] eqn:Hr.
        injection H as _ <- <-. exact (Hnext _ _ _ Hr).
    + destruct aft as [|c t'].
      * injection H as _ <- <-. exists []. rewrite app_nil_r. cbn. repeat split. lia.
      * destruct (replace_loop r (record mkMeta) f (c :: bef) t' (es, n)) as [rest [e2 n2]] eqn:Hr.
        injection H as _ <- <-. exact (IH _ _ _ _ _ _ _ Hr).
Qed.

Lemma flat_nil_inv : forall (x : jsstring) (l : list hole),
  flat x l = [] -> x = [] /\ l = [].
Proof.
  intros x [|h l] H; [split; [exact H | reflexivity]|].
  cbn [Holes.flat] in H. apply app_eq_nil in H. destruct H as [_ H].
  apply app_eq_nil in H. destruct H as [H _]. destruct (ph_not_nil _ H).
Qed.

(** A placeholder holds the word. *)
Lemma ph_occurs : forall (j : nat) (a c : jsstring), occurs W (a ++ ph j ++ c).
Proof.
  intros j a c. exists (a ++ pre), (post ++ toString10 (N.of_nat j) ++ B ++ c).
  unfold Holes.ph. rewrite <- !app_assoc. reflexivity.
Qed.

(** A match that ends outside the placeholders and does not hold the word
    lies in the gap it starts in. *)
Lemma match_in_gap : forall (x : jsstring) (l : list hole) (m rest t2 : jsstring) (z2 : cu),
  flat x l = m ++ rest -> m = t2 ++ [z2] -> outside z2 -> ~ occurs W m ->
  exists x2, x = m ++ x2 /\ rest = flat x2 l.
Proof.
  intros x [|h0 l0] m rest t2 z2 H Hm Hz Hfree.
  - exists rest. split; [exact H | reflexivity].
  - cbn [Holes.flat] in H. apply app_eq_app in H. destruct H as [w [[H1 H2] | [H1 H2]]].
    + exists w. split; [exact H1|]. cbn [Holes.flat]. exact H2.
    + (* the match goes on after the gap *)
      destruct w as [|y w'].
      { exists []. rewrite app_nil_r in H1. cbn [app] in H2.
        split; [rewrite app_nil_r; symmetry; exact H1 | symmetry; exact H2]. }
      exfalso. apply app_eq_app in H2. destruct H2 as [w2 [[H3 H4] | [H3 H4]]].
      * (* and ends inside the placeholder *)
        assert (Hne : y :: w' <> []) by discriminate.
        destruct (exists_last Hne) as [w0 [z Hw]].
        rewrite Hw in H1, H3. rewrite Hm, app_assoc in H1.
        apply app_inj_tail in H1. destruct H1 as [_ H1]. subst z.
        pose proof (ph_chars (holeIndex h0)) as Hc.
        rewrite H3, <- app_assoc in Hc. cbn [app] in Hc.
        apply forallb_app_head in Hc. unfold outside in Hz.
        rewrite Hz in Hc. discriminate.
      * (* or after it *)
        apply Hfree. rewrite H1, H3. apply ph_occurs.
Qed.

(** One extraction pass over a text with holes: the new literals lie in
    the gaps and become holes of their own. *)
Lemma scan_holes :
  forall (M : Type) (mkMeta : jsstring -> M) (r : re),
    startsIn outside r -> endsIn outside r ->
    forall (fuel : nat) (u x : jsstring) (l : list hole) (bef : jsstring)
           (es : list (entry M)) (n : nat) (out : jsstring)
           (es' : list (entry M)) (n' : nat) (new : list (entry M)),
      forallb placeholderChar u = true ->
      length (u ++ flat x l) < fuel ->
      replace_loop r (record mkMeta) fuel bef (u ++ flat x l) (es, n) = (out, (es', n')) ->
      es' = es ++ new ->
      Forall (fun e => ~ occurs W (original e)) new ->
      exists x' l',
        out = u ++ flat x' l'
        /\ full x' l' = full x l
        /\ Permutation (map holeKey l') (map holeKey l ++ keysFrom n new).
Proof.
  intros M mkMeta r Hstart Hend.
  induction fuel as [|f IH]; intros u x l bef es n out es' n' new Hu Hlen Hrun Hes Hclean; [lia|].
  destruct (match_here r bef (u ++ flat x l)) as [[h s']|] eqn:Hm.
  - (* a literal starts here *)
    pose proof (match_here_text _ _ _ _ _ Hm) as Htext.
    destruct (match_here_first outside r Hstart _ _ _ _ Hm) as (z & t & Hz & Hzo).
    destruct (match_here_last outside r Hend _ _ _ _ Hm) as (t2 & z2 & Hz2 & Hz2o).
    rewrite (replace_loop_hit _ _ _ _ _ _ _ _ _ Hm) in Hrun by (rewrite Hz; discriminate).
    cbn [Holes.record] in Hrun.
    destruct (replace_loop r (record mkMeta) f (before s') (after s') _)
      as [rest [e2 n2]] eqn:Hrec.
    injection Hrun as Hout He2 Hn2. subst e2 n2.
    destruct (replace_loop_appends _ _ _ _ _ _ _ _ _ _ _ Hrec) as (new' & Hnew & _ & _).
    assert (Hsplit : new = Entry (matched h) (ph n) (mkMeta (matched h)) :: new').
    { rewrite Hes, <- app_assoc in Hnew. apply app_inv_head in Hnew. exact Hnew. }
    rewrite Hsplit in Hclean. inversion Hclean as [|e0 l0 Hfree Hclean']. subst e0 l0.
    cbn [original] in Hfree.
    destruct u as [|c u'].
    + cbn [app] in Htext, Hlen.
      destruct (match_in_gap _ _ _ _ _ _ Htext Hz2 Hz2o Hfree) as [x2 [Hx Hrest]].
      assert (Hlen' : length ([] ++ flat x2 l) < f).
      { cbn [app]. rewrite <- Hrest. rewrite Htext, Hz in Hlen.
        cbn [app length] in Hlen. rewrite length_app in Hlen. lia. }
      rewrite Hrest in Hrec.
      destruct (IH [] x2 l _ _ _ _ _ _ new' eq_refl Hlen' Hrec Hnew Hclean')
        as (x' & l' & Hr & Hfull & Hperm).
      exists [], (Hole n (matched h) x' :: l').
      cbn [app Holes.flat full map holeKey holeIndex holeLiteral holeGap] in *.
      split; [rewrite <- Hout, Hr; reflexivity|].
      split; [rewrite Hfull, Hx, full_prefix; reflexivity|].
      rewrite Hsplit. cbn [keysFrom original].
      apply Permutation_cons_app. exact Hperm.
    + exfalso. cbn [app] in Htext. rewrite Hz in Htext. cbn [app] in Htext.
      injection Htext as Hc _. subst z.
      cbn [forallb] in Hu. apply andb_true_iff in Hu. destruct Hu as [Hu _].
      unfold outside in Hzo. rewrite Hzo in Hu. discriminate.
  - (* no literal starts here *)
    destruct (u ++ flat x l) as [|c t'] eqn:Haft.
    + rewrite (replace_loop_end _ _ _ _ _ _ Hm) in Hrun.
      injection Hrun as Hout He Hn. subst out es' n'.
      assert (Hnew : new = []).
      { rewrite <- (app_nil_r es) in Hes at 1. apply app_inv_head in Hes.
        symmetry. exact Hes. }
      apply app_eq_nil in Haft. destruct Haft as [Hu0 Hflat].
      apply flat_nil_inv in Hflat. destruct Hflat as [Hx Hl]. subst u x l new.
      exists [], []. cbn. repeat split. constructor.
    + rewrite (replace_loop_miss _ _ _ _ _ _ _ _ Hm) in Hrun.
      destruct (replace_loop r (record mkMeta) f (c :: bef) t' (es, n))
        as [rest [e2 n2]] eqn:Hrec.
      injection Hrun as Hout He2 Hn2. subst e2 n2.
      cbn [length] in Hlen.
      destruct u as [|c0 u'].
      * cbn [app] in Haft. destruct x as [|c0 x2].
        -- destruct l as [|h0 l0]; [discriminate|].
           cbn [Holes.flat app] in Haft.
           pose proof (ph_chars (holeIndex h0)) as Hc.
           destruct (ph (holeIndex h0)) as [|p0 p'] eqn:Hp.
           { destruct (ph_not_nil _ Hp). }
           cbn [app] in Haft. injection Haft as Hp0 Ht'. subst p0.
           cbn [forallb] in Hc. apply andb_true_iff in Hc. destruct Hc as [_ Hc].
           rewrite <- Ht' in Hrec, Hlen.
           destruct (IH p' (holeGap h0) l0 _ _ _ _ _ _ new Hc ltac:(lia) Hrec Hes Hclean)
             as (x' & l' & Hr & Hfull & Hperm).
           exists [], (Hole (holeIndex h0) (holeLiteral h0) x' :: l').
           cbn [app Holes.flat full map holeKey holeIndex holeLiteral holeGap].
           split; [rewrite <- Hout, Hr, Hp; reflexivity|].
           split; [rewrite Hfull; reflexivity|].
           apply perm_skip. exact Hperm.
        -- change (c0 :: x2) with ([c0] ++ x2) in Haft. rewrite flat_prefix in Haft.
           cbn [app] in Haft. injection Haft as Hc0 Ht'. subst c0.
           rewrite <- Ht' in Hrec, Hlen.
           destruct (IH [] x2 l _ _ _ _ _ _ new eq_refl ltac:(cbn [app]; lia) Hrec Hes Hclean)
             as (x' & l' & Hr & Hfull & Hperm).
           exists (c :: x'), l'. cbn [app] in *.
           split; [rewrite <- Hout, Hr; change (c :: x') with ([c] ++ x');
                   rewrite flat_prefix; reflexivity|].
           split; [|exact Hperm].
           change (c :: x') with ([c] ++ x'). change (c :: x2) with ([c] ++ x2).
           rewrite !full_prefix, Hfull. reflexivity.
      * cbn [app] in Haft. injection Haft as Hc0 Ht'. subst c0.
        cbn [forallb] in Hu. apply andb_true_iff in Hu. destruct Hu as [_ Hu].
        rewrite <- Ht' in Hrec, Hlen.
        destruct (IH u' x l _ _ _ _ _ _ new Hu ltac:(lia) Hrec Hes Hclean)
          as (x' & l' & Hr & Hfull & Hperm).
        exists x', l'. cbn [app].
        split; [rewrite <- Hout, Hr; reflexivity|].
        split; [exact Hfull | exact Hperm].
Qed.

Lemma protect_holes :
  forall (M : Type) (mkMeta : jsstring -> M) (r : re),
    startsIn outside r -> endsIn outside r ->
    forall (x : jsstring) (l : list hole) (es : list (entry M)) (n : nat)
           (out : jsstring) (es' : list (entry M)) (n' : nat) (new : list (entry M)),
      protect ph mkMeta r (flat x l) (es, n) = (out, (es', n')) ->
      es' = es ++ new ->
      Forall (fun e => ~ occurs W (original e)) new ->
      exists x' l',
        out = flat x' l'
        /\ full x' l' = full x l
        /\ Permutation (map holeKey l') (map holeKey l ++ keysFrom n new).
Proof.
  intros M mkMeta r Hstart Hend x l es n out es' n' new Hrun Hes Hclean.
  rewrite protect_record in Hrun. unfold replaceAcc in Hrun.
  exact (scan_holes M mkMeta r Hstart Hend (S (length (flat x l))) [] x l [] es n
           out es' n' new eq_refl (Nat.lt_succ_diag_r _) Hrun Hes Hclean).
Qed.

Lemma extractPasses_appends :
  forall (M : Type) (passes : list (re * (jsstring -> M)))
         (s : jsstring) (es : list (entry M)) (n : nat)
         (out : jsstring) (es' : list (entry M)) (n' : nat),
    extractPasses passes (s, (es, n)) = (out, (es', n')) ->
    exists new, es' = es ++ new /\ n' = n + length new /\ placeholdersFrom n new.
Proof.
  intros M. induction passes as [|[r mkMeta] ps IH]; intros s es n out es' n' H.
  - cbn in H. injection H as _ <- <-. exists []. rewrite app_nil_r. cbn.
    repeat split. lia.
  - cbn [Holes.extractPasses fold_left fst snd] in H.
    destruct (protect ph mkMeta r s (es, n)) as [o1 [e1 n1]] eqn:H1.
    rewrite protect_record in H1. unfold replaceAcc in H1.
    apply replace_loop_appends in H1. destruct H1 as (new1 & He1 & Hn1 & Hp1).
    apply IH in H. destruct H as (new2 & He2 & Hn2 & Hp2).
    exists (new1 ++ new2). rewrite He2, He1, <- app_assoc, length_app.
    split; [reflexivity|]. split; [lia|].
    apply placeholdersFrom_app. rewrite <- Hn1. split; assumption.
Qed.

Lemma extractPasses_holes :
  forall (M : Type) (passes : list (re * (jsstring -> M))),
    Forall (fun p => startsIn outside (fst p) /\ endsIn outside (fst p)) passes ->
    forall (x : jsstring) (l : list hole) (es : list (entry M)) (n : nat)
           (out : jsstring) (es' : list (entry M)) (n' : nat) (new : list (entry M)),
      extractPasses passes (flat x l, (es, n)) = (out, (es', n')) ->
      es' = es ++ new ->
      Forall (fun e => ~ occurs W (original e)) new ->
      exists x' l',
        out = flat x' l'
        /\ full x' l' = full x l
        /\ Permutation (map holeKey l') (map holeKey l ++ keysFrom n new).
Proof.
  intros M. induction passes as [|[r mkMeta] ps IH];
    intros Hedges x l es n out es' n' new H Hes Hclean.
  - cbn in H. injection H as <- <- <-.
    assert (Hnew : new = []).
    { rewrite <- (app_nil_r es) in Hes at 1. apply app_inv_head in Hes.
      symmetry. exact Hes. }
    subst new. exists x, l. cbn [keysFrom]. rewrite app_nil_r.
    repeat split. apply Permutation_refl.
  - inversion Hedges as [|p0 ps0 [Hs He] Hrest]. subst p0 ps0. cbn [fst] in Hs, He.
    cbn [Holes.extractPasses fold_left fst snd] in H.
    destruct (protect ph mkMeta r (flat x l) (es, n)) as [o1 [e1 n1]] eqn:H1.
    pose proof H1 as H1'.
    rewrite protect_record in H1'. unfold replaceAcc in H1'.
    apply replace_loop_appends in H1'. destruct H1' as (new1 & He1 & Hn1 & _).
    pose proof (extractPasses_appends _ _ _ _ _ _ _ _ H) as (new2 & He2 & _ & _).
    assert (Hnew : new = new1 ++ new2).
    { rewrite Hes, He1, <- app_assoc in He2. apply app_inv_head in He2. exact He2. }
    rewrite Hnew in Hclean. apply Forall_app in Hclean. destruct Hclean as [Hc1 Hc2].
    destruct (protect_holes M mkMeta r Hs He _ _ _ _ _ _ _ new1 H1 He1 Hc1)
      as (x1 & l1 & Ho1 & Hf1 & Hp1).
    rewrite Ho1 in H.
    destruct (IH Hrest _ _ _ _ _ _ _ new2 H He2 Hc2) as (x' & l' & Ho & Hf & Hp).
    exists x', l'. split; [exact Ho|]. split; [rewrite Hf; exact Hf1|].
    rewrite Hnew, keysFrom_app, app_assoc, <- Hn1.
    eapply Permutation_trans; [exact Hp|].
    apply Permutation_app_tail. exact Hp1.
Qed.

(** The protocol: on a text that does not hold the word of the
    placeholders, and whose literals, as extracted, do not hold it either,
    extraction and then restoration of every literal as it was give the
    text back. *)
Lemma protocol_round_trip :
  forall (M : Type) (passes : list (re * (jsstring -> M)))
         (f : entry M -> jsstring) (text : jsstring),
    Forall (fun p => startsIn outside (fst p) /\ endsIn outside (fst p)) passes ->
    ~ occurs W text ->
    Forall (fun e => ~ occurs W (original e))
           (fst (snd (extractPasses passes (text, empty)))) ->
    Forall (fun e => fits (original e))
           (fst (snd (extractPasses passes (text, empty)))) ->
    (forall e, f e = original e) ->
    fold_left (fun res e => put (placeholder e) (f e) res)
              (fst (snd (extractPasses passes (text, empty))))
              (fst (extractPasses passes (text, empty)))
    = text.
Proof.
  intros M passes f text Hedges Hfree Hclean Hfits Hf.
  destruct (extractPasses passes (text, empty)) as [out [es' n']] eqn:H.
  cbn [fst snd] in *. unfold empty in H.
  pose proof (extractPasses_appends _ _ _ _ _ _ _ _ H) as (new & He & _ & Hph).
  cbn [app] in He. subst es'.
  destruct (extractPasses_holes M passes Hedges text [] [] 0 out new n' new H eq_refl Hclean)
    as (x' & l' & Ho & Hfull & Hperm).
  cbn [map app full] in Hperm, Hfull.
  rewrite Ho, <- Hfull.
  apply (restore_holes M f new 0 x' l'); try assumption.
  - intros e He. split; [apply Hf|].
    rewrite Forall_forall in Hfits. apply Hfits. exact He.
  - rewrite Hfull. exact Hfree.
Qed.

End Scheme.

(** *** The handlers *)

Lemma markerFree_inv :
  forall (M : Type) (word : jsstring) (extract : jsstring -> jsstring * table M)
         (text : jsstring),
    markerFree word extract text = true ->
    ~ occurs word text
    /\ Forall (fun e => ~ occurs word (original e)) (fst (snd (extract text))).
Proof.
  intros M word extract text H. unfold markerFree in H.
  apply andb_true_iff in H. destruct H as [H1 H2]. split.
  - apply not_includes. destruct (includes word text); [discriminate | reflexivity].
  - apply Forall_forall. intros e He.
    rewrite forallb_forall in H2. specialize (H2 e He).
    apply not_includes. destruct (includes word (original e)); [discriminate | reflexivity].
Qed.

(** The round trip of a handler whose extraction is a run of passes with
    placeholders of the shape above, and whose restoration is a loop of
    [put] over the entries. *)
Lemma handler_round_trip :
  forall (pre W post B : jsstring), schemeOk pre W post B = true ->
  forall (put : jsstring -> jsstring -> jsstring -> jsstring) (fits : jsstring -> Prop),
    (forall p r a c, p <> [] -> fits r ->
       (forall a1 c1, a ++ p ++ c = a1 ++ p ++ c1 -> a1 = a) ->
       put p r (a ++ p ++ c) = a ++ r ++ c) ->
  forall (M : Type) (passes : list (re * (jsstring -> M)))
         (extract : jsstring -> jsstring * table M)
         (f : entry M -> jsstring) (text : jsstring),
    extract text = extractPasses pre W post B passes (text, empty) ->
    Forall (fun p => startsIn outside (fst p) /\ endsIn outside (fst p)) passes ->
    markerFree W extract text = true ->
    Forall (fun e => fits (original e)) (fst (snd (extract text))) ->
    (forall e, f e = original e) ->
    roundTrip extract
      (fun es res => fold_left (fun res e => put (placeholder e) (f e) res) es res) text
    = text.
Proof.
  intros pre W post B Hok put fits Hput M passes extract f text Hx Hedges Hfree Hfits Hf.
  apply markerFree_inv in Hfree. destruct Hfree as [Htext Hlits].
  unfold roundTrip. rewrite Hx in Hlits, Hfits |- *.
  pose proof (protocol_round_trip pre W post B Hok put fits Hput M passes f text
                Hedges Htext Hlits Hfits Hf) as H.
  destruct (extractPasses pre W post B passes (text, empty)) as [protected tbl]. exact H.
Qed.

Lemma splitJoin_put : forall (p r a c : jsstring), p <> [] -> True ->
  (forall a1 c1, a ++ p ++ c = a1 ++ p ++ c1 -> a1 = a) ->
  splitJoin p r (a ++ p ++ c) = a ++ r ++ c.
Proof. intros p r a c Hp _ Hu. apply splitJoin_once; assumption. Qed.

Lemma Forall_True : forall (A : Type) (l : list A), Forall (fun _ => True) l.
Proof. intros A l. apply Forall_forall. intros; exact I. Qed.

Lemma outside_char : forall (q : cu), placeholderChar q = false ->
  forall c, cu_eqb q c = true -> outside c.
Proof. intros q Hq c Hc. apply N.eqb_eq in Hc. subst c. exact Hq. Qed.

Lemma longBracket_edges : startsIn outside Lua.longBracket /\ endsIn outside Lua.longBracket.
Proof.
  split.
  - apply startsIn_Seq, startsIn_Seq, startsIn_Cls, outside_char. reflexivity.
  - apply endsIn_Seq, endsIn_Seq, endsIn_Seq, endsIn_Seq_Eps, endsIn_Cls, outside_char.
    reflexivity.
Qed.

Lemma singleQuoted_edges :
  startsIn outside Bash.singleQuoted /\ endsIn outside Bash.singleQuoted.
Proof.
  split.
  - apply startsIn_Seq, startsIn_Cls, outside_char. reflexivity.
  - apply endsIn_Seq, endsIn_Seq, endsIn_Cls, outside_char. reflexivity.
Qed.

Lemma tripleQuoted_edges :
  startsIn outside Generic.tripleQuoted /\ endsIn outside Generic.tripleQuoted.
Proof.
  split.
  - apply startsIn_Alt; apply startsIn_Seq, startsIn_Seq, startsIn_Cls, outside_char;
      reflexivity.
  - apply endsIn_Alt;
      apply endsIn_Seq, endsIn_Seq, endsIn_Seq, endsIn_Seq, endsIn_Seq_Eps,
        endsIn_Cls, outside_char; reflexivity.
Qed.

Ltac pass_edges :=
  repeat constructor; cbn [fst];
  first [ apply longBracket_edges | apply singleQuoted_edges | apply tripleQuoted_edges
        | apply doubleOrSingleQuoted_edges; reflexivity
        | apply quoted_edges; reflexivity ].

Lemma lua_round_trip : forall (o : ObfuscationOptions) (text : jsstring),
  encodeStrings o = false ->
  markerFree (str "LUASTR") Lua.extract text = true ->
  roundTrip Lua.extract (Lua.restore o) text = text.
Proof.
  intros o text Hopt Hfree.
  apply (handler_round_trip (str "___") (str "LUASTR") (str "_") (str "_PLACEHOLDER___")
           eq_refl splitJoin (fun _ => True) splitJoin_put unit
           [(Lua.longBracket, fun _ => tt); (doubleOrSingleQuoted, fun _ => tt)]
           Lua.extract (fun e => Lua.replacement o (original e)) text).
  - unfold Lua.extract, Holes.extractPasses. cbn [fold_left fst snd].
    change Lua.mkPlaceholder
      with (ph (str "___") (str "LUASTR") (str "_") (str "_PLACEHOLDER___")).
    destruct (protect _ _ Lua.longBracket text empty) as [r1 t1]. reflexivity.
  - pass_edges.
  - exact Hfree.
  - apply Forall_True.
  - intros e. unfold Lua.replacement. rewrite Hopt, andb_false_r.
    destruct (negb _); [|reflexivity].
    destruct ((0 <? _) && _); reflexivity.
Qed.

Lemma rawString_edges : startsIn outside Rust.rawString /\ endsIn outside Rust.rawString.
Proof.
  split.
  - apply startsIn_Seq, startsIn_Cls, outside_char. reflexivity.
  - apply endsIn_Seq, endsIn_Seq, endsIn_Seq, endsIn_Seq, endsIn_Seq_Star_Cls.
    + apply endsIn_Cls, outside_char. reflexivity.
    + apply outside_char. reflexivity.
Qed.

Lemma bash_round_trip : forall (o : ObfuscationOptions) (m : VarMap.t) (text : jsstring),
  encodeStrings o = false -> base64Strings o = false -> renameVariables o = false ->
  markerFree (str "BASHSTR") Bash.extract text = true ->
  roundTrip Bash.extract (Bash.restore o m) text = text.
Proof.
  intros o m text Henc Hb64 Hren Hfree.
  apply (handler_round_trip (str "___") (str "BASHSTR") (str "_") (str "_PLACEHOLDER___")
           eq_refl splitJoin (fun _ => True) splitJoin_put unit
           [(Bash.singleQuoted, fun _ => tt); (quoted dq, fun _ => tt)]
           Bash.extract (fun e => Bash.replacement o m (original e)) text).
  - unfold Bash.extract, Holes.extractPasses. cbn [fold_left fst snd].
    change Bash.mkPlaceholder
      with (ph (str "___") (str "BASHSTR") (str "_") (str "_PLACEHOLDER___")).
    destruct (protect _ _ Bash.singleQuoted text empty) as [r1 t1]. reflexivity.
  - pass_edges.
  - exact Hfree.
  - apply Forall_True.
  - intros e. unfold Bash.replacement. rewrite Henc, Hb64, Hren, !andb_false_r.
    destruct (_ && _); reflexivity.
Qed.

Lemma perl_round_trip : forall (o : ObfuscationOptions) (m : VarMap.t) (text : jsstring),
  encodeStrings o = false -> base64Strings o = false -> renameVariables o = false ->
  markerFree (str "PLSTR") Perl.extract text = true ->
  roundTrip Perl.extract (Perl.restore o m) text = text.
Proof.
  intros o m text Henc Hb64 Hren Hfree.
  assert (Hmod : forall es, Perl.needsBase64Module o es = false).
  { intros es. unfold Perl.needsBase64Module. induction es as [|e es IH]; [reflexivity|].
    cbn [existsb]. rewrite IH, Hb64, !andb_false_r. reflexivity. }
  assert (Hr : forall es res, Perl.restore o m es res
           = fold_left (fun res e => splitJoin (placeholder e)
                                       (Perl.replacement o m (original e)) res) es res).
  { intros es res. unfold Perl.restore. rewrite Hmod. reflexivity. }
  unfold roundTrip. destruct (Perl.extract text) as [protected tbl] eqn:He. rewrite Hr.
  pose proof (handler_round_trip (str "___") (str "PLSTR") (str "_") (str "_PLACEHOLDER___")
           eq_refl splitJoin (fun _ => True) splitJoin_put unit
           [(quoted sq, fun _ => tt); (quoted dq, fun _ => tt)]
           Perl.extract (fun e => Perl.replacement o m (original e)) text) as H.
  unfold roundTrip in H. rewrite He in H. apply H.
  - rewrite <- He. unfold Perl.extract, Holes.extractPasses. cbn [fold_left fst snd].
    change Perl.mkPlaceholder
      with (ph (str "___") (str "PLSTR") (str "_") (str "_PLACEHOLDER___")).
    destruct (protect _ _ (quoted sq) text empty) as [r1 t1]. reflexivity.
  - pass_edges.
  - exact Hfree.
  - apply Forall_True.
  - intros e. unfold Perl.replacement. rewrite Henc, Hb64, Hren, !andb_false_r.
    destruct (Perl.encodable _); reflexivity.
Qed.

Lemma rust_round_trip : forall (o : ObfuscationOptions) (text : jsstring),
  encodeStrings o = false ->
  markerFree (str "RUSTSTR") Rust.extract text = true ->
  roundTrip Rust.extract (Rust.restore o) text = text.
Proof.
  intros o text Hopt Hfree.
  apply (handler_round_trip (str "___") (str "RUSTSTR") (str "_") (str "_PLACEHOLDER___")
           eq_refl splitJoin (fun _ => True) splitJoin_put unit
           [(Rust.rawString, fun _ => tt); (quoted dq, fun _ => tt)]
           Rust.extract (fun e => Rust.replacement o (original e)) text).
  - unfold Rust.extract, Holes.extractPasses. cbn [fold_left fst snd].
    change Rust.mkPlaceholder
      with (ph (str "___") (str "RUSTSTR") (str "_") (str "_PLACEHOLDER___")).
    destruct (protect _ _ Rust.rawString text empty) as [r1 t1]. reflexivity.
  - repeat constructor; cbn [fst];
      first [ apply rawString_edges | apply quoted_edges; reflexivity ].
  - exact Hfree.
  - apply Forall_True.
  - intros e. unfold Rust.replacement. rewrite Hopt, andb_false_r.
    destruct (negb _); [|reflexivity].
    destruct ((0 <? _) && _); reflexivity.
Qed.

Lemma generic_round_trip : forall (o : ObfuscationOptions) (text : jsstring),
  encodeStrings o = false ->
  markerFree (str "GENSTR") Generic.extract text = true ->
  roundTrip Generic.extract (Generic.restore o) text = text.
Proof.
  intros o text Hopt Hfree.
  apply (handler_round_trip (str "___") (str "GENSTR") (str "_") (str "___")
           eq_refl splitJoin (fun _ => True) splitJoin_put jsstring
           [(Generic.tripleQuoted, fun m => firstn 3 m); (quoted bq, fun _ => [bq]);
            (quoted dq, fun _ => [dq]); (quoted sq, fun _ => [sq])]
           Generic.extract (Generic.replacement o) text).
  - unfold Generic.extract, Holes.extractPasses. cbn [fold_left fst snd].
    change Generic.mkPlaceholder with (ph (str "___") (str "GENSTR") (str "_") (str "___")).
    unfold jsstring.
    destruct (protect _ _ Generic.tripleQuoted text empty) as [r1 t1]. cbn [fst snd].
    destruct (protect _ _ (quoted bq) r1 t1) as [r2 t2]. cbn [fst snd].
    destruct (protect _ _ (quoted dq) r2 t2) as [r3 t3]. reflexivity.
  - pass_edges.
  - exact Hfree.
  - apply Forall_True.
  - intros e. unfold Generic.replacement. rewrite Hopt. reflexivity.
Qed.

Lemma javascript_round_trip : forall (o : ObfuscationOptions) (text : jsstring),
  encodeStrings o = false -> base64Strings o = false ->
  markerFree (str "JSSTR") JavaScript.extract text = true ->
  dollarFree JavaScript.extract text = true ->
  roundTrip JavaScript.extract (JavaScript.restore o) text = text.
Proof.
  intros o text Henc Hb64 Hfree Hdollar.
  apply (handler_round_trip (str "__") (str "JSSTR") [] (str "__")
           eq_refl replaceFirst (fun r => mem dollar r = false) replaceFirst_once unit
           [(quoted bq, fun _ => tt); (doubleOrSingleQuoted, fun _ => tt)]
           JavaScript.extract (fun e => JavaScript.replacement o (original e)) text).
  - unfold JavaScript.extract, Holes.extractPasses. cbn [fold_left fst snd].
    change JavaScript.mkPlaceholder with (ph (str "__") (str "JSSTR") [] (str "__")).
    destruct (protect _ _ (quoted bq) text empty) as [r1 t1]. reflexivity.
  - pass_edges.
  - exact Hfree.
  - unfold dollarFree in Hdollar. apply Forall_forall. intros e He.
    rewrite forallb_forall in Hdollar. specialize (Hdollar e He).
    destruct (mem dollar (original e)); [discriminate | reflexivity].
  - intros e. unfold JavaScript.replacement. rewrite Henc, Hb64, !andb_false_r.
    destruct (negb _); [|reflexivity].
    destruct ((0 <? _) && _); reflexivity.
Qed.

(** Where the round trip does hold.  With no encoding option set and no
    renaming, extraction followed at once by restoration gives the text
    back in the Lua, Bash, Perl, Rust, generic and JavaScript handlers when
    the word of the handler's placeholders occurs neither in the text nor
    in a literal as extracted, that is, when the text holds no placeholder
    of its own and extraction found no literal form inside another; for
    the JavaScript handler, which restores with [replace], when in addition
    no literal holds a dollar sign.  The condition is sufficient, not
    necessary. *)
Lemma round_trip_lossless_on_marker_free_text :
  forall (o : ObfuscationOptions) (m : VarMap.t) (text : jsstring),
    encodeStrings o = false -> base64Strings o = false -> renameVariables o = false ->
    (markerFree (str "LUASTR") Lua.extract text = true ->
       roundTrip Lua.extract (Lua.restore o) text = text)
    /\ (markerFree (str "BASHSTR") Bash.extract text = true ->
          roundTrip Bash.extract (Bash.restore o m) text = text)
    /\ (markerFree (str "PLSTR") Perl.extract text = true ->
          roundTrip Perl.extract (Perl.restore o m) text = text)
    /\ (markerFree (str "RUSTSTR") Rust.extract text = true ->
          roundTrip Rust.extract (Rust.restore o) text = text)
    /\ (markerFree (str "GENSTR") Generic.extract text = true ->
          roundTrip Generic.extract (Generic.restore o) text = text)
    /\ (markerFree (str "JSSTR") JavaScript.extract text = true ->
          dollarFree JavaScript.extract text = true ->
          roundTrip JavaScript.extract (JavaScript.restore o) text = text).
Proof.
  intros o m text Henc Hb64 Hren.
  refine (conj _ (conj _ (conj _ (conj _ (conj _ _))))).
  - apply lua_round_trip. exact Henc.
  - apply bash_round_trip; assumption.
  - apply perl_round_trip; assumption.
  - apply rust_round_trip. exact Henc.
  - apply generic_round_trip. exact Henc.
  - apply javascript_round_trip; assumption.
Qed.

(** At [plain_literals], a text with a double-quoted and a single-quoted
    literal side by side and underscores in both a name and a literal. *)
Example round_trip_plain_literals :
  roundTrip Lua.extract (Lua.restore noOptions) plain_literals = plain_literals
  /\ roundTrip Bash.extract (Bash.restore noOptions []) plain_literals = plain_literals
  /\ roundTrip Perl.extract (Perl.restore noOptions []) plain_literals = plain_literals
  /\ roundTrip Rust.extract (Rust.restore noOptions) plain_literals = plain_literals
  /\ roundTrip Generic.extract (Generic.restore noOptions) plain_literals = plain_literals
  /\ roundTrip JavaScript.extract (JavaScript.restore noOptions) plain_literals
     = plain_literals.
Proof.
  destruct (round_trip_lossless_on_marker_free_text noOptions [] plain_literals
              eq_refl eq_refl eq_refl) as (H1 & H2 & H3 & H4 & H5 & H6).
  refine (conj _ (conj _ (conj _ (conj _ (conj _ _))))).
  - apply H1. vm_compute. reflexivity.
  - apply H2. vm_compute. reflexivity.
  - apply H3. vm_compute. reflexivity.
  - apply H4. vm_compute. reflexivity.
  - apply H5. vm_compute. reflexivity.
  - apply H6; vm_compute; reflexivity.
Qed.

(** ** C2: extraction and comment removal *)

(** C2 (the code departs from the claim).  The JavaScript handler removes
    comments from the raw text, before any literal is protected: with only
    comment removal switched on, the block-comment pair inside the string of
    [js_block_in_string] is cut out of the string, whatever the regular
    expression compiler and the random source. *)
Theorem C2_javascript_strips_comment_inside_string :
  forall (compileRegExp : jsstring -> option re) (r : Random),
    JavaScript.stripComments js_block_in_string
      = str "x = " ++ quote (str "a  c") ++ str ";"
    /\ JavaScript.obfuscate compileRegExp onlyRemoveComments js_block_in_string r
      = Some (str "x = " ++ quote (str "a  c") ++ str ";", r).
Proof.
  intros compileRegExp r. split; vm_compute; reflexivity.
Qed.

(** The order of the JavaScript handler, for every text: with only comment
    removal on, the output is the round trip of the text already stripped
    of its comments. *)
Lemma javascript_comments_before_extraction :
  forall (compileRegExp : jsstring -> option re) (code : jsstring) (r : Random),
    JavaScript.obfuscate compileRegExp onlyRemoveComments code r
    = Some (roundTrip JavaScript.extract (JavaScript.restore onlyRemoveComments)
              (JavaScript.stripComments code), r).
Proof.
  intros compileRegExp code r. unfold JavaScript.obfuscate, roundTrip.
  cbn [removeComments renameVariables deadCodeInjection intensity minify
       onlyRemoveComments].
  destruct (JavaScript.extract (JavaScript.stripComments code)) as [res tbl].
  reflexivity.
Qed.

(** The order of the Lua handler, for every text: with only comment removal
    on, comments are removed from the text in which the literals are
    already placeholders. *)
Lemma lua_extraction_before_comments :
  forall (code : jsstring) (self : Instance) (r : Random),
    fst (fst (Lua.obfuscate onlyRemoveComments code self r))
    = Lua.restore onlyRemoveComments (fst (snd (Lua.extract code)))
        (Lua.stripComments (fst (Lua.extract code))).
Proof.
  intros code self r. unfold Lua.obfuscate.
  cbn [removeComments renameVariables deadCodeInjection wants_minify intensity minify
       onlyRemoveComments is_high_or_extreme orb].
  destruct (Lua.extract code) as [res tbl]. reflexivity.
Qed.

(** ** C3: the [encodeStrings] gate *)















(** ** C4: dead-code placement *)

(** C4 (the code departs from the claim).  The Rust handler has no
    terminator check: when the draw for the line [return 1;] is below 0.1,
    [let _ = 0;] is pushed directly after it, in [injectDeadCode] and in
    the output of the whole pipeline.  The Lua handler has none either: with
    a draw below 0.1 on the second line only, [local _ = nil] directly
    follows [return 1]. *)
Theorem C4_rust_injects_after_return :
  fst (Rust.injectDeadCode rust_return (constant 0))
    = str "fn f() -> i32 {" ++ [nl] ++ str "    return 1;" ++ [nl]
      ++ str "let _ = 0;" ++ [nl] ++ str "}"
  /\ fst (fst (Rust.obfuscate onlyDeadCode rust_return newInstance (constant 0)))
    = str "fn f() -> i32 {" ++ [nl] ++ str "    return 1;" ++ [nl]
      ++ str "let _ = 0;" ++ [nl] ++ str "}"
  /\ fst (fst (Lua.obfuscate onlyDeadCode lua_return newInstance
                 (replay [1 # 2; 0 # 1; 1 # 2] (1 # 2))))
    = str "function f()" ++ [nl] ++ str "  return 1" ++ [nl]
      ++ str "local _ = nil" ++ [nl] ++ str "end".
Proof.
  repeat split; vm_compute; reflexivity.
Qed.

(** The guard of the JavaScript handler, which the Rust handler lacks: after
    a line that holds [return], [throw], [break] or [continue] as a word,
    nothing is pushed, whatever the draw. *)
Lemma javascript_guard_skips_terminator_lines :
  forall (line : jsstring) (r : Random),
    test JavaScript.terminator (trim line) = true ->
    fst (JavaScript.injectAfter line r) = [line].
Proof.
  intros line r Hterm. unfold JavaScript.injectAfter.
  rewrite Hterm. destruct (randomBelow 150 r) as [lucky r1].
  cbn [negb]. rewrite andb_false_r. reflexivity.
Qed.

(** The same draw on the same line in the two handlers. *)
Example javascript_keeps_return_line :
  fst (JavaScript.injectAfter (str "    return 1;") (constant 0)) = [str "    return 1;"]
  /\ fst (Rust.injectAfter (str "    return 1;") (constant 0))
     = [str "    return 1;"; str "let _ = 0;"].
Proof. split; vm_compute; reflexivity. Qed.

(** ** C5: interpolation in a shell string *)

(** C5 fails on the interpolations the test of the handler does not know.
    The restoration loop takes a double-quoted string for interpolated
    when a dollar sign is followed by a letter, an underscore or an opening
    brace.  The positional parameter in the double-quoted string [$1] is
    none of these: the string goes to the encoding branch (comment: only encode if no
    interpolation) and comes out as the ANSI-C quoted text of its
    hexadecimal escapes, in which the shell expands nothing; with
    [base64Strings] on it comes out as the decoding of its base64 form.
    The same happens to [$@], to [$?] and to a command substitution.  The
    options are those of the claim, renaming and encoding on; the second
    output is that of the default options, with draws that inject no dead
    code. *)
Theorem C5_bash_positional_parameter_encoded :
  Bash.hasInterpolation (quote (str "$1")) = false
  /\ (forall m : VarMap.t,
        Bash.replacement renameAndHex m (quote (str "$1")) = str "$'\x24\x31'")
  /\ (forall self : Instance,
        fst (fst (Bash.obfuscate renameAndHex (bash_echo (str "$1")) self (constant 0)))
        = str "echo $'\x24\x31'")
  /\ (forall self : Instance,
        fst (fst (Bash.obfuscate defaultOptions (bash_echo (str "$1")) self
                    (constant (1 # 2))))
        = str "echo $'\x24\x31'")
  /\ (forall self : Instance,
        fst (fst (Bash.obfuscate renameAndEncode (bash_echo (str "$1")) self (constant 0)))
        = str "echo $(echo 'JDE='|base64 -d)")
  /\ (forall self : Instance,
        fst (fst (Bash.obfuscate renameAndHex (bash_echo (str "$@")) self (constant 0)))
        = str "echo $'\x24\x40'")
  /\ (forall self : Instance,
        fst (fst (Bash.obfuscate renameAndHex (bash_echo (str "$?")) self (constant 0)))
        = str "echo $'\x24\x3f'")
  /\ (forall self : Instance,
        fst (fst (Bash.obfuscate renameAndHex (bash_echo (str "$(pwd)")) self (constant 0)))
        = str "echo $'\x24\x28\x70\x77\x64\x29'").
Proof.
  repeat split; intros; vm_compute; reflexivity.
Qed.

(** Where the claim does hold: a double-quoted string the test takes for
    interpolated is never encoded under renaming, whatever the encoding
    options are; the text put back is the string with its variables
    renamed. *)
Lemma bash_interpolated_literal_not_encoded :
  forall (o : ObfuscationOptions) (m : VarMap.t) (original : jsstring),
    renameVariables o = true ->
    Bash.hasInterpolation original = true ->
    Bash.replacement o m original = Bash.renameInterpolation m original.
Proof.
  intros o m original Hren Hint. unfold Bash.replacement. rewrite Hint, Hren. reflexivity.
Qed.

(** The interpolation pattern has one match in the greeting, the variable
    with its sigil, whatever the callback does with it. *)
Lemma bash_greeting_one_match : forall f : hit -> jsstring,
  replaceAll Bash.interpolatedVar f bash_greeting
  = (dq :: str "hello ")
    ++ f (Hit (str "$name") [(1, str "name")] (dq :: str "hello ") [dq])
    ++ [dq].
Proof. intros f. vm_compute. reflexivity. Qed.

(** The string of the specification: with [renameVariables] on, whatever
    the other options, when the renamer has mapped [name] to a name [N],
    the text put back for the double-quoted string [hello $name] is the
    string [hello $N].  The dollar sign is kept, only the identifier is
    substituted, and the encoding branch is not taken. *)
Lemma bash_greeting_renamed :
  forall (o : ObfuscationOptions) (m : VarMap.t) (N : jsstring),
    renameVariables o = true ->
    VarMap.get (str "name") m = Some N ->
    N <> [] ->
    Bash.hasInterpolation bash_greeting = true
    /\ Bash.replacement o m bash_greeting = quote (str "hello $" ++ N).
Proof.
  intros o m N Hren Hget Hne.
  split; [reflexivity|].
  unfold Bash.replacement.
  change (Bash.hasInterpolation bash_greeting) with true.
  rewrite Hren. cbn [andb].
  unfold Bash.renameInterpolation.
  rewrite bash_greeting_one_match.
  unfold group. cbn [groups matched lookup_group Nat.eqb].
  rewrite Hget.
  destruct N as [|c N]; [contradiction|].
  change (includes (str "{") (str "$name")) with false. cbv iota.
  unfold quote. cbn [app str]. rewrite <- !app_assoc. reflexivity.
Qed.

(** At the renaming of the specification, with the default options. *)
Example bash_greeting_renamed_default :
  Bash.replacement defaultOptions [(str "name", str "_ab12cd34")] bash_greeting
  = quote (str "hello $_ab12cd34").
Proof.
  apply (bash_greeting_renamed defaultOptions
           [(str "name", str "_ab12cd34")] (str "_ab12cd34")).
  - reflexivity.
  - reflexivity.
  - discriminate.
Qed.

(** The same through the whole pipeline, with renaming and every encoding
    option on, base64 included: the renamer maps [name] to the name it
    draws, and the greeting comes out with that name after the dollar
    sign. *)
Example bash_script_obfuscated :
  fst (fst (Bash.obfuscate renameAndEncode bash_script newInstance (constant (3 # 8))))
  = str "_IIIIIIIIdi=world" ++ [nl] ++ str "echo " ++ quote (str "hello $_IIIIIIIIdi").
Proof. vm_compute. reflexivity. Qed.

(** ** C6: length-bounded hexadecimal encoding *)

(** The hexadecimal escape of a printable code unit has two digits. *)
Lemma hexOrSelf_printable : forall c : cu,
  (32 <= c <= 126)%N ->
  JavaScript.hexOrSelf c = [bs; 120%N; digit_char (c / 16); digit_char (c mod 16)].
Proof.
  intros c Hc.
  pose (P := fun c : cu =>
               negb (N.leb 32 c)
               || str_eqb (JavaScript.hexOrSelf c)
                    [bs; 120%N; digit_char (c / 16); digit_char (c mod 16)]).
  assert (H : P c = true).
  { apply below_128; [vm_compute; reflexivity | lia]. }
  unfold P in H.
  destruct (N.leb_spec 32 c) as [_|Hlt]; [|lia].
  cbn [negb orb] in H. apply str_eqb_eq. exact H.
Qed.

(** The escape of a printable code unit holds no dollar sign. *)
Lemma hexOrSelf_no_dollar : forall c : cu,
  (32 <= c <= 126)%N -> mem dollar (JavaScript.hexOrSelf c) = false.
Proof.
  intros c Hc.
  pose (P := fun c : cu =>
               negb (N.leb 32 c) || negb (mem dollar (JavaScript.hexOrSelf c))).
  assert (H : P c = true).
  { apply below_128; [vm_compute; reflexivity | lia]. }
  unfold P in H.
  destruct (N.leb_spec 32 c) as [_|Hlt]; [|lia].
  cbn [negb orb] in H. apply negb_true_iff in H. exact H.
Qed.

Lemma mem_app : forall (c : cu) (a b : jsstring),
  mem c (a ++ b) = mem c a || mem c b.
Proof. intros. unfold mem. apply existsb_app. Qed.

(** C6 fails at the intensity of the default options.  With
    [encodeStrings] and [hexEncoding] on, [base64Strings] off and intensity
    high, the restoration loop writes the literal [hello] as five escapes,
    and [applyHighObfuscation], which runs on the restored text and encodes
    every quoted string it finds, encodes these escapes again, character by
    character: the output holds twenty escapes, which spell the text of the
    five escapes, backslashes included, and no longer the word.  So does
    the call with the default options (the draws inject no dead code).  At
    intensity low a second slip shows: the literal of a hundred code units
    that ends in two dollar signs is below no length bound, yet it comes
    back one code unit shorter, because [String.prototype.replace] reads
    the two dollar signs as a replacement pattern. *)
Theorem C6_javascript_short_literal_encoded_twice :
  (forall (compileRegExp : jsstring -> option re) (r : Random),
     JavaScript.obfuscate compileRegExp hexAtHighIntensity js_short_literal r
     = Some (JavaScript.debugTrap ++ str "x="
             ++ quote (toHex (str "\x68\x65\x6c\x6c\x6f")) ++ str ";", r))
  /\ (forall compileRegExp : jsstring -> option re,
        option_map fst
          (JavaScript.obfuscate compileRegExp defaultOptions js_short_literal
             (constant (1 # 2)))
        = Some (JavaScript.debugTrap ++ str "x="
                ++ quote (toHex (str "\x68\x65\x6c\x6c\x6f")) ++ str ";"))
  /\ toHex (str "\x68\x65\x6c\x6c\x6f")
     = str "\x5c\x78\x36\x38\x5c\x78\x36\x35\x5c\x78\x36\x63\x5c\x78\x36\x63\x5c\x78\x36\x66"
  /\ (forall (compileRegExp : jsstring -> option re) (r : Random),
        JavaScript.obfuscate compileRegExp onlyHex js_long_dollars r
        = Some (str "x = " ++ quote (repeat (97%N : cu) 98 ++ str "$") ++ str ";", r)).
Proof.
  repeat split; intros; vm_compute; reflexivity.
Qed.

(** The stage of the high intensity has no length bound either: the
    literal of a hundred letters comes out as a hundred escapes. *)
Example javascript_high_intensity_encodes_long_literal :
  forall (compileRegExp : jsstring -> option re) (r : Random),
    JavaScript.obfuscate compileRegExp hexAtHighIntensity js_long_literal r
    = Some (JavaScript.debugTrap ++ str "x="
            ++ quote (toHex (repeat (97%N : cu) 100)) ++ str ";", r).
Proof. intros. vm_compute. reflexivity. Qed.

(** X29.  What the restoration loop of the JavaScript handler does on its
    own, [encodeStrings] and [hexEncoding] on, [base64Strings] off, whatever
    the other options are.  For a literal between double or
    single quotes whose content has at least 100 code units, the
    replacement text is the literal itself, which [replace] inserts as it
    is when the literal holds no dollar sign; for a literal whose content
    is five printable ASCII characters, the replacement text is a
    double-quoted string with one escape backslash, x, two hexadecimal
    digits per character, and, holding no dollar sign, it is inserted as it
    is. *)
Theorem javascript_restoration_length_bounded_hex :
  forall (o : ObfuscationOptions) (q : cu) (long short : jsstring),
    encodeStrings o = true -> hexEncoding o = true -> base64Strings o = false ->
    q = dq \/ q = sq ->
    100 <= length long ->
    length short = 5 -> Forall (fun c => (32 <= c <= 126)%N) short ->
    JavaScript.replacement o (q :: long ++ [q]) = q :: long ++ [q]
    /\ (mem dollar long = false ->
        forall matched before after : jsstring,
          getSubstitution matched before after (JavaScript.replacement o (q :: long ++ [q]))
          = q :: long ++ [q])
    /\ JavaScript.replacement o (q :: short ++ [q])
       = quote (flat_map (fun c => [bs; 120%N; digit_char (c / 16); digit_char (c mod 16)])
                         short)
    /\ (forall matched before after : jsstring,
          getSubstitution matched before after (JavaScript.replacement o (q :: short ++ [q]))
          = JavaScript.replacement o (q :: short ++ [q])).
Proof.
  intros o q long short Henc Hhex Hb64 Hq Hlong Hshort Hprint.
  assert (Hstart : forall content, startsWith [bq] (q :: content ++ [q]) = false).
  { intros content. destruct Hq; subst q; reflexivity. }
  assert (Hqd : mem dollar [q] = false) by (destruct Hq; subst q; reflexivity).
  unfold JavaScript.replacement.
  rewrite !Hstart, !slice1m1_quoted, Henc, Hhex, Hb64. cbn [negb andb].
  split; [|split; [|split]].
  - apply Nat.ltb_ge in Hlong. rewrite Hlong, andb_false_r. reflexivity.
  - intros Hd matched before after.
    apply Nat.ltb_ge in Hlong. rewrite Hlong, andb_false_r.
    apply getSubstitution_plain.
    change (q :: long ++ [q]) with ([q] ++ long ++ [q]).
    rewrite !mem_app, Hqd, Hd. reflexivity.
  - rewrite Hshort. cbn [Nat.ltb Nat.leb andb].
    unfold quote. f_equal. f_equal.
    clear Hshort. induction Hprint as [|c l Hc _ IH]; [reflexivity|].
    cbn [flat_map]. rewrite IH, (hexOrSelf_printable c Hc). reflexivity.
  - intros matched before after. rewrite Hshort. cbn [Nat.ltb Nat.leb andb].
    apply getSubstitution_plain.
    rewrite !mem_app. change (mem dollar [dq]) with false. cbn [orb].
    rewrite orb_false_r.
    clear Hshort. induction Hprint as [|c l Hc _ IH]; [reflexivity|].
    cbn [flat_map]. rewrite mem_app, IH, (hexOrSelf_no_dollar c Hc). reflexivity.
Qed.

(** At a hundred letters a and at the word hello, with the default
    options. *)
Lemma javascript_restoration_length_bounded_hex_witness :
  JavaScript.replacement defaultOptions (dq :: repeat (97%N : cu) 100 ++ [dq])
    = dq :: repeat (97%N : cu) 100 ++ [dq]
  /\ (forall matched before after : jsstring,
        getSubstitution matched before after
          (JavaScript.replacement defaultOptions (dq :: repeat (97%N : cu) 100 ++ [dq]))
        = dq :: repeat (97%N : cu) 100 ++ [dq])
  /\ JavaScript.replacement defaultOptions (dq :: str "hello" ++ [dq])
    = quote (str "\x68\x65\x6c\x6c\x6f")
  /\ (forall matched before after : jsstring,
        getSubstitution matched before after
          (JavaScript.replacement defaultOptions (dq :: str "hello" ++ [dq]))
        = JavaScript.replacement defaultOptions (dq :: str "hello" ++ [dq])).
Proof.
  destruct (javascript_restoration_length_bounded_hex defaultOptions dq
              (repeat (97%N : cu) 100) (str "hello") eq_refl eq_refl eq_refl
              (or_introl eq_refl))
    as (H1 & H2 & H3 & H4).
  - rewrite repeat_length. apply le_n.
  - reflexivity.
  - repeat constructor; cbv; discriminate.
  - refine (conj H1 (conj (H2 _) (conj H3 H4))). vm_compute. reflexivity.
Defined.

(** The two cases through the whole pipeline at intensity low, with only
    the two options on: the word comes out as five escapes between double
    quotes, the string of a hundred letters comes out as it went in. *)
Example javascript_hex_pipeline :
  option_map fst
    (JavaScript.obfuscate JavaScript.compileWordRegExp onlyHex
       js_short_literal (constant 0))
  = Some (str "x = " ++ quote (str "\x68\x65\x6c\x6c\x6f") ++ str ";")
  /\ option_map fst
       (JavaScript.obfuscate JavaScript.compileWordRegExp onlyHex
          js_long_literal (constant 0))
     = Some js_long_literal.
Proof. split; vm_compute; reflexivity. Qed.

(** ** C7: a comment marker inside a string *)

(** C7 (the code departs from the claim).  The comment-removal step leaves
    the line alone, the quote count before the marker being odd; but with
    the options of the quick preset, where comment removal is on, the
    minifier that follows removes everything from the marker to the end of
    the line, the closing quote included. *)
Theorem C7_javascript_minifier_cuts_string :
  forall (compileRegExp : jsstring -> option re) (r : Random),
    JavaScript.stripComments js_marker_in_string = js_marker_in_string
    /\ removeComments preset_quick = true
    /\ JavaScript.obfuscate compileRegExp preset_quick js_marker_in_string r
      = Some (str "x=" ++ [dq] ++ str "a", r).
Proof.
  intros compileRegExp r. repeat split; vm_compute; reflexivity.
Qed.

(** With comment removal on and no stage after restoration, the line comes
    out whole. *)
Example javascript_marker_kept_without_minifier :
  forall (compileRegExp : jsstring -> option re) (r : Random),
    JavaScript.obfuscate compileRegExp onlyRemoveComments js_marker_in_string r
    = Some (js_marker_in_string, r).
Proof. intros. vm_compute. reflexivity. Qed.

(** ** C8: an unrecognized language tag *)


(** The generic handler returns for every text: its pipeline is a total
    function, and so is the call on a fresh instance. *)
Lemma generic_call_returns :
  forall (compileRegExp : jsstring -> option re)
         (otherObfuscate : Index.Handler -> ObfuscationOptions -> jsstring -> Random
                           -> Index.Completion (jsstring * Random))
         (opts : ObfuscationOptions) (code : jsstring) (r : Random),
    Index.callObfuscate compileRegExp otherObfuscate Index.GenericObfuscator opts code r
    = Index.Normal (fst (fst (Generic.obfuscate opts code newBaseState r)),
                    snd (Generic.obfuscate opts code newBaseState r)).
Proof.
  intros compileRegExp otherObfuscate opts code r.
  cbn [Index.callObfuscate]. unfold Index.dropState.
  destruct (Generic.obfuscate opts code newBaseState r) as [[out st] r']. reflexivity.
Qed.

(** X28.  Where the fallback does work: for every text, every options
    object and every tag that is neither a key of the record nor the name
    of a property of [Object.prototype], [createObfuscator] constructs the
    generic handler with the merged options, and [obfuscateCode] returns
    the output of the generic pipeline on a new instance; it does not
    throw, whatever the other classes and the regular expression compiler
    do. *)
Theorem unknown_tag_falls_back_to_generic :
  forall (compileRegExp : jsstring -> option re)
         (otherObfuscate : Index.Handler -> ObfuscationOptions -> jsstring -> Random
                           -> Index.Completion (jsstring * Random))
         (code : jsstring) (language : jsstring)
         (options : Index.PartialOptions) (r : Random),
    Index.recognized language = false ->
    Index.lookup language Index.objectPrototype = None ->
    Index.createObfuscator language options
      = Index.Normal (Index.Obfuscator Index.GenericObfuscator
                        (Index.mergeOptions defaultOptions options))
    /\ Index.obfuscateCode compileRegExp otherObfuscate code language options r
      = Index.Normal
          (fst (fst (Generic.obfuscate (Index.mergeOptions defaultOptions options)
                       code newBaseState r)),
           snd (Generic.obfuscate (Index.mergeOptions defaultOptions options)
                  code newBaseState r)).
Proof.
  intros compileRegExp otherObfuscate code language options r Hrec Hproto.
  assert (Hc : Index.createObfuscator language options
               = Index.Normal (Index.Obfuscator Index.GenericObfuscator
                                 (Index.mergeOptions defaultOptions options))).
  { unfold Index.createObfuscator, Index.get. unfold Index.recognized in Hrec.
    destruct (Index.lookup language Index.map); [discriminate|].
    rewrite Hproto. reflexivity. }
  split; [exact Hc|].
  unfold Index.obfuscateCode. rewrite Hc. apply generic_call_returns.
Qed.

(** At the tag [cobol], on a one-line program, when every class that is not
    embedded throws. *)
Lemma unknown_tag_falls_back_to_generic_witness :
  Index.createObfuscator (str "cobol") Index.noOverrides
    = Index.Normal (Index.Obfuscator Index.GenericObfuscator
                      (Index.mergeOptions defaultOptions Index.noOverrides))
  /\ Index.obfuscateCode JavaScript.compileWordRegExp
       (fun _ _ _ _ => Index.Throw Index.OtherError)
       (str "var total = 1") (str "cobol") Index.noOverrides (constant 0)
    = Index.Normal
        (fst (fst (Generic.obfuscate (Index.mergeOptions defaultOptions Index.noOverrides)
                     (str "var total = 1") newBaseState (constant 0))),
         snd (Generic.obfuscate (Index.mergeOptions defaultOptions Index.noOverrides)
                (str "var total = 1") newBaseState (constant 0))).
Proof.
  apply (unknown_tag_falls_back_to_generic JavaScript.compileWordRegExp
           (fun _ _ _ _ => Index.Throw Index.OtherError) (str "var total = 1")
           (str "cobol") Index.noOverrides (constant 0)).
  - reflexivity.
  - reflexivity.
Defined.

(** The tag [generic], which the type [SupportedLanguage] has, and the
    tag [cobol], which it does not have, are such tags; the string returned
    for a one-line program. *)
Example generic_fallback_output :
  Index.obfuscateCode JavaScript.compileWordRegExp (fun _ _ _ _ => Index.Throw Index.OtherError)
    (str "var total = 1") (str "generic") Index.noOverrides (constant 0)
  = Index.Normal (str "var _OOOOOO1 = 1", {| draws := fun _ => 0%Q; cursor := 6 |})
  /\ Index.obfuscateCode JavaScript.compileWordRegExp
       (fun _ _ _ _ => Index.Throw Index.OtherError)
       (str "var total = 1") (str "cobol") Index.noOverrides (constant 0)
     = Index.Normal (str "var _OOOOOO1 = 1", {| draws := fun _ => 0%Q; cursor := 6 |}).
Proof. split; vm_compute; reflexivity. Qed.

(** A key of the options that holds [undefined] overrides the default:
    with [{ deadCodeInjection: undefined, intensity: undefined }] no dead
    code is injected and no stage of the high intensity runs, although the
    defaults switch both on. *)
Example undefined_option_overrides_default :
  let options :=
    {| Index.p_renameVariables := None; Index.p_encodeStrings := None;
       Index.p_removeComments := None; Index.p_controlFlowFlattening := None;
       Index.p_deadCodeInjection := Some None; Index.p_unicodeEscape := None;
       Index.p_hexEncoding := None; Index.p_base64Strings := None;
       Index.p_shuffleCode := None; Index.p_minify := None;
       Index.p_intensity := Some None |} in
  deadCodeInjection (Index.mergeOptions defaultOptions options) = false
  /\ intensity (Index.mergeOptions defaultOptions options) = unset
  /\ wants_minify (Index.mergeOptions defaultOptions options) = false.
Proof. repeat split. Qed.

(** ** C9: the state of a reused instance *)

(** C9, as stated, fails: the CSS handler starts a call with the map and the
    counter the previous call left, and the same style sheet, with the same
    random draws, is renamed differently by a used instance and by a fresh
    one. *)
Lemma C9_css_instance_keeps_state :
  variableMap css_used = [(str "a", str "OOOOOO1")]
  /\ counter css_used = 1
  /\ fst (fst (Css.obfuscate onlyRename (str ".b{}") css_used (constant 0)))
     = str ".OOOOOO2{}"
  /\ fst (fst (Css.obfuscate onlyRename (str ".b{}") newBaseState (constant 0)))
     = str ".OOOOOO1{}"
  /\ fst (fst (Css.obfuscate onlyRename (str ".b{}") css_used (constant 0)))
     <> fst (fst (Css.obfuscate onlyRename (str ".b{}") newBaseState (constant 0))).
Proof.
  repeat split; try (vm_compute; reflexivity). vm_compute. discriminate.
Qed.

Lemma lua_forgets_history : forall o, forgets_history (Lua.obfuscate o).
Proof.
  intros o code self r. unfold Lua.obfuscate.
  cbn [clearVarMap varMap base newInstance].
  destruct (Lua.extract code) as [res tbl].
  destruct (renameVariables o);
    [destruct (Lua.renameIdentifiers _ _ _) as [[? ?] ?]|];
    (destruct (deadCodeInjection o); [destruct (Lua.injectDeadCode _ _)|]);
    same_pipeline.
Qed.

Lemma bash_forgets_history : forall o, forgets_history (Bash.obfuscate o).
Proof.
  intros o code self r. unfold Bash.obfuscate.
  cbn [clearVarMap varMap base newInstance].
  destruct (Bash.splitShebang code) as [shebang rest].
  destruct (Bash.extract rest) as [res tbl].
  destruct (renameVariables o);
    [destruct (Bash.renameIdentifiers _ _ _) as [[? ?] ?]|];
    (destruct (deadCodeInjection o); [destruct (Bash.injectDeadCode _ _)|]);
    same_pipeline.
Qed.

Lemma perl_forgets_history : forall o, forgets_history (Perl.obfuscate o).
Proof.
  intros o code self r. unfold Perl.obfuscate.
  cbn [clearVarMap varMap base newInstance].
  destruct (Perl.extract code) as [res tbl].
  destruct (renameVariables o);
    [destruct (Perl.renameIdentifiers _ _ _) as [[? ?] ?]|];
    (destruct (deadCodeInjection o); [destruct (Perl.injectDeadCode _ _)|]);
    same_pipeline.
Qed.

Lemma rust_forgets_history : forall o, forgets_history (Rust.obfuscate o).
Proof.
  intros o code self r. unfold Rust.obfuscate.
  cbn [clearVarMap varMap base newInstance].
  destruct (Rust.extract code) as [res tbl].
  destruct (renameVariables o);
    [destruct (Rust.renameIdentifiers _ _ _) as [[? ?] ?]|];
    (destruct (deadCodeInjection o); [destruct (Rust.injectDeadCode _ _)|]);
    same_pipeline.
Qed.

(** Setting a key that is not in the map keeps the entries of the map. *)
Lemma get_set_fresh : forall (name v k x : jsstring) (m : VarMap.t),
  VarMap.get name m = Some v ->
  VarMap.has k m = false ->
  VarMap.get name (VarMap.set k x m) = Some v.
Proof.
  intros name v k x m. unfold VarMap.has.
  induction m as [|[k' v'] m IH]; intros Hget Hhas.
  - discriminate.
  - cbn [VarMap.get VarMap.set] in *.
    destruct (str_eqb k' k) eqn:Hk; [discriminate|].
    cbn [VarMap.get].
    destruct (str_eqb k' name); [exact Hget|].
    apply IH; assumption.
Qed.

(** The name generator of the CSS handler advances the counter by one and
    leaves the map alone. *)
Lemma css_generate_keeps : forall (st : BaseState) (r : Random),
  variableMap (snd (fst (Css.generateObfuscatedName st r))) = variableMap st
  /\ counter (snd (fst (Css.generateObfuscatedName st r))) = S (counter st).
Proof.
  intros st r. unfold Css.generateObfuscatedName.
  destruct (randomChar _ r) as [first r1].
  destruct (randomChars 5 _ r1) as [more r2].
  split; reflexivity.
Qed.

Lemma extends_refl : forall st, extends st st.
Proof. intros st. split; [auto | lia]. Qed.

Lemma extends_trans : forall a b c, extends a b -> extends b c -> extends a c.
Proof. intros a b c [H1 H2] [H3 H4]. split; [auto | lia]. Qed.

Lemma css_declare_extends : forall (k : jsstring) (st : BaseState) (r : Random),
  extends st (fst (Css.declare k (st, r))).
Proof.
  intros k st r. unfold Css.declare.
  destruct (VarMap.has k (variableMap st)) eqn:Hhas; cbn [negb].
  - apply extends_refl.
  - pose proof (css_generate_keeps st r) as [Hm Hc].
    destruct (Css.generateObfuscatedName st r) as [[fresh st1] r1].
    cbn [fst snd] in *. split; cbn [variableMap counter].
    + intros name v Hget. rewrite Hm. apply get_set_fresh; assumption.
    + lia.
Qed.

Lemma css_declare_all_extends :
  forall (hits : list hit) (s : BaseState * Random),
    extends (fst s) (fst (fold_left (fun s h => Css.declare (group 1 h) s) hits s)).
Proof.
  induction hits as [|h hits IH]; intros [st r]; cbn [fold_left].
  - apply extends_refl.
  - eapply extends_trans; [|apply IH].
    apply css_declare_extends.
Qed.

Lemma css_rename_extends : forall (code : jsstring) (st : BaseState) (r : Random),
  extends st (snd (fst (Css.renameSelectors code st r))).
Proof.
  intros code st r. unfold Css.renameSelectors. cbn [fst snd].
  eapply extends_trans; [|apply css_declare_all_extends].
  apply (css_declare_all_extends _ (st, r)).
Qed.

Lemma css_junk_extends : forall (n : nat) (st : BaseState) (r : Random),
  extends st (snd (fst (Css.junkRules n st r))).
Proof.
  induction n as [|n IH]; intros st r; cbn [Css.junkRules].
  - apply extends_refl.
  - pose proof (css_generate_keeps st r) as [Hm Hc].
    destruct (Css.generateObfuscatedName st r) as [[className st1] r1].
    destruct (randomIndex _ r1) as [i r2].
    specialize (IH st1 r2).
    destruct (Css.junkRules n st1 r2) as [[rules st2] r3].
    cbn [fst snd] in *.
    eapply extends_trans; [|exact IH].
    split; [intros name v Hget; rewrite Hm; exact Hget | lia].
Qed.

(** A call of the CSS handler leaves a state that extends the one it
    started from. *)
Lemma css_obfuscate_extends :
  forall (o : ObfuscationOptions) (code : jsstring) (self : BaseState) (r : Random),
    extends self (snd (fst (Css.obfuscate o code self r))).
Proof.
  intros o code self r. unfold Css.obfuscate.
  set (stripped := if removeComments o then _ else code).
  destruct (renameVariables o).
  - pose proof (css_rename_extends stripped self r) as Hren.
    destruct (Css.renameSelectors stripped self r) as [[res st1] r1].
    cbn [fst snd] in Hren.
    destruct (deadCodeInjection o && negb (Css.is_low (intensity o))).
    + unfold Css.addJunkRules.
      match goal with
      | |- context [Css.junkRules ?n st1 r1] =>
        pose proof (css_junk_extends n st1 r1) as Hj;
        destruct (Css.junkRules n st1 r1) as [[rules st2] r2]
      end.
      cbn [fst snd] in *. eapply extends_trans; eassumption.
    + cbn [fst snd]. exact Hren.
  - destruct (deadCodeInjection o && negb (Css.is_low (intensity o))).
    + unfold Css.addJunkRules.
      match goal with
      | |- context [Css.junkRules ?n self r] =>
        pose proof (css_junk_extends n self r) as Hj;
        destruct (Css.junkRules n self r) as [[rules st2] r2]
      end.
      cbn [fst snd] in *. exact Hj.
    + cbn [fst snd]. apply extends_refl.
Qed.

(** C9, amended.  The handlers with a private map (here Lua, Bash, Perl and
    Rust) clear it first thing in [obfuscate]: the output, the map left
    behind and the random draws consumed are those of a fresh instance.  The
    CSS handler does not reset the fields it inherits: an entry that is in
    its map before a call is in it, with the same value, after the call, and
    its counter does not decrease. *)
Theorem C9_private_maps_cleared_css_map_kept :
  forall (o : ObfuscationOptions) (code : jsstring) (css_self : BaseState) (r : Random)
         (name v : jsstring),
    VarMap.get name (variableMap css_self) = Some v ->
    forgets_history (Lua.obfuscate o)
    /\ forgets_history (Bash.obfuscate o)
    /\ forgets_history (Perl.obfuscate o)
    /\ forgets_history (Rust.obfuscate o)
    /\ VarMap.get name (variableMap (snd (fst (Css.obfuscate o code css_self r)))) = Some v
    /\ counter css_self <= counter (snd (fst (Css.obfuscate o code css_self r))).
Proof.
  intros o code css_self r name v Hget.
  split; [apply lua_forgets_history|].
  split; [apply bash_forgets_history|].
  split; [apply perl_forgets_history|].
  split; [apply rust_forgets_history|].
  destruct (css_obfuscate_extends o code css_self r) as [Hmap Hcount].
  split; [apply Hmap; exact Hget | exact Hcount].
Qed.

(** The amended C9 at the used CSS instance and the entry its first call
    made. *)
Lemma C9_witness :
  forgets_history (Lua.obfuscate onlyRename)
  /\ forgets_history (Bash.obfuscate onlyRename)
  /\ forgets_history (Perl.obfuscate onlyRename)
  /\ forgets_history (Rust.obfuscate onlyRename)
  /\ VarMap.get (str "a")
       (variableMap (snd (fst (Css.obfuscate onlyRename (str ".b{}") css_used (constant 0)))))
     = Some (str "OOOOOO1")
  /\ counter css_used
     <= counter (snd (fst (Css.obfuscate onlyRename (str ".b{}") css_used (constant 0)))).
Proof.
  apply (C9_private_maps_cleared_css_map_kept onlyRename (str ".b{}") css_used
           (constant 0) (str "a") (str "OOOOOO1")).
  vm_compute. reflexivity.
Defined.

(** A Lua instance used once and a fresh one give the same output. *)
Example lua_reused_instance :
  let used := snd (fst (Lua.obfuscate onlyRename (str "local a = 1") newInstance
                          (constant 0))) in
  varMap used = [(str "a", str "_OOOOOOOO")]
  /\ fst (fst (Lua.obfuscate onlyRename (str "local b = a") used (constant 0)))
     = fst (fst (Lua.obfuscate onlyRename (str "local b = a") newInstance (constant 0)))
  /\ fst (fst (Lua.obfuscate onlyRename (str "local b = a") used (constant 0)))
     = str "local _OOOOOOOO = a".
Proof. repeat split; vm_compute; reflexivity. Qed.

(** ** C10: the shebang of a shell script *)

(** The shebang split of a text that starts with a terminated shebang line. *)
Lemma splitShebang_terminated : forall (line rest : jsstring),
  includes [nl] line = false ->
  Bash.splitShebang (str "#!" ++ line ++ [nl] ++ rest)
  = (str "#!" ++ line ++ [nl], rest).
Proof.
  intros line rest Hline. unfold Bash.splitShebang.
  change (str "#!" ++ line ++ [nl] ++ rest) with (35%N :: 33%N :: (line ++ nl :: rest)).
  change (startsWith (str "#!") (35%N :: 33%N :: (line ++ nl :: rest))) with true.
  cbv iota.
  rewrite !indexOf_cons, !startsWith_single.
  change (cu_eqb nl 35) with false. change (cu_eqb nl 33) with false. cbv iota.
  rewrite (indexOf_linefeed line rest Hline). cbn [option_map].
  replace (S (S (length line)) + 1) with (S (S (length (line ++ [nl]))))
    by (rewrite length_app; cbn [length]; lia).
  cbn [firstn skipn].
  change (line ++ nl :: rest) with (line ++ [nl] ++ rest).
  rewrite app_assoc.
  rewrite firstn_app, skipn_app, Nat.sub_diag, firstn_all, skipn_all.
  cbn [firstn skipn app]. rewrite app_nil_r. reflexivity.
Qed.

(** What holds when the first line is terminated: the output of the Bash
    handler starts with the first line of the input, line feed included,
    whatever the options, the instance and the random source. *)
Lemma bash_shebang_kept_when_terminated :
  forall (o : ObfuscationOptions) (line rest : jsstring) (self : Instance) (r : Random),
    includes [nl] line = false ->
    exists result,
      fst (fst (Bash.obfuscate o (str "#!" ++ line ++ [nl] ++ rest) self r))
        = (str "#!" ++ line ++ [nl]) ++ result.
Proof.
  intros o line rest self r Hline.
  unfold Bash.obfuscate.
  rewrite (splitShebang_terminated line rest Hline).
  destruct (Bash.extract rest) as [res tbl].
  destruct (renameVariables o);
    [destruct (Bash.renameIdentifiers _ _ _) as [[? ?] ?]|];
    (destruct (deadCodeInjection o); [destruct (Bash.injectDeadCode _ _)|]);
    cbn [fst snd];
  eexists; reflexivity.
Qed.

(** C10 (the code departs from the claim).  A script that is only a shebang
    line, without a final line feed: the index of the line feed is -1, the
    shebang taken is the empty string, the whole line goes through the
    stages, and comment removal deletes it.  With comment removal on, alone
    or with the default options, the output is empty. *)
Theorem C10_bash_unterminated_shebang_lost :
  forall (self : Instance) (r : Random),
    Bash.splitShebang (str "#!/bin/sh") = ([], str "#!/bin/sh")
    /\ fst (fst (Bash.obfuscate onlyRemoveComments (str "#!/bin/sh") self r)) = []
    /\ fst (fst (Bash.obfuscate defaultOptions (str "#!/bin/sh") self r)) = [].
Proof.
  intros self r. split; [reflexivity|]. split.
  - vm_compute. reflexivity.
  - unfold Bash.obfuscate, defaultOptions, wants_minify.
    cbn [removeComments renameVariables deadCodeInjection minify intensity
         is_high_or_extreme orb].
    change (Bash.splitShebang (str "#!/bin/sh")) with (@nil cu, str "#!/bin/sh").
    cbv iota beta.
    change (Bash.extract (str "#!/bin/sh")) with (str "#!/bin/sh", (@nil (entry unit), 0)).
    cbv iota beta.
    change (Bash.stripComments (str "#!/bin/sh")) with (@nil cu).
    change (Bash.renameIdentifiers [] (varMap (clearVarMap self)) r)
      with (@nil cu, @nil (jsstring * jsstring), r).
    cbv iota beta.
    unfold Bash.injectDeadCode.
    change (lines []) with [@nil cu].
    cbn [Bash.injectLines].
    unfold Bash.injectAfter.
    destruct (randomBelow 100 r) as [lucky r1].
    change (is_blank []) with true.
    cbn [negb andb]. rewrite andb_false_r. cbn [andb].
    cbn [app unlines join fst snd].
    vm_compute. reflexivity.
Qed.

(** A script whose shebang line is terminated keeps it, here with comment
    removal on. *)
Example bash_terminated_shebang_kept :
  fst (fst (Bash.obfuscate onlyRemoveComments
              (str "#!/bin/sh" ++ [nl] ++ str "echo hi # greet") newInstance (constant 0)))
  = str "#!/bin/sh" ++ [nl] ++ str "echo hi ".
Proof. vm_compute. reflexivity. Qed.

(** * Further properties of the code *)


(** ** The random source *)

(** A draw lies in the interval from 0 to 1, 1 left out. *)
Lemma frac_range : forall x : Q, (0 <= frac x)%Q /\ (frac x < 1)%Q.
Proof.
  intros x. unfold frac. pose proof (Qfloor_le x) as Hlo.
  pose proof (Qlt_floor x) as Hhi.
  rewrite inject_Z_plus in Hhi. change (inject_Z 1) with 1%Q in Hhi.
  generalize dependent (inject_Z (Qfloor x)). intros a Hlo Hhi.
  split; lra.
Qed.

(** A draw scaled by a positive integer and rounded down is below it. *)
Lemma floor_scaled : forall (x : Q) (k : Z),
  (0 <= x)%Q -> (x < 1)%Q -> (0 < k)%Z -> (0 <= Qfloor (x * inject_Z k) < k)%Z.
Proof.
  intros x k Hlo Hhi Hk.
  assert (Hm : (0 < inject_Z k)%Q).
  { change 0%Q with (inject_Z 0). rewrite <- Zlt_Qlt. exact Hk. }
  assert (Hy : (0 <= x * inject_Z k)%Q /\ (x * inject_Z k < inject_Z k)%Q).
  { generalize dependent (inject_Z k). intros m Hm. split; nra. }
  destruct Hy as [Hy0 Hy1]. split.
  - change 0%Z with (Qfloor (inject_Z 0)) at 1. apply Qfloor_resp_le. exact Hy0.
  - rewrite Zlt_Qlt.
    apply Qle_lt_trans with (x * inject_Z k)%Q; [apply Qfloor_le | exact Hy1].
Qed.

(** [Math.floor(x * n)] for such a draw is an index below [n]. *)
Lemma floorMul_lt : forall (x : Q) (n : nat),
  (0 <= x)%Q -> (x < 1)%Q -> 0 < n -> floorMul x n < n.
Proof.
  intros x n Hlo Hhi Hn. unfold floorMul.
  pose proof (floor_scaled x (Z.of_nat n) Hlo Hhi). lia.
Qed.

Lemma randomIndex_lt : forall (n : nat) (r : Random),
  0 < n -> fst (randomIndex n r) < n.
Proof.
  intros n r Hn. unfold randomIndex, random. cbn [fst].
  destruct (frac_range (draws r (cursor r))) as [Hlo Hhi].
  apply floorMul_lt; assumption.
Qed.

(** One random character of a non-empty alphabet is one character of it. *)
Lemma randomChar_in : forall (chars : jsstring) (r : Random),
  chars <> [] -> exists c, fst (randomChar chars r) = [c] /\ In c chars.
Proof.
  intros chars r Hne. unfold randomChar.
  pose proof (randomIndex_lt (length chars) r) as Hlt.
  destruct (randomIndex (length chars) r) as [i r']. cbn [fst] in *.
  assert (Hi : i < length chars).
  { apply Hlt. destruct chars; [contradiction | cbn; lia]. }
  destruct (nth_error chars i) as [c|] eqn:E.
  - exists c. split; [reflexivity | apply (nth_error_In _ _ E)].
  - apply nth_error_None in E. lia.
Qed.

Lemma randomChars_in : forall (n : nat) (chars : jsstring) (r : Random),
  chars <> [] ->
  length (fst (randomChars n chars r)) = n
  /\ Forall (fun c => In c chars) (fst (randomChars n chars r)).
Proof.
  induction n as [|n IH]; intros chars r Hne.
  - split; [reflexivity | constructor].
  - cbn [randomChars].
    destruct (randomChar_in chars r Hne) as [c [Hc Hin]].
    destruct (randomChar chars r) as [c0 r1]. cbn [fst] in Hc. subst c0.
    destruct (IH chars r1 Hne) as [Hlen Hall].
    destruct (randomChars n chars r1) as [s r2]. cbn [fst app length] in *.
    split; [lia | constructor; assumption].
Qed.

(** The digits after the point, in a radix up to 36, are at most as many
    as asked for, and are digits or lower-case letters. *)
Lemma digit_char_word : forall d : N, (d < 36)%N ->
  is_digit (digit_char d) || is_lower (digit_char d) = true.
Proof.
  intros d Hd. unfold digit_char, is_digit, is_lower, between.
  destruct (N.ltb_spec d 10).
  - apply orb_true_iff. left. apply andb_true_iff. split; apply N.leb_le; lia.
  - apply orb_true_iff. right. apply andb_true_iff. split; apply N.leb_le; lia.
Qed.

Lemma fracDigits_word : forall (n : nat) (radix : N) (x : Q),
  (0 < radix)%N -> (radix <= 36)%N -> (0 <= x)%Q -> (x < 1)%Q ->
  length (fracDigits n radix x) <= n
  /\ forallb (fun c => is_digit c || is_lower c) (fracDigits n radix x) = true.
Proof.
  induction n as [|n IH]; intros radix x Hr0 Hr Hlo Hhi.
  - split; [cbn; lia | reflexivity].
  - cbn [fracDigits]. destruct (Qeq_bool x 0); [split; [cbn; lia | reflexivity]|].
    set (y := (x * inject_Z (Z.of_N radix))%Q).
    assert (Hd : (0 <= Qfloor y < Z.of_N radix)%Z).
    { apply floor_scaled; try assumption. lia. }
    destruct (frac_range y) as [Hr1 Hr2]. unfold frac in Hr1, Hr2.
    destruct (IH radix (y - inject_Z (Qfloor y))%Q Hr0 Hr Hr1 Hr2) as [Hlen Hall].
    split; [cbn [length]; lia|].
    cbn [forallb]. rewrite Hall, andb_true_r.
    apply digit_char_word. lia.
Qed.

(** ** Generated names *)

Lemma lower_or_digit_word : forall c : cu,
  is_digit c || is_lower c = true -> is_word c = true.
Proof.
  intros c H. unfold is_word, is_alpha.
  destruct (is_digit c); [rewrite orb_true_r; reflexivity|].
  cbn [orb] in H. rewrite H. reflexivity.
Qed.

(** A name that starts with an underscore is none of the words of a list
    in which no word starts with one. *)
Lemma underscore_not_reserved : forall (reserved : list jsstring) (t : jsstring),
  forallb (fun w => negb (startsWith [95%N] w)) reserved = true ->
  VarMap.isReserved reserved (95%N :: t) = false.
Proof.
  intros reserved t. unfold VarMap.isReserved.
  induction reserved as [|w ws IH]; intros H; [reflexivity|].
  cbn [forallb existsb] in *. apply andb_true_iff in H. destruct H as [Hw Hws].
  rewrite (IH Hws), orb_false_r.
  destruct w as [|c w']; [reflexivity|].
  cbn [str_eqb]. cbn [startsWith] in Hw. rewrite andb_true_r in Hw.
  destruct (cu_eqb 95 c); [discriminate | reflexivity].
Qed.

Lemma Forall_forallb_word : forall (chars s : jsstring),
  forallb is_word chars = true -> Forall (fun c => In c chars) s ->
  forallb is_word s = true.
Proof.
  intros chars s Hc Hs. rewrite forallb_forall in Hc.
  apply forallb_forall. intros c Hin.
  rewrite Forall_forall in Hs. apply Hc, Hs, Hin.
Qed.

(** X1.  The name generator of the JavaScript handler: whatever the draws, the
    name starts with an underscore, has 7 to 11 characters, all of them
    word characters, and is not a reserved word of the handler. *)
Theorem javascript_generated_name_is_identifier : forall r : Random,
  let name := fst (JavaScript.generateConfusingName r) in
  startsWith [95%N] name = true
  /\ 7 <= length name <= 11
  /\ forallb is_word name = true
  /\ VarMap.isReserved JavaScript.reserved name = false.
Proof.
  intros r name. unfold name, JavaScript.generateConfusingName. clear name.
  set (prefixes := map str ["_0x"; "_0O"; "_Il"; "_lI"; "_O0"]%string).
  pose proof (randomIndex_lt (length prefixes) r) as Hi.
  destruct (randomIndex (length prefixes) r) as [i r1]. cbn [fst] in Hi.
  assert (Hp : In (nth i prefixes []) prefixes).
  { apply nth_In. apply Hi. cbn. lia. }
  assert (Hprefix : exists t, nth i prefixes [] = 95%N :: t /\ length t = 2
                              /\ forallb is_word t = true).
  { revert Hp. generalize (nth i prefixes []). intros p Hp.
    cbn in Hp. repeat (destruct Hp as [Hp | Hp];
      [subst p; eexists; repeat split; reflexivity|]). contradiction. }
  destruct Hprefix as (t & Hpre & Hlen & Hword). rewrite Hpre.
  destruct (randomChars_in 4 (str "O0Il1") r1) as [Hslen Hsall]; [discriminate|].
  destruct (randomChars 4 (str "O0Il1") r1) as [suffix r2]. cbn [fst] in *.
  unfold randomSuffix, random.
  destruct (frac_range (draws r2 (cursor r2))) as [Hlo Hhi].
  destruct (fracDigits_word 4 16 (frac (draws r2 (cursor r2)))) as [Htlen Htall];
    try assumption; try lia.
  cbn [fst app startsWith length].
  split; [reflexivity|].
  split; [rewrite !length_app; unfold jsstring, cu in *; lia|].
  split.
  - cbn [forallb]. rewrite !forallb_app, Hword.
    rewrite (Forall_forallb_word (str "O0Il1") suffix eq_refl Hsall).
    rewrite (forallb_impl _ is_word _ lower_or_digit_word Htall). reflexivity.
  - apply underscore_not_reserved. vm_compute. reflexivity.
Qed.

(** The name the Lua, Bash, Perl and Rust handlers give to a variable: an
    underscore and the generated name.  It has 9 to 13 characters, all of
    them word characters, and starts with an underscore. *)
Lemma underscore_name_shape : forall r : Random,
  let name := str "_" ++ fst (generateConfusingName36 (str "O0Il1_") r) in
  startsWith [95%N] name = true
  /\ 9 <= length name <= 13
  /\ forallb is_word name = true.
Proof.
  intros r name. unfold name, generateConfusingName36. clear name.
  destruct (randomChars_in 8 (str "O0Il1_") r) as [Hslen Hsall]; [discriminate|].
  destruct (randomChars 8 (str "O0Il1_") r) as [body r1]. cbn [fst] in *.
  unfold randomSuffix, random.
  destruct (frac_range (draws r1 (cursor r1))) as [Hlo Hhi].
  destruct (fracDigits_word 4 36 (frac (draws r1 (cursor r1)))) as [Htlen Htall];
    try assumption; try lia.
  cbn [fst]. change (str "_") with [95%N]. cbn [app startsWith length].
  split; [reflexivity|].
  split; [rewrite !length_app; unfold jsstring, cu in *; lia|].
  cbn [forallb]. rewrite !forallb_app.
  rewrite (Forall_forallb_word (str "O0Il1_") body eq_refl Hsall).
  rewrite (forallb_impl _ is_word _ lower_or_digit_word Htall). reflexivity.
Qed.

(** ** Lines, joins and trimming *)

Lemma split_aux_not_nil : forall (fuel : nat) (sep s cur : jsstring),
  split_aux fuel sep s cur <> [].
Proof.
  induction fuel as [|f IH]; intros sep s cur; cbn [split_aux]; [discriminate|].
  destruct s as [|c s']; [discriminate|].
  destruct (startsWith sep (c :: s')); [discriminate | apply IH].
Qed.

Lemma join_cons : forall (sep x : jsstring) (l : list jsstring),
  l <> [] -> join sep (x :: l) = x ++ sep ++ join sep l.
Proof. intros sep x [|y l] H; [contradiction | reflexivity]. Qed.

(** Joining what was split gives the text back. *)
Lemma join_split_aux : forall (sep : jsstring), sep <> [] ->
  forall (fuel : nat) (s cur : jsstring),
    length s < fuel -> join sep (split_aux fuel sep s cur) = rev cur ++ s.
Proof.
  intros sep Hsep. induction fuel as [|f IH]; intros s cur Hf; [lia|].
  cbn [split_aux]. destruct s as [|c s'].
  - cbn [join]. rewrite app_nil_r. reflexivity.
  - destruct (startsWith sep (c :: s')) eqn:Hs.
    + rewrite join_cons by apply split_aux_not_nil.
      apply startsWith_inv in Hs. destruct Hs as [t Ht].
      rewrite Ht at 1. rewrite skipn_app_exact.
      rewrite IH.
      * cbn [rev app]. rewrite Ht. reflexivity.
      * apply (f_equal (@length cu)) in Ht. rewrite length_app in Ht.
        destruct sep; [contradiction|]. cbn [length] in *. lia.
    + rewrite IH by (cbn [length] in Hf; lia).
      cbn [rev]. rewrite <- app_assoc. reflexivity.
Qed.

Lemma join_split : forall (sep s : jsstring), sep <> [] -> join sep (split sep s) = s.
Proof.
  intros sep s Hsep. unfold split. rewrite join_split_aux by (assumption || lia).
  reflexivity.
Qed.

Lemma unlines_lines : forall s : jsstring, unlines (lines s) = s.
Proof. intros s. apply join_split. discriminate. Qed.

Lemma mem_false_not_occurs : forall (c : cu) (s : jsstring),
  mem c s = false -> ~ occurs [c] s.
Proof.
  intros c s H [a [t Ht]]. subst s. unfold mem in H.
  rewrite existsb_app in H. cbn [app existsb] in H.
  unfold cu_eqb in H. rewrite N.eqb_refl in H.
  rewrite orb_true_r in H. discriminate.
Qed.

(** Splitting at a character a text that starts with a stretch free of
    it. *)
Lemma split_aux_first_char : forall (c : cu) (a rest : jsstring) (fuel : nat) (cur : jsstring),
  mem c a = false -> length (a ++ c :: rest) < fuel ->
  split_aux fuel [c] (a ++ c :: rest) cur = (rev cur ++ a) :: split [c] rest.
Proof.
  intros c. induction a as [|x a IH]; intros rest fuel cur Ha Hf;
    (destruct fuel as [|f]; [cbn [length] in Hf; lia|]).
  - cbn [app] in *. rewrite split_aux_hit; [|discriminate|].
    + cbn [length skipn]. rewrite app_nil_r. f_equal.
      unfold split. apply split_aux_rounds; [discriminate | cbn [length] in Hf; lia | lia].
    + rewrite startsWith_single. apply N.eqb_refl.
  - cbn [app split_aux]. unfold mem in Ha. cbn [existsb] in Ha.
    apply orb_false_iff in Ha. destruct Ha as [Hx Ha].
    rewrite startsWith_single, Hx.
    rewrite IH; [|exact Ha | cbn [app length] in Hf; lia].
    cbn [rev]. rewrite <- app_assoc. reflexivity.
Qed.

(** Splitting what was joined gives the pieces back, when no piece holds
    the separator. *)
Lemma split_join_char : forall (c : cu) (l : list jsstring),
  l <> [] -> Forall (fun x => mem c x = false) l ->
  split [c] (join [c] l) = l.
Proof.
  intros c. induction l as [|x l IH]; intros Hne Hall; [contradiction|].
  inversion Hall as [|x0 l0 Hx Hl]. subst x0 l0.
  destruct l as [|y l'].
  - cbn [join]. unfold split.
    rewrite (split_aux_none [c]); [reflexivity | discriminate | | lia].
    apply mem_false_not_occurs. exact Hx.
  - rewrite join_cons by discriminate. cbn [app]. unfold split at 1.
    rewrite split_aux_first_char; [|exact Hx | lia].
    cbn [rev app]. f_equal. apply IH; [discriminate | exact Hl].
Qed.

Lemma lines_unlines : forall l : list jsstring,
  l <> [] -> Forall (fun x => mem nl x = false) l -> lines (unlines l) = l.
Proof. intros l. apply split_join_char. Qed.

(** No line holds a line feed. *)
Lemma split_aux_char_free : forall (c : cu) (fuel : nat) (s cur : jsstring),
  length s < fuel -> mem c cur = false ->
  Forall (fun x => mem c x = false) (split_aux fuel [c] s cur).
Proof.
  intros c. induction fuel as [|f IH]; intros s cur Hf Hcur; [lia|].
  assert (Hrev : mem c (rev cur) = false).
  { unfold mem in *. destruct (existsb (cu_eqb c) (rev cur)) eqn:E; [|reflexivity].
    apply existsb_exists in E. destruct E as [x [Hin Hx]].
    apply in_rev in Hin.
    assert (existsb (cu_eqb c) cur = true) by (apply existsb_exists; exists x; tauto).
    congruence. }
  cbn [split_aux]. destruct s as [|x s'].
  - constructor; [exact Hrev | constructor].
  - rewrite startsWith_single. destruct (cu_eqb c x) eqn:Hx.
    + constructor; [exact Hrev|]. cbn [length skipn].
      apply IH; [cbn [length] in Hf; lia | reflexivity].
    + apply IH; [cbn [length] in Hf; lia|].
      unfold mem in *. cbn [existsb]. rewrite Hx, Hcur. reflexivity.
Qed.

Lemma lines_free : forall s : jsstring, Forall (fun x => mem nl x = false) (lines s).
Proof.
  intros s. unfold lines, split. apply split_aux_char_free; [lia | reflexivity].
Qed.

Lemma lines_not_nil : forall s : jsstring, lines s <> [].
Proof. intros s. unfold lines, split. apply split_aux_not_nil. Qed.

(** Trimming. *)
Lemma dropWhile_idem : forall (p : cu -> bool) (s : jsstring),
  dropWhile p (dropWhile p s) = dropWhile p s.
Proof.
  intros p. induction s as [|c s IH]; [reflexivity|].
  cbn [dropWhile]. destruct (p c) eqn:E; [exact IH|].
  cbn [dropWhile]. rewrite E. reflexivity.
Qed.

Lemma dropWhile_suffix : forall (p : cu -> bool) (s : jsstring),
  exists a, s = a ++ dropWhile p s /\ forallb p a = true.
Proof.
  intros p. induction s as [|c s IH].
  - exists []. split; reflexivity.
  - cbn [dropWhile]. destruct (p c) eqn:E.
    + destruct IH as [a [Ha Hp]]. exists (c :: a).
      split; [cbn [app]; rewrite <- Ha; reflexivity | cbn [forallb]; rewrite E, Hp; reflexivity].
    + exists []. split; reflexivity.
Qed.

Lemma dropWhile_head : forall (p : cu -> bool) (s : jsstring) (c : cu) (t : jsstring),
  dropWhile p s = c :: t -> p c = false.
Proof.
  intros p. induction s as [|x s IH]; intros c t H; [discriminate|].
  cbn [dropWhile] in H. destruct (p x) eqn:E; [apply (IH _ _ H)|].
  injection H as <- _. exact E.
Qed.

Lemma dropWhile_app_keep : forall (p : cu -> bool) (u : jsstring) (c : cu),
  p c = false -> exists v, dropWhile p (u ++ [c]) = v ++ [c].
Proof.
  intros p. induction u as [|x u IH]; intros c Hc.
  - exists []. cbn [app dropWhile]. rewrite Hc. reflexivity.
  - cbn [app dropWhile]. destruct (p x).
    + apply IH. exact Hc.
    + exists (x :: u). reflexivity.
Qed.

(** The end of a text trimmed at the end is the start of the text. *)
Lemma trimEnd_prefix : forall s : jsstring,
  exists t, s = trimEnd s ++ t /\ forallb is_space t = true.
Proof.
  intros s. unfold trimEnd.
  destruct (dropWhile_suffix is_space (rev s)) as [a [Ha Hp]].
  exists (rev a). split.
  - rewrite <- rev_app_distr, <- Ha, rev_involutive. reflexivity.
  - apply forallb_forall. intros x Hx. apply in_rev in Hx.
    rewrite forallb_forall in Hp. apply Hp, Hx.
Qed.

Lemma trimEnd_idem : forall s : jsstring, trimEnd (trimEnd s) = trimEnd s.
Proof.
  intros s. unfold trimEnd. rewrite rev_involutive, dropWhile_idem. reflexivity.
Qed.

(** Trimming the end keeps a first character that is no white space. *)
Lemma trimStart_trimEnd : forall s : jsstring,
  trimStart (trimEnd (trimStart s)) = trimEnd (trimStart s).
Proof.
  intros s. unfold trimStart.
  destruct (dropWhile is_space s) as [|c t] eqn:E; [reflexivity|].
  pose proof (dropWhile_head _ _ _ _ E) as Hc.
  unfold trimEnd. cbn [rev].
  destruct (dropWhile_app_keep is_space (rev t) c Hc) as [v Hv].
  rewrite Hv, rev_app_distr. cbn [rev app dropWhile]. rewrite Hc. reflexivity.
Qed.

Lemma trim_idem : forall s : jsstring, trim (trim s) = trim s.
Proof.
  intros s. unfold trim. rewrite trimStart_trimEnd, trimEnd_idem. reflexivity.
Qed.

(** ** Rename maps *)

Lemma set_Forall : forall (Q : jsstring * jsstring -> Prop) (name v : jsstring) (m : VarMap.t),
  Forall Q m -> Q (name, v) -> Forall Q (VarMap.set name v m).
Proof.
  intros Q name v. induction m as [|[k x] m IH]; intros Hm Hq; cbn [VarMap.set].
  - constructor; [exact Hq | constructor].
  - inversion Hm as [|y l Hy Hl]. subst y l.
    destruct (str_eqb k name) eqn:E.
    + apply str_eqb_eq in E. subst k. constructor; assumption.
    + constructor; [exact Hy | apply IH; assumption].
Qed.

Lemma set_keys_fresh : forall (name v : jsstring) (m : VarMap.t),
  VarMap.has name m = false -> map fst (VarMap.set name v m) = map fst m ++ [name].
Proof.
  intros name v. unfold VarMap.has. induction m as [|[k x] m IH]; intros H; [reflexivity|].
  cbn [VarMap.get VarMap.set] in *.
  destruct (str_eqb k name); [discriminate|].
  cbn [map fst app]. rewrite IH by exact H. reflexivity.
Qed.

Lemma has_false_not_key : forall (name : jsstring) (m : VarMap.t),
  VarMap.has name m = false -> ~ In name (map fst m).
Proof.
  intros name. unfold VarMap.has. induction m as [|[k x] m IH]; intros H Hin; [exact Hin|].
  cbn [VarMap.get] in H. cbn [map fst In] in Hin.
  destruct (str_eqb k name) eqn:E; [discriminate|].
  destruct Hin as [Hk | Hin]; [subst k; rewrite str_eqb_refl in E; discriminate|].
  exact (IH H Hin).
Qed.

Lemma NoDup_snoc : forall (A : Type) (l : list A) (x : A),
  NoDup l -> ~ In x l -> NoDup (l ++ [x]).
Proof.
  intros A l x Hl Hx. apply NoDup_rev in Hl.
  rewrite <- (rev_involutive (l ++ [x])). apply NoDup_rev.
  rewrite rev_app_distr. cbn [rev app]. constructor; [|exact Hl].
  intros Hin. apply Hx. apply in_rev. exact Hin.
Qed.

(** One round of the shared declaration loop keeps a map well named and
    its keys distinct. *)
Lemma declareName_keeps : forall (reserved : list jsstring),
  forallb (fun w => negb (startsWith [95%N] w)) reserved = true ->
  forall (name : jsstring) (st : VarMap.t * Random),
    Forall (wellNamed reserved) (fst st) /\ NoDup (map fst (fst st)) ->
    Forall (wellNamed reserved) (fst (declareName reserved (str "O0Il1_") name st))
    /\ NoDup (map fst (fst (declareName reserved (str "O0Il1_") name st))).
Proof.
  intros reserved Hres name [m r] [Hm Hd]. unfold declareName. cbn [fst] in *.
  destruct (VarMap.isReserved reserved name) eqn:Er; cbn [negb andb]; [split; assumption|].
  destruct (VarMap.has name m) eqn:Eh; cbn [negb]; [split; assumption|].
  pose proof (underscore_name_shape r) as Hshape. cbv zeta in Hshape.
  destruct (generateConfusingName36 (str "O0Il1_") r) as [fresh r']. cbn [fst] in *.
  destruct Hshape as (Hs & _ & Hw). split.
  - apply set_Forall; [exact Hm|]. unfold wellNamed. cbn [fst snd].
    refine (conj Er (conj Hs (conj Hw _))).
    change (str "_" ++ fresh) with (95%N :: fresh).
    apply underscore_not_reserved. exact Hres.
  - rewrite set_keys_fresh by exact Eh. apply NoDup_snoc; [exact Hd|].
    apply has_false_not_key. exact Eh.
Qed.

Lemma declareName_fold_keeps : forall (reserved : list jsstring),
  forallb (fun w => negb (startsWith [95%N] w)) reserved = true ->
  forall (k : nat) (hits : list hit) (st : VarMap.t * Random),
    Forall (wellNamed reserved) (fst st) /\ NoDup (map fst (fst st)) ->
    let st' := fold_left (fun st h => declareName reserved (str "O0Il1_") (group k h) st)
                         hits st in
    Forall (wellNamed reserved) (fst st') /\ NoDup (map fst (fst st')).
Proof.
  intros reserved Hres k. induction hits as [|h hits IH]; intros st H; cbn [fold_left].
  - exact H.
  - apply IH. apply declareName_keeps; assumption.
Qed.

Ltac rename_map_keeps :=
  repeat (apply declareName_fold_keeps; [vm_compute; reflexivity|]);
  cbn [fst]; split; [constructor | constructor].

(** X2.  The map a call of [obfuscate] builds in the Lua, Bash, Perl and Rust
    handlers (from the cleared map): the keys are distinct and none is a
    reserved word of the handler; every new name is an underscore followed
    by word characters and is no reserved word. *)
Theorem rename_maps_avoid_reserved_words : forall (code : jsstring) (r : Random),
  let wellFormed (reserved : list jsstring) (m : VarMap.t) :=
    Forall (wellNamed reserved) m /\ NoDup (map fst m) in
  wellFormed Lua.reserved (snd (fst (Lua.renameIdentifiers code [] r)))
  /\ wellFormed Bash.reserved (snd (fst (Bash.renameIdentifiers code [] r)))
  /\ wellFormed Perl.reserved (snd (fst (Perl.renameIdentifiers code [] r)))
  /\ wellFormed Rust.reserved (snd (fst (Rust.renameIdentifiers code [] r))).
Proof.
  intros code r wellFormed. unfold wellFormed.
  unfold Lua.renameIdentifiers, Bash.renameIdentifiers, Perl.renameIdentifiers,
    Rust.renameIdentifiers.
  cbn [fst snd].
  refine (conj _ (conj _ (conj _ _))); rename_map_keeps.
Qed.

(** A JavaScript name with a dollar sign is declared but not renamed: in
    the pattern built from it the dollar sign is the end-of-input
    assertion, so the pattern of [$x] matches nowhere; that of [x$] matches
    a word [x] at the very end of the text, which is then replaced by the
    new name of [x$]. *)
Example javascript_dollar_names :
  option_map fst
    (JavaScript.obfuscate JavaScript.compileWordRegExp onlyRename
       (str "var $x = 1; $x") (constant (1 # 2)))
  = Some (str "var $x = 1; $x")
  /\ option_map fst
       (JavaScript.obfuscate JavaScript.compileWordRegExp onlyRename
          (str "var x$ = 1; x") (constant (1 # 2)))
     = Some (str "var x$ = 1; _IlIIII8").
Proof. split; vm_compute; reflexivity. Qed.

(** ** Comment removal of the base class *)

Lemma removeMultiLine_loop_post :
  forall (start stop : jsstring), stop <> [] ->
  forall (fuel : nat) (result : jsstring),
    length result <= fuel ->
    let out := removeMultiLine_loop fuel start stop result in
    match indexOf start out with
    | Some i => indexOfFrom stop out i = None
    | None => True
    end
    /\ length out <= length result.
Proof.
  intros start stop Hstop. induction fuel as [|f IH]; intros result Hlen out; unfold out; clear out.
  - destruct result; [|cbn [length] in Hlen; lia].
    cbn [removeMultiLine_loop]. split; [|lia].
    cbn [indexOf]. destruct (startsWith start []); [|exact I].
    unfold indexOfFrom. cbn [skipn indexOf].
    destruct stop; [contradiction | reflexivity].
  - cbn [removeMultiLine_loop].
    destruct (indexOf start result) as [startIdx|] eqn:Hs.
    + destruct (indexOfFrom stop result startIdx) as [endIdx|] eqn:He.
      * unfold indexOfFrom in He.
        destruct (indexOf stop (skipn startIdx result)) as [j|] eqn:Hj; [|discriminate].
        cbn [option_map] in He. injection He as <-.
        apply indexOf_fits in Hj. rewrite length_skipn in Hj.
        apply indexOf_fits in Hs.
        assert (Hshort : length (firstn startIdx result
                                 ++ skipn (startIdx + j + length stop) result)
                         < length result).
        { rewrite length_app, length_firstn, length_skipn.
          destruct stop; [contradiction|]. cbn [length] in *. lia. }
        destruct (IH (firstn startIdx result ++ skipn (startIdx + j + length stop) result))
          as [Hpost Hle]; [lia|].
        split; [exact Hpost | lia].
      * rewrite Hs. split; [exact He | lia].
    + rewrite Hs. split; [exact I | lia].
Qed.

(** X3.  [removeMultiLineComments] with a non-empty end marker leaves no
    complete comment: either no start marker is left, or no end marker
    follows the first start marker that is left.  The output is never
    longer than the input. *)
Theorem removeMultiLineComments_leaves_no_comment :
  forall (start stop code : jsstring), stop <> [] ->
    let out := removeMultiLineComments start stop code in
    match indexOf start out with
    | Some i => indexOfFrom stop out i = None
    | None => True
    end
    /\ length out <= length code.
Proof.
  intros start stop code Hstop. unfold removeMultiLineComments.
  apply removeMultiLine_loop_post; [exact Hstop | lia].
Qed.

(** At a text with one closed and one open block comment: the closed one
    is removed, and no end marker follows the start marker that is left. *)
Lemma removeMultiLineComments_leaves_no_comment_witness :
  removeMultiLineComments (str "/*") (str "*/") (str "a /* b */ c /* d") = str "a  c /* d"
  /\ indexOfFrom (str "*/") (str "a  c /* d") 5 = None.
Proof.
  split; [reflexivity|].
  exact (proj1 (removeMultiLineComments_leaves_no_comment
                  (str "/*") (str "*/") (str "a /* b */ c /* d") ltac:(discriminate))).
Defined.

(** The text before the first occurrence of a word does not hold the
    word. *)
Lemma indexOf_prefix_free : forall (c : jsstring), c <> [] ->
  forall (s : jsstring) (i : nat), indexOf c s = Some i -> ~ occurs c (firstn i s).
Proof.
  intros c Hc. induction s as [|x s IH]; intros i Hi [a [t Hat]].
  - cbn [indexOf] in Hi. destruct (startsWith c []) eqn:E; [|discriminate].
    destruct c; [contradiction | discriminate].
  - rewrite indexOf_cons in Hi. destruct (startsWith c (x :: s)) eqn:E.
    + injection Hi as <-. cbn [firstn] in Hat.
      destruct a; [|discriminate]. destruct c; [contradiction | discriminate].
    + destruct (indexOf c s) as [j|] eqn:Hj; [|discriminate].
      injection Hi as <-. cbn [firstn] in Hat.
      destruct a as [|y a].
      * cbn [app] in Hat.
        assert (Hx : x :: s = c ++ (t ++ skipn j s)).
        { rewrite app_assoc, <- Hat. cbn [app]. rewrite firstn_skipn. reflexivity. }
        rewrite Hx, startsWith_app in E. discriminate.
      * cbn [app] in Hat. injection Hat as _ Hat.
        apply (IH j eq_refl). exists a, t. exact Hat.
Qed.

Lemma indexOf_none : forall (c s : jsstring), ~ occurs c s -> indexOf c s = None.
Proof.
  intros c s H. apply not_includes in H. unfold includes in H.
  destruct (indexOf c s); [discriminate | reflexivity].
Qed.

Lemma stripLineComment_idem : forall (c line : jsstring),
  stripLineComment c (stripLineComment c line) = stripLineComment c line.
Proof.
  intros c line. destruct c as [|c0 c'].
  - assert (H : forall l, stripLineComment [] l = []).
    { intros l. unfold stripLineComment. destruct l; reflexivity. }
    rewrite !H. reflexivity.
  - destruct (indexOf (c0 :: c') line) as [idx|] eqn:Hi.
    + destruct (Nat.even (count_char sq (firstn idx line))
                && Nat.even (count_char dq (firstn idx line))) eqn:He.
      * assert (Hv : stripLineComment (c0 :: c') line = trimEnd (firstn idx line)).
        { unfold stripLineComment. cbv zeta. rewrite Hi, He. reflexivity. }
        rewrite Hv. unfold stripLineComment. rewrite indexOf_none; [reflexivity|].
        intros [a [t Hat]].
        destruct (trimEnd_prefix (firstn idx line)) as [u [Hu _]].
        apply (indexOf_prefix_free (c0 :: c') ltac:(discriminate) line idx Hi).
        exists a, (t ++ u). rewrite Hu, Hat, <- !app_assoc. reflexivity.
      * assert (Hv : stripLineComment (c0 :: c') line = line).
        { unfold stripLineComment. cbv zeta. rewrite Hi, He. reflexivity. }
        rewrite !Hv. reflexivity.
    + assert (Hv : stripLineComment (c0 :: c') line = line).
      { unfold stripLineComment. rewrite Hi. reflexivity. }
      rewrite !Hv. reflexivity.
Qed.

Lemma mem_app_false : forall (c : cu) (a b : jsstring),
  mem c (a ++ b) = false -> mem c a = false.
Proof.
  intros c a b H. unfold mem in *. rewrite existsb_app in H.
  apply orb_false_iff in H. tauto.
Qed.

Lemma stripLineComment_free : forall (c line : jsstring),
  mem nl line = false -> mem nl (stripLineComment c line) = false.
Proof.
  intros c line H. unfold stripLineComment.
  destruct (indexOf c line) as [idx|]; [|exact H].
  destruct (Nat.even _ && Nat.even _); [|exact H].
  destruct (trimEnd_prefix (firstn idx line)) as [u [Hu _]].
  apply (mem_app_false nl _ u). rewrite <- Hu.
  apply (mem_app_false nl _ (skipn idx line)). rewrite firstn_skipn. exact H.
Qed.

Lemma filter_idem : forall (A : Type) (f : A -> bool) (l : list A),
  filter f (filter f l) = filter f l.
Proof.
  intros A f. induction l as [|x l IH]; [reflexivity|].
  cbn [filter]. destruct (f x) eqn:E; [|exact IH].
  cbn [filter]. rewrite E, IH. reflexivity.
Qed.

Lemma map_filter_map_idem : forall (A : Type) (g : A -> A) (f : A -> bool) (l : list A),
  (forall x, g (g x) = g x) ->
  map g (filter f (map g l)) = filter f (map g l).
Proof.
  intros A g f l Hg. induction l as [|x l IH]; [reflexivity|].
  cbn [map filter]. destruct (f (g x)); [|exact IH].
  cbn [map]. rewrite Hg, IH. reflexivity.
Qed.

Lemma filter_Forall : forall (A : Type) (f : A -> bool) (l : list A),
  Forall (fun x => f x = true) (filter f l).
Proof.
  intros A f l. apply Forall_forall. intros x Hx. apply filter_In in Hx. tauto.
Qed.

(** X4.  [removeSingleLineComments], whatever the comment marker: a second
    pass changes nothing, and the output is empty or has no blank line. *)
Theorem removeSingleLineComments_idempotent :
  forall (commentChar code : jsstring),
    let out := removeSingleLineComments commentChar code in
    removeSingleLineComments commentChar out = out
    /\ (out = [] \/ Forall (fun l => is_blank l = false) (lines out)).
Proof.
  intros c code out. unfold out, removeSingleLineComments. clear out.
  set (kept := filter (fun l => negb (is_blank l)) (map (stripLineComment c) (lines code))).
  assert (Hfree : Forall (fun x => mem nl x = false) kept).
  { unfold kept. apply Forall_forall. intros x Hx. apply filter_In in Hx.
    destruct Hx as [Hx _]. apply in_map_iff in Hx. destruct Hx as [y [<- Hy]].
    apply stripLineComment_free.
    pose proof (lines_free code) as Hl. rewrite Forall_forall in Hl. apply Hl, Hy. }
  destruct kept as [|k ks] eqn:Ek.
  - split; [|left; reflexivity]. cbn [unlines join].
    destruct c; reflexivity.
  - rewrite lines_unlines by (discriminate || exact Hfree). rewrite <- Ek.
    split.
    + unfold kept. rewrite map_filter_map_idem by apply stripLineComment_idem.
      rewrite filter_idem. reflexivity.
    + right. unfold kept.
      eapply Forall_impl; [|apply filter_Forall].
      intros l Hl. cbv beta in Hl. destruct (is_blank l); [discriminate | reflexivity].
Qed.

(** ** The map of the CSS handler *)

Lemma set_values_fresh : forall (name v : jsstring) (m : VarMap.t),
  VarMap.has name m = false -> map snd (VarMap.set name v m) = map snd m ++ [v].
Proof.
  intros name v. unfold VarMap.has. induction m as [|[k x] m IH]; intros H; [reflexivity|].
  cbn [VarMap.get VarMap.set] in *.
  destruct (str_eqb k name); [discriminate|].
  cbn [map snd app]. rewrite IH by exact H. reflexivity.
Qed.

(** What the generator of the CSS handler returns: six drawn characters
    and the new counter. *)
Lemma css_generate_shape : forall (st : BaseState) (r : Random),
  skipn 6 (fst (fst (Css.generateObfuscatedName st r)))
  = toString10 (N.of_nat (S (counter st))).
Proof.
  intros st r. unfold Css.generateObfuscatedName.
  destruct (randomChar_in (str "OoIl") r) as [c [Hc _]]; [discriminate|].
  destruct (randomChar (str "OoIl") r) as [first r1]. cbn [fst] in Hc. subst first.
  destruct (randomChars_in 5 (str "OoIl10") r1) as [Hlen _]; [discriminate|].
  destruct (randomChars 5 (str "OoIl10") r1) as [more r2]. cbn [fst] in *.
  do 5 (destruct more as [|? more]; [discriminate|]).
  destruct more; [|discriminate]. reflexivity.
Qed.

Lemma ownNames_counter : forall (m : VarMap.t) (c c' : nat),
  c <= c' ->
  ownNames {| variableMap := m; counter := c |} ->
  ownNames {| variableMap := m; counter := c' |}.
Proof.
  intros m c c' Hle (Hk & Hv & Hall). cbn [variableMap counter] in *.
  refine (conj Hk (conj Hv _)). cbn [variableMap counter].
  eapply Forall_impl; [|exact Hall].
  intros v [n [Hn Hc]]. exists n. split; [exact Hn | lia].
Qed.

Lemma css_declare_ownNames : forall (k : jsstring) (st : BaseState) (r : Random),
  ownNames st -> ownNames (fst (Css.declare k (st, r))).
Proof.
  intros k st r Hst. unfold Css.declare.
  destruct (VarMap.has k (variableMap st)) eqn:Hhas; cbn [negb]; [exact Hst|].
  pose proof (css_generate_keeps st r) as [Hm Hc].
  pose proof (css_generate_shape st r) as Hshape.
  destruct (Css.generateObfuscatedName st r) as [[fresh st1] r1].
  cbn [fst snd] in *. destruct Hst as (Hk & Hv & Hall).
  unfold ownNames. cbn [variableMap counter]. rewrite Hm, Hc.
  rewrite set_keys_fresh, set_values_fresh by exact Hhas.
  rewrite map_app. cbn [map]. rewrite Hshape.
  refine (conj _ (conj _ _)).
  - apply NoDup_snoc; [exact Hk | apply has_false_not_key; exact Hhas].
  - apply NoDup_snoc; [exact Hv|].
    intros Hin. apply in_map_iff in Hin. destruct Hin as [v [Hv' Hin]].
    rewrite Forall_forall in Hall. destruct (Hall v Hin) as [c [Hc' Hle]].
    rewrite Hc' in Hv'. apply toString10_inj in Hv'. lia.
  - apply Forall_app. split.
    + eapply Forall_impl; [|exact Hall].
      intros v [n [Hn Hle]]. exists n. split; [exact Hn | lia].
    + constructor; [|constructor].
      exists (S (counter st)). split; [exact Hshape | lia].
Qed.

Lemma css_declare_all_ownNames :
  forall (hits : list hit) (s : BaseState * Random),
    ownNames (fst s) ->
    ownNames (fst (fold_left (fun s h => Css.declare (group 1 h) s) hits s)).
Proof.
  induction hits as [|h hits IH]; intros [st r] H; cbn [fold_left]; [exact H|].
  apply IH. apply css_declare_ownNames. exact H.
Qed.

Lemma css_junk_ownNames : forall (n : nat) (st : BaseState) (r : Random),
  ownNames st -> ownNames (snd (fst (Css.junkRules n st r))).
Proof.
  induction n as [|n IH]; intros st r H; cbn [Css.junkRules]; [exact H|].
  pose proof (css_generate_keeps st r) as [Hm Hc].
  destruct (Css.generateObfuscatedName st r) as [[className st1] r1].
  destruct (randomIndex _ r1) as [i r2].
  assert (H1 : ownNames st1).
  { cbn [fst snd] in *. destruct st1 as [m1 c1]. cbn [variableMap counter] in *.
    subst m1 c1. destruct st as [m c]. cbn [variableMap counter].
    apply (ownNames_counter m c (S c)); [lia | exact H]. }
  specialize (IH st1 r2 H1).
  destruct (Css.junkRules n st1 r2) as [[rules st2] r3]. exact IH.
Qed.

Lemma css_obfuscate_ownNames :
  forall (o : ObfuscationOptions) (code : jsstring) (self : BaseState) (r : Random),
    ownNames self -> ownNames (snd (fst (Css.obfuscate o code self r))).
Proof.
  intros o code self r H. unfold Css.obfuscate.
  set (stripped := if removeComments o then _ else code).
  assert (Hren : ownNames (snd (fst (if renameVariables o
                                     then Css.renameSelectors stripped self r
                                     else (stripped, self, r))))).
  { destruct (renameVariables o); [|exact H].
    unfold Css.renameSelectors. cbn [fst snd].
    apply css_declare_all_ownNames. apply (css_declare_all_ownNames _ (self, r)). exact H. }
  destruct (if renameVariables o then _ else _) as [[res st1] r1].
  cbn [fst snd] in Hren.
  destruct (deadCodeInjection o && negb (Css.is_low (intensity o))); [|exact Hren].
  unfold Css.addJunkRules.
  match goal with
  | |- context [Css.junkRules ?n st1 r1] =>
    pose proof (css_junk_ownNames n st1 r1 Hren) as Hj;
    destruct (Css.junkRules n st1 r1) as [[rules st2] r2]
  end.
  exact Hj.
Qed.

(** X5.  However many texts a new CSS handler obfuscates, its map never holds
    a selector twice and never gives two selectors the same new name. *)
Theorem css_new_names_are_distinct :
  forall (o : ObfuscationOptions) (codes : list jsstring) (r : Random),
    let m := Css.getVariableMap (fst (cssSession o codes (newBaseState, r))) in
    NoDup (map fst m) /\ NoDup (map snd m).
Proof.
  intros o codes r m. unfold m, Css.getVariableMap. clear m.
  assert (H : ownNames (fst (cssSession o codes (newBaseState, r)))).
  { assert (H0 : ownNames (fst (newBaseState, r))).
    { cbn [fst]. unfold ownNames, newBaseState. cbn [variableMap counter map].
      refine (conj _ (conj _ _)); constructor. }
    revert H0. generalize (newBaseState, r). unfold cssSession.
    induction codes as [|code codes IH]; intros s H0; cbn [fold_left]; [exact H0|].
    apply IH.
    pose proof (css_obfuscate_ownNames o code (fst s) (snd s) H0) as H1.
    destruct (Css.obfuscate o code (fst s) (snd s)) as [[res st'] r']. exact H1. }
  destruct H as (Hk & Hv & _). split; [exact Hk|].
  apply (NoDup_map_inv (skipn 6)). exact Hv.
Qed.

Lemma get_set_same : forall (k v : jsstring) (m : VarMap.t),
  VarMap.get k (VarMap.set k v m) = Some v.
Proof.
  intros k v. induction m as [|[k' v'] m IH]; cbn [VarMap.set VarMap.get].
  - rewrite str_eqb_refl. reflexivity.
  - destruct (str_eqb k' k) eqn:E; cbn [VarMap.get]; rewrite E; [reflexivity | exact IH].
Qed.

Lemma str_eqb_neq : forall a b : jsstring, a <> b -> str_eqb a b = false.
Proof.
  intros a b H. destruct (str_eqb a b) eqn:E; [|reflexivity].
  apply str_eqb_eq in E. contradiction.
Qed.

Lemma get_set_other : forall (k k' v : jsstring) (m : VarMap.t),
  k <> k' -> VarMap.get k' (VarMap.set k v m) = VarMap.get k' m.
Proof.
  intros k k' v. induction m as [|[k0 v0] m IH]; intros Hne; cbn [VarMap.set VarMap.get].
  - rewrite str_eqb_neq by exact Hne. reflexivity.
  - destruct (str_eqb k0 k) eqn:E; cbn [VarMap.get].
    + apply str_eqb_eq in E. subst k0. rewrite str_eqb_neq by exact Hne. reflexivity.
    + destruct (str_eqb k0 k'); [reflexivity | apply IH; exact Hne].
Qed.

(** X6.  [setVariableMap] followed by a lookup in [getVariableMap]: a key of
    the imported map is found with its imported value (the one set last,
    were the key listed twice), and any other key with the value the
    handler had for it. *)
Theorem css_setVariableMap_lookup :
  forall (imported : VarMap.t) (self : BaseState) (k : jsstring),
    VarMap.get k (Css.getVariableMap (Css.setVariableMap imported self))
    = match VarMap.get k (rev imported) with
      | Some v => Some v
      | None => VarMap.get k (Css.getVariableMap self)
      end.
Proof.
  intros imported self k. unfold Css.getVariableMap, Css.setVariableMap.
  cbn [variableMap]. generalize (variableMap self) as m.
  induction imported as [|[k0 v0] imported IH] using rev_ind; intros m.
  - reflexivity.
  - rewrite fold_left_app, rev_app_distr. cbn [fold_left rev app fst snd VarMap.get].
    destruct (str_eqb k0 k) eqn:E.
    + apply str_eqb_eq in E. subst k0. apply get_set_same.
    + rewrite get_set_other; [apply IH|].
      intros ->. rewrite str_eqb_refl in E. discriminate.
Qed.

(** ** Minification of the generic handler *)

Lemma trim_segment : forall l : jsstring, exists a b, l = a ++ trim l ++ b.
Proof.
  intros l. unfold trim.
  destruct (dropWhile_suffix is_space l) as [a [Ha _]].
  destruct (trimEnd_prefix (trimStart l)) as [b [Hb _]].
  exists a, b. unfold trimStart in *. rewrite <- Hb. exact Ha.
Qed.

Lemma mem_app_false_r : forall (c : cu) (a b : jsstring),
  mem c (a ++ b) = false -> mem c b = false.
Proof.
  intros c a b H. unfold mem in *. rewrite existsb_app in H.
  apply orb_false_iff in H. tauto.
Qed.

Lemma trim_free : forall l : jsstring, mem nl l = false -> mem nl (trim l) = false.
Proof.
  intros l H. destruct (trim_segment l) as [a [b Hl]]. rewrite Hl in H.
  apply mem_app_false_r in H. apply mem_app_false in H. exact H.
Qed.

(** X7.  [minifyCode] of the generic handler: a second pass changes nothing,
    and the output is empty or made of lines that are not empty and have
    no white space at either end. *)
Theorem generic_minify_idempotent : forall code : jsstring,
  let out := Generic.minifyCode code in
  Generic.minifyCode out = out
  /\ (out = [] \/ Forall (fun l => l <> [] /\ trim l = l) (lines out)).
Proof.
  intros code out. unfold out, Generic.minifyCode. clear out.
  set (kept := filter (fun l => 0 <? length l) (map trim (lines code))).
  assert (Hfree : Forall (fun x => mem nl x = false) kept).
  { unfold kept. apply Forall_forall. intros x Hx. apply filter_In in Hx.
    destruct Hx as [Hx _]. apply in_map_iff in Hx. destruct Hx as [y [<- Hy]].
    apply trim_free.
    pose proof (lines_free code) as Hl. rewrite Forall_forall in Hl. apply Hl, Hy. }
  destruct kept as [|k ks] eqn:Ek.
  - split; [reflexivity | left; reflexivity].
  - rewrite lines_unlines by (discriminate || exact Hfree). rewrite <- Ek.
    split.
    + unfold kept. rewrite map_filter_map_idem by apply trim_idem.
      rewrite filter_idem. reflexivity.
    + right. unfold kept. apply Forall_forall. intros l Hl.
      apply filter_In in Hl. destruct Hl as [Hin Hlen].
      apply in_map_iff in Hin. destruct Hin as [y [<- _]].
      split; [|apply trim_idem].
      intros E. rewrite E in Hlen. discriminate.
Qed.

(** ** Dead-code injection *)

Lemma interleaved_free : forall (eligible : jsstring -> bool) (dead ls out : list jsstring),
  Forall (fun x => mem nl x = false) dead ->
  interleaved eligible dead ls out ->
  Forall (fun x => mem nl x = false) ls ->
  Forall (fun x => mem nl x = false) out.
Proof.
  intros eligible dead ls out Hdead H. induction H as [|line ls out H IH|line d ls out He Hd H IH];
    intros Hls.
  - constructor.
  - inversion Hls; subst. constructor; [assumption | apply IH; assumption].
  - inversion Hls; subst. constructor; [assumption|].
    constructor; [|apply IH; assumption].
    rewrite Forall_forall in Hdead. apply Hdead, Hd.
Qed.

Lemma interleaved_not_nil : forall (eligible : jsstring -> bool) (dead ls out : list jsstring),
  interleaved eligible dead ls out -> ls <> [] -> out <> [].
Proof. intros eligible dead ls out H. destruct H; intros Hne; congruence. Qed.

(** The lines of the output of an injection loop, from what the loop
    pushed. *)
Lemma interleaved_lines : forall (eligible : jsstring -> bool) (dead out : list jsstring)
  (code : jsstring),
  Forall (fun x => mem nl x = false) dead ->
  interleaved eligible dead (lines code) out ->
  interleaved eligible dead (lines code) (lines (unlines out)).
Proof.
  intros eligible dead out code Hdead H. rewrite lines_unlines; [exact H| |].
  - apply (interleaved_not_nil _ _ _ _ H). apply lines_not_nil.
  - apply (interleaved_free _ _ _ _ Hdead H). apply lines_free.
Qed.

Ltac injection_loop injectAfter :=
  let ls := fresh "ls" in let IH := fresh "IH" in let r := fresh "r" in
  let lucky := fresh "lucky" in let r1 := fresh "r1" in
  intros ls; induction ls as [|line ls IH]; intros r;
  [ constructor
  | match goal with |- context [?loop (line :: ls) r] =>
      change (loop (line :: ls) r)
        with (let (out, r1) := injectAfter line r in
              let (outs, r2) := loop ls r1 in (out ++ outs, r2))
    end;
    unfold injectAfter;
    destruct (randomBelow _ r) as [lucky r1];
    match goal with
    | |- context [if ?c then _ else _] =>
      let E := fresh "E" in
      destruct c eqn:E;
      [ destruct lucky; [|discriminate]; cbn [andb] in E
      | ]
    end ].

Lemma lua_injectLines_interleaved : forall (ls : list jsstring) (r : Random),
  interleaved (fun line => negb (is_blank line) && negb (startsWith (str "--") (trim line)))
              [str "local _ = nil"] ls (fst (Lua.injectLines ls r)).
Proof.
  injection_loop Lua.injectAfter.
  - specialize (IH r1). destruct (Lua.injectLines ls r1) as [outs r2]. cbn [fst app] in *.
    apply interleaved_add; [exact E | left; reflexivity | exact IH].
  - specialize (IH r1). destruct (Lua.injectLines ls r1) as [outs r2]. cbn [fst app] in *.
    apply interleaved_keep. exact IH.
Qed.

Lemma bash_injectLines_interleaved : forall (ls : list jsstring) (r : Random),
  interleaved (fun line => negb (is_blank line) && negb (startsWith (str "#") (trim line)))
              [str ":"] ls (fst (Bash.injectLines ls r)).
Proof.
  injection_loop Bash.injectAfter.
  - specialize (IH r1). destruct (Bash.injectLines ls r1) as [outs r2]. cbn [fst app] in *.
    apply interleaved_add; [exact E | left; reflexivity | exact IH].
  - specialize (IH r1). destruct (Bash.injectLines ls r1) as [outs r2]. cbn [fst app] in *.
    apply interleaved_keep. exact IH.
Qed.

Lemma perl_injectLines_interleaved : forall (ls : list jsstring) (r : Random),
  interleaved (fun line => endsWith (str ";") (trim line)
                           && negb (startsWith (str "#") (trim line)))
              [str "1;"] ls (fst (Perl.injectLines ls r)).
Proof.
  injection_loop Perl.injectAfter.
  - specialize (IH r1). destruct (Perl.injectLines ls r1) as [outs r2]. cbn [fst app] in *.
    apply interleaved_add; [exact E | left; reflexivity | exact IH].
  - specialize (IH r1). destruct (Perl.injectLines ls r1) as [outs r2]. cbn [fst app] in *.
    apply interleaved_keep. exact IH.
Qed.

Lemma rust_injectLines_interleaved : forall (ls : list jsstring) (r : Random),
  interleaved (fun line => endsWith (str ";") (trim line))
              [str "let _ = 0;"] ls (fst (Rust.injectLines ls r)).
Proof.
  injection_loop Rust.injectAfter.
  - specialize (IH r1). destruct (Rust.injectLines ls r1) as [outs r2]. cbn [fst app] in *.
    apply interleaved_add; [exact E | left; reflexivity | exact IH].
  - specialize (IH r1). destruct (Rust.injectLines ls r1) as [outs r2]. cbn [fst app] in *.
    apply interleaved_keep. exact IH.
Qed.

Lemma javascript_injectLines_interleaved : forall (ls : list jsstring) (r : Random),
  interleaved (fun line => (endsWith (str ";") (trim line) || endsWith (str "}") (trim line))
                           && negb (test JavaScript.terminator (trim line)))
              JavaScript.deadSnippets ls (fst (JavaScript.injectLines ls r)).
Proof.
  intros ls. induction ls as [|line ls IH]; intros r; [constructor|].
  change (JavaScript.injectLines (line :: ls) r)
    with (let (out, r1) := JavaScript.injectAfter line r in
          let (outs, r2) := JavaScript.injectLines ls r1 in (out ++ outs, r2)).
  unfold JavaScript.injectAfter. cbv zeta.
  destruct (randomBelow 150 r) as [lucky r1].
  destruct (lucky && (endsWith (str ";") (trim line) || endsWith (str "}") (trim line))
            && negb (test JavaScript.terminator (trim line))) eqn:E.
  - destruct lucky; [|discriminate]. cbn [andb] in E.
    pose proof (randomIndex_lt (length JavaScript.deadSnippets) r1) as Hi.
    destruct (randomIndex (length JavaScript.deadSnippets) r1) as [i r2].
    specialize (IH r2). destruct (JavaScript.injectLines ls r2) as [outs r3].
    cbn [fst app] in *.
    apply interleaved_add; [exact E | | exact IH].
    apply nth_In. apply Hi. cbn. lia.
  - specialize (IH r1). destruct (JavaScript.injectLines ls r1) as [outs r2].
    cbn [fst app] in *. apply interleaved_keep. exact IH.
Qed.

(** X8.  Dead-code injection in the JavaScript handler, whatever the draws:
    the lines of the code are all in the output, unchanged and in their
    order, and every line the output has more is one of the three dead
    snippets, put after a line that ends in a semicolon or a closing brace
    and holds none of [return], [throw], [break] and [continue] as a
    word. *)
Theorem javascript_dead_code_only_adds_lines : forall (code : jsstring) (r : Random),
  interleaved (fun line => (endsWith (str ";") (trim line) || endsWith (str "}") (trim line))
                           && negb (test JavaScript.terminator (trim line)))
              JavaScript.deadSnippets
              (lines code) (lines (fst (JavaScript.injectDeadCodeSafe code r))).
Proof.
  intros code r. unfold JavaScript.injectDeadCodeSafe.
  pose proof (javascript_injectLines_interleaved (lines code) r) as Hjs.
  destruct (JavaScript.injectLines (lines code) r) as [o1 r1]. cbn [fst] in *.
  apply interleaved_lines; [vm_compute; repeat constructor | assumption].
Qed.

(** X9.  Dead-code injection in the Lua, Bash, Perl and Rust handlers, whatever
    the draws: the lines of the code are all in the output, unchanged and
    in their order, and every line the output has more is the dead
    statement of the handler, put after a line that passes the test of the
    handler (Lua and Bash: not blank and no comment line; Perl: ends in a
    semicolon and no comment line; Rust: ends in a semicolon). *)
Theorem dead_code_only_adds_lines : forall (code : jsstring) (r : Random),
  interleaved (fun line => negb (is_blank line)
                           && negb (startsWith (str "--") (trim line)))
              [str "local _ = nil"]
              (lines code) (lines (fst (Lua.injectDeadCode code r)))
  /\ interleaved (fun line => negb (is_blank line)
                              && negb (startsWith (str "#") (trim line)))
                 [str ":"]
                 (lines code) (lines (fst (Bash.injectDeadCode code r)))
  /\ interleaved (fun line => endsWith (str ";") (trim line)
                              && negb (startsWith (str "#") (trim line)))
                 [str "1;"]
                 (lines code) (lines (fst (Perl.injectDeadCode code r)))
  /\ interleaved (fun line => endsWith (str ";") (trim line))
                 [str "let _ = 0;"]
                 (lines code) (lines (fst (Rust.injectDeadCode code r))).
Proof.
  intros code r.
  unfold Lua.injectDeadCode, Bash.injectDeadCode, Perl.injectDeadCode, Rust.injectDeadCode.
  pose proof (lua_injectLines_interleaved (lines code) r) as Hlua.
  pose proof (bash_injectLines_interleaved (lines code) r) as Hbash.
  pose proof (perl_injectLines_interleaved (lines code) r) as Hperl.
  pose proof (rust_injectLines_interleaved (lines code) r) as Hrust.
  destruct (Lua.injectLines (lines code) r) as [o2 r2].
  destruct (Bash.injectLines (lines code) r) as [o3 r3].
  destruct (Perl.injectLines (lines code) r) as [o4 r4].
  destruct (Rust.injectLines (lines code) r) as [o5 r5].
  cbn [fst] in *.
  refine (conj _ (conj _ (conj _ _)));
    (apply interleaved_lines; [vm_compute; repeat constructor | assumption]).
Qed.

(** ** Escapes *)

Lemma digit_char_hex : forall d : N, (d < 16)%N ->
  ((if is_digit (digit_char d) then digit_char d - 48 else digit_char d - 87) = d)%N.
Proof.
  intros d Hd. unfold digit_char, is_digit, between.
  destruct (N.ltb_spec d 10) as [Hlt|Hge].
  - replace (N.leb 48 (48 + d) && N.leb (48 + d) 57) with true; [lia|].
    symmetry. apply andb_true_iff. split; apply N.leb_le; lia.
  - replace (N.leb 48 (87 + d) && N.leb (87 + d) 57) with false; [lia|].
    symmetry. apply andb_false_iff. right. apply N.leb_gt. lia.
Qed.

Lemma toStringRadix_aux_hex :
  forall (f : nat) (n : N) (acc : jsstring),
    N.to_nat (N.log2 n) < f ->
    fold_left hexStep (toStringRadix_aux f 16 n acc) 0%N
    = fold_left hexStep acc n.
Proof.
  induction f as [|f IH]; intros n acc Hf; [lia|].
  cbn [toStringRadix_aux].
  assert (Hm : (n mod 16 < 16)%N) by (apply N.mod_lt; lia).
  pose proof (digit_char_hex _ Hm) as Hd.
  destruct (N.ltb_spec n 16) as [Hlt|Hge].
  - cbn [fold_left]. unfold hexStep at 2. rewrite Hd.
    rewrite N.mod_small by exact Hlt. reflexivity.
  - rewrite IH by (pose proof (log2_div_radix 16 n); lia).
    cbn [fold_left]. unfold hexStep at 2. rewrite Hd.
    f_equal. pose proof (N.div_mod' n 16). lia.
Qed.

Lemma hexValue_toString16 : forall n : N, hexValue (toString16 n) = n.
Proof.
  intros n. unfold hexValue, toString16, toStringRadix.
  rewrite toStringRadix_aux_hex by lia. reflexivity.
Qed.

Lemma hexValue_padStart0 : forall (w : nat) (s : jsstring),
  hexValue (padStart0 w s) = hexValue s.
Proof.
  intros w s. unfold padStart0, hexValue. rewrite fold_left_app. f_equal.
  induction (w - length s) as [|k IH]; [reflexivity|]. cbn [repeat fold_left]. exact IH.
Qed.

(** The number of digits of [toString(16)]. *)
Lemma toStringRadix_aux_hex_length :
  forall (k f : nat) (n : N) (acc : jsstring),
    (n < 16 ^ N.of_nat (S k))%N -> 0 < f ->
    length (toStringRadix_aux f 16 n acc) <= S k + length acc.
Proof.
  induction k as [|k IH]; intros f n acc Hn Hf; (destruct f as [|f]; [lia|]);
    cbn [toStringRadix_aux].
  - change (16 ^ N.of_nat 1)%N with 16%N in Hn.
    destruct (N.ltb_spec n 16) as [_|Hge]; [cbn [length]; lia | lia].
  - destruct (N.ltb_spec n 16) as [_|Hge]; [cbn [length]; lia|].
    destruct f as [|f]; [cbn [toStringRadix_aux length]; lia|].
    assert (Hdiv : (n / 16 < 16 ^ N.of_nat (S k))%N).
    { apply N.Div0.div_lt_upper_bound.
      replace (N.of_nat (S (S k))) with (N.succ (N.of_nat (S k))) in Hn by lia.
      rewrite N.pow_succ_r' in Hn. exact Hn. }
    specialize (IH (S f) (n / 16)%N (digit_char (n mod 16) :: acc) Hdiv ltac:(lia)).
    cbn [length] in IH. lia.
Qed.

Lemma toString16_length : forall (k : nat) (n : N),
  (n < 16 ^ N.of_nat (S k))%N -> length (toString16 n) <= S k.
Proof.
  intros k n Hn. unfold toString16, toStringRadix.
  pose proof (toStringRadix_aux_hex_length k (S (N.to_nat (N.log2 n))) n [] Hn ltac:(lia)) as H.
  cbn [length] in H. lia.
Qed.

Lemma padStart0_length : forall (w : nat) (s : jsstring),
  length s <= w -> length (padStart0 w s) = w.
Proof.
  intros w s H. unfold padStart0. rewrite length_app, repeat_length.
  unfold jsstring, cu in *. lia.
Qed.

(** An escape of fixed width: two characters and [w] digits that denote
    the code unit. *)
Lemma escape_shape : forall (w : nat) (x : cu) (c : cu),
  0 < w -> (c < 16 ^ N.of_nat w)%N ->
  length (bs :: x :: padStart0 w (toString16 c)) = 2 + w
  /\ hexValue (skipn 2 (bs :: x :: padStart0 w (toString16 c))) = c.
Proof.
  intros w x c Hw Hc. destruct w as [|k]; [lia|]. split.
  - cbn [length]. rewrite padStart0_length by (apply toString16_length; exact Hc). lia.
  - cbn [skipn]. rewrite hexValue_padStart0. apply hexValue_toString16.
Qed.

Lemma app_inj_length : forall (a b c d : jsstring),
  length a = length b -> a ++ c = b ++ d -> a = b /\ c = d.
Proof.
  induction a as [|x a IH]; intros b c d Hlen Heq; destruct b as [|y b];
    try discriminate.
  - split; [reflexivity | exact Heq].
  - cbn [app] in Heq. injection Heq as -> Heq. injection Hlen as Hlen.
    destruct (IH b c d Hlen Heq) as [-> ->]. split; reflexivity.
Qed.

(** Texts made of escapes of one fixed width are the same only when the
    code units are. *)
Lemma escapes_injective : forall (w : nat) (esc : cu -> jsstring) (P : cu -> Prop),
  (forall c, P c -> length (esc c) = 2 + w /\ hexValue (skipn 2 (esc c)) = c) ->
  forall a b : jsstring, Forall P a -> Forall P b ->
    length (flat_map esc a) = (2 + w) * length a
    /\ (flat_map esc a = flat_map esc b -> a = b).
Proof.
  intros w esc P Hesc.
  assert (Hlen : forall a, Forall P a -> length (flat_map esc a) = (2 + w) * length a).
  { induction a as [|c a IH]; intros Ha; [cbn; lia|].
    inversion Ha as [|c0 a0 Hc Ha']. subst c0 a0.
    cbn [flat_map length]. rewrite length_app, (IH Ha').
    destruct (Hesc c Hc) as [-> _]. lia. }
  intros a b Ha Hb. split; [apply Hlen; exact Ha|].
  revert b Hb. induction Ha as [|c a Hc Ha IH]; intros b Hb Heq.
  - destruct b as [|d b]; [reflexivity|]. exfalso.
    apply (f_equal (@length cu)) in Heq. rewrite (Hlen _ Hb) in Heq.
    cbn [flat_map length] in Heq. lia.
  - destruct b as [|d b].
    + exfalso. apply (f_equal (@length cu)) in Heq.
      rewrite (Hlen (c :: a)) in Heq by (constructor; assumption).
      cbn [flat_map length] in Heq. lia.
    + inversion Hb as [|d0 b0 Hd Hb']. subst d0 b0.
      cbn [flat_map] in Heq.
      destruct (Hesc c Hc) as [Lc Vc]. destruct (Hesc d Hd) as [Ld Vd].
      assert (Hhead : esc c = esc d /\ flat_map esc a = flat_map esc b).
      { apply app_inj_length; [rewrite Lc, Ld; reflexivity | exact Heq]. }
      destruct Hhead as [Hcd Hrest].
      f_equal; [|apply IH; assumption].
      rewrite <- Vc, <- Vd, Hcd. reflexivity.
Qed.

(** X10.  [toHex] on code units below 256, those two hexadecimal digits can
    hold: every unit becomes four characters, and two texts with the same
    encoding are the same text. *)
Theorem toHex_fixed_width_injective : forall a b : jsstring,
  Forall (fun c => (c < 256)%N) a -> Forall (fun c => (c < 256)%N) b ->
  length (toHex a) = 4 * length a /\ (toHex a = toHex b -> a = b).
Proof.
  intros a b Ha Hb. unfold toHex.
  apply (escapes_injective 2 hexEscape (fun c => (c < 256)%N)); [|exact Ha | exact Hb].
  intros c Hc. unfold hexEscape. apply escape_shape; [lia | exact Hc].
Qed.

(** At a text of two characters. *)
Lemma toHex_fixed_width_injective_witness :
  length (toHex (str "a;")) = 4 * 2 /\ (toHex (str "a;") = toHex (str "a;") -> str "a;" = str "a;").
Proof.
  apply (toHex_fixed_width_injective (str "a;") (str "a;"));
    repeat constructor.
Defined.

(** X11.  [toUnicode] on code units (below 65536): every unit becomes six
    characters, and two texts with the same encoding are the same
    text. *)
Theorem toUnicode_fixed_width_injective : forall a b : jsstring,
  Forall (fun c => (c < 65536)%N) a -> Forall (fun c => (c < 65536)%N) b ->
  length (toUnicode a) = 6 * length a /\ (toUnicode a = toUnicode b -> a = b).
Proof.
  intros a b Ha Hb. unfold toUnicode.
  apply (escapes_injective 4 unicodeEscapeOf (fun c => (c < 65536)%N)); [|exact Ha | exact Hb].
  intros c Hc. unfold unicodeEscapeOf. apply escape_shape; [lia | exact Hc].
Qed.

(** At a text of two characters. *)
Lemma toUnicode_fixed_width_injective_witness :
  length (toUnicode (str "a;")) = 6 * 2
  /\ (toUnicode (str "a;") = toUnicode (str "a;") -> str "a;" = str "a;").
Proof.
  apply (toUnicode_fixed_width_injective (str "a;") (str "a;"));
    repeat constructor.
Defined.

(** A code unit of 256 or more gets more than two digits. *)
Example toHex_wide_unit : toHex [8594%N] = str "\x2192".
Proof. reflexivity. Qed.

(** ** The alphabet of the escapes *)

Lemma digit_char_hex_digit : forall d : N, (d < 16)%N ->
  is_digit (digit_char d) || between 97 102 (digit_char d) = true.
Proof.
  intros d Hd. unfold digit_char, is_digit, between.
  destruct (N.ltb_spec d 10) as [Hlt|Hge].
  - replace (N.leb 48 (48 + d) && N.leb (48 + d) 57) with true; [reflexivity|].
    symmetry. apply andb_true_iff. split; apply N.leb_le; lia.
  - replace (N.leb 97 (87 + d) && N.leb (87 + d) 102) with true;
      [apply orb_true_r|].
    symmetry. apply andb_true_iff. split; apply N.leb_le; lia.
Qed.

Lemma toStringRadix_aux_hex_digits : forall (f : nat) (n : N) (acc : jsstring),
  forallb (fun c => is_digit c || between 97 102 c) acc = true ->
  forallb (fun c => is_digit c || between 97 102 c) (toStringRadix_aux f 16 n acc) = true.
Proof.
  induction f as [|f IH]; intros n acc Hacc; [exact Hacc|].
  cbn [toStringRadix_aux].
  assert (Hd : forallb (fun c => is_digit c || between 97 102 c)
                       (digit_char (n mod 16) :: acc) = true).
  { cbn [forallb]. rewrite Hacc, andb_true_r.
    apply digit_char_hex_digit. apply N.mod_lt. lia. }
  destruct (N.ltb n 16); [exact Hd | apply IH; exact Hd].
Qed.

Lemma padded_hex_digits : forall (w : nat) (c : cu),
  forallb (fun c => is_digit c || between 97 102 c) (padStart0 w (toString16 c)) = true.
Proof.
  intros w c. unfold padStart0. rewrite forallb_app. apply andb_true_iff. split.
  - induction (w - length (toString16 c)) as [|k IH]; [reflexivity|].
    cbn [repeat forallb]. rewrite IH. reflexivity.
  - unfold toString16, toStringRadix. apply toStringRadix_aux_hex_digits. reflexivity.
Qed.

(** X12.  Whatever the text, an encoded text holds escapes only: the
    characters of [toHex] are the backslash, [x] and the hexadecimal digits
    in lower case, those of [toUnicode] the backslash, [u] and the same
    digits.  No quote, dollar sign or line feed of the text is left in
    clear. *)
Theorem escapes_hold_no_character_in_clear : forall s : jsstring,
  forallb (fun c => is_digit c || between 97 102 c || cu_eqb c bs || cu_eqb c 120)
          (toHex s) = true
  /\ forallb (fun c => is_digit c || between 97 102 c || cu_eqb c bs || cu_eqb c 117)
             (toUnicode s) = true.
Proof.
  intros s. unfold toHex, toUnicode. split.
  - induction s as [|c s IH]; [reflexivity|].
    cbn [flat_map]. rewrite forallb_app, IH, andb_true_r.
    unfold hexEscape. cbn [forallb].
    change (cu_eqb bs bs) with true. change (cu_eqb 120 120) with true.
    rewrite !orb_true_r. cbn [andb].
    eapply forallb_impl; [|apply (padded_hex_digits 2 c)].
    intros x Hx. cbv beta in Hx. rewrite Hx. reflexivity.
  - induction s as [|c s IH]; [reflexivity|].
    cbn [flat_map]. rewrite forallb_app, IH, andb_true_r.
    unfold unicodeEscapeOf. cbn [forallb].
    change (cu_eqb bs bs) with true. change (cu_eqb 117 117) with true.
    rewrite !orb_true_r. cbn [andb].
    eapply forallb_impl; [|apply (padded_hex_digits 4 c)].
    intros x Hx. cbv beta in Hx. rewrite Hx. reflexivity.
Qed.

(** ** The string decoders of the extreme intensity *)

Lemma lxor_below_256 : forall a b : N, (a < 256)%N -> (b < 256)%N -> (N.lxor a b < 256)%N.
Proof.
  intros a b Ha Hb.
  assert (Hlog : forall x : N, (x < 256)%N -> (N.log2 x < 8)%N).
  { intros x Hx. destruct (N.eq_dec x 0) as [->|Hne]; [reflexivity|].
    apply N.log2_lt_pow2; [lia | exact Hx]. }
  destruct (N.eq_dec (N.lxor a b) 0) as [->|Hne]; [lia|].
  change 256%N with (2 ^ 8)%N. apply N.log2_lt_pow2; [lia|].
  pose proof (N.log2_lxor a b) as Hmax.
  pose proof (Hlog a Ha). pose proof (Hlog b Hb). lia.
Qed.

Lemma xor_round : forall c k : N, (c < 256)%N -> (k < 256)%N ->
  (N.lxor (N.land (N.lxor c k) 255) k mod 65536 = c)%N.
Proof.
  intros c k Hc Hk.
  change 255%N with (N.ones 8). rewrite N.land_ones.
  rewrite (N.mod_small (N.lxor c k)) by (apply lxor_below_256; assumption).
  rewrite N.lxor_assoc, N.lxor_nilpotent, N.lxor_0_r.
  apply N.mod_small. lia.
Qed.

Lemma xorDecode_xorEncode : forall (key : N) (chars : jsstring) (j : N),
  Forall (fun c => (c < 256)%N) chars ->
  (key + j + N.of_nat (length chars) <= 256)%N ->
  Emitted.xorDecode key j (JavaScript.xorEncode key j chars) = chars.
Proof.
  intros key. induction chars as [|c chars IH]; intros j Hall Hlen; [reflexivity|].
  inversion Hall as [|c0 l0 Hc Hrest]. subst c0 l0.
  cbn [JavaScript.xorEncode Emitted.xorDecode length] in *.
  rewrite xor_round by lia. f_equal. apply IH; [exact Hrest | lia].
Qed.

(** X13.  The decoder function written for a string literal by the extreme
    intensity gives the content of the literal back, whatever key is
    drawn, when the content has at most 197 code units, all below 256. *)
Theorem javascript_xor_decoder_round_trip : forall (chars : jsstring) (r : Random),
  Forall (fun c => (c < 256)%N) chars -> length chars <= 197 ->
  let key := N.of_nat (fst (randomIndex 50 r) + 10) in
  Emitted.xorDecode key 0 (JavaScript.xorEncode key 0 chars) = chars.
Proof.
  intros chars r Hall Hlen key.
  pose proof (randomIndex_lt 50 r ltac:(lia)) as Hk.
  apply xorDecode_xorEncode; [exact Hall|]. unfold key. lia.
Qed.

(** At the text [secret] and the source that always draws 0, whose key is
    10. *)
Lemma javascript_xor_decoder_round_trip_witness :
  Emitted.xorDecode 10 0 (JavaScript.xorEncode 10 0 (str "secret")) = str "secret".
Proof.
  exact (javascript_xor_decoder_round_trip (str "secret") (constant 0)
           ltac:(repeat constructor) ltac:(cbn; lia)).
Defined.

(** Beyond the bound the decoder departs from the text: with the largest
    key, the unit at index 197 meets [59 + 197 = 256], whose ninth bit
    the mask [& 0xFF] of the encoder drops and the decoder puts back. *)
Example javascript_xor_decoder_long_text :
  nth 197 (Emitted.xorDecode 59 0 (JavaScript.xorEncode 59 0 (repeat (97%N : cu) 198))) 0%N
  = 353%N.
Proof. vm_compute. reflexivity. Qed.

(** ** The shuffle of the base class *)

Lemma assign_perm : forall (A : Type) (x y : A) (rest : list A) (j : nat) (rest' : list A),
  nth_error rest j = Some y -> Shuffle.assign j x rest = Some rest' ->
  Permutation (x :: rest) (y :: rest').
Proof.
  intros A x y. induction rest as [|z t IH]; intros j rest' Hn Ha.
  - destruct j; discriminate.
  - destruct j as [|j]; cbn [nth_error Shuffle.assign] in *.
    + injection Hn as ->. injection Ha as <-. apply perm_swap.
    + destruct (Shuffle.assign j x t) as [t'|] eqn:Et; [|discriminate].
      cbn [option_map] in Ha. injection Ha as <-.
      specialize (IH j t' Hn Et).
      apply (perm_trans (perm_swap z x t)).
      apply perm_trans with (z :: y :: t'); [apply perm_skip; exact IH | apply perm_swap].
Qed.

Lemma assign_in_range : forall (A : Type) (v : A) (arr : list A) (i : nat),
  i < length arr -> exists arr', Shuffle.assign i v arr = Some arr'.
Proof.
  intros A v. induction arr as [|x rest IH]; intros i Hi; [cbn [length] in Hi; lia|].
  destruct i as [|i]; cbn [Shuffle.assign]; [eexists; reflexivity|].
  destruct (IH i) as [arr' ->]; [cbn [length] in Hi; lia|]. eexists. reflexivity.
Qed.

(** A swap of two elements inside the array is made, and leaves a
    permutation of the array. *)
Lemma swap_perm : forall (A : Type) (arr : list A) (i j : nat),
  i < length arr -> j < length arr ->
  exists arr', Shuffle.swap i j arr = Some arr' /\ Permutation arr arr'.
Proof.
  intros A. induction arr as [|x rest IH]; intros i j Hi Hj; [cbn [length] in Hi; lia|].
  cbn [length] in Hi, Hj. unfold Shuffle.swap.
  destruct i as [|i], j as [|j]; cbn [nth_error Shuffle.assign].
  - exists (x :: rest). split; [reflexivity | apply Permutation_refl].
  - destruct (nth_error rest j) as [aj|] eqn:Ej;
      [|apply nth_error_None in Ej; lia].
    destruct (assign_in_range A x rest j ltac:(lia)) as [rest' Er]. rewrite Er.
    cbn [option_map]. exists (aj :: rest'). split; [reflexivity|].
    apply (assign_perm A x aj rest j rest' Ej Er).
  - destruct (nth_error rest i) as [ai|] eqn:Ei;
      [|apply nth_error_None in Ei; lia].
    destruct (assign_in_range A x rest i ltac:(lia)) as [rest' Er]. rewrite Er.
    cbn [option_map]. exists (ai :: rest'). split; [reflexivity|].
    apply (assign_perm A x ai rest i rest' Ei Er).
  - destruct (IH i j ltac:(lia) ltac:(lia)) as [rest' [Hs Hp]].
    unfold Shuffle.swap in Hs.
    destruct (nth_error rest j) as [aj|]; [|discriminate].
    destruct (nth_error rest i) as [ai|]; [|discriminate].
    destruct (Shuffle.assign i aj rest) as [arr1|]; [|discriminate].
    cbn [option_map Shuffle.assign]. rewrite Hs. cbn [option_map].
    exists (x :: rest'). split; [reflexivity | apply perm_skip; exact Hp].
Qed.

Lemma shuffle_loop_perm : forall (A : Type) (i : nat) (arr : list A) (r : Random),
  i < length arr \/ i = 0 ->
  exists out r', Shuffle.shuffle_loop i arr r = Some (out, r') /\ Permutation arr out.
Proof.
  intros A. induction i as [|i IH]; intros arr r Hi.
  - exists arr, r. split; [reflexivity | apply Permutation_refl].
  - destruct Hi as [Hi|Hi]; [|discriminate]. cbn [Shuffle.shuffle_loop].
    pose proof (randomIndex_lt (S i + 1) r ltac:(lia)) as Hj.
    destruct (randomIndex (S i + 1) r) as [j r1]. cbn [fst] in Hj.
    destruct (swap_perm A arr (S i) j Hi ltac:(lia)) as [arr1 [Hs Hp]]. rewrite Hs.
    destruct (IH arr1 r1) as [out [r' [Hl Hp']]].
    { left. rewrite <- (Permutation_length Hp). lia. }
    exists out, r'. split; [exact Hl | apply (perm_trans Hp Hp')].
Qed.

(** X14.  [shuffle] never reads or writes outside the array, and what it
    returns is a permutation of the array, whatever the draws. *)
Theorem shuffle_is_permutation : forall (A : Type) (array : list A) (r : Random),
  exists out r', Shuffle.shuffle array r = Some (out, r') /\ Permutation array out.
Proof.
  intros A array r. unfold Shuffle.shuffle. apply shuffle_loop_perm.
  destruct array; [right; reflexivity | left; cbn [length]; lia].
Qed.

(** ** Base64 *)

Lemma base64_char_inj : forall n m : N, (n < 64)%N -> (m < 64)%N ->
  base64_char n = base64_char m -> n = m.
Proof.
  intros n m Hn Hm. unfold base64_char.
  destruct (N.ltb_spec n 26), (N.ltb_spec m 26); try lia;
  destruct (N.ltb_spec n 52), (N.ltb_spec m 52); try lia;
  destruct (N.ltb_spec n 62), (N.ltb_spec m 62); try lia;
  destruct (N.eqb_spec n 62), (N.eqb_spec m 62); try lia.
Qed.

Lemma base64_char_not_pad : forall n : N, base64_char n <> 61%N.
Proof.
  intros n. unfold base64_char.
  destruct (N.ltb_spec n 26); [lia|].
  destruct (N.ltb_spec n 52); [lia|].
  destruct (N.ltb_spec n 62); [lia|].
  destruct (N.eqb_spec n 62); lia.
Qed.

Lemma list_ind3 : forall (A : Type) (P : list A -> Prop),
  P [] -> (forall x, P [x]) -> (forall x y, P [x; y]) ->
  (forall x y z rest, P rest -> P (x :: y :: z :: rest)) ->
  forall l, P l.
Proof.
  intros A P H0 H1 H2 H3.
  assert (H : forall l, P l /\ (forall x, P (x :: l)) /\ (forall x y, P (x :: y :: l))).
  { induction l as [|a l (Ha & Hb & Hc)].
    - refine (conj H0 (conj H1 H2)).
    - refine (conj (Hb a) (conj (fun x => Hc x a) _)).
      intros x y. apply H3. exact Ha. }
  intros l. apply H.
Qed.

Ltac divmod x k :=
  let q := fresh "q" in let m := fresh "m" in
  let Hq := fresh "Hq" in let Hm := fresh "Hm" in
  pose proof (N.div_mod' x k) as Hq;
  pose proof (N.mod_lt x k ltac:(lia)) as Hm;
  set (q := (x / k)%N) in *; set (m := (x mod k)%N) in *;
  clearbody q m.

(** The four characters of a group of three bytes tell the bytes. *)
Lemma base64_group_inj : forall a b c a' b' c' : N,
  (a < 256)%N -> (b < 256)%N -> (c < 256)%N ->
  (a' < 256)%N -> (b' < 256)%N -> (c' < 256)%N ->
  base64_char (a / 4) = base64_char (a' / 4) ->
  base64_char ((a mod 4) * 16 + b / 16) = base64_char ((a' mod 4) * 16 + b' / 16) ->
  base64_char ((b mod 16) * 4 + c / 64) = base64_char ((b' mod 16) * 4 + c' / 64) ->
  base64_char (c mod 64) = base64_char (c' mod 64) ->
  a = a' /\ b = b' /\ c = c'.
Proof.
  intros a b c a' b' c' Ha Hb Hc Ha' Hb' Hc' H1 H2 H3 H4.
  divmod a 4%N. divmod a' 4%N. divmod b 16%N. divmod b' 16%N.
  divmod c 64%N. divmod c' 64%N.
  apply base64_char_inj in H1; [|lia|lia].
  apply base64_char_inj in H2; [|lia|lia].
  apply base64_char_inj in H3; [|lia|lia].
  apply base64_char_inj in H4; [|lia|lia].
  lia.
Qed.

Lemma base64_one_inj : forall a a' : N, (a < 256)%N -> (a' < 256)%N ->
  base64_char (a / 4) = base64_char (a' / 4) ->
  base64_char ((a mod 4) * 16) = base64_char ((a' mod 4) * 16) ->
  a = a'.
Proof.
  intros a a' Ha Ha' H1 H2. divmod a 4%N. divmod a' 4%N.
  apply base64_char_inj in H1; [|lia|lia].
  apply base64_char_inj in H2; [|lia|lia].
  lia.
Qed.

Lemma base64_two_inj : forall a b a' b' : N,
  (a < 256)%N -> (b < 256)%N -> (a' < 256)%N -> (b' < 256)%N ->
  base64_char (a / 4) = base64_char (a' / 4) ->
  base64_char ((a mod 4) * 16 + b / 16) = base64_char ((a' mod 4) * 16 + b' / 16) ->
  base64_char ((b mod 16) * 4) = base64_char ((b' mod 16) * 4) ->
  a = a' /\ b = b'.
Proof.
  intros a b a' b' Ha Hb Ha' Hb' H1 H2 H3.
  divmod a 4%N. divmod a' 4%N. divmod b 16%N. divmod b' 16%N.
  apply base64_char_inj in H1; [|lia|lia].
  apply base64_char_inj in H2; [|lia|lia].
  apply base64_char_inj in H3; [|lia|lia].
  lia.
Qed.

Ltac pad_clash :=
  match goal with
  | H : 61%N = base64_char _ |- _ => exfalso; apply (base64_char_not_pad _ (eq_sym H))
  | H : base64_char _ = 61%N |- _ => exfalso; apply (base64_char_not_pad _ H)
  end.

Ltac bytes_below :=
  repeat match goal with
  | H : Forall _ (_ :: _) |- _ => inversion H; clear H; subst
  end.

Lemma btoa_length : forall bytes : list N,
  length (btoa bytes) = 4 * ((length bytes + 2) / 3).
Proof.
  induction bytes as [| x | x y | x y z rest IH] using list_ind3; try reflexivity.
  cbn [btoa length]. rewrite IH.
  replace (S (S (S (length rest))) + 2) with ((length rest + 2) + 1 * 3) by lia.
  rewrite Nat.div_add by lia. lia.
Qed.

Lemma btoa_inj : forall a : list N, Forall (fun x => (x < 256)%N) a ->
  forall b : list N, Forall (fun x => (x < 256)%N) b ->
  btoa a = btoa b -> a = b.
Proof.
  induction a as [| x | x y | x y z rest IH] using list_ind3; intros Ha b Hb Heq.
  - destruct b as [|p [|q [|s b]]]; [reflexivity | discriminate..].
  - destruct b as [|p [|q [|s b]]]; try discriminate;
      cbn [btoa] in Heq; injection Heq; intros; try pad_clash.
    bytes_below. f_equal. apply base64_one_inj; assumption.
  - destruct b as [|p [|q [|s b]]]; try discriminate;
      cbn [btoa] in Heq; injection Heq; intros; try pad_clash.
    bytes_below.
    destruct (base64_two_inj x y p q) as (-> & ->); try assumption. reflexivity.
  - destruct b as [|p [|q [|s b]]]; try discriminate;
      cbn [btoa] in Heq; injection Heq; intros; try pad_clash.
    bytes_below.
    destruct (base64_group_inj x y z p q s) as (-> & -> & ->); try assumption.
    f_equal. f_equal. f_equal. apply IH; assumption.
Qed.

(** The bytes [TextEncoder] gives for a text of code units are below
    256. *)
Lemma codePoints_bound : forall s : jsstring,
  Forall (fun c => (c < 65536)%N) s -> Forall (fun p => (p < 1114112)%N) (codePoints s).
Proof.
  intros s. remember (length s) as n eqn:Hn. revert s Hn.
  induction n as [n IH] using lt_wf_ind. intros s Hn Hs.
  destruct s as [|c s']; [constructor|].
  inversion Hs as [|c0 l0 Hc Hs']. subst c0 l0. cbn [codePoints].
  destruct (is_high_surrogate c) eqn:Eh.
  - destruct s' as [|d s'']; [repeat constructor|].
    inversion Hs' as [|d0 l0 Hd Hs'']. subst d0 l0.
    destruct (is_low_surrogate d) eqn:El.
    + constructor.
      * unfold is_high_surrogate, is_low_surrogate, between in *.
        apply andb_true_iff in Eh. destruct Eh as [E1 E2].
        apply andb_true_iff in El. destruct El as [E3 E4].
        apply N.leb_le in E1, E2, E3, E4. lia.
      * apply (IH (length s'')); [subst n; cbn [length]; lia | reflexivity | exact Hs''].
    + constructor; [lia|].
      apply (IH (length (d :: s''))); [subst n; cbn [length]; lia | reflexivity | exact Hs'].
  - destruct (is_low_surrogate c).
    + constructor; [lia|].
      apply (IH (length s')); [subst n; cbn [length]; lia | reflexivity | exact Hs'].
    + constructor; [lia|].
      apply (IH (length s')); [subst n; cbn [length]; lia | reflexivity | exact Hs'].
Qed.

Lemma utf8_of_codePoint_bytes : forall p : N, (p < 1114112)%N ->
  Forall (fun x => (x < 256)%N) (utf8_of_codePoint p).
Proof.
  intros p Hp. unfold utf8_of_codePoint.
  destruct (N.ltb_spec p 128); [repeat constructor; lia|].
  destruct (N.ltb_spec p 2048).
  { divmod p 64%N. repeat constructor; lia. }
  destruct (N.ltb_spec p 65536).
  { pose proof (N.mod_lt (p / 64) 64 ltac:(lia)).
    pose proof (N.mod_lt p 64 ltac:(lia)).
    assert (p / 4096 < 16)%N by (apply N.Div0.div_lt_upper_bound; lia).
    repeat constructor; lia. }
  pose proof (N.mod_lt (p / 4096) 64 ltac:(lia)).
  pose proof (N.mod_lt (p / 64) 64 ltac:(lia)).
  pose proof (N.mod_lt p 64 ltac:(lia)).
  assert (p / 262144 < 5)%N by (apply N.Div0.div_lt_upper_bound; lia).
  repeat constructor; lia.
Qed.

Lemma utf8_bytes : forall s : jsstring,
  Forall (fun c => (c < 65536)%N) s -> Forall (fun x => (x < 256)%N) (utf8 s).
Proof.
  intros s Hs. unfold utf8. apply codePoints_bound in Hs.
  induction Hs as [|p ps Hp Hps IH]; [constructor|].
  cbn [flat_map]. apply Forall_app. split; [apply utf8_of_codePoint_bytes; exact Hp | exact IH].
Qed.

Ltac surrogate_bounds :=
  unfold is_high_surrogate, is_low_surrogate, between in *;
  repeat match goal with
  | H : (_ && _)%bool = true |- _ => apply andb_true_iff in H; destruct H
  | H : (_ && _)%bool = false |- _ => apply andb_false_iff in H
  | H : negb _ = true |- _ => apply negb_true_iff in H
  | H : N.leb _ _ = true |- _ => apply N.leb_le in H
  | H : N.leb _ _ = false |- _ => apply N.leb_gt in H
  end.

Lemma cons_inj : forall (A : Type) (x y : A) (l l' : list A),
  x :: l = y :: l' -> x = y /\ l = l'.
Proof. intros A x y l l' H. injection H as -> ->. split; reflexivity. Qed.

Ltac cons_eqs :=
  repeat match goal with
  | H : _ :: _ = _ :: _ |- _ =>
    apply cons_inj in H; let H1 := fresh "Hhd" in destruct H as [H1 H]
  end.

Lemma codePoints_pair : forall (c d : cu) (s : jsstring),
  is_high_surrogate c = true -> is_low_surrogate d = true ->
  codePoints (c :: d :: s)
  = (65536 + (c - 55296) * 1024 + (d - 56320))%N :: codePoints s.
Proof. intros c d s Hc Hd. cbn [codePoints]. rewrite Hc, Hd. reflexivity. Qed.

Lemma codePoints_plain : forall (c : cu) (s : jsstring),
  is_high_surrogate c = false -> is_low_surrogate c = false ->
  codePoints (c :: s) = c :: codePoints s.
Proof. intros c s Hc Hd. cbn [codePoints]. rewrite Hc, Hd. reflexivity. Qed.

(** What a well-formed text starts with: a surrogate pair, or a code unit
    that is no surrogate. *)
Lemma isWellFormed_cons : forall (c : cu) (s : jsstring),
  isWellFormed (c :: s) = true ->
  (is_high_surrogate c = true
   /\ exists d s', s = d :: s' /\ is_low_surrogate d = true /\ isWellFormed s' = true)
  \/ (is_high_surrogate c = false /\ is_low_surrogate c = false
      /\ isWellFormed s = true).
Proof.
  intros c s H. cbn [isWellFormed] in H. destruct (is_high_surrogate c).
  - left. split; [reflexivity|]. destruct s as [|d s']; [discriminate|].
    apply andb_true_iff in H. destruct H as [Hd Hs]. exists d, s'. auto.
  - right. apply andb_true_iff in H. destruct H as [Hc Hs].
    apply negb_true_iff in Hc. auto.
Qed.

(** The code points of a well-formed text tell the text. *)
Lemma codePoints_inj : forall a b : jsstring,
  Forall (fun c => (c < 65536)%N) a -> Forall (fun c => (c < 65536)%N) b ->
  isWellFormed a = true -> isWellFormed b = true ->
  codePoints a = codePoints b -> a = b.
Proof.
  intros a. remember (length a) as n eqn:Hn. revert a Hn.
  induction n as [n IH] using lt_wf_ind. intros a Hn b Ha Hb Wa Wb Heq.
  destruct a as [|c a']; destruct b as [|e b'].
  - reflexivity.
  - exfalso. destruct (isWellFormed_cons e b' Wb)
      as [[He (f & b'' & -> & Hf & _)] | (He & Hf & _)].
    + rewrite (codePoints_pair e f b'' He Hf) in Heq. discriminate.
    + rewrite (codePoints_plain e b' He Hf) in Heq. discriminate.
  - exfalso. destruct (isWellFormed_cons c a' Wa)
      as [[Hc (d & a'' & -> & Hd & _)] | (Hc & Hd & _)].
    + rewrite (codePoints_pair c d a'' Hc Hd) in Heq. discriminate.
    + rewrite (codePoints_plain c a' Hc Hd) in Heq. discriminate.
  - destruct (isWellFormed_cons c a' Wa)
      as [[Hc (d & a'' & -> & Hd & Wa')] | (Hc & Hd & Wa')];
    destruct (isWellFormed_cons e b' Wb)
      as [[He (f & b'' & -> & Hf & Wb')] | (He & Hf & Wb')].
    + rewrite (codePoints_pair c d a'' Hc Hd), (codePoints_pair e f b'' He Hf) in Heq.
      cons_eqs.
      assert (c = e /\ d = f) as [-> ->] by (surrogate_bounds; lia).
      f_equal. f_equal.
      inversion Ha as [|? ? _ Ha1]; subst. inversion Ha1; subst.
      inversion Hb as [|? ? _ Hb1]; subst. inversion Hb1; subst.
      apply (IH (length a'')); [cbn [length]; lia | reflexivity | assumption..].
    + rewrite (codePoints_pair c d a'' Hc Hd), (codePoints_plain e b' He Hf) in Heq.
      cons_eqs. exfalso.
      inversion Hb; subst. surrogate_bounds. lia.
    + rewrite (codePoints_plain c a' Hc Hd), (codePoints_pair e f b'' He Hf) in Heq.
      cons_eqs. exfalso.
      inversion Ha; subst. surrogate_bounds. lia.
    + rewrite (codePoints_plain c a' Hc Hd), (codePoints_plain e b' He Hf) in Heq.
      cons_eqs. subst e. f_equal.
      inversion Ha; subst. inversion Hb; subst.
      apply (IH (length a')); [cbn [length]; lia | reflexivity | assumption..].
Qed.

Ltac utf8_parts p :=
  let H1 := fresh "H" in let H2 := fresh "H" in let H3 := fresh "H" in
  let B1 := fresh "B" in let B2 := fresh "B" in let B3 := fresh "B" in
  pose proof (N.div_mod' p 64) as H1;
  pose proof (N.div_mod' (p / 64) 64) as H2;
  pose proof (N.div_mod' (p / 4096) 64) as H3;
  pose proof (N.mod_lt p 64 ltac:(lia)) as B1;
  pose proof (N.mod_lt (p / 64) 64 ltac:(lia)) as B2;
  pose proof (N.mod_lt (p / 4096) 64 ltac:(lia)) as B3;
  replace (p / 64 / 64)%N with (p / 4096)%N in H2 by (rewrite N.Div0.div_div; reflexivity);
  replace (p / 4096 / 64)%N with (p / 262144)%N in H3 by (rewrite N.Div0.div_div; reflexivity);
  generalize dependent (p mod 64)%N; generalize dependent ((p / 64) mod 64)%N;
  generalize dependent ((p / 4096) mod 64)%N; generalize dependent (p / 262144)%N;
  generalize dependent (p / 4096)%N; generalize dependent (p / 64)%N.

(** The encoding of a code point is no start of the encoding of
    another. *)
Lemma utf8_prefix_free : forall (p q : N) (x y : list N),
  (p < 1114112)%N -> (q < 1114112)%N ->
  utf8_of_codePoint p ++ x = utf8_of_codePoint q ++ y -> p = q.
Proof.
  intros p q x y Hp Hq. unfold utf8_of_codePoint.
  destruct (N.ltb_spec p 128); destruct (N.ltb_spec q 128);
  destruct (N.ltb_spec p 2048); destruct (N.ltb_spec q 2048);
  destruct (N.ltb_spec p 65536); destruct (N.ltb_spec q 65536);
  try lia; cbn [app]; intros Heq; cons_eqs; clear Heq;
  utf8_parts p; utf8_parts q; intros; lia.
Qed.

Lemma utf8_of_codePoint_not_nil : forall p : N, utf8_of_codePoint p <> [].
Proof.
  intros p. unfold utf8_of_codePoint.
  destruct (N.ltb p 128); [discriminate|].
  destruct (N.ltb p 2048); [discriminate|].
  destruct (N.ltb p 65536); discriminate.
Qed.

Lemma utf8_points_inj : forall ps : list N, Forall (fun p => (p < 1114112)%N) ps ->
  forall qs : list N, Forall (fun p => (p < 1114112)%N) qs ->
  flat_map utf8_of_codePoint ps = flat_map utf8_of_codePoint qs -> ps = qs.
Proof.
  induction ps as [|p ps IH]; intros Hps qs Hqs Heq.
  - destruct qs as [|q qs]; [reflexivity|]. exfalso. cbn [flat_map] in Heq.
    pose proof (utf8_of_codePoint_not_nil q). destruct (utf8_of_codePoint q); [congruence | discriminate].
  - destruct qs as [|q qs].
    + exfalso. cbn [flat_map] in Heq.
      pose proof (utf8_of_codePoint_not_nil p). destruct (utf8_of_codePoint p); [congruence | discriminate].
    + inversion Hps as [|? ? Hp Hps']; subst. inversion Hqs as [|? ? Hq Hqs']; subst.
      cbn [flat_map] in Heq.
      pose proof (utf8_prefix_free p q _ _ Hp Hq Heq) as Hpq. subst q.
      apply app_inv_head in Heq. f_equal. apply IH; assumption.
Qed.

(** X15.  The Base64 text the handlers write for a literal (UTF-8, then
    [btoa]): its length is a multiple of four, and two well-formed texts
    with the same Base64 text are the same text. *)
Theorem base64_utf8_lossless : forall a b : jsstring,
  Forall (fun c => (c < 65536)%N) a -> Forall (fun c => (c < 65536)%N) b ->
  isWellFormed a = true -> isWellFormed b = true ->
  length (base64_utf8 a) = 4 * ((length (utf8 a) + 2) / 3)
  /\ (base64_utf8 a = base64_utf8 b -> a = b).
Proof.
  intros a b Ha Hb Wa Wb. unfold base64_utf8. split; [apply btoa_length|].
  intros Heq.
  apply btoa_inj in Heq; [|apply utf8_bytes; assumption..].
  unfold utf8 in Heq.
  apply utf8_points_inj in Heq; [|apply codePoints_bound; assumption..].
  apply codePoints_inj; assumption.
Qed.

(** At a text of three characters. *)
Lemma base64_utf8_lossless_witness :
  length (base64_utf8 (str "hi!")) = 4 * ((length (utf8 (str "hi!")) + 2) / 3)
  /\ (base64_utf8 (str "hi!") = base64_utf8 (str "hi!") -> str "hi!" = str "hi!").
Proof.
  apply (base64_utf8_lossless (str "hi!") (str "hi!"));
    solve [repeat constructor | reflexivity].
Defined.

(** A lone surrogate is encoded as U+FFFD, so a text that is not well
    formed shares its Base64 text with another. *)
Example base64_utf8_lone_surrogate :
  base64_utf8 [55296%N] = base64_utf8 [65533%N].
Proof. reflexivity. Qed.

(** ** The handlers with every stage off *)

Lemma allStagesOff_inv : forall o : ObfuscationOptions, allStagesOff o = true ->
  renameVariables o = false /\ encodeStrings o = false /\ removeComments o = false
  /\ deadCodeInjection o = false /\ base64Strings o = false /\ minify o = false
  /\ is_high_or_extreme (intensity o) = false.
Proof.
  intros o H. unfold allStagesOff in H.
  repeat (apply andb_true_iff in H; destruct H as [H ?]).
  repeat match goal with
  | H : negb _ = true |- _ => apply negb_true_iff in H
  end.
  tauto.
Qed.

Lemma splitShebang_lossless : forall code : jsstring,
  fst (Bash.splitShebang code) ++ snd (Bash.splitShebang code) = code.
Proof.
  intros code. unfold Bash.splitShebang.
  destruct (startsWith (str "#!") code); [|reflexivity].
  destruct (indexOf [nl] code) as [idx|]; [|reflexivity].
  cbn [fst snd]. apply firstn_skipn.
Qed.

(** X16.  With every stage off, the Lua, Bash, Perl and Rust handlers give the
    code back as it is, with the private map cleared and the random source
    untouched, on a text that passes two tests (for the Bash handler, the
    text after the shebang line): the word of the handler's placeholders
    does not occur in the text, and it occurs in no literal the extraction
    of that text puts in its table.  The second test is on what the
    handler's own first step does with the text: it fails when the
    extraction takes a literal form inside another, as in [bash_nested],
    where the handlers do not give the code back.  The two tests are
    sufficient, not necessary. *)
Theorem stages_off_lua_bash_perl_rust_return_the_code :
  forall (o : ObfuscationOptions) (code : jsstring) (self : Instance) (r : Random),
    allStagesOff o = true ->
    (markerFree (str "LUASTR") Lua.extract code = true ->
       Lua.obfuscate o code self r = (code, clearVarMap self, r))
    /\ (markerFree (str "BASHSTR") Bash.extract (snd (Bash.splitShebang code)) = true ->
          Bash.obfuscate o code self r = (code, clearVarMap self, r))
    /\ (markerFree (str "PLSTR") Perl.extract code = true ->
          Perl.obfuscate o code self r = (code, clearVarMap self, r))
    /\ (markerFree (str "RUSTSTR") Rust.extract code = true ->
          Rust.obfuscate o code self r = (code, clearVarMap self, r)).
Proof.
  intros o code self r Hoff.
  destruct (allStagesOff_inv o Hoff) as (Hren & Henc & Hcom & Hdead & Hb64 & Hmin & Hint).
  assert (Hwm : wants_minify o = false) by (unfold wants_minify; rewrite Hmin, Hint; reflexivity).
  refine (conj _ (conj _ (conj _ _))).
  - intros Hfree. pose proof (lua_round_trip o code Henc Hfree) as Hrt.
    unfold roundTrip in Hrt. unfold Lua.obfuscate.
    rewrite Hren, Hcom, Hdead, Hwm.
    destruct (Lua.extract code) as [res tbl]. rewrite Hrt. reflexivity.
  - intros Hfree.
    pose proof (bash_round_trip o (varMap (clearVarMap self)) _ Henc Hb64 Hren Hfree) as Hrt.
    unfold roundTrip in Hrt. unfold Bash.obfuscate.
    rewrite Hren, Hcom, Hdead, Hwm.
    pose proof (splitShebang_lossless code) as Hsplit.
    destruct (Bash.splitShebang code) as [shebang rest]. cbn [fst snd] in *.
    destruct (Bash.extract rest) as [res tbl]. rewrite Hrt, Hsplit. reflexivity.
  - intros Hfree.
    pose proof (perl_round_trip o (varMap (clearVarMap self)) code Henc Hb64 Hren Hfree) as Hrt.
    unfold roundTrip in Hrt. unfold Perl.obfuscate.
    rewrite Hren, Hcom, Hdead, Hwm.
    destruct (Perl.extract code) as [res tbl]. rewrite Hrt. reflexivity.
  - intros Hfree. pose proof (rust_round_trip o code Henc Hfree) as Hrt.
    unfold roundTrip in Hrt. unfold Rust.obfuscate.
    rewrite Hren, Hcom, Hdead, Hwm.
    destruct (Rust.extract code) as [res tbl]. rewrite Hrt. reflexivity.
Qed.

(** At [plain_literals] and the options with everything off, for the Lua
    and the Bash handler. *)
Lemma stages_off_lua_bash_perl_rust_return_the_code_witness :
  Lua.obfuscate noOptions plain_literals newInstance (constant 0)
    = (plain_literals, clearVarMap newInstance, constant 0)
  /\ Bash.obfuscate noOptions plain_literals newInstance (constant 0)
     = (plain_literals, clearVarMap newInstance, constant 0).
Proof.
  destruct (stages_off_lua_bash_perl_rust_return_the_code noOptions plain_literals
              newInstance (constant 0) eq_refl) as (H1 & H2 & _ & _).
  split; [apply H1 | apply H2]; vm_compute; reflexivity.
Defined.

(** X17.  With every stage off, the CSS handler gives the code back as it
    is on every text, and the generic and JavaScript handlers do on a text
    that passes two tests, each time with the state of the instance and the
    random source untouched.  The tests: the word of the handler's
    placeholders does not occur in the text, and it occurs in no literal
    the extraction of that text puts in its table; for the JavaScript
    handler, which restores with [replace], no such literal holds a dollar
    sign either.  The second test is on what the handler's own first step
    does with the text: it fails when the extraction takes a literal form
    inside another, as in [js_backticks], where both handlers leave a
    placeholder in the output.  The tests are sufficient, not necessary. *)
Theorem stages_off_generic_javascript_css_return_the_code :
  forall (o : ObfuscationOptions) (code : jsstring) (st : BaseState) (r : Random)
         (compileRegExp : jsstring -> option re),
    allStagesOff o = true ->
    (markerFree (str "GENSTR") Generic.extract code = true ->
       Generic.obfuscate o code st r = (code, st, r))
    /\ (markerFree (str "JSSTR") JavaScript.extract code = true ->
          dollarFree JavaScript.extract code = true ->
          JavaScript.obfuscate compileRegExp o code r = Some (code, r))
    /\ Css.obfuscate o code st r = (code, st, r).
Proof.
  intros o code st r compileRegExp Hoff.
  destruct (allStagesOff_inv o Hoff) as (Hren & Henc & Hcom & Hdead & Hb64 & Hmin & Hint).
  assert (Hwm : wants_minify o = false) by (unfold wants_minify; rewrite Hmin, Hint; reflexivity).
  refine (conj _ (conj _ _)).
  - intros Hfree. pose proof (generic_round_trip o code Henc Hfree) as Hrt.
    unfold roundTrip in Hrt. unfold Generic.obfuscate.
    rewrite Hren, Hcom, Hwm.
    destruct (Generic.extract code) as [res tbl]. rewrite Hrt. reflexivity.
  - intros Hfree Hdollar.
    pose proof (javascript_round_trip o code Henc Hb64 Hfree Hdollar) as Hrt.
    unfold roundTrip in Hrt. unfold JavaScript.obfuscate.
    rewrite Hren, Hcom, Hdead, Hmin.
    destruct (JavaScript.extract code) as [res tbl]. rewrite Hrt.
    destruct (intensity o); try discriminate; reflexivity.
  - unfold Css.obfuscate. rewrite Hren, Hcom, Henc, Hdead, Hwm. reflexivity.
Qed.

(** At [plain_literals] and the options with everything off, for the
    generic and the JavaScript handler. *)
Lemma stages_off_generic_javascript_css_return_the_code_witness :
  Generic.obfuscate noOptions plain_literals newBaseState (constant 0)
    = (plain_literals, newBaseState, constant 0)
  /\ JavaScript.obfuscate JavaScript.compileWordRegExp noOptions plain_literals (constant 0)
     = Some (plain_literals, constant 0).
Proof.
  destruct (stages_off_generic_javascript_css_return_the_code noOptions plain_literals
              newBaseState (constant 0) JavaScript.compileWordRegExp eq_refl)
    as (H1 & H2 & _).
  split; [apply H1 | apply H2]; vm_compute; reflexivity.
Defined.

(** ** Comment removal only deletes *)

Lemma subseq_refl : forall a : jsstring, subseq a a.
Proof. induction a; constructor; assumption. Qed.

Lemma subseq_nil_l : forall b : jsstring, subseq [] b.
Proof. induction b; constructor; assumption. Qed.

Lemma subseq_trans : forall a b c : jsstring, subseq a b -> subseq b c -> subseq a c.
Proof.
  intros a b c Hab Hbc. revert a Hab.
  induction Hbc as [|x b c Hbc IH|x b c Hbc IH]; intros a Hab.
  - exact Hab.
  - apply subseq_skip. apply IH. exact Hab.
  - inversion Hab as [|y a' b' Hab'|y a' b' Hab']; subst.
    + apply subseq_skip. apply IH. exact Hab'.
    + apply subseq_keep. apply IH. exact Hab'.
Qed.

Lemma subseq_app : forall a b c d : jsstring,
  subseq a b -> subseq c d -> subseq (a ++ c) (b ++ d).
Proof.
  intros a b c d Hab Hcd. induction Hab; cbn [app]; try constructor; assumption.
Qed.

Lemma subseq_app_l : forall a b c : jsstring, subseq a c -> subseq a (b ++ c).
Proof. intros a b c H. apply (subseq_app [] b a c (subseq_nil_l b) H). Qed.

Lemma subseq_app_r : forall a b c : jsstring, subseq a b -> subseq a (b ++ c).
Proof.
  intros a b c H. rewrite <- (app_nil_r a). apply subseq_app; [exact H | apply subseq_nil_l].
Qed.

(** [s.replace(r, '')] only deletes, whatever the pattern. *)
Lemma remove_loop_subseq : forall (r : re) (fuel : nat) (bef aft : jsstring),
  subseq (fst (replace_loop r (fun _ (_ : unit) => ([], tt)) fuel bef aft tt)) aft.
Proof.
  intros r. induction fuel as [|f IH]; intros bef aft; cbn [replace_loop].
  - apply subseq_refl.
  - destruct (match_here r bef aft) as [[h s']|] eqn:Hm.
    + pose proof (match_here_text r bef aft h s' Hm) as Htext.
      destruct (matched h) as [|m ms].
      * destruct aft as [|c t]; [apply subseq_refl|].
        specialize (IH (c :: bef) t).
        destruct (replace_loop r _ f (c :: bef) t tt) as [rest acc2].
        cbn [fst app] in *. apply subseq_keep. exact IH.
      * specialize (IH (before s') (after s')).
        destruct (replace_loop r _ f (before s') (after s') tt) as [rest acc2].
        cbn [fst app] in *. rewrite Htext.
        apply (subseq_app_l rest (m :: ms) (after s')). exact IH.
    + destruct aft as [|c t]; [apply subseq_refl|].
      specialize (IH (c :: bef) t).
      destruct (replace_loop r _ f (c :: bef) t tt) as [rest acc1].
      cbn [fst] in *. apply subseq_keep. exact IH.
Qed.

Lemma removeAll_subseq : forall (r : re) (s : jsstring), subseq (removeAll r s) s.
Proof.
  intros r s. unfold removeAll, replaceAll, replaceAcc. apply remove_loop_subseq.
Qed.

Lemma skipn_subseq : forall (n : nat) (s : jsstring), subseq (skipn n s) s.
Proof.
  induction n as [|n IH]; intros s; [apply subseq_refl|].
  destruct s as [|c s]; [apply subseq_refl|]. cbn [skipn]. apply subseq_skip. apply IH.
Qed.

Lemma removeMultiLine_loop_subseq : forall (start stop : jsstring) (fuel : nat)
  (result : jsstring),
  subseq (removeMultiLine_loop fuel start stop result) result.
Proof.
  intros start stop. induction fuel as [|f IH]; intros result; cbn [removeMultiLine_loop].
  - apply subseq_refl.
  - destruct (indexOf start result) as [startIdx|]; [|apply subseq_refl].
    destruct (indexOfFrom stop result startIdx) as [endIdx|] eqn:He; [|apply subseq_refl].
    eapply subseq_trans; [apply IH|].
    unfold indexOfFrom in He.
    destruct (indexOf stop (skipn startIdx result)) as [j|]; [|discriminate].
    injection He as <-.
    rewrite <- (firstn_skipn startIdx result) at 3.
    apply subseq_app; [apply subseq_refl|].
    rewrite <- Nat.add_assoc, Nat.add_comm, <- skipn_skipn. apply skipn_subseq.
Qed.

Lemma stripLineComment_subseq : forall (c line : jsstring),
  subseq (stripLineComment c line) line.
Proof.
  intros c line. unfold stripLineComment.
  destruct (indexOf c line) as [idx|]; [|apply subseq_refl].
  destruct (Nat.even _ && Nat.even _); [|apply subseq_refl].
  destruct (trimEnd_prefix (firstn idx line)) as [u [Hu _]].
  rewrite <- (firstn_skipn idx line) at 2. apply subseq_app_r.
  rewrite Hu at 2. apply subseq_app_r. apply subseq_refl.
Qed.

Lemma unlines_filter_map_subseq :
  forall (g : jsstring -> jsstring) (f : jsstring -> bool),
    (forall x, subseq (g x) x) ->
    forall l : list jsstring, subseq (unlines (filter f (map g l))) (unlines l).
Proof.
  intros g f Hg. unfold unlines. induction l as [|x l IH]; [apply subseq_nil|].
  cbn [map filter]. destruct (f (g x)).
  - destruct (filter f (map g l)) as [|k ks] eqn:Ek.
    + destruct l as [|y l']; [apply Hg|].
      rewrite (join_cons _ x) by discriminate. apply subseq_app_r. apply Hg.
    + destruct l as [|y l']; [discriminate|].
      rewrite !join_cons by discriminate.
      apply subseq_app; [apply Hg|]. apply subseq_app; [apply subseq_refl | exact IH].
  - destruct l as [|y l']; [apply subseq_nil_l|].
    rewrite (join_cons _ x) by discriminate.
    apply subseq_app_l. apply subseq_app_l. exact IH.
Qed.

Lemma removeSingleLineComments_subseq : forall (c code : jsstring),
  subseq (removeSingleLineComments c code) code.
Proof.
  intros c code. unfold removeSingleLineComments.
  rewrite <- (unlines_lines code) at 2.
  apply unlines_filter_map_subseq. apply stripLineComment_subseq.
Qed.

(** X18.  Comment removal in the JavaScript handler (the two methods of the
    base class) and in the generic handler only deletes: its output is the
    input with characters left out, none added, changed or moved. *)
Theorem comment_removal_only_deletes_javascript_generic : forall code : jsstring,
  subseq (JavaScript.stripComments code) code
  /\ subseq (Generic.stripComments code) code.
Proof.
  intros code. unfold JavaScript.stripComments, Generic.stripComments. cbv zeta. split.
  - eapply subseq_trans; [apply removeSingleLineComments_subseq|].
    apply removeMultiLine_loop_subseq.
  - repeat (eapply subseq_trans; [apply removeAll_subseq|]). apply subseq_refl.
Qed.

(** X19.  Comment removal in the Lua, Bash, Perl and Rust handlers only deletes:
    its output is the input with characters left out, none added, changed
    or moved. *)
Theorem comment_removal_only_deletes : forall code : jsstring,
  subseq (Lua.stripComments code) code
  /\ subseq (Bash.stripComments code) code
  /\ subseq (Perl.stripComments code) code
  /\ subseq (Rust.stripComments code) code.
Proof.
  intros code.
  unfold Lua.stripComments, Bash.stripComments, Perl.stripComments, Rust.stripComments.
  cbv zeta.
  refine (conj _ (conj _ (conj _ _))).
  - eapply subseq_trans; [apply removeAll_subseq|]. apply removeAll_subseq.
  - apply removeAll_subseq.
  - eapply subseq_trans; [apply removeAll_subseq|]. apply removeAll_subseq.
  - eapply subseq_trans; [apply removeAll_subseq|]. apply removeAll_subseq.
Qed.

(** ** The minifier of the JavaScript handler *)

Lemma rmatch_Cls : forall (p : cu -> bool) (s : mstate) (k : mstate -> option mstate),
  rmatch (Cls p) s k
  = match after s with
    | c :: t => if p c then k (MState (c :: before s) t (caps s)) else None
    | [] => None
    end.
Proof. reflexivity. Qed.

(** A greedy star over a character class, with nothing asked of what
    follows, takes every leading character of the class. *)
Lemma greedy_star_Cls : forall (p : cu -> bool) (n : nat) (s : mstate),
  length (after s) <= n ->
  exists s1, star_loop true (rmatch (Cls p)) Some n s = Some s1
             /\ after s1 = dropWhile p (after s).
Proof.
  intros p. induction n as [|n IH]; intros s Hn.
  - destruct (after s) eqn:E; [|cbn [length] in Hn; lia].
    exists s. split; [reflexivity | rewrite E; reflexivity].
  - cbn [star_loop]. rewrite rmatch_Cls. destruct (after s) as [|c t] eqn:E.
    + exists s. split; [reflexivity | rewrite E; reflexivity].
    + cbn [dropWhile]. destruct (p c) eqn:Hc.
      * cbn [after length].
        replace (length t <? S (length t)) with true by (symmetry; apply Nat.ltb_lt; lia).
        destruct (IH (MState (c :: before s) t (caps s))) as [s1 [H1 H2]];
          [cbn [after length] in *; lia|].
        rewrite H1. exists s1. split; [reflexivity | exact H2].
      * exists s. split; [reflexivity | exact E].
Qed.

(** [\s+] at a position: it matches when the next character is white
    space, and then up to the next character that is not. *)
Lemma match_here_spaces : forall (bef aft : jsstring),
  match aft with
  | c :: t =>
    if is_space c
    then exists h s', match_here (Plus Space) bef aft = Some (h, s')
                      /\ matched h <> [] /\ after s' = dropWhile is_space t
    else match_here (Plus Space) bef aft = None
  | [] => match_here (Plus Space) bef aft = None
  end.
Proof.
  intros bef aft. destruct aft as [|c t]; [reflexivity|].
  destruct (is_space c) eqn:Hc.
  - destruct (match_here (Plus Space) bef (c :: t)) as [[h s']|] eqn:Hm.
    + pose proof (match_here_text _ _ _ _ _ Hm) as Htext.
      unfold match_here, Plus, Space in Hm.
      change (rmatch (Seq (Cls is_space) (Star true (Cls is_space)))
                     (MState bef (c :: t) []) Some)
        with (rmatch (Cls is_space) (MState bef (c :: t) [])
                (fun s' => star_loop true (rmatch (Cls is_space)) Some
                             (length (after s')) s')) in Hm.
      rewrite rmatch_Cls in Hm. cbn [after before caps] in Hm. rewrite Hc in Hm.
      destruct (greedy_star_Cls is_space (length t) (MState (c :: bef) t []))
        as [s1 [H1 H2]]; [cbn [after]; lia|].
      cbn [after] in H1, H2. rewrite H1 in Hm. injection Hm as Hh Hs. subst s1.
      exists h, s'. split; [reflexivity|]. split; [|exact H2].
      intros E. rewrite E, H2 in Htext. cbn [app] in Htext.
      apply (f_equal (@length cu)) in Htext. cbn [length] in Htext.
      destruct (dropWhile_suffix is_space t) as [a [Ha _]].
      apply (f_equal (@length cu)) in Ha. rewrite length_app in Ha.
      unfold jsstring, cu in *. lia.
    + exfalso. unfold match_here, Plus, Space in Hm.
      change (rmatch (Seq (Cls is_space) (Star true (Cls is_space)))
                     (MState bef (c :: t) []) Some)
        with (rmatch (Cls is_space) (MState bef (c :: t) [])
                (fun s' => star_loop true (rmatch (Cls is_space)) Some
                             (length (after s')) s')) in Hm.
      rewrite rmatch_Cls in Hm. cbn [after before caps] in Hm. rewrite Hc in Hm.
      destruct (greedy_star_Cls is_space (length t) (MState (c :: bef) t []))
        as [s1 [H1 H2]]; [cbn [after]; lia|].
      cbn [after] in H1. rewrite H1 in Hm. discriminate.
  - unfold match_here, Plus, Space.
    change (rmatch (Seq (Cls is_space) (Star true (Cls is_space)))
                   (MState bef (c :: t) []) Some)
      with (rmatch (Cls is_space) (MState bef (c :: t) [])
              (fun s' => star_loop true (rmatch (Cls is_space)) Some
                           (length (after s')) s')).
    rewrite rmatch_Cls. cbn [after]. rewrite Hc. reflexivity.
Qed.

Lemma dropWhile_head_or_nil : forall (p : cu -> bool) (s : jsstring),
  match dropWhile p s with [] => True | d :: _ => p d = false end.
Proof.
  intros p s. destruct (dropWhile p s) as [|d t] eqn:E; [exact I|].
  apply (dropWhile_head p s d t E).
Qed.

(** [s.replace(/\s+/g, ' ')] leaves single spaces only, and starts as
    the text does when the text starts with no white space. *)
Lemma collapse_loop : forall (fuel : nat) (bef aft : jsstring),
  length aft < fuel ->
  let out := fst (replace_loop (Plus Space) (fun _ (_ : unit) => (str " ", tt))
                               fuel bef aft tt) in
  singleSpaced out = true
  /\ match aft with
     | [] => out = []
     | c :: _ => is_space c = false -> exists t', out = c :: t'
     end.
Proof.
  induction fuel as [|f IH]; intros bef aft Hf out; [lia|]. unfold out. clear out.
  pose proof (match_here_spaces bef aft) as Hm.
  destruct aft as [|c t].
  - rewrite replace_loop_end by exact Hm. split; reflexivity.
  - destruct (is_space c) eqn:Hc.
    + destruct Hm as (h & s' & Hm & Hne & Hafter).
      rewrite (replace_loop_hit _ _ _ f bef (c :: t) tt h s' Hm Hne).
      assert (Hlen : length (after s') < f).
      { rewrite Hafter. destruct (dropWhile_suffix is_space t) as [a [Ha _]].
        apply (f_equal (@length cu)) in Ha. rewrite length_app in Ha.
        cbn [length] in Hf. unfold jsstring, cu in *. lia. }
      destruct (IH (before s') (after s') Hlen) as [Hs Hstart].
      destruct (replace_loop (Plus Space) _ f (before s') (after s') tt) as [rest acc2].
      cbn [fst] in *. split; [|discriminate].
      change (str " " ++ rest) with (32%N :: rest). cbn [singleSpaced].
      rewrite Hs, andb_true_r.
      change (is_space 32) with true. change (cu_eqb 32 32) with true. cbn [negb orb andb].
      pose proof (dropWhile_head_or_nil is_space t) as Hd. rewrite <- Hafter in Hd.
      destruct (after s') as [|d u].
      * rewrite Hstart. reflexivity.
      * destruct (Hstart Hd) as [t' ->]. rewrite Hd. reflexivity.
    + rewrite (replace_loop_miss _ _ _ f bef c t tt Hm).
      destruct (IH (c :: bef) t ltac:(cbn [length] in Hf; lia)) as [Hs _].
      destruct (replace_loop (Plus Space) _ f (c :: bef) t tt) as [rest acc1].
      cbn [fst] in *. split; [|intros _; exists rest; reflexivity].
      cbn [singleSpaced]. rewrite Hc, Hs. reflexivity.
Qed.

Lemma singleSpaced_app_r : forall a b : jsstring,
  singleSpaced (a ++ b) = true -> singleSpaced b = true.
Proof.
  induction a as [|c a IH]; intros b H; [exact H|].
  cbn [app singleSpaced] in H. apply andb_true_iff in H. apply IH, H.
Qed.

Lemma singleSpaced_app_l : forall a b : jsstring,
  singleSpaced (a ++ b) = true -> singleSpaced a = true.
Proof.
  induction a as [|c a IH]; intros b H; [reflexivity|].
  cbn [app singleSpaced] in *. apply andb_true_iff in H. destruct H as [Hc Hrest].
  rewrite (IH b Hrest), andb_true_r.
  destruct (is_space c); [|reflexivity]. cbn [negb orb] in *.
  apply andb_true_iff in Hc. destruct Hc as [Hc Hnext]. rewrite Hc.
  destruct a; [reflexivity | exact Hnext].
Qed.

Lemma singleSpaced_one_line : forall s : jsstring,
  singleSpaced s = true -> mem nl s = false.
Proof.
  induction s as [|c s IH]; intros H; [reflexivity|].
  cbn [singleSpaced] in H. apply andb_true_iff in H. destruct H as [Hc Hs].
  unfold mem in *. cbn [existsb]. rewrite (IH Hs), orb_false_r.
  destruct (cu_eqb nl c) eqn:E; [|reflexivity].
  apply N.eqb_eq in E. subst c. discriminate.
Qed.

(** X20.  What [minifyCode] of the JavaScript handler returns, whatever the
    code: one line, in which white space is single spaces only, with none
    at either end. *)
Theorem javascript_minify_single_spaced : forall code : jsstring,
  let out := JavaScript.minifyCode code in
  singleSpaced out = true /\ mem nl out = false /\ trim out = out.
Proof.
  intros code out. unfold out, JavaScript.minifyCode. clear out. cbv zeta.
  match goal with
  | |- context [trim (replaceAll (Plus Space) ?f ?x)] => generalize x
  end.
  intros s.
  assert (Hs : singleSpaced (trim (replaceAll (Plus Space) (fun _ => str " ") s)) = true).
  { destruct (trim_segment (replaceAll (Plus Space) (fun _ => str " ") s)) as [a [b Hab]].
    pose proof (collapse_loop (S (length s)) [] s ltac:(lia)) as [Hc _].
    unfold replaceAll, replaceAcc in Hab |- *.
    rewrite Hab in Hc. apply singleSpaced_app_r, singleSpaced_app_l in Hc. exact Hc. }
  refine (conj Hs (conj (singleSpaced_one_line _ Hs) (trim_idem _))).
Qed.

(** ** The minifier of the CSS handler *)

(** [s.replace(r, f)] writes characters of the text and of what the
    callback returns, no others. *)
Lemma replace_loop_Forall : forall (P : cu -> Prop) (r : re) (f : hit -> jsstring),
  (forall h, Forall P (f h)) ->
  forall (fuel : nat) (bef aft : jsstring),
    Forall P aft ->
    Forall P (fst (replace_loop r (fun h (_ : unit) => (f h, tt)) fuel bef aft tt)).
Proof.
  intros P r f Hf. induction fuel as [|n IH]; intros bef aft Haft; cbn [replace_loop].
  - exact Haft.
  - destruct (match_here r bef aft) as [[h s']|] eqn:Hm.
    + pose proof (match_here_text r bef aft h s' Hm) as Htext.
      destruct (matched h) as [|m ms].
      * destruct aft as [|c t]; [apply Hf|].
        inversion Haft as [|c0 t0 Hc Ht]. subst c0 t0.
        specialize (IH (c :: bef) t Ht).
        destruct (replace_loop r _ n (c :: bef) t tt) as [rest acc2].
        cbn [fst] in *. apply Forall_app. split; [apply Hf|].
        constructor; assumption.
      * assert (Hafter : Forall P (after s')).
        { rewrite Htext in Haft. apply (Forall_app P (m :: ms) (after s')) in Haft. tauto. }
        specialize (IH (before s') (after s') Hafter).
        destruct (replace_loop r _ n (before s') (after s') tt) as [rest acc2].
        cbn [fst] in *. apply Forall_app. split; [apply Hf | exact IH].
    + destruct aft as [|c t]; [constructor|].
      inversion Haft as [|c0 t0 Hc Ht]. subst c0 t0.
      specialize (IH (c :: bef) t Ht).
      destruct (replace_loop r _ n (c :: bef) t tt) as [rest acc1].
      cbn [fst] in *. constructor; assumption.
Qed.

Lemma replaceAll_Forall : forall (P : cu -> Prop) (r : re) (f : hit -> jsstring) (s : jsstring),
  (forall h, Forall P (f h)) -> Forall P s -> Forall P (replaceAll r f s).
Proof.
  intros P r f s Hf Hs. unfold replaceAll, replaceAcc.
  apply replace_loop_Forall; assumption.
Qed.

Lemma singleSpaced_plain : forall s : jsstring,
  singleSpaced s = true -> Forall (fun c => negb (is_space c) || cu_eqb c 32 = true) s.
Proof.
  induction s as [|c s IH]; intros H; [constructor|].
  cbn [singleSpaced] in H. apply andb_true_iff in H. destruct H as [Hc Hs].
  constructor; [|apply IH; exact Hs].
  destruct (is_space c); [|reflexivity]. cbn [negb orb] in *.
  apply andb_true_iff in Hc. tauto.
Qed.

Lemma plain_one_line : forall s : jsstring,
  Forall (fun c => negb (is_space c) || cu_eqb c 32 = true) s -> mem nl s = false.
Proof.
  intros s H. induction H as [|c s Hc Hs IH]; [reflexivity|].
  unfold mem in *. cbn [existsb]. rewrite IH, orb_false_r.
  destruct (cu_eqb nl c) eqn:E; [|reflexivity].
  apply N.eqb_eq in E. subst c. discriminate.
Qed.

(** X21.  What [minifyCss] returns, whatever the code: one line, in which
    every white-space character is a space, with no white space at either
    end. *)
Theorem css_minify_one_line : forall code : jsstring,
  let out := Css.minifyCss code in
  forallb (fun c => negb (is_space c) || cu_eqb c 32) out = true
  /\ mem nl out = false /\ trim out = out.
Proof.
  intros code out. unfold out, Css.minifyCss. clear out. cbv zeta.
  set (P := fun c => negb (is_space c) || cu_eqb c 32 = true).
  assert (H1 : Forall P (replaceAll (Plus Space) (fun _ => str " ") code)).
  { apply singleSpaced_plain.
    pose proof (collapse_loop (S (length code)) [] code ltac:(lia)) as [Hc _]. exact Hc. }
  assert (Htight : forall c s, P c -> Forall P s -> Forall P (Css.tighten c s)).
  { intros c s Hc Hs. unfold Css.tighten. apply replaceAll_Forall; [|exact Hs].
    intros _. constructor; [exact Hc | constructor]. }
  match goal with
  | |- context [trim ?x] => assert (H2 : Forall P x)
  end.
  { apply replaceAll_Forall; [intros _; repeat constructor|].
    repeat (apply Htight; [reflexivity|]). exact H1. }
  match goal with
  | |- context [trim ?x] => generalize dependent x
  end.
  intros x Hx.
  assert (H3 : Forall P (trim x)).
  { destruct (trim_segment x) as [a [b Hab]]. rewrite Hab in Hx.
    apply Forall_app in Hx. destruct Hx as [_ Hx].
    apply Forall_app in Hx. tauto. }
  refine (conj _ (conj (plain_one_line _ H3) (trim_idem _))).
  apply forallb_forall. rewrite Forall_forall in H3. exact H3.
Qed.

(** ** Interpolated variables that were not declared *)

(** The matches collected by [matchAll] are put in front of those
    collected before. *)
Lemma collect_loop_acc : forall (r : re) (fuel : nat) (bef aft : jsstring) (acc : list hit),
  snd (replace_loop r (fun h (a : list hit) => ([], h :: a)) fuel bef aft acc)
  = snd (replace_loop r (fun h (a : list hit) => ([], h :: a)) fuel bef aft []) ++ acc.
Proof.
  intros r. induction fuel as [|n IH]; intros bef aft acc; [reflexivity|].
  cbn [replace_loop]. destruct (match_here r bef aft) as [[h s']|].
  - destruct (matched h).
    + destruct aft as [|c t]; [reflexivity|].
      pose proof (IH (c :: bef) t (h :: acc)) as H1.
      pose proof (IH (c :: bef) t [h]) as H2.
      destruct (replace_loop r _ n (c :: bef) t (h :: acc)) as [x1 a1].
      destruct (replace_loop r _ n (c :: bef) t [h]) as [x2 a2].
      cbn [snd] in *. rewrite H1, H2, <- app_assoc. reflexivity.
    + pose proof (IH (before s') (after s') (h :: acc)) as H1.
      pose proof (IH (before s') (after s') [h]) as H2.
      destruct (replace_loop r _ n (before s') (after s') (h :: acc)) as [x1 a1].
      destruct (replace_loop r _ n (before s') (after s') [h]) as [x2 a2].
      cbn [snd] in *. rewrite H1, H2, <- app_assoc. reflexivity.
  - destruct aft as [|c t]; [reflexivity|].
    pose proof (IH (c :: bef) t acc) as H1.
    destruct (replace_loop r _ n (c :: bef) t acc) as [x1 a1].
    destruct (replace_loop r _ n (c :: bef) t []) as [x2 a2].
    cbn [snd] in *. exact H1.
Qed.

(** The matches [matchAll] lists are those the callback of [replace]
    sees: when the callback returns every one of them as it is, the text
    is unchanged. *)
Lemma replace_loop_unchanged : forall (r : re) (f : hit -> jsstring) (fuel : nat)
  (bef aft : jsstring),
  Forall (fun h => f h = matched h)
         (snd (replace_loop r (fun h (a : list hit) => ([], h :: a)) fuel bef aft [])) ->
  fst (replace_loop r (fun h (_ : unit) => (f h, tt)) fuel bef aft tt) = aft.
Proof.
  intros r f. induction fuel as [|n IH]; intros bef aft Hall; [reflexivity|].
  cbn [replace_loop] in *.
  destruct (match_here r bef aft) as [[h s']|] eqn:Hm.
  - pose proof (match_here_text r bef aft h s' Hm) as Htext.
    destruct (matched h) as [|m ms] eqn:Ematched.
    + destruct aft as [|c t].
      * cbn [snd fst] in *. pose proof (Forall_inv Hall) as Hh. cbv beta in Hh.
        rewrite Hh. exact Ematched.
      * pose proof (collect_loop_acc r n (c :: bef) t [h]) as Hacc.
        specialize (IH (c :: bef) t).
        destruct (replace_loop r (fun h a => ([], h :: a)) n (c :: bef) t [h]) as [x1 a1].
        destruct (replace_loop r (fun h a => ([], h :: a)) n (c :: bef) t []) as [x2 a2].
        cbn [snd fst] in *. subst a1.
        apply Forall_app in Hall. destruct Hall as [Hrest Hh].
        pose proof (Forall_inv Hh) as Hfh. cbv beta in Hfh.
        specialize (IH Hrest).
        destruct (replace_loop r _ n (c :: bef) t tt) as [rest acc2].
        cbn [fst] in *. rewrite Hfh, Ematched, IH. reflexivity.
    + pose proof (collect_loop_acc r n (before s') (after s') [h]) as Hacc.
      specialize (IH (before s') (after s')).
      destruct (replace_loop r (fun h a => ([], h :: a)) n (before s') (after s') [h])
        as [x1 a1].
      destruct (replace_loop r (fun h a => ([], h :: a)) n (before s') (after s') [])
        as [x2 a2].
      cbn [snd fst] in *. subst a1.
      apply Forall_app in Hall. destruct Hall as [Hrest Hh].
      pose proof (Forall_inv Hh) as Hfh. cbv beta in Hfh.
      specialize (IH Hrest).
      destruct (replace_loop r _ n (before s') (after s') tt) as [rest acc2].
      cbn [fst] in *. rewrite Hfh, Ematched, IH. symmetry. exact Htext.
  - destruct aft as [|c t]; [reflexivity|].
    specialize (IH (c :: bef) t).
    destruct (replace_loop r (fun h a => ([], h :: a)) n (c :: bef) t []) as [x2 a2].
    cbn [snd] in *. specialize (IH Hall).
    destruct (replace_loop r _ n (c :: bef) t tt) as [rest acc1].
    cbn [fst] in *. rewrite IH. reflexivity.
Qed.

Lemma replaceAll_unchanged : forall (r : re) (f : hit -> jsstring) (s : jsstring),
  Forall (fun h => f h = matched h) (matchAll r s) -> replaceAll r f s = s.
Proof.
  intros r f s H. unfold replaceAll, replaceAcc. apply replace_loop_unchanged.
  unfold matchAll, replaceAcc in H. apply Forall_rev in H.
  rewrite rev_involutive in H. exact H.
Qed.

(** X22.  A literal in which no interpolated variable, as the Bash and the Perl
    handler find them, has an entry in the rename map is put back as it is
    by the renaming of interpolations of both handlers. *)
Theorem interpolation_without_entry_is_kept : forall (m : VarMap.t) (original : jsstring),
  Forall (fun h => VarMap.get (group 1 h) m = None)
         (matchAll Bash.interpolatedVar original) ->
  Forall (fun h => VarMap.get (group 1 h) m = None)
         (matchAll (Seq (Chr dollar) (Grp 1 identifier)) original) ->
  Bash.renameInterpolation m original = original
  /\ Perl.renameInterpolation m original = original.
Proof.
  intros m original Hbash Hperl. split.
  - unfold Bash.renameInterpolation. apply replaceAll_unchanged.
    eapply Forall_impl; [|exact Hbash]. intros h Hh. cbv beta in Hh. rewrite Hh. reflexivity.
  - unfold Perl.renameInterpolation. apply replaceAll_unchanged.
    eapply Forall_impl; [|exact Hperl]. intros h Hh. cbv beta in Hh. rewrite Hh. reflexivity.
Qed.

(** At the greeting of the shell script and a map that has another
    variable only. *)
Lemma interpolation_without_entry_is_kept_witness :
  Bash.renameInterpolation [(str "user", str "_O0Il1")] bash_greeting = bash_greeting
  /\ Perl.renameInterpolation [(str "user", str "_O0Il1")] bash_greeting = bash_greeting.
Proof.
  apply (interpolation_without_entry_is_kept [(str "user", str "_O0Il1")] bash_greeting);
    vm_compute; repeat constructor.
Defined.

(** ** The numbering of placeholders *)

Lemma placeholdersFrom_seq : forall (pre W post B : jsstring) (M : Type)
  (new : list (entry M)) (n : nat),
  Holes.placeholdersFrom pre W post B n new ->
  map placeholder new = map (Holes.ph pre W post B) (seq n (length new)).
Proof.
  intros pre W post B M. induction new as [|e new IH]; intros n H; [reflexivity|].
  cbn [Holes.placeholdersFrom] in H. destruct H as [He Hrest].
  cbn [map length seq]. rewrite He, (IH (S n) Hrest). reflexivity.
Qed.

Lemma ph_seq_NoDup : forall (pre W post B : jsstring),
  Holes.schemeOk pre W post B = true ->
  forall (k n : nat), NoDup (map (Holes.ph pre W post B) (seq n k)).
Proof.
  intros pre W post B Hok. induction k as [|k IH]; intros n; [constructor|].
  cbn [seq map]. constructor; [|apply IH].
  intros Hin. apply in_map_iff in Hin. destruct Hin as [j [Hj Hin]].
  apply in_seq in Hin.
  assert (Hjn : Holes.ph pre W post B j ++ [] = Holes.ph pre W post B n ++ [])
    by (rewrite !app_nil_r; exact Hj).
  apply (ph_prefix_inj pre W post B Hok) in Hjn. lia.
Qed.

Lemma extractPasses_numbered : forall (pre W post B : jsstring),
  Holes.schemeOk pre W post B = true ->
  forall (M : Type) (passes : list (re * (jsstring -> M))) (s : jsstring),
    numbered (Holes.ph pre W post B)
             (snd (Holes.extractPasses pre W post B passes (s, empty))).
Proof.
  intros pre W post B Hok M passes s.
  destruct (Holes.extractPasses pre W post B passes (s, empty)) as [out [es n]] eqn:E.
  unfold empty in E.
  apply extractPasses_appends in E. destruct E as (new & He & Hn & Hp).
  cbn [app] in He. subst es. cbn [snd fst]. unfold numbered. cbn [fst snd].
  apply placeholdersFrom_seq in Hp.
  refine (conj Hn (conj Hp _)). rewrite Hp. apply ph_seq_NoDup. exact Hok.
Qed.

(** X23.  The table an extraction leaves, in the JavaScript and the generic
    handler, whatever the text: its counter is the number of literals
    taken, the literal taken as number [i] has the placeholder of [i], and
    no two literals share a placeholder. *)
Theorem placeholders_numbered_javascript_generic : forall code : jsstring,
  numbered JavaScript.mkPlaceholder (snd (JavaScript.extract code))
  /\ numbered Generic.mkPlaceholder (snd (Generic.extract code)).
Proof.
  intros code. split.
  - replace (JavaScript.extract code)
      with (Holes.extractPasses (str "__") (str "JSSTR") [] (str "__")
              [(quoted bq, fun _ => tt); (doubleOrSingleQuoted, fun _ => tt)] (code, empty)).
    + apply (extractPasses_numbered (str "__") (str "JSSTR") [] (str "__") eq_refl).
    + unfold JavaScript.extract, Holes.extractPasses. cbn [fold_left fst snd].
      change JavaScript.mkPlaceholder with (Holes.ph (str "__") (str "JSSTR") [] (str "__")).
      destruct (protect _ _ (quoted bq) code empty) as [r1 t1]. reflexivity.
  - replace (Generic.extract code)
      with (Holes.extractPasses (str "___") (str "GENSTR") (str "_") (str "___")
              [(Generic.tripleQuoted, fun m => firstn 3 m); (quoted bq, fun _ => [bq]);
               (quoted dq, fun _ => [dq]); (quoted sq, fun _ => [sq])] (code, empty)).
    + apply (extractPasses_numbered (str "___") (str "GENSTR") (str "_") (str "___") eq_refl).
    + unfold Generic.extract, Holes.extractPasses. cbn [fold_left fst snd].
      change Generic.mkPlaceholder
        with (Holes.ph (str "___") (str "GENSTR") (str "_") (str "___")).
      unfold jsstring.
      destruct (protect _ _ Generic.tripleQuoted code empty) as [r1 t1]. cbn [fst snd].
      destruct (protect _ _ (quoted bq) r1 t1) as [r2 t2]. cbn [fst snd].
      destruct (protect _ _ (quoted dq) r2 t2) as [r3 t3]. reflexivity.
Qed.

(** X24.  The table an extraction leaves, in the Lua, Bash, Perl and Rust
    handlers, whatever the text: its counter is the number of literals
    taken, the literal taken as number [i] has the placeholder of [i], and
    no two literals share a placeholder. *)
Theorem placeholders_numbered_in_order : forall code : jsstring,
  numbered Lua.mkPlaceholder (snd (Lua.extract code))
  /\ numbered Bash.mkPlaceholder (snd (Bash.extract code))
  /\ numbered Perl.mkPlaceholder (snd (Perl.extract code))
  /\ numbered Rust.mkPlaceholder (snd (Rust.extract code)).
Proof.
  intros code. refine (conj _ (conj _ (conj _ _))).
  - replace (Lua.extract code)
      with (Holes.extractPasses (str "___") (str "LUASTR") (str "_") (str "_PLACEHOLDER___")
              [(Lua.longBracket, fun _ => tt); (doubleOrSingleQuoted, fun _ => tt)]
              (code, empty)).
    + apply (extractPasses_numbered (str "___") (str "LUASTR") (str "_")
               (str "_PLACEHOLDER___") eq_refl).
    + unfold Lua.extract, Holes.extractPasses. cbn [fold_left fst snd].
      change Lua.mkPlaceholder
        with (Holes.ph (str "___") (str "LUASTR") (str "_") (str "_PLACEHOLDER___")).
      destruct (protect _ _ Lua.longBracket code empty) as [r1 t1]. reflexivity.
  - replace (Bash.extract code)
      with (Holes.extractPasses (str "___") (str "BASHSTR") (str "_") (str "_PLACEHOLDER___")
              [(Bash.singleQuoted, fun _ => tt); (quoted dq, fun _ => tt)] (code, empty)).
    + apply (extractPasses_numbered (str "___") (str "BASHSTR") (str "_")
               (str "_PLACEHOLDER___") eq_refl).
    + unfold Bash.extract, Holes.extractPasses. cbn [fold_left fst snd].
      change Bash.mkPlaceholder
        with (Holes.ph (str "___") (str "BASHSTR") (str "_") (str "_PLACEHOLDER___")).
      destruct (protect _ _ Bash.singleQuoted code empty) as [r1 t1]. reflexivity.
  - replace (Perl.extract code)
      with (Holes.extractPasses (str "___") (str "PLSTR") (str "_") (str "_PLACEHOLDER___")
              [(quoted sq, fun _ => tt); (quoted dq, fun _ => tt)] (code, empty)).
    + apply (extractPasses_numbered (str "___") (str "PLSTR") (str "_")
               (str "_PLACEHOLDER___") eq_refl).
    + unfold Perl.extract, Holes.extractPasses. cbn [fold_left fst snd].
      change Perl.mkPlaceholder
        with (Holes.ph (str "___") (str "PLSTR") (str "_") (str "_PLACEHOLDER___")).
      destruct (protect _ _ (quoted sq) code empty) as [r1 t1]. reflexivity.
  - replace (Rust.extract code)
      with (Holes.extractPasses (str "___") (str "RUSTSTR") (str "_") (str "_PLACEHOLDER___")
              [(Rust.rawString, fun _ => tt); (quoted dq, fun _ => tt)] (code, empty)).
    + apply (extractPasses_numbered (str "___") (str "RUSTSTR") (str "_")
               (str "_PLACEHOLDER___") eq_refl).
    + unfold Rust.extract, Holes.extractPasses. cbn [fold_left fst snd].
      change Rust.mkPlaceholder
        with (Holes.ph (str "___") (str "RUSTSTR") (str "_") (str "_PLACEHOLDER___")).
      destruct (protect _ _ Rust.rawString code empty) as [r1 t1]. reflexivity.
Qed.

(** ** The name generators of the base class *)

Lemma toStringRadix_aux_word : forall (radix : N), (0 < radix)%N -> (radix <= 36)%N ->
  forall (f : nat) (n : N) (acc : jsstring),
    forallb (fun c => is_digit c || is_lower c) acc = true ->
    forallb (fun c => is_digit c || is_lower c) (toStringRadix_aux f radix n acc) = true.
Proof.
  intros radix Hpos Hmax. induction f as [|f IH]; intros n acc Hacc; [exact Hacc|].
  cbn [toStringRadix_aux].
  assert (Hd : forallb (fun c => is_digit c || is_lower c)
                       (digit_char (n mod radix) :: acc) = true).
  { cbn [forallb]. rewrite Hacc, andb_true_r.
    apply digit_char_word. pose proof (N.mod_lt n radix ltac:(lia)). lia. }
  destruct (N.ltb n radix); [exact Hd | apply IH; exact Hd].
Qed.

Lemma toStringRadix_aux_grows : forall (radix : N) (f : nat) (n : N) (acc : jsstring),
  length acc <= length (toStringRadix_aux f radix n acc).
Proof.
  intros radix. induction f as [|f IH]; intros n acc; [cbn; lia|].
  cbn [toStringRadix_aux]. destruct (N.ltb n radix); [cbn [length]; lia|].
  specialize (IH (n / radix)%N (digit_char (n mod radix) :: acc)). cbn [length] in IH. lia.
Qed.

Lemma toStringRadix_not_nil : forall (radix n : N), 1 <= length (toStringRadix radix n).
Proof.
  intros radix n. unfold toStringRadix. cbn [toStringRadix_aux].
  destruct (N.ltb n radix); [cbn [length]; lia|].
  pose proof (toStringRadix_aux_grows radix (N.to_nat (N.log2 n)) (n / radix)%N
                [digit_char (n mod radix)]) as H.
  cbn [length] in H. lia.
Qed.

(** X25.  Whatever the options, the counter and the draws, a name made by
    [generateVarName] is a JavaScript identifier of six characters or more:
    it starts with an underscore or a dollar sign, and all its characters
    are letters, digits, underscores or dollar signs. *)
Theorem generateVarName_is_identifier :
  forall (o : ObfuscationOptions) (st : BaseState) (r : Random),
    let name := fst (fst (BaseNames.generateVarName o st r)) in
    (startsWith [95%N] name || startsWith [dollar] name = true)
    /\ forallb JavaScript.identChar name = true
    /\ 6 <= length name.
Proof.
  intros o st r name. unfold name, BaseNames.generateVarName. clear name. cbv zeta.
  pose proof (randomIndex_lt 2 r ltac:(lia)) as Hi.
  destruct (randomIndex 2 r) as [i r1]. cbn [fst] in Hi.
  destruct (randomIndex (getIntensityMultiplier o * 4) r1) as [k r2].
  destruct (randomChars_in (4 + k) BaseNames.varChars r2) as [Hlen Hall]; [discriminate|].
  destruct (randomChars (4 + k) BaseNames.varChars r2) as [body r3]. cbn [fst] in *.
  assert (Hbody : forallb JavaScript.identChar body = true).
  { apply forallb_forall. intros c Hc. rewrite Forall_forall in Hall.
    specialize (Hall c Hc). revert Hall. generalize c.
    apply forallb_forall. vm_compute. reflexivity. }
  assert (Hdigits : forallb JavaScript.identChar
                      (toStringRadix 36 (N.of_nat (S (counter st)))) = true).
  { eapply forallb_impl;
      [|apply (toStringRadix_aux_word 36 ltac:(lia) ltac:(lia)); reflexivity].
    intros c Hc. cbv beta in Hc. unfold JavaScript.identChar, is_word, is_alpha.
    destruct (is_digit c); [rewrite !orb_true_r; reflexivity|].
    cbn [orb] in Hc. rewrite Hc. reflexivity. }
  pose proof (toStringRadix_not_nil 36 (N.of_nat (S (counter st)))) as Hne.
  assert (Hfirst : i = 0 \/ i = 1) by lia.
  destruct Hfirst as [-> | ->]; cbn [nth_error BaseNames.varChars str
    list_ascii_of_string map app];
    (split; [reflexivity|]); (split;
      [cbn [forallb]; rewrite forallb_app, Hbody, Hdigits; reflexivity
      |cbn [length]; rewrite length_app; unfold jsstring, cu in *; lia]).
Qed.

Lemma forallb_rev : forall (P : cu -> bool) (s : jsstring),
  forallb P s = true -> forallb P (rev s) = true.
Proof.
  intros P s H. apply forallb_forall. intros c Hc. apply in_rev in Hc.
  rewrite forallb_forall in H. apply H, Hc.
Qed.

(** X26.  Two names made by [generateUnicodeVarName] at different values of
    the counter are different names, whatever the draws: the letters drawn
    are no digits, so the counter can be read off the end of a name. *)
Theorem generateUnicodeVarName_fresh :
  forall (st1 st2 : BaseState) (r1 r2 : Random),
    counter st1 <> counter st2 ->
    fst (fst (BaseNames.generateUnicodeVarName st1 r1))
    <> fst (fst (BaseNames.generateUnicodeVarName st2 r2)).
Proof.
  intros st1 st2 r1 r2 Hc. unfold BaseNames.generateUnicodeVarName.
  destruct (randomIndex 5 r1) as [k1 r1'].
  destruct (randomIndex 5 r2) as [k2 r2'].
  destruct (randomChars_in (5 + k1) BaseNames.confusingChars r1') as [_ Hall1];
    [discriminate|].
  destruct (randomChars_in (5 + k2) BaseNames.confusingChars r2') as [_ Hall2];
    [discriminate|].
  destruct (randomChars (5 + k1) BaseNames.confusingChars r1') as [body1 r1''].
  destruct (randomChars (5 + k2) BaseNames.confusingChars r2') as [body2 r2''].
  cbn [fst] in *. intros Heq.
  assert (Hletters : forall body, Forall (fun c => In c BaseNames.confusingChars) body ->
            exists x t, rev body ++ [95%N] = x :: t /\ is_digit x = false).
  { intros body Hall. destruct (rev body) as [|x t] eqn:E.
    - exists 95%N, []. split; reflexivity.
    - exists x, (t ++ [95%N]). split; [reflexivity|].
      assert (Hin : In x body) by (apply in_rev; rewrite E; left; reflexivity).
      rewrite Forall_forall in Hall. specialize (Hall x Hin).
      assert (Hnone : forallb (fun c => negb (is_digit c)) BaseNames.confusingChars = true)
        by (vm_compute; reflexivity).
      rewrite forallb_forall in Hnone. apply negb_true_iff. apply Hnone, Hall. }
  apply (f_equal (@rev cu)) in Heq.
  change (str "_") with [95%N] in Heq. cbn [app] in Heq. cbn [rev] in Heq.
  rewrite !rev_app_distr, <- !app_assoc in Heq.
  destruct (Hletters body1 Hall1) as (x1 & t1 & E1 & Hx1).
  destruct (Hletters body2 Hall2) as (x2 & t2 & E2 & Hx2).
  destruct (toString10_digits (N.of_nat (S (counter st1)))) as [_ Hd1].
  destruct (toString10_digits (N.of_nat (S (counter st2)))) as [_ Hd2].
  destruct (digits_then_other _ _ _ _ x1 x2 t1 t2
              (forallb_rev _ _ Hd1) (forallb_rev _ _ Hd2) E1 E2 Hx1 Hx2 Heq) as [Hd _].
  apply (f_equal (@rev cu)) in Hd. rewrite !rev_involutive in Hd.
  apply toString10_inj in Hd. lia.
Qed.

(** At a new instance and the instance that has made one name. *)
Lemma generateUnicodeVarName_fresh_witness :
  fst (fst (BaseNames.generateUnicodeVarName newBaseState (constant 0)))
  <> fst (fst (BaseNames.generateUnicodeVarName
                 (snd (fst (BaseNames.generateUnicodeVarName newBaseState (constant 0))))
                 (constant 0))).
Proof.
  apply generateUnicodeVarName_fresh. cbn. lia.
Defined.

(** [generateVarName] gives no such guarantee: its letters are digits of
    base 36 too, and the number of letters varies.  The name made at
    counter 1 with the five letters [OOOO1] is the name made at counter 37
    (in base 36, [11]) with the four letters [OOOO]. *)
Example generateVarName_repeats :
  fst (fst (BaseNames.generateVarName noOptions newBaseState
              (replay [0; 3 # 8; 3 # 8; 3 # 8; 3 # 8; 3 # 8; 7 # 8]%Q 0)))
  = fst (fst (BaseNames.generateVarName noOptions {| variableMap := []; counter := 36 |}
                (replay [0; 0; 3 # 8; 3 # 8; 3 # 8; 3 # 8]%Q 0))).
Proof. vm_compute. reflexivity. Qed.

(** ** The shebang line of a shell script *)

Lemma mem_split_first : forall (c : cu) (s : jsstring),
  mem c s = true -> exists a rest, s = a ++ c :: rest /\ mem c a = false.
Proof.
  intros c. induction s as [|x s IH]; intros H; [discriminate|].
  unfold mem in H. cbn [existsb] in H.
  destruct (cu_eqb c x) eqn:E.
  - apply N.eqb_eq in E. subst x. exists [], s. split; reflexivity.
  - cbn [orb] in H. destruct (IH H) as (a & rest & -> & Ha).
    exists (x :: a), rest. split; [reflexivity|].
    unfold mem in *. cbn [existsb]. rewrite E, Ha. reflexivity.
Qed.

(** X27.  A script that starts with [#!] and has a line feed comes out of the
    Bash handler with its first line in front, line feed included,
    whatever the options, the instance and the draws. *)
Theorem bash_first_line_kept :
  forall (o : ObfuscationOptions) (code : jsstring) (self : Instance) (r : Random),
    startsWith (str "#!") code = true -> mem nl code = true ->
    exists line rest result,
      code = line ++ nl :: rest /\ mem nl line = false
      /\ fst (fst (Bash.obfuscate o code self r)) = line ++ nl :: result.
Proof.
  intros o code self r Hstart Hnl.
  destruct (mem_split_first nl code Hnl) as (a & rest & Hcode & Ha).
  apply startsWith_inv in Hstart. destruct Hstart as [t Ht].
  assert (Hshape : exists line, a = str "#!" ++ line).
  { rewrite Hcode in Ht. change (str "#!" ++ t) with (35%N :: 33%N :: t) in Ht.
    destruct a as [|x [|y line]]; cbn [app] in Ht.
    - injection Ht as Hx _. unfold nl in Hx. discriminate Hx.
    - injection Ht as _ Hy _. unfold nl in Hy. discriminate Hy.
    - injection Ht as -> -> _. exists line. reflexivity. }
  destruct Hshape as [line Hline]. subst a.
  assert (Hfree : includes [nl] line = false).
  { apply not_includes. apply mem_false_not_occurs.
    apply (mem_app_false_r nl (str "#!") line). exact Ha. }
  destruct (bash_shebang_kept_when_terminated o line rest self r Hfree) as [result Hres].
  exists (str "#!" ++ line), rest, result.
  split; [exact Hcode|]. split; [exact Ha|].
  rewrite Hcode.
  change (str "#!" ++ line ++ [nl] ++ rest) with ((str "#!" ++ line) ++ nl :: rest) in Hres.
  rewrite Hres. rewrite <- !app_assoc. reflexivity.
Qed.

(** At a script of two lines. *)
Lemma bash_first_line_kept_witness :
  exists line rest result,
    str "#!/bin/sh" ++ nl :: str "x=1" = line ++ nl :: rest /\ mem nl line = false
    /\ fst (fst (Bash.obfuscate defaultOptions (str "#!/bin/sh" ++ nl :: str "x=1")
                   newInstance (constant 0)))
       = line ++ nl :: result.
Proof.
  apply bash_first_line_kept; reflexivity.
Defined.
